(** * Mucklet Sleeper Filter (sleeplist.user.js): a shallow embedding

    The userscript works on the live DOM of the host page.  The DOM is
    modelled as a store of element trees: every element carries a handle
    (the identity of the JS object), so that the references the script
    keeps in local variables ([section], [charElements], [sleepers], ...)
    stay valid while the tree is mutated around them, exactly as JS
    object references do.

    Only element nodes are modelled; text nodes appear as the [text]
    field of the element that owns them.  [classes] is the token set of
    [classList], in order. *)

From Stdlib Require Import List String Ascii Bool Arith Lia PeanoNat DecimalString Permutation.
Import ListNotations.
Open Scope string_scope.
Open Scope list_scope.

(** ** Elements and trees *)

Definition handle := nat.

Record elem := mkElem {
  tag : string;            (* lower-case local name *)
  eid : string;            (* the id attribute, empty when absent *)
  classes : list string;   (* classList *)
  src : string;            (* the resolved src of an img, empty when absent *)
  text : string;           (* own text content *)
  svg : bool               (* an SVG element: its className is an
                              SVGAnimatedString, not a string *)
}.

#[local] Unset Elimination Schemes.
Inductive node := Node (h : handle) (e : elem) (kids : list node).
#[local] Set Elimination Schemes.

Definition handle_of (n : node) : handle := match n with Node h _ _ => h end.
Definition elem_of (n : node) : elem := match n with Node _ e _ => e end.
Definition kids_of (n : node) : list node := match n with Node _ _ ks => ks end.

(** Ancestors of a node, nearest first. *)
Definition ctx := list (handle * elem).

(** Document-order (preorder) listing of a tree, every node with its
    ancestor chain. *)
Fixpoint walk (anc : ctx) (n : node) : list (ctx * node) :=
  match n with
  | Node h e ks => (anc, n) :: flat_map (walk ((h, e) :: anc)) ks
  end.

Definition walkF (anc : ctx) (ns : list node) : list (ctx * node) :=
  flat_map (walk anc) ns.

(** The proper descendants of a node that sits below [anc]. *)
Definition descendants (anc : ctx) (n : node) : list (ctx * node) :=
  walkF ((handle_of n, elem_of n) :: anc) (kids_of n).

(** ** Class lists *)

Definition has_class (c : string) (e : elem) : bool :=
  existsb (String.eqb c) (classes e).

(** [classList.remove(c)] *)
Definition remove_class (c : string) (e : elem) : elem :=
  mkElem (tag e) (eid e)
         (filter (fun x => negb (String.eqb c x)) (classes e))
         (src e) (text e) (svg e).

(** [classList.add(c)] *)
Definition add_class (c : string) (e : elem) : elem :=
  if has_class c e then e
  else mkElem (tag e) (eid e) (classes e ++ [c]) (src e) (text e) (svg e).

(** ** Selectors

    The selectors of the script are lists of compound selectors joined by
    the descendant combinator, and comma lists of those. *)

Inductive simple :=
| SClass (c : string)
| STag (t : string)
| SId (i : string).

Definition compound := list simple.

(** A complex selector, written from the subject outwards:
    [".avatar img"] is [[STag "img"]; [SClass "avatar"]]. *)
Definition complex := list compound.

Definition selector := list complex.

Definition matches_simple (s : simple) (e : elem) : bool :=
  match s with
  | SClass c => has_class c e
  | STag t => String.eqb t (tag e)
  | SId i => String.eqb i (eid e)
  end.

Definition matches_compound (c : compound) (e : elem) : bool :=
  forallb (fun s => matches_simple s e) c.

(** The remaining compounds of a complex selector are looked for among
    the ancestors, wherever these are: a selector given to
    [el.querySelector] is matched against the whole tree, only the
    subject has to lie below [el]. *)
Fixpoint matches_anc (cs : list compound) (anc : list elem) : bool :=
  match cs with
  | [] => true
  | c :: cs' =>
      (fix look (anc : list elem) : bool :=
         match anc with
         | [] => false
         | a :: r => if matches_compound c a then matches_anc cs' r else look r
         end) anc
  end.

Definition matches_complex (cx : complex) (anc : ctx) (e : elem) : bool :=
  match cx with
  | [] => false
  | c :: cs => matches_compound c e && matches_anc cs (map snd anc)
  end.

Definition matches (sel : selector) (p : ctx * node) : bool :=
  existsb (fun cx => matches_complex cx (fst p) (elem_of (snd p))) sel.

Definition cls (c : string) : selector := [[[SClass c]]].

(** ** The store *)

Record dom := mkDom {
  doc : list node;      (* the element children of the document *)
  limbo : list node;    (* trees that were removed but are still referenced *)
  next : handle         (* the next unused handle *)
}.

Definition all_nodes (D : dom) : list (ctx * node) :=
  walkF [] (doc D) ++ walkF [] (limbo D).

(** Dereferencing a handle: the node and its ancestors. *)
Definition locate (D : dom) (h : handle) : option (ctx * node) :=
  find (fun p => Nat.eqb (handle_of (snd p)) h) (all_nodes D).

(** [document.querySelectorAll(sel)] *)
Definition doc_querySelectorAll (D : dom) (sel : selector) : list handle :=
  map (fun p => handle_of (snd p)) (filter (matches sel) (walkF [] (doc D))).

(** [document.querySelector(sel)] *)
Definition doc_querySelector (D : dom) (sel : selector) : option handle :=
  hd_error (doc_querySelectorAll D sel).

(** [el.querySelectorAll(sel)] *)
Definition querySelectorAll (D : dom) (el : handle) (sel : selector)
  : list handle :=
  match locate D el with
  | Some (anc, n) =>
      map (fun p => handle_of (snd p)) (filter (matches sel) (descendants anc n))
  | None => []
  end.

(** [el.querySelector(sel)] *)
Definition querySelector (D : dom) (el : handle) (sel : selector)
  : option handle :=
  hd_error (querySelectorAll D el sel).

(** [el.classList.contains(c)] *)
Definition classList_contains (D : dom) (el : handle) (c : string) : bool :=
  match locate D el with
  | Some (_, n) => has_class c (elem_of n)
  | None => false
  end.

(** ** Character state detection *)

Definition level_asleep := "common--level-asleep".
Definition level_inactive := "common--level-inactive".

Definition sel_levels : selector :=
  [[[SClass level_asleep]]; [[SClass level_inactive]]].

(** [isSleeperChar(charEl)] *)
Definition isSleeperChar (D : dom) (charEl : handle) : bool :=
  if classList_contains D charEl level_asleep
     || classList_contains D charEl level_inactive
  then true
  else match querySelector D charEl sel_levels with
       | Some _ => true
       | None => false
       end.

(** ** Mutating the store *)

Fixpoint upd (h : handle) (f : elem -> elem) (n : node) : node :=
  match n with
  | Node h' e ks =>
      Node h' (if Nat.eqb h' h then f e else e) (map (upd h f) ks)
  end.

Definition updD (h : handle) (f : elem -> elem) (D : dom) : dom :=
  mkDom (map (upd h f) (doc D)) (map (upd h f) (limbo D)) (next D).

(** [el.classList.remove(c)] and [el.classList.add(c)] *)
Definition classList_remove (D : dom) (el : handle) (c : string) : dom :=
  updD el (remove_class c) D.

Definition classList_add (D : dom) (el : handle) (c : string) : dom :=
  updD el (add_class c) D.

Definition is_not (h : handle) (n : node) : bool :=
  negb (Nat.eqb (handle_of n) h).

(** Cutting the subtree with handle [h] out of a tree. *)
Fixpoint prune (h : handle) (n : node) : node :=
  match n with
  | Node h' e ks =>
      Node h' e
        ((fix go (ks : list node) : list node :=
            match ks with
            | [] => []
            | k :: r => if is_not h k then prune h k :: go r else go r
            end) ks)
  end.

Fixpoint pruneF (h : handle) (ns : list node) : list node :=
  match ns with
  | [] => []
  | k :: r => if is_not h k then prune h k :: pruneF h r else pruneF h r
  end.

Definition in_doc (D : dom) (h : handle) : option (ctx * node) :=
  find (fun p => Nat.eqb (handle_of (snd p)) h) (walkF [] (doc D)).

(** [el.remove()]: the subtree leaves its parent but stays alive as long
    as the script holds a reference into it. *)
Definition remove (D : dom) (el : handle) : dom :=
  match in_doc D el with
  | Some (_, n) => mkDom (pruneF el (doc D)) (n :: limbo D) (next D)
  | None =>
      match locate D el with
      | Some (_ :: _, n) => mkDom (doc D) (n :: pruneF el (limbo D)) (next D)
      | _ => D
      end
  end.

(** [el.parentElement] *)
Definition parentElement (D : dom) (el : handle) : option handle :=
  match locate D el with
  | Some ((p, _) :: _, _) => Some p
  | _ => None
  end.

Fixpoint next_after (h : handle) (ks : list node) : option handle :=
  match ks with
  | [] => None
  | k :: r =>
      if Nat.eqb (handle_of k) h then option_map handle_of (hd_error r)
      else next_after h r
  end.

(** [el.nextSibling], for an element that has a parent element *)
Definition nextSibling (D : dom) (el : handle) : option handle :=
  match parentElement D el with
  | Some p =>
      match locate D p with
      | Some (_, n) => next_after el (kids_of n)
      | None => None
      end
  | None => None
  end.

Fixpoint insert_before_in (ref : handle) (new : node) (ks : list node)
  : list node :=
  match ks with
  | [] => []
  | k :: r =>
      if Nat.eqb (handle_of k) ref then new :: k :: r
      else k :: insert_before_in ref new r
  end.

Fixpoint ins_before (p ref : handle) (new : node) (n : node) : node :=
  match n with
  | Node h e ks =>
      let ks' := map (ins_before p ref new) ks in
      Node h e (if Nat.eqb h p then insert_before_in ref new ks' else ks')
  end.

(** [parent.insertBefore(new, ref)] for a freshly created [new]; [None]
    is the NotFoundError the DOM throws when [ref] is not a child of
    [parent]. *)
Definition insertBefore (D : dom) (p : handle) (new : node) (ref : handle)
  : option dom :=
  match parentElement D ref with
  | Some p' =>
      if Nat.eqb p' p
      then Some (mkDom (map (ins_before p ref new) (doc D))
                       (map (ins_before p ref new) (limbo D)) (next D))
      else None
  | None => None
  end.

Fixpoint app_child (p : handle) (new : node) (n : node) : node :=
  match n with
  | Node h e ks =>
      let ks' := map (app_child p new) ks in
      Node h e (if Nat.eqb h p then ks' ++ [new] else ks')
  end.

(** [parent.appendChild(new)] for a freshly created [new] *)
Definition appendChild (D : dom) (p : handle) (new : node) : dom :=
  mkDom (map (app_child p new) (doc D)) (map (app_child p new) (limbo D))
        (next D).

(** [el.cloneNode(true)]: the same tree made of new objects, numbered
    from [nx]; the second component is the next unused handle. *)
Fixpoint clone (nx : handle) (n : node) : node * handle :=
  match n with
  | Node _ e ks =>
      let fix go (nx : handle) (ks : list node) : list node * handle :=
        match ks with
        | [] => ([], nx)
        | k :: r =>
            let (k', nx1) := clone nx k in
            let (r', nx2) := go nx1 r in
            (k' :: r', nx2)
        end in
      let (ks', nx') := go (S nx) ks in
      (Node nx e ks', nx')
  end.

Definition with_next (D : dom) (nx : handle) : dom :=
  mkDom (doc D) (limbo D) nx.

(** ** Strings *)

Fixpoint prefixb (p s : string) : bool :=
  match p, s with
  | EmptyString, _ => true
  | String a p', String b s' => Ascii.eqb a b && prefixb p' s'
  | String _ _, EmptyString => false
  end.

(** [s.includes(p)] *)
Fixpoint includes (s p : string) : bool :=
  prefixb p s ||
  match s with
  | EmptyString => false
  | String _ s' => includes s' p
  end.

(** [s.split('?')[0]] *)
Fixpoint before_question (s : string) : string :=
  match s with
  | EmptyString => EmptyString
  | String a s' =>
      if Ascii.eqb a "?"%char then EmptyString
      else String a (before_question s')
  end.

(** The decimal form of a length, as a template literal prints it. *)
Definition show_nat (n : nat) : string :=
  NilZero.string_of_uint (Nat.to_uint n).

(** [el.className] *)
Definition className (e : elem) : string := String.concat " " (classes e).

(** ** State of the script *)

Record prefs := mkPrefs {
  splitEnabled : bool;
  sleepersOpen : bool
}.

(** What a call leaves behind: the store, and whether the call returned
    or an exception escaped from it. *)
Inductive outcome :=
| Returned (D : dom)
| Thrown (D : dom).

Definition store_of (o : outcome) : dom :=
  match o with Returned D => D | Thrown D => D end.

(** ** Names used by the script *)

Definition hidden := "msf-hidden-char".
Definition sleepers_id := "msf-sleepers-section".
Definition toggle_class := "msf-toggle-container".
Definition no_awake_class := "msf-no-awake-placeholder".
Definition no_sleepers_class := "msf-no-sleepers-placeholder".

Definition sel_inroom : selector :=
  [[[SClass "panelsection"; SClass "pageroom--chars"]]].
Definition sel_char : selector := cls "pageroom-char".
Definition sel_exitchar : selector := cls "pageroom-exitchars--char".
Definition sel_exitchar_hidden : selector :=
  [[[SClass "pageroom-exitchars--char"; SClass hidden]]].
Definition sel_avatar_img : selector := [[[STag "img"]; [SClass "avatar"]]].
Definition sel_img : selector := [[[STag "img"]]].
Definition sel_h3 : selector := [[[STag "h3"]]].

Definition new_elem (t i : string) (cs : list string) (tx : string) : elem :=
  mkElem t i cs "" tx false.

(** ** DOM lookup *)

(** [findInRoomSection()]: the header and the section, or [None] for
    [null]. *)
Definition findInRoomSection (D : dom) : option (option handle * handle) :=
  match doc_querySelector D sel_inroom with
  | None => None
  | Some section => Some (querySelector D section sel_h3, section)
  end.

(** [getCharElements(section)] *)
Definition getCharElements (D : dom) (section : option handle) : list handle :=
  match section with
  | None => []
  | Some s => querySelectorAll D s sel_char
  end.

(** [getExitCharElements()] *)
Definition getExitCharElements (D : dom) : list handle :=
  doc_querySelectorAll D sel_exitchar.

(** [document.getElementById(i)] *)
Definition getElementById (D : dom) (i : string) : option handle :=
  doc_querySelector D [[[SId i]]].

(** ** UI components *)

(** [createToggle()]; the click listener and the title attribute are not
    part of the tree. *)
Definition createToggle (P : prefs) (nx : handle) : node * handle :=
  let container := nx in
  let toggle := S nx in
  let label := S (S nx) in
  (Node container (new_elem "div" "" [toggle_class] "")
     [ Node toggle
         (new_elem "div" ""
            ("msf-toggle-switch" :: if splitEnabled P then ["active"] else [])
            "") [];
       Node label
         (new_elem "span" "" ["msf-toggle-label"] "Hide sleepers (split)") [] ],
   S (S (S nx))).

(** [el.querySelectorAll(sel)] on a tree that is not attached anywhere. *)
Definition node_querySelectorAll (n : node) (sel : selector) : list handle :=
  map (fun p => handle_of (snd p)) (filter (matches sel) (descendants [] n)).

(** The body of the cloning loop of [createSleepersSection]: the clone
    loses the hidden marker, and so does every descendant that has it. *)
Definition strip_clone (c : node) : node :=
  let c1 := upd (handle_of c) (remove_class hidden) c in
  fold_left (fun t child => upd child (remove_class hidden) t)
            (node_querySelectorAll c1 (cls hidden)) c1.

Definition clone_sleeper (D : dom) (acc : list node * handle) (el : handle)
  : list node * handle :=
  match locate D el with
  | Some (_, n) =>
      let (c, nx) := clone (snd acc) n in
      (fst acc ++ [strip_clone c], nx)
  | None => acc
  end.

(** [createSleepersSection(sleeperElements)]: the section and the next
    unused handle.  The max-height set on the next animation frame is a
    style, not a part of the tree. *)
Definition createSleepersSection (P : prefs) (D : dom)
    (sleeperElements : list handle) : node * handle :=
  let nx := next D in
  let section := nx in
  let header := nx + 1 in
  let arrow := nx + 2 in
  let title := nx + 3 in
  let count := nx + 4 in
  let body_list := nx + 5 in
  let headerN :=
    Node header (new_elem "div" "" ["msf-sleepers-header"] "")
      [ Node arrow
          (new_elem "span" ""
             ("msf-sleepers-arrow" :: if sleepersOpen P then ["open"] else [])
             "►") [];
        Node title (new_elem "span" "" [] "Sleepers") [];
        Node count
          (new_elem "span" "" ["msf-sleepers-count"]
             (String.append "(" (String.append (show_nat (List.length sleeperElements)) ")"))) [] ] in
  let listE :=
    new_elem "div" ""
      ("msf-sleepers-list" :: if sleepersOpen P then [] else ["collapsed"]) "" in
  let (body, nx') :=
    if Nat.eqb (List.length sleeperElements) 0
    then ([Node (nx + 6)
             (new_elem "div" "" [no_sleepers_class] "No sleepers in room.") []],
          nx + 7)
    else fold_left (clone_sleeper D) sleeperElements ([], nx + 6) in
  (Node section (new_elem "div" sleepers_id ["msf-sleepers-section"] "")
     [headerN; Node body_list listE body],
   nx').

(** ** Exit thumbnails *)

(** [img.src] *)
Definition img_src (D : dom) (img : handle) : string :=
  match locate D img with
  | Some (_, n) => src (elem_of n)
  | None => ""
  end.

(** A [Set] of strings: [add] and [has]. *)
Definition set_add (x : string) (s : list string) : list string :=
  if existsb (String.eqb x) s then s else s ++ [x].

Definition set_has (x : string) (s : list string) : bool :=
  existsb (String.eqb x) s.

(** The reset at the head of [filterExitChars] (and the whole of the
    unified branch of [applyFilter]). *)
Definition unhideExitChars (D : dom) : dom :=
  fold_left (fun D el => classList_remove D el hidden)
            (doc_querySelectorAll D sel_exitchar_hidden) D.

Definition addAvatarUrl (D : dom) (urls : list string) (el : handle)
  : list string :=
  match querySelector D el sel_avatar_img with
  | Some img =>
      let s := img_src D img in
      if String.eqb s "" then urls else set_add (before_question s) urls
  | None => urls
  end.

Definition sleeperAvatarUrls (D : dom) (sleeperElements : list handle)
  : list string :=
  fold_left (addAvatarUrl D) sleeperElements [].

Definition hideIfMatching (urls : list string) (D : dom) (exitChar : handle)
  : dom :=
  match querySelector D exitChar sel_img with
  | Some img =>
      let s := img_src D img in
      if String.eqb s "" then D
      else if set_has (before_question s) urls
           then classList_add D exitChar hidden
           else D
  | None => D
  end.

(** [filterExitChars(sleeperElements)] *)
Definition filterExitChars (P : prefs) (D : dom)
    (sleeperElements : list handle) : dom :=
  let D1 := unhideExitChars D in
  if negb (splitEnabled P) || Nat.eqb (List.length sleeperElements) 0 then D1
  else
    let urls := sleeperAvatarUrls D1 sleeperElements in
    if Nat.eqb (List.length urls) 0 then D1
    else fold_left (hideIfMatching urls) (getExitCharElements D1) D1.

(** ** The filter *)

Definition removeSleepersSection (D : dom) : dom :=
  match getElementById D sleepers_id with
  | Some x => remove D x
  | None => D
  end.

Definition resetChars (D : dom) (charElements : list handle) : dom :=
  fold_left (fun D el => classList_remove D el hidden) charElements D.

Definition removePlaceholder (D : dom) (section : handle) : dom :=
  match querySelector D section (cls no_awake_class) with
  | Some p => remove D p
  | None => D
  end.

(** The toggle is inserted inside the title, before the header; [None]
    when [insertBefore] throws. *)
Definition ensureToggle (P : prefs) (D : dom) (section : handle)
    (existingToggle : option handle) : option dom :=
  match existingToggle with
  | Some _ => Some D
  | None =>
      match querySelector D section (cls "panelsection--title"),
            querySelector D section (cls "pageroom--inroomheader") with
      | Some titleEl, Some inroomHeader =>
          let (t, nx) := createToggle P (next D) in
          insertBefore (with_next D nx) titleEl t inroomHeader
      | _, _ => Some D
      end
  end.

(** The loop that sorts the characters into [sleepers] and [awake] and
    hides the sleepers. *)
Definition categorize (D : dom) (charElements : list handle)
  : dom * list handle * list handle :=
  fold_left
    (fun acc el =>
       let '(D, sleepers, awake) := acc in
       if isSleeperChar D el
       then (classList_add D el hidden, sleepers ++ [el], awake)
       else (D, sleepers, awake ++ [el]))
    charElements (D, [], []).

Definition addNoAwakePlaceholder (D : dom) (charElements awake : list handle)
  : dom :=
  if Nat.eqb (List.length awake) 0 && Nat.ltb 0 (List.length charElements)
  then
    match hd_error charElements with
    | Some c0 =>
        match parentElement D c0 with
        | Some charContainer =>
            appendChild (with_next D (S (next D))) charContainer
              (Node (next D)
                 (new_elem "div" "" [no_awake_class] "No one awake in room.")
                 [])
        | None => D
        end
    | None => D
    end
  else D.

(** The sleepers section goes right after the "In room" section; [None]
    when the section has no parent element. *)
Definition insertSleepersSection (D : dom) (section : handle) (s : node)
  : option dom :=
  match nextSibling D section, parentElement D section with
  | _, None => None
  | Some r, Some p => insertBefore D p s r
  | None, Some p => Some (appendChild D p s)
  end.

(** [applyFilter()] *)
Definition applyFilter (P : prefs) (D : dom) : outcome :=
  match findInRoomSection D with
  | None => Returned D
  | Some (_, section) =>
      let D1 := removeSleepersSection D in
      let existingToggle := querySelector D1 section (cls toggle_class) in
      let charElements := getCharElements D1 (Some section) in
      let D2 := resetChars D1 charElements in
      let D3 := removePlaceholder D2 section in
      match ensureToggle P D3 section existingToggle with
      | None => Thrown D3
      | Some D4 =>
          if negb (splitEnabled P) then Returned (unhideExitChars D4)
          else
            let '(D5, sleepers, awake) := categorize D4 charElements in
            let D6 := addNoAwakePlaceholder D5 charElements awake in
            let (s, nx) := createSleepersSection P D6 sleepers in
            match insertSleepersSection (with_next D6 nx) section s with
            | None => Thrown D6
            | Some D7 => Returned (filterExitChars P D7 sleepers)
            end
      end
  end.

(** ** The mutation observer *)

(** The target of a mutation record: nothing, a node that is not an
    element (the document, say), or an element of the store. *)
Inductive mtarget :=
| TNull
| TNode
| TElem (h : handle).

Record mutation := mkMutation {
  m_target : mtarget;
  addedNodes : nat;      (* addedNodes.length *)
  removedNodes : nat     (* removedNodes.length *)
}.

(** Whether [el.closest(sel)] finds something: the element itself or the
    nearest ancestor that matches. *)
Fixpoint closest_in (sel : selector) (e : elem) (anc : ctx) : bool :=
  existsb (fun cx => matches_complex cx anc e) sel ||
  match anc with
  | [] => false
  | (_, a) :: r => closest_in sel a r
  end.

Definition closest (D : dom) (el : handle) (sel : selector) : bool :=
  match locate D el with
  | Some (anc, n) => closest_in sel (elem_of n) anc
  | None => false
  end.

(** The test that makes the callback skip a record: the mutation is one
    of the script's own. *)
Definition own_target (D : dom) (t : mtarget) : bool :=
  match t with
  | TElem h =>
      closest D h [[[SId sleepers_id]]]
      || closest D h (cls toggle_class)
      || classList_contains D h hidden
      || classList_contains D h "msf-sleepers-list"
      || classList_contains D h "msf-sleepers-arrow"
  | _ => false
  end.

(** [el.className.toString()]: the class attribute of an HTML element;
    for an SVG element [className] is an object, which prints as its
    type. *)
Definition className_toString (e : elem) : string :=
  if svg e then "[object SVGAnimatedString]" else className e.

(** [target.className?.toString() || ''] *)
Definition target_className (D : dom) (t : mtarget) : string :=
  match t with
  | TElem h =>
      match locate D h with
      | Some (_, n) => className_toString (elem_of n)
      | None => ""
      end
  | _ => ""
  end.

Definition relevant (D : dom) (m : mutation) : bool :=
  let c := target_className D (m_target m) in
  includes c "pageroom"
  || includes c "panelsection"
  || includes c "common--level"
  || includes c "fader"
  || includes c "badge"
  || Nat.ltb 0 (addedNodes m)
  || Nat.ltb 0 (removedNodes m).

(** The loop of the callback: [true] when it leaves with
    [shouldReapply] set. *)
Fixpoint shouldReapply (D : dom) (mutations : list mutation) : bool :=
  match mutations with
  | [] => false
  | m :: rest =>
      match m_target m with
      | TNull => shouldReapply D rest
      | t =>
          if own_target D t then shouldReapply D rest
          else if relevant D m then true
          else shouldReapply D rest
      end
  end.

(** The debounce timer: the time at which [applyFilter] is due, if a
    timeout is pending. *)
Definition timer := option nat.

(** The observer callback, run at time [now]. *)
Definition observerCallback (D : dom) (now : nat) (mutations : list mutation)
    (t : timer) : timer :=
  if shouldReapply D mutations then Some (now + 200) else t.

(** ** What is visible

    Two stores show the same page when their documents are the same
    trees up to the identity of the objects. *)

#[local] Unset Elimination Schemes.
Inductive shape := Shape (e : elem) (kids : list shape).
#[local] Set Elimination Schemes.

Fixpoint erase (n : node) : shape :=
  match n with
  | Node _ e ks => Shape e (map erase ks)
  end.

Definition page (D : dom) : list shape := map erase (doc D).

(** All handles of a forest, in document order. *)
Fixpoint handles (n : node) : list handle :=
  match n with
  | Node h _ ks => h :: flat_map handles ks
  end.

Definition handlesF (ns : list node) : list handle := flat_map handles ns.

(** A store is well formed when every object occurs once and the
    allocator is ahead of all of them. *)
Definition wf (D : dom) : Prop :=
  NoDup (handlesF (doc D) ++ handlesF (limbo D)) /\
  Forall (fun h => h < next D) (handlesF (doc D) ++ handlesF (limbo D)).

(** The number of elements of the document that match a selector. *)
Definition count_matching (D : dom) (sel : selector) : nat :=
  List.length (doc_querySelectorAll D sel).

(** [inside m n]: [m] is [n] or a descendant of [n], at any depth. *)
Inductive inside (m : node) : node -> Prop :=
| inside_self : inside m m
| inside_kid h e ks k : In k ks -> inside m k -> inside m (Node h e ks).

(** The two state markers of the host page. *)
Definition carries_level (e : elem) : bool :=
  has_class level_asleep e || has_class level_inactive e.

(** ** Auxiliary notions for the proofs *)

(** Rewriting every element of a tree, by handle. *)
Fixpoint mapT (g : handle -> elem -> elem) (n : node) : node :=
  match n with
  | Node h e ks => Node h (g h e) (map (mapT g) ks)
  end.

Definition mem (h : handle) (hs : list handle) : bool :=
  existsb (Nat.eqb h) hs.

(** The children of the list container of a sleepers section. *)
Definition section_body (s : node) : list node :=
  match kids_of s with
  | [_; l] => kids_of l
  | _ => []
  end.

(** The count label of a sleepers section. *)
Definition section_count (s : node) : string :=
  match kids_of s with
  | [Node _ _ [_; _; c]; _] => text (elem_of c)
  | _ => ""
  end.

(** Cloning a list of siblings, as [clone] does for the children. *)
Fixpoint cloneF (nx : handle) (ks : list node) : list node * handle :=
  match ks with
  | [] => ([], nx)
  | k :: r =>
      let (k', nx1) := clone nx k in
      let (r', nx2) := cloneF nx1 r in
      (k' :: r', nx2)
  end.

Fixpoint mapS (f : elem -> elem) (s : shape) : shape :=
  match s with
  | Shape e ks => Shape (f e) (map (mapS f) ks)
  end.

(** A tree shown without any hidden marker. *)
Definition unhidden (s : shape) : shape := mapS (remove_class hidden) s.

(** The main-list entries that are shown: the characters of the "In
    room" section without the hidden marker. *)
Definition visible_chars (D : dom) : list handle :=
  match findInRoomSection D with
  | Some (_, section) =>
      filter (fun el => negb (classList_contains D el hidden))
             (getCharElements D (Some section))
  | None => []
  end.

(** The texts of the elements of the document that match a selector. *)
Definition texts_of (D : dom) (sel : selector) : list string :=
  map (fun p => text (elem_of (snd p)))
      (filter (matches sel) (walkF [] (doc D))).

(** ** Example pages, in the markup of the host client *)

Module Ex.

Definition E (t : string) (cs : list string) (ks : list node) : node :=
  Node 0 (mkElem t "" cs "" "" false) ks.

Definition IMG (s : string) : node := Node 0 (mkElem "img" "" [] s "" false) [].

(** A character row with the given level class and avatar. *)
Definition char (lvl av : string) : node :=
  E "div" ["pageroom-char"]
    [E "div" ["pageroom-char--cont"]
       [E "div" ["pageroom-char--badge"; "badge"; "btn"; "margin4"]
          [E "div" ["badge--select"]
             [E "div" ["avatar"] [IMG av];
              E "div" ["badge--info"]
                [E "div" ["pageroom-char--name"; lvl] []]]]]].

Definition exitchar (cs : list string) (av : string) : node :=
  E "div" ("pageroom-exitchars--char" :: cs) [IMG av].

Definition inroom (cs : list string) (chars : list node) : node :=
  E "div" ("panelsection" :: "pageroom--chars" :: cs)
    [E "div" ["panelsection--head"]
       [E "div" ["panelsection--title"]
          [E "div" ["pageroom--inroomheader"]
             [Node 0 (mkElem "h3" "" [] "" "In room" false) []]]];
     E "div" ["panelsection--content"] [E "div" [] chars]].

Definition room (chars exits : list node) : node :=
  E "div" ["pageroom"]
    [E "div" ["pageroom--sections"]
       [E "div" ["panelsection"; "pageroom--exits"]
          [E "div" ["panelsection--content"] exits];
        inroom [] chars]].

(** A store holding one document tree, its objects numbered from 1. *)
Definition page_of (t : node) : dom :=
  let (t', nx) := clone 1 t in mkDom [t'] [] nx.

Definition asleep := "common--level-asleep".
Definition inactive := "common--level-inactive".
Definition active := "common--level-active".

(** Five characters: two asleep, one at idle level three, two plain. *)
Definition five : dom :=
  page_of (room
    [char asleep "https://img/1?thumb=m";
     char active "https://img/2?thumb=m";
     char inactive "https://img/3?thumb=m";
     char active "https://img/4?thumb=m";
     char asleep "https://img/5?thumb=m"]
    [exitchar [] "https://img/1?thumb=s";
     exitchar [] "https://img/2?thumb=s"]).

Definition split_on : prefs := mkPrefs true false.
Definition split_off : prefs := mkPrefs false false.

End Ex.

(** The marker classes that the observer recognises on a target. *)
Definition reserved_markers : list string :=
  [hidden; "msf-sleepers-list"; "msf-sleepers-arrow"].

(** The target of a mutation lies within the script's own nodes: it is
    the sleepers section or the toggle control or lies inside one of
    them, or it carries a reserved marker class. *)
Definition lies_within_injected (D : dom) (t : mtarget) : Prop :=
  match t with
  | TElem h =>
      exists anc n,
        locate D h = Some (anc, n) /\
        (Exists (fun e => eid e = sleepers_id \/ has_class toggle_class e = true)
                (elem_of n :: map snd anc) \/
         Exists (fun c => has_class c (elem_of n) = true) reserved_markers)
  | _ => False
  end.

Definition mapC (g : handle -> elem -> elem) (anc : ctx) : ctx :=
  map (fun p => (fst p, g (fst p) (snd p))) anc.

Definition mapP (g : handle -> elem -> elem) (p : ctx * node) : ctx * node :=
  (mapC g (fst p), mapT g (snd p)).

Definition mapTD (g : handle -> elem -> elem) (D : dom) : dom :=
  mkDom (map (mapT g) (doc D)) (map (mapT g) (limbo D)) (next D).

(** Two elements that differ at most in the hidden marker. *)
Definition same_but_hidden (e e' : elem) : Prop :=
  tag e = tag e' /\ eid e = eid e' /\ src e = src e' /\ text e = text e' /\
  forall c, c <> hidden -> has_class c e = has_class c e'.

Definition hidden_only (g : handle -> elem -> elem) : Prop :=
  forall h e, same_but_hidden e (g h e).

(** A selector that does not mention the hidden marker. *)
Definition simple_avoids (s : simple) : bool :=
  match s with
  | SClass c => negb (String.eqb c hidden)
  | _ => true
  end.

Definition avoids_hidden (sel : selector) : bool :=
  forallb (forallb (forallb simple_avoids)) sel.

(** ** Avatar signatures *)

(** [el] carries the hidden marker. *)
Definition is_hidden (D : dom) (el : handle) : bool :=
  classList_contains D el hidden.

(** The signature of the image found by [sel] below [el]: its URL up to
    the query string, when there is such an image with a URL. *)
Definition signature (sel : selector) (D : dom) (el : handle) : option string :=
  match querySelector D el sel with
  | Some img =>
      let s := img_src D img in
      if String.eqb s "" then None else Some (before_question s)
  | None => None
  end.

(** The avatar signature of a main-list entry and of an exit thumbnail. *)
Definition sleeper_signature := signature sel_avatar_img.
Definition exit_signature := signature sel_img.

(** The exit thumbnail [x] shows the avatar of one of the [sleepers]. *)
Definition signature_matches (D : dom) (sleepers : list handle) (x : handle)
  : Prop :=
  exists u s,
    exit_signature D x = Some u /\ In s sleepers /\ sleeper_signature D s = Some u.

(** The signatures of a list of sleepers. *)
Definition signature_set (D : dom) (sleepers : list handle) : list string :=
  flat_map (fun s => match sleeper_signature D s with
                     | Some u => [u]
                     | None => []
                     end) sleepers.

Definition wants (urls : list string) (D : dom) (x : handle) : bool :=
  match exit_signature D x with
  | Some u => set_has u urls
  | None => false
  end.

(** The objects of a tree with their element data, in document order. *)
Fixpoint cells (n : node) : list (handle * elem) :=
  match n with
  | Node h e ks => (h, e) :: flat_map cells ks
  end.

Definition cellsF (ns : list node) : list (handle * elem) := flat_map cells ns.

(** The whole store as one forest. *)
Definition forest (D : dom) : list node := doc D ++ limbo D.

Definition is_at (h : handle) (p : ctx * node) : bool :=
  Nat.eqb (handle_of (snd p)) h.

Definition cellsD (D : dom) : list (handle * elem) := cellsF (forest D).

(** The element data behind a handle. *)
Definition elem_at (D : dom) (h : handle) : option elem :=
  option_map (fun p => elem_of (snd p)) (locate D h).

(** Rewriting the child list of the node with handle [p]. *)
Fixpoint edit (p : handle) (f : list node -> list node) (n : node) : node :=
  match n with
  | Node h e ks =>
      let ks' := map (edit p f) ks in
      Node h e (if Nat.eqb h p then f ks' else ks')
  end.

(** The main-list container: an element of the document with both
    classes of the "In room" section. *)
Definition is_container (e : elem) : bool :=
  has_class "panelsection" e && has_class "pageroom--chars" e.

(** Deciding well-formedness, for concrete stores. *)
Fixpoint nodupb (l : list handle) : bool :=
  match l with
  | [] => true
  | h :: r => negb (mem h r) && nodupb r
  end.

Definition wfb (D : dom) : bool :=
  nodupb (handlesF (doc D) ++ handlesF (limbo D)) &&
  forallb (fun h => Nat.ltb h (next D)) (handlesF (doc D) ++ handlesF (limbo D)).

Module Ex2.

(** The page of five characters after a pass in split mode. *)
Definition five_split : dom :=
  Eval vm_compute in store_of (applyFilter Ex.split_on Ex.five).

(** The three sleepers of that page. *)
Definition sleepers : list handle := [16; 32; 48].

(** The first of them, as found in the store. *)
Definition first_sleeper : ctx * node :=
  Eval vm_compute in
    match locate Ex.five 16 with
    | Some p => p
    | None => ([], Ex.E "div" [] [])
    end.

(** A page whose second exit thumbnail (of an awake character) was left
    hidden by an earlier pass. *)
Definition stale_exit : dom :=
  Eval vm_compute in classList_add Ex.five 7 hidden.

(** A page without the "In room" section. *)
Definition no_room : dom :=
  Ex.page_of (Ex.E "div" ["pageroom"] [Ex.E "div" ["namesection"] []]).

(** Two mutation records of the script's own making: the count label
    inside the sleepers section, and a hidden character row. *)
Definition own_batch : list mutation :=
  [mkMutation (TElem 63) 1 0; mkMutation (TElem 16) 0 0].

(** The first clone in the sleepers section built from the filtered
    page, whose originals carry the hidden marker. *)
Definition first_clone : node :=
  Eval vm_compute in
    hd (Ex.E "div" [] [])
       (section_body (fst (createSleepersSection Ex.split_on five_split sleepers))).

End Ex2.

(** What a query sees of a node: its ancestors, its handle and its own
    data, but not its children. *)
Definition view : Type := ctx * handle * elem.

Definition view_of (p : ctx * node) : view :=
  (fst p, handle_of (snd p), elem_of (snd p)).

Definition views (anc : ctx) (ns : list node) : list view :=
  map view_of (walkF anc ns).

Definition viewsN (anc : ctx) (n : node) : list view :=
  map view_of (walk anc n).

Definition v_ctx (v : view) : ctx := fst (fst v).
Definition v_handle (v : view) : handle := snd (fst v).
Definition v_elem (v : view) : elem := snd v.

Definition matchesV (sel : selector) (v : view) : bool :=
  existsb (fun cx => matches_complex cx (v_ctx v) (v_elem v)) sel.

(** [v] lies strictly below the node with handle [s]. *)
Definition below (s : handle) (v : view) : bool :=
  mem s (map fst (v_ctx v)).

(** The views of the document. *)
Definition dviews (D : dom) : list view := views [] (doc D).

Definition mapV (g : handle -> elem -> elem) (v : view) : view :=
  (mapC g (v_ctx v), v_handle v, g (v_handle v) (v_elem v)).

(** The ancestors of an element. *)
Definition ancestors (D : dom) (h : handle) : list handle :=
  match locate D h with
  | Some (a, _) => map fst a
  | None => []
  end.

Definition sel_sleepers : selector := [[[SId sleepers_id]]].

(** The store in which [applyFilter] sorts the characters, when it gets
    that far: after the old section and placeholder are gone, the
    characters are reset and the toggle is in place. *)
Definition prepared (P : prefs) (D : dom) (section : handle) : option dom :=
  let D1 := removeSleepersSection D in
  let existingToggle := querySelector D1 section (cls toggle_class) in
  let charElements := getCharElements D1 (Some section) in
  let D2 := resetChars D1 charElements in
  let D3 := removePlaceholder D2 section in
  ensureToggle P D3 section existingToggle.

(** ** The earlier variant of the script (version 1.0.0)

    The source holds a second, older copy of the script.  Its
    [isSleeperChar] and [createToggle] are the same; the functions of
    the filter and of the observer that differ are modelled here. *)

Module V100.

(** *** Strings *)

(** Strings hold the UTF-8 form of the text. *)
Definition bytes (l : list nat) : string :=
  fold_right (fun n s => String (ascii_of_nat n) s) EmptyString l.

(** The white space and the line terminators of the language: TAB, LF,
    VT, FF, CR, SP, NBSP, U+1680, U+2000 to U+200A, U+2028, U+2029,
    U+202F, U+205F, U+3000 and U+FEFF. *)
Definition white_space : list string :=
  map bytes
    [[9]; [10]; [11]; [12]; [13]; [32]; [194; 160]; [225; 154; 128];
     [226; 128; 128]; [226; 128; 129]; [226; 128; 130]; [226; 128; 131];
     [226; 128; 132]; [226; 128; 133]; [226; 128; 134]; [226; 128; 135];
     [226; 128; 136]; [226; 128; 137]; [226; 128; 138];
     [226; 128; 168]; [226; 128; 169]; [226; 128; 175]; [226; 129; 159];
     [227; 128; 128]; [239; 187; 191]].

(** The length of the white space character that [s] starts with, 0 if
    there is none. *)
Definition space_length (ws : list string) (s : string) : nat :=
  match find (fun w => prefixb w s) ws with
  | Some w => String.length w
  | None => 0
  end.

(** Dropping [skip] bytes and then all leading white space. *)
Fixpoint strip (ws : list string) (skip : nat) (s : string) {struct s} : string :=
  match s with
  | EmptyString => EmptyString
  | String _ r =>
      match skip with
      | S k => strip ws k r
      | O =>
          match space_length ws s with
          | S k => strip ws k r
          | O => s
          end
      end
  end.

Fixpoint rev_string (acc s : string) : string :=
  match s with
  | EmptyString => acc
  | String c r => rev_string (String c acc) r
  end.

(** [s.trim()] *)
Definition trim (s : string) : string :=
  rev_string ""
    (strip (map (rev_string "") white_space) 0
       (rev_string "" (strip white_space 0 s))).

Definition lower (c : ascii) : ascii :=
  let n := nat_of_ascii c in
  if Nat.leb 65 n && Nat.leb n 90 then ascii_of_nat (n + 32) else c.

(** [s.toLowerCase()], which is compared with "in room": the letters A
    to Z are lowered; no other character is lowered to a letter of that
    text. *)
Fixpoint toLowerCase (s : string) : string :=
  match s with
  | EmptyString => EmptyString
  | String c r => String (lower c) (toLowerCase r)
  end.

(** [el.textContent]: the text of the element and of its descendants.
    The store keeps the text nodes of an element as one string, which
    is read before the text of its child elements. *)
Fixpoint textContent (n : node) : string :=
  match n with
  | Node _ e ks => String.append (text e) (String.concat "" (map textContent ks))
  end.

(** *** Queries by a substring of the class attribute *)

(** [[class*="s"]] *)
Definition class_has (s : string) (e : elem) : bool := includes (className e) s.

Definition any_class_has (ss : list string) (e : elem) : bool :=
  existsb (fun s => class_has s e) ss.

(** [[class*="s"] > *]: the parent's class attribute contains [s]. *)
Definition parent_class_has (ss : list string) (c : ctx) : bool :=
  match c with
  | (_, p) :: _ => any_class_has ss p
  | [] => false
  end.

(** The descendants of [el] that satisfy a test on their ancestors and
    their own data: [el.querySelectorAll]. *)
Definition select (D : dom) (el : handle) (test : ctx -> elem -> bool)
  : list handle :=
  match locate D el with
  | Some (anc, n) =>
      map (fun p => handle_of (snd p))
          (filter (fun p => test (fst p) (elem_of (snd p))) (descendants anc n))
  | None => []
  end.

Definition doc_select (D : dom) (test : ctx -> elem -> bool) : list handle :=
  map (fun p => handle_of (snd p))
      (filter (fun p => test (fst p) (elem_of (snd p))) (walkF [] (doc D))).

(** [el.closest(...)]: the element itself or its nearest ancestor
    passing the test. *)
Definition closest_by (D : dom) (el : handle) (test : elem -> bool)
  : option handle :=
  match locate D el with
  | Some (anc, n) =>
      option_map fst
        (find (fun c => test (snd c)) ((handle_of n, elem_of n) :: anc))
  | None => None
  end.

Definition or_else {A} (a b : option A) : option A :=
  match a with Some _ => a | None => b end.

Definition children (D : dom) (el : handle) : list handle :=
  match locate D el with
  | Some (_, n) => map handle_of (kids_of n)
  | None => []
  end.

(** *** DOM lookup *)

Definition panel_of (D : dom) (h3 : handle) : option handle :=
  or_else (closest_by D h3 (has_class "panelsection"))
    (or_else (closest_by D h3 (class_has "panelsection"))
       (or_else (closest_by D h3 (class_has "panel-section"))
          (match parentElement D h3 with
           | Some p1 =>
               match parentElement D p1 with
               | Some p2 => parentElement D p2
               | None => None
               end
           | None => None
           end))).

Definition h3_text (D : dom) (h3 : handle) : string :=
  match locate D h3 with
  | Some (_, n) => toLowerCase (trim (textContent n))
  | None => ""
  end.

(** [findInRoomSection()]: the first [h3] that reads "in room", with the
    panel around it (which may be missing). *)
Definition findInRoomSection (D : dom) : option (handle * option handle) :=
  match find (fun h3 => String.eqb (h3_text D h3) "in room")
             (doc_querySelectorAll D sel_h3) with
  | Some h3 => Some (h3, panel_of D h3)
  | None => None
  end.

Fixpoint first_children (D : dom) (containers : list handle)
  : option (list handle) :=
  match containers with
  | [] => None
  | c :: r =>
      match children D c with
      | [] => first_children D r
      | items => Some items
      end
  end.

(** [:scope > * > X]: the grandchildren of the scope that pass [test]. *)
Definition scope_grandchild (scope : handle) (test : elem -> bool)
    (c : ctx) (e : elem) : bool :=
  match c with
  | _ :: (g, _) :: _ => Nat.eqb g scope && test e
  | _ => false
  end.

(** [getCharElements(section)] *)
Definition getCharElements (D : dom) (section : handle) : list handle :=
  let candidates :=
    select D section (fun c e =>
      any_class_has ["pageroomchar"; "pageroom-char"; "char--"] e
      || parent_class_has ["collectionlist"; "collection-list"] c) in
  match candidates with
  | _ :: _ => candidates
  | [] =>
      let listContainers :=
        select D section (fun _ e =>
          any_class_has ["charlist"; "chars"; "collection"] e) in
      match first_children D listContainers with
      | Some items => items
      | None =>
          let contentArea :=
            match hd_error (select D section (fun _ e =>
                              any_class_has ["content"; "body"] e)) with
            | Some a => a
            | None => section
            end in
          let withAvatars :=
            select D contentArea
              (scope_grandchild contentArea
                 (fun e => class_has "avatar" e || String.eqb "img" (tag e))) in
          flat_map (fun av => match parentElement D av with
                              | Some p => [p]
                              | None => []
                              end) withAvatars
      end
  end.

(** [getExitCharElements()] *)
Definition getExitCharElements (D : dom) : list handle :=
  doc_select D (fun _ e =>
    any_class_has ["pageroomexitchar"; "exitchar"; "exit-char"] e).

(** *** UI components *)

(** The cloning loop of this variant takes the marker off the clone's
    root only. *)
Definition strip_root (c : node) : node :=
  upd (handle_of c) (remove_class hidden) c.

Definition clone_sleeper (D : dom) (acc : list node * handle) (el : handle)
  : list node * handle :=
  match locate D el with
  | Some (_, n) =>
      let (c, nx) := clone (snd acc) n in
      (fst acc ++ [strip_root c], nx)
  | None => acc
  end.

(** [createSleepersSection(sleeperElements)] *)
Definition createSleepersSection (P : prefs) (D : dom)
    (sleeperElements : list handle) : node * handle :=
  let nx := next D in
  let headerN :=
    Node (nx + 1) (new_elem "div" "" ["msf-sleepers-header"] "")
      [ Node (nx + 2)
          (new_elem "span" ""
             ("msf-sleepers-arrow" :: if sleepersOpen P then ["open"] else [])
             "►") [];
        Node (nx + 3) (new_elem "span" "" [] "Sleepers") [];
        Node (nx + 4)
          (new_elem "span" "" ["msf-sleepers-count"]
             (String.append "("
                (String.append (show_nat (List.length sleeperElements)) ")")))
          [] ] in
  let listE :=
    new_elem "div" ""
      ("msf-sleepers-list" :: if sleepersOpen P then [] else ["collapsed"]) "" in
  let (body, nx') :=
    if Nat.eqb (List.length sleeperElements) 0
    then ([Node (nx + 6)
             (new_elem "div" "" [no_sleepers_class] "No sleepers in room.") []],
          nx + 7)
    else fold_left (clone_sleeper D) sleeperElements ([], nx + 6) in
  (Node nx (new_elem "div" sleepers_id ["msf-sleepers-section"] "")
     [headerN; Node (nx + 5) listE body],
   nx').

(** *** The filter *)

(** [filterExitChars()] *)
Definition filterExitChars (P : prefs) (D : dom) : dom :=
  if negb (splitEnabled P)
  then fold_left (fun D el => classList_remove D el hidden)
                 (doc_querySelectorAll D (cls hidden)) D
  else fold_left (fun D el => if isSleeperChar D el
                              then classList_add D el hidden else D)
                 (getExitCharElements D) D.

(** The toggle goes before the element around the header, in that
    element's own parent. *)
Definition ensureToggle (P : prefs) (D : dom) (header : handle)
    (existingToggle : option handle) : dom :=
  match existingToggle with
  | Some _ => D
  | None =>
      match or_else (closest_by D header (class_has "header"))
                    (parentElement D header) with
      | Some headerEl =>
          match parentElement D headerEl with
          | Some parent =>
              let (t, nx) := createToggle P (next D) in
              match insertBefore (with_next D nx) parent t headerEl with
              | Some D' => D'
              | None => D
              end
          | None => D
          end
      | None => D
      end
  end.

(** [applyFilter()] *)
Definition applyFilter (P : prefs) (D : dom) : outcome :=
  match findInRoomSection D with
  | None => Returned D
  | Some (header, osection) =>
      let D1 := removeSleepersSection D in
      match osection with
      | None => Thrown D1
      | Some section =>
          let existingToggle := querySelector D1 section (cls toggle_class) in
          let charElements := getCharElements D1 section in
          let D2 := resetChars D1 charElements in
          let D3 := removePlaceholder D2 section in
          if negb (splitEnabled P)
          then Returned (ensureToggle P D3 header existingToggle)
          else
            let '(D5, sleepers, awake) := categorize D3 charElements in
            let D6 := addNoAwakePlaceholder D5 charElements awake in
            let D7 := ensureToggle P D6 header existingToggle in
            let (s, nx) := createSleepersSection P D7 sleepers in
            match insertSleepersSection (with_next D7 nx) section s with
            | None => Thrown D7
            | Some D8 => Returned (filterExitChars P D8)
            end
      end
  end.

(** *** The mutation observer *)

Definition relevant (D : dom) (m : mutation) : bool :=
  let c := target_className D (m_target m) in
  includes c "pageroom"
  || includes c "char"
  || includes c "collection"
  || includes c "panel"
  || includes c "fader"
  || Nat.ltb 0 (addedNodes m).

Fixpoint shouldReapply (D : dom) (mutations : list mutation) : bool :=
  match mutations with
  | [] => false
  | m :: rest =>
      match m_target m with
      | TNull => shouldReapply D rest
      | _ => if relevant D m then true else shouldReapply D rest
      end
  end.

Definition observerCallback (D : dom) (now : nat) (mutations : list mutation)
    (t : timer) : timer :=
  if shouldReapply D mutations then Some (now + 200) else t.

End V100.

(** The views of the whole store. *)
Definition fviews (D : dom) : list view := views [] (forest D).

(** The placeholder element, as the script makes it. *)
Definition no_awake_elem : elem :=
  new_elem "div" "" [no_awake_class] "No one awake in room.".

Module Ex3.

(** A page whose only character row, asleep, also carries the class of
    the no-awake placeholder. *)
Definition stale_first : dom :=
  Ex.page_of (Ex.room
    [Ex.E "div" ["pageroom-char"; no_awake_class]
       [Ex.E "div" ["pageroom-char--name"; Ex.asleep] []]]
    []).

End Ex3.

Module Ex4.

(** The page of five characters, as it is when a split pass sorts. *)
Definition five_prepared : dom :=
  Eval vm_compute in
    match prepared Ex.split_on Ex.five 9 with
    | Some D => D
    | None => Ex.five
    end.

End Ex4.

Module Ex5.

(** One sleeper and one awake character; the first exit thumbnail
    carries the asleep marker but nobody's avatar, the second shows the
    sleeper's avatar and carries no marker. *)
Definition marked_exit : dom :=
  Ex.page_of (Ex.room
    [Ex.char Ex.asleep "https://img/1?thumb=m";
     Ex.char Ex.active "https://img/2?thumb=m"]
    [Ex.exitchar [Ex.asleep] "https://img/9?thumb=s";
     Ex.exitchar [] "https://img/1?thumb=s"]).

(** That page after a split pass of the older variant. *)
Definition after_split_v100 : dom :=
  Eval vm_compute in store_of (V100.applyFilter Ex.split_on marked_exit).

(** A class change on a hidden character row. *)
Definition hidden_row_changed : list mutation := [mkMutation (TElem 16) 0 0].

End Ex5.

Module Ex6.

(** What the older variant takes for sleepers on [Ex5.marked_exit]: the
    character row and three elements inside it. *)
Definition v100_sleepers : list handle :=
  Eval vm_compute in
    filter (isSleeperChar Ex5.after_split_v100)
           (V100.getCharElements Ex5.after_split_v100 9).

(** The first clone the older variant builds from them, and the first
    child of that clone. *)
Definition v100_first_clone : node :=
  Eval vm_compute in
    hd (Ex.E "div" [] [])
       (section_body
          (fst (V100.createSleepersSection Ex.split_on Ex5.after_split_v100
                  v100_sleepers))).

Definition v100_first_clone_child : node :=
  Eval vm_compute in hd (Ex.E "div" [] []) (kids_of v100_first_clone).

End Ex6.

(** ** Node-wise readings of the passes, for the proofs *)

(** The signature read off a subtree: the URL of the first descendant
    that matches. *)
Definition first_src (sel : selector) (l : list (ctx * node)) : option string :=
  match find (matches sel) l with
  | Some p =>
      let s := src (elem_of (snd p)) in
      if String.eqb s "" then None else Some (before_question s)
  | None => None
  end.

Definition signatureN (sel : selector) (a : ctx) (n : node) : option string :=
  first_src sel (descendants a n).

Definition exit_class := "pageroom-exitchars--char".

Definition wantsN (urls : list string) (a : ctx) (n : node) : bool :=
  match signatureN sel_img a n with
  | Some u => set_has u urls
  | None => false
  end.

(** What a pass of [filterExitChars] makes of an element: an exit
    thumbnail loses the marker and gets it back when its avatar is
    wanted; everything else stays. *)
Definition exit_elem (urls : list string) (a : ctx) (n : node) : elem :=
  let e := elem_of n in
  if has_class exit_class e
  then if wantsN urls a n
       then add_class hidden (remove_class hidden e)
       else remove_class hidden e
  else e.

Fixpoint exitN (urls : list string) (a : ctx) (n : node) : node :=
  match n with
  | Node h e ks =>
      Node h (exit_elem urls a n) (map (exitN urls ((h, e) :: a)) ks)
  end.

(** An element up to the hidden marker of an exit thumbnail. *)
Definition canon (e : elem) : elem :=
  if has_class exit_class e then remove_class hidden e else e.

(** Two handles stand for the same object of the page: the same old
    object, or two objects made after the allocator reached [b]. *)
Definition hrel (b : handle) (h h' : handle) : Prop :=
  h = h' \/ (b <= h /\ b <= h').

(** Two trees that show the same page up to the markers of exit
    thumbnails and up to the identity of the objects made since [b]. *)
Fixpoint sim (b : handle) (n n' : node) : Prop :=
  match n, n' with
  | Node h e ks, Node h' e' ks' =>
      hrel b h h' /\ canon e = canon e' /\
      (fix simL (ks ks' : list node) : Prop :=
         match ks, ks' with
         | [], [] => True
         | k :: r, k' :: r' => sim b k k' /\ simL r r'
         | _, _ => False
         end) ks ks'
  end.

Fixpoint simL (b : handle) (ks ks' : list node) : Prop :=
  match ks, ks' with
  | [], [] => True
  | k :: r, k' :: r' => sim b k k' /\ simL b r r'
  | _, _ => False
  end.

(** Related ancestor chains. *)
Fixpoint crel (b : handle) (a a' : ctx) : Prop :=
  match a, a' with
  | [], [] => True
  | c :: r, c' :: r' =>
      hrel b (fst c) (fst c') /\ canon (snd c) = canon (snd c') /\ crel b r r'
  | _, _ => False
  end.

(** The first subtree with handle [h], in document order. *)
Definition subtree (h : handle) (ns : list node) : option (ctx * node) :=
  find (is_at h) (walkF [] ns).

(** Related entries of two document-order listings. *)
Definition wrel (b : handle) (p p' : ctx * node) : Prop :=
  crel b (fst p) (fst p') /\ sim b (snd p) (snd p').

Definition orel {A} (R : A -> A -> Prop) (x y : option A) : Prop :=
  match x, y with
  | Some a, Some a' => R a a'
  | None, None => True
  | _, _ => False
  end.

(** The signatures a pass of [filterExitChars] works with. *)
Definition exit_urls (P : prefs) (D : dom) (sleepers : list handle)
  : list string :=
  if splitEnabled P && negb (Nat.eqb (List.length sleepers) 0)
  then sleeperAvatarUrls D sleepers
  else [].

Module Ex7.

(** A room whose character rows are the children of a collection list. *)
Definition listed (chars : list node) : node :=
  Ex.E "div" ["pageroom"]
    [Ex.E "div" ["pageroom--sections"]
       [Ex.E "div" ["panelsection"; "pageroom--chars"]
          [Ex.E "div" ["panelsection--head"]
             [Ex.E "div" ["panelsection--title"]
                [Ex.E "div" ["pageroom--inroomheader"]
                   [Node 0 (mkElem "h3" "" [] "" "In room" false) []]]];
           Ex.E "div" ["panelsection--content"]
             [Ex.E "div" ["collectionlist"] chars]]]].

(** One character, asleep. *)
Definition all_asleep : dom :=
  Ex.page_of (listed [Ex.char Ex.asleep "https://img/1?thumb=m"]).

(** That page after one and after two split passes of the older
    variant, and of the current one. *)
Definition v100_once : dom :=
  Eval vm_compute in store_of (V100.applyFilter Ex.split_on all_asleep).

Definition v100_twice : dom :=
  Eval vm_compute in store_of (V100.applyFilter Ex.split_on v100_once).

Definition once : dom :=
  Eval vm_compute in store_of (applyFilter Ex.split_on all_asleep).

Definition twice : dom :=
  Eval vm_compute in store_of (applyFilter Ex.split_on once).

End Ex7.

(** The same objects, looked up in two stores, are similar trees. *)
Definition alike (b : handle) (D E : dom) (hs : list handle) : Prop :=
  Forall (fun h => orel (wrel b) (locate D h) (locate E h)) hs.

(** The rest of a pass, once the store is prepared. *)
Definition finish (P : prefs) (D4 : dom) (section : handle)
    (charElements : list handle) : outcome :=
  if negb (splitEnabled P) then Returned (unhideExitChars D4)
  else
    let '(D5, sleepers, awake) := categorize D4 charElements in
    let D6 := addNoAwakePlaceholder D5 charElements awake in
    let (s, nx) := createSleepersSection P D6 sleepers in
    match insertSleepersSection (with_next D6 nx) section s with
    | None => Thrown D6
    | Some D7 => Returned (filterExitChars P D7 sleepers)
    end.

(** [D'] shows what [D] shows and, somewhere in between, the views [vs]. *)
Definition spliced (D D' : dom) (vs : list view) : Prop :=
  exists v1 v2, dviews D = v1 ++ v2 /\ dviews D' = v1 ++ vs ++ v2.

(** The elements that the cloning loop contributes. *)
Definition cloned_elems (D : dom) (sl : list handle) : list elem :=
  flat_map (fun s => match locate D s with
                     | Some (_, n) => map (remove_class hidden) (map snd (cells n))
                     | None => []
                     end) sl.

(** What holds of a prepared store: the "In room" section is the
    container that the script finds, there is no sleepers section and no
    placeholder left, the characters are shown, and a toggle is there
    when it can be. *)
Definition ready (D : dom) (sec : handle) (chars : list handle) : Prop :=
  wf D /\ In sec (handlesF (doc D)) /\
  doc_querySelector D sel_inroom = Some sec /\
  doc_querySelectorAll D sel_sleepers = [] /\
  querySelectorAll D sec sel_char = chars /\
  querySelectorAll D sec (cls no_awake_class) = [] /\
  List.length (querySelectorAll D sec (cls toggle_class)) <= 1 /\
  (querySelector D sec (cls toggle_class) = None ->
   querySelector D sec (cls "panelsection--title") = None \/
   querySelector D sec (cls "pageroom--inroomheader") = None) /\
  (forall c, In c chars -> is_hidden D c = false).

(** A tidy page: one
    container, at most one element with the id of the sleepers section
    and the container not inside it, at most one placeholder and at
    most one toggle below the container, and no character row or toggle
    that is a placeholder or lies inside one. *)
Definition tidy (D : dom) (sec : handle) : Prop :=
  doc_querySelectorAll D sel_inroom = [sec] /\
  List.length (doc_querySelectorAll D sel_sleepers) <= 1 /\
  (forall x, In x (doc_querySelectorAll D sel_sleepers) ->
             ~ In x (sec :: ancestors D sec)) /\
  List.length (querySelectorAll D sec (cls no_awake_class)) <= 1 /\
  List.length (querySelectorAll D sec (cls toggle_class)) <= 1 /\
  (forall p x,
     In p (querySelectorAll D sec (cls no_awake_class)) ->
     In x (querySelectorAll D sec sel_char ++
           querySelectorAll D sec (cls toggle_class)) ->
     ~ In p (x :: ancestors D x)).

(** The same without a sleepers section, in terms of what the queries
    see. *)
Definition neat (D : dom) (sec : handle) : Prop :=
  wf D /\ In sec (handlesF (doc D)) /\
  doc_querySelectorAll D sel_inroom = [sec] /\
  doc_querySelectorAll D sel_sleepers = [] /\
  List.length (querySelectorAll D sec (cls no_awake_class)) <= 1 /\
  List.length (querySelectorAll D sec (cls toggle_class)) <= 1 /\
  (forall v p,
     In v (dviews D) -> below sec v = true ->
     has_class "pageroom-char" (v_elem v) || has_class toggle_class (v_elem v) = true ->
     In p (querySelectorAll D sec (cls no_awake_class)) ->
     v_handle v <> p /\ below p v = false).

(** No duplicate injected nodes: at most one sleepers section in the
    document, at most one toggle and one placeholder in the container. *)
Definition at_most_one (D : dom) (sec : handle) : Prop :=
  List.length (doc_querySelectorAll D sel_sleepers) <= 1 /\
  List.length (querySelectorAll D sec (cls toggle_class)) <= 1 /\
  List.length (querySelectorAll D sec (cls no_awake_class)) <= 1.

Module Ex8.

(** The page of five characters after two passes in split mode. *)
Definition five_twice : dom :=
  Eval vm_compute in store_of (applyFilter Ex.split_on Ex2.five_split).

(** A room with one awake character and two stale placeholders. *)
Definition stale_two : dom :=
  Ex.page_of (Ex.room
    [Ex.char Ex.active "https://img/1?thumb=m";
     Ex.E "div" [no_awake_class] [];
     Ex.E "div" [no_awake_class] []]
    []).

(** That page after one and after two passes in unified mode. *)
Definition stale_once : dom :=
  Eval vm_compute in store_of (applyFilter Ex.split_off stale_two).

Definition stale_twice : dom :=
  Eval vm_compute in store_of (applyFilter Ex.split_off stale_once).

End Ex8.

(** What [pruneF] takes away is the subtree found under the handle. *)
Definition prune_spec (x : handle) (anc : ctx) (ns : list node) : Prop :=
  NoDup (handlesF ns) -> In x (handlesF ns) ->
  exists a m,
    find (is_at x) (walkF anc ns) = Some (a, m) /\
    Permutation (cellsF ns) (cells m ++ cellsF (pruneF x ns)).

(** Where the node [p] is found, [edit] replaces its children by [f] of
    them; all other nodes stay. *)
Definition edit_spec (p : handle) (f : list node -> list node)
    (extra : list (handle * elem)) (anc : ctx) (ns : list node) : Prop :=
  NoDup (handlesF ns) ->
  forall a m,
    find (is_at p) (walkF anc ns) = Some (a, m) ->
    Permutation (cellsF (f (kids_of m))) (extra ++ cellsF (kids_of m)) ->
    Permutation (cellsF (map (edit p f) ns)) (extra ++ cellsF ns).

(** Pruning takes the views of the pruned subtree out of the list. *)
Definition splice_out (x : handle) (anc : ctx) (ns : list node) : Prop :=
  NoDup (handlesF ns) ->
  forall a m,
    find (is_at x) (walkF anc ns) = Some (a, m) ->
    exists v1 v2,
      views anc ns = v1 ++ viewsN a m ++ v2 /\
      views anc (pruneF x ns) = v1 ++ v2.

(** Inserting a child puts the views of the new subtree into the list. *)
Definition splice_in (p : handle) (f : list node -> list node) (new : node)
    (anc : ctx) (ns : list node) : Prop :=
  NoDup (handlesF ns) ->
  forall a P,
    find (is_at p) (walkF anc ns) = Some (a, P) ->
    (exists k1 k2, kids_of P = k1 ++ k2 /\ f (kids_of P) = k1 ++ new :: k2) ->
    exists v1 v2,
      views anc ns = v1 ++ v2 /\
      views anc (map (edit p f) ns)
      = v1 ++ viewsN ((p, elem_of P) :: a) new ++ v2.

(** The descendants of the node found under [s] are the entries of the
    list that lie below [s]. *)
Definition scoped (s : handle) (anc : ctx) (ns : list node) : Prop :=
  NoDup (handlesF ns) -> ~ In s (map fst anc) ->
  forall a n,
    find (is_at s) (walkF anc ns) = Some (a, n) ->
    map view_of (descendants a n) = filter (below s) (views anc ns).

(** ** Preferences kept by the userscript manager *)

Definition storageKey := "mucklet_sleeper_split".
Definition sleepersOpenKey := "mucklet_sleepers_open".

(** The stored values, latest first; the script stores booleans only. *)
Definition storage := list (string * bool).

(** [GM_getValue(key, default)] *)
Fixpoint GM_getValue (st : storage) (key : string) (default : bool) : bool :=
  match st with
  | [] => default
  | (k, v) :: r => if String.eqb k key then v else GM_getValue r key default
  end.

(** [GM_setValue(key, value)] *)
Definition GM_setValue (st : storage) (key : string) (value : bool) : storage :=
  (key, value) :: st.

(** The two state variables, as the script initialises them. *)
Definition loadPrefs (st : storage) : prefs :=
  mkPrefs (GM_getValue st storageKey false) (GM_getValue st sleepersOpenKey false).

(** ** Click listeners *)

(** [el.classList.toggle(c, force)] *)
Definition classList_toggle (D : dom) (el : handle) (c : string) (force : bool)
  : dom :=
  if force then classList_add D el c else classList_remove D el c.

(** The switch inside the toggle that [createToggle] numbers from [nx],
    and the arrow and the list of the sleepers section that
    [createSleepersSection] numbers from [nx]: the elements their click
    listeners hold on to. *)
Definition toggle_switch (nx : handle) : handle := S nx.
Definition section_arrow (nx : handle) : handle := nx + 2.
Definition section_list (nx : handle) : handle := nx + 5.

(** The click listener of the toggle, for the switch [toggle] it was
    made with: the new state, the stored values, and the pass it runs. *)
Definition toggleClick (toggle : handle) (P : prefs) (st : storage) (D : dom)
  : prefs * storage * outcome :=
  let split := negb (splitEnabled P) in
  let P' := mkPrefs split (sleepersOpen P) in
  let st' := GM_setValue st storageKey split in
  let D1 := classList_toggle D toggle "active" split in
  (P', st', applyFilter P' D1).

(** The click listener of the header of the sleepers section, for the
    [arrow] and the list [lst] it was made with.  The max-height it sets is
    a style, not a part of the tree. *)
Definition headerClick (arrow lst : handle) (P : prefs) (st : storage) (D : dom)
  : prefs * storage * dom :=
  let opened := negb (sleepersOpen P) in
  let P' := mkPrefs (splitEnabled P) opened in
  let st' := GM_setValue st sleepersOpenKey opened in
  let D1 := classList_toggle D arrow "open" opened in
  let D2 := classList_toggle D1 lst "collapsed" (negb opened) in
  (P', st', D2).

(** ** The periodic scan *)

(** [inRoom.section !== lastRoomPanel] *)
Definition panel_changed (lastRoomPanel : option handle) (section : handle)
  : bool :=
  match lastRoomPanel with
  | Some l => negb (Nat.eqb l section)
  | None => true
  end.

(** One run of the interval callback of [startPeriodicScan]: the new
    [lastRoomPanel] and what becomes of the page. *)
Definition scanTick (P : prefs) (lastRoomPanel : option handle) (D : dom)
  : option handle * outcome :=
  match findInRoomSection D with
  | Some (_, section) =>
      if panel_changed lastRoomPanel section
      then (Some section, applyFilter P D)
      else
        match querySelector D section (cls toggle_class) with
        | None => (lastRoomPanel, applyFilter P D)
        | Some _ => (lastRoomPanel, Returned D)
        end
  | None => (None, Returned D)
  end.

(** ** The script at work *)

(** The state of the script between two callbacks. *)
Record script := mkScript {
  s_prefs : prefs;
  s_storage : storage;
  lastRoomPanel : option handle
}.

(** The script as it starts, with the values the manager holds. *)
Definition start (st : storage) : script := mkScript (loadPrefs st) st None.

(** What can happen: a click on a toggle or on the header of a sleepers
    section, a tick of the scan, a time-out that runs [applyFilter] (the
    one the observer sets, or the one [init] sets), and the host page
    changing under the script. *)
Inductive event :=
| ToggleClick (toggle : handle)
| HeaderClick (arrow lst : handle)
| ScanTick
| FilterDue
| HostChange (D : dom).

(** An exception ends the callback it escapes from; the page stays as
    it was left. *)
Definition react (e : event) (S : script) (D : dom) : script * dom :=
  match e with
  | ToggleClick t =>
      let '(P, st, o) := toggleClick t (s_prefs S) (s_storage S) D in
      (mkScript P st (lastRoomPanel S), store_of o)
  | HeaderClick a l =>
      let '(P, st, D') := headerClick a l (s_prefs S) (s_storage S) D in
      (mkScript P st (lastRoomPanel S), D')
  | ScanTick =>
      let (l, o) := scanTick (s_prefs S) (lastRoomPanel S) D in
      (mkScript (s_prefs S) (s_storage S) l, store_of o)
  | FilterDue => (S, store_of (applyFilter (s_prefs S) D))
  | HostChange D' => (S, D')
  end.

Fixpoint run (es : list event) (S : script) (D : dom) : script * dom :=
  match es with
  | [] => (S, D)
  | e :: r => let (S', D') := react e S D in run r S' D'
  end.

(** A pass has run on [D'] and returned: [D'] is what the rest of a
    pass makes of a prepared store. *)
Definition filtered (P : prefs) (sec : handle) (D' : dom) : Prop :=
  exists D4 chars,
    ready D4 sec chars /\ finish P D4 sec chars = Returned D'.

(** The record [shouldReapply] stops at, if any. *)
Definition triggers (D : dom) (m : mutation) : bool :=
  match m_target m with
  | TNull => false
  | t => negb (own_target D t) && relevant D m
  end.

Module Ex9.

(** The page of five characters when a split pass builds the sleepers
    section: the sleepers are hidden, the toggle is in place. *)
Definition five_sorted : dom :=
  Eval vm_compute in
    fst (fst (categorize Ex4.five_prepared
                (getCharElements Ex4.five_prepared (Some 9)))).

End Ex9.

(** [D'] still holds every element of [D], the same up to the hidden
    marker, and is well formed. *)
Definition keeps (D D' : dom) : Prop :=
  wf D' /\ next D <= next D' /\
  forall h e, elem_at D h = Some e ->
    exists e', elem_at D' h = Some e' /\ same_but_hidden e e'.


Module Ex10.

(** The page of five characters after a split pass and then a unified
    pass. *)
Definition five_unsplit : dom :=
  Eval vm_compute in store_of (applyFilter Ex.split_off Ex2.five_split).

(** A page whose root element is the "In room" section itself. *)
Definition rootless : dom :=
  Ex.page_of (Ex.inroom [] [Ex.char Ex.asleep "https://img/1?thumb=m"]).

End Ex10.

(** Where the node [p] is found, [edit] leaves it in its place with the
    children [f] makes of its children. *)
Definition edit_found (p : handle) (f : list node -> list node)
    (anc : ctx) (ns : list node) : Prop :=
  NoDup (handlesF ns) ->
  forall a m,
    find (is_at p) (walkF anc ns) = Some (a, m) ->
    find (is_at p) (walkF anc (map (edit p f) ns))
    = Some (a, Node p (elem_of m) (f (kids_of m))).

(** [u] is the URL [s] up to the first question mark: [s] is [u]
    itself or [u] followed by a question mark and a query string, and
    [u] holds no question mark. *)
Definition up_to_query (u s : string) : Prop :=
  includes u "?" = false /\
  (s = u \/ exists q, s = String.append u (String "?"%char q)).

Module Ex11.

(** A sleeper whose exit thumbnail has a URL without a query string. *)
Definition plain_exit : dom :=
  Ex.page_of (Ex.room
    [Ex.char Ex.asleep "https://img/1?thumb=m"]
    [Ex.exitchar [] "https://img/1"]).

End Ex11.

(** Inserting [new] among the children [k1 ++ k2] of the node [p],
    after [k1]: the views of the new subtree come in after those of
    [k1]. *)
Definition splice_at (p : handle) (f : list node -> list node) (new : node)
    (k1 k2 : list node) (anc : ctx) (ns : list node) : Prop :=
  NoDup (handlesF ns) ->
  forall a P,
    find (is_at p) (walkF anc ns) = Some (a, P) ->
    kids_of P = k1 ++ k2 -> f (kids_of P) = k1 ++ new :: k2 ->
    exists v1 v2,
      views anc ns = v1 ++ v2 /\
      views anc (map (edit p f) ns)
      = v1 ++ viewsN ((p, elem_of P) :: a) new ++ v2 /\
      incl (views ((p, elem_of P) :: a) k1) v1.

(** Whether a call returned. *)
Definition returned (o : outcome) : bool :=
  match o with Returned _ => true | Thrown _ => false end.

(** The store after the clean-up at the head of a pass: the element
    with the id of the sleepers section is removed, the character rows
    are shown again, the first placeholder of the container is
    removed. *)
Definition cleared (D : dom) (section : handle) : dom :=
  let D1 := removeSleepersSection D in
  removePlaceholder (resetChars D1 (getCharElements D1 (Some section))) section.

(** The states of the page on which two passes are compared: the
    clean-up at the head of a pass leaves nothing of an earlier pass
    behind and takes nothing else away.  After it the container is
    still in the document, the document holds no element with the id of
    the sleepers section, and the container holds no placeholder, all
    the character rows that were found, at most one toggle, and a
    toggle if one was found (unless the title or the header that a
    toggle is put at is missing). *)
Definition cleans_up (D : dom) (sec : handle) : Prop :=
  let D1 := removeSleepersSection D in
  let D3 := cleared D sec in
  In sec (handlesF (doc D3)) /\
  doc_querySelectorAll D3 sel_sleepers = [] /\
  querySelectorAll D3 sec (cls no_awake_class) = [] /\
  querySelectorAll D3 sec sel_char = getCharElements D1 (Some sec) /\
  List.length (querySelectorAll D3 sec (cls toggle_class)) <= 1 /\
  (querySelector D3 sec (cls toggle_class) = None ->
   querySelector D1 sec (cls toggle_class) = None \/
   querySelector D3 sec (cls "panelsection--title") = None \/
   querySelector D3 sec (cls "pageroom--inroomheader") = None).

Module Ex12.

(** Two rooms side by side; the script works on the first. *)
Definition two_rooms : dom :=
  Ex.page_of (Ex.E "div" ["pageroom"]
    [Ex.E "div" ["pageroom--sections"]
       [Ex.inroom [] [Ex.char Ex.asleep "https://img/1?thumb=m";
                      Ex.char Ex.active "https://img/2?thumb=m"];
        Ex.inroom [] [Ex.char Ex.asleep "https://img/3?thumb=m"]]]).

Definition stale_section : node :=
  Node 0 (mkElem "div" sleepers_id ["msf-sleepers-section"] "" "" false) [].

Definition stale_toggle : node := Ex.E "div" [toggle_class] [].

(** A room followed by two stale sleepers sections. *)
Definition two_sections : dom :=
  Ex.page_of (Ex.E "div" ["pageroom"]
    [Ex.E "div" ["pageroom--sections"]
       [Ex.inroom [] [Ex.char Ex.active "https://img/1?thumb=m"];
        stale_section; stale_section]]).

(** A room with two stale toggles beside its one character. *)
Definition two_toggles : dom :=
  Ex.page_of (Ex.room
    [Ex.char Ex.active "https://img/1?thumb=m"; stale_toggle; stale_toggle] []).

(** A room whose only toggle lies inside a stale placeholder. *)
Definition toggle_in_placeholder : dom :=
  Ex.page_of (Ex.room
    [Ex.char Ex.active "https://img/1?thumb=m";
     Ex.E "div" [no_awake_class] [stale_toggle]] []).

(** A room inside a stale sleepers section, followed by another room. *)
Definition room_in_section : dom :=
  Ex.page_of (Ex.E "div" ["pageroom"]
    [Node 0 (mkElem "div" sleepers_id ["msf-sleepers-section"] "" "" false)
       [Ex.inroom [] [Ex.char Ex.active "https://img/1?thumb=m"]];
     Ex.inroom [] [Ex.char Ex.active "https://img/2?thumb=m"]]).

End Ex12.

(** The page after one pass and after two, whatever their outcome. *)
Definition after_one (P : prefs) (D : dom) : dom := store_of (applyFilter P D).
Definition after_two (P : prefs) (D : dom) : dom := after_one P (after_one P D).

(** * Properties *)

(** ** Trees *)

(** Structural induction for trees whose children are a list. *)
Lemma node_ind (P : node -> Prop) :
  (forall h e ks, Forall P ks -> P (Node h e ks)) -> forall n, P n.
Proof.
  intros IH. fix rec 1. intros [h e ks]. apply IH.
  induction ks as [|k ks IHks]; constructor; [apply rec | exact IHks].
Qed.

Lemma walk_inside n : forall anc p, In p (walk anc n) -> inside (snd p) n.
Proof.
  induction n as [h e ks IH] using node_ind. intros anc p [<-|Hin].
  - constructor.
  - apply in_flat_map in Hin as (k & Hk & Hp).
    rewrite Forall_forall in IH.
    eapply inside_kid; eauto.
Qed.

Lemma inside_walk m n :
  inside m n -> forall anc, exists a, In (a, m) (walk anc n).
Proof.
  induction 1 as [|h e ks k Hk _ IH]; intros anc.
  - exists anc. destruct m; left; reflexivity.
  - destruct (IH ((h, e) :: anc)) as [a Ha]. exists a. right.
    apply in_flat_map. eauto.
Qed.

Lemma inside_trans a b c : inside a b -> inside b c -> inside a c.
Proof.
  intros Hab Hbc. induction Hbc; [assumption|].
  eapply inside_kid; eauto.
Qed.

Lemma matches_levels p : matches sel_levels p = carries_level (elem_of (snd p)).
Proof.
  unfold matches, sel_levels, carries_level; simpl.
  rewrite !andb_true_r, orb_false_r. reflexivity.
Qed.

Lemma hd_error_map_filter_some {A B} (f : A -> B) (p : A -> bool) l :
  (exists x, In x l /\ p x = true) <->
  (exists y, hd_error (map f (filter p l)) = Some y).
Proof.
  induction l as [|a l IH]; simpl.
  - split; [intros (x & [] & _) | intros (y & Hy); discriminate].
  - destruct (p a) eqn:Hp; simpl.
    + split; eauto.
    + rewrite <- IH. split.
      * intros (x & [<-|Hx] & Hpx); [congruence | eauto].
      * intros (x & Hx & Hpx); eauto.
Qed.

(** ** The character classifier *)

Lemma isSleeperChar_subtree D el anc n :
  locate D el = Some (anc, n) ->
  isSleeperChar D el =
    carries_level (elem_of n)
    || existsb (fun p => carries_level (elem_of (snd p))) (descendants anc n).
Proof.
  intros Hl. unfold isSleeperChar, classList_contains, querySelector,
    querySelectorAll. rewrite Hl. fold (carries_level (elem_of n)).
  destruct (carries_level (elem_of n)); [reflexivity|]. simpl.
  destruct (hd_error _) eqn:Hh.
  - symmetry. apply existsb_exists.
    destruct (proj2 (hd_error_map_filter_some _ _ _) (ex_intro _ _ Hh))
      as (x & Hx & Hm).
    exists x. rewrite matches_levels in Hm. auto.
  - symmetry. apply not_true_is_false. intros He.
    apply existsb_exists in He as (x & Hx & Hm).
    rewrite <- matches_levels in Hm.
    destruct (proj1 (hd_error_map_filter_some
                (fun p : ctx * node => handle_of (snd p)) _ _)
                (ex_intro _ x (conj Hx Hm))) as [y Hy].
    congruence.
Qed.

Lemma existsb_descendants_ctx (f : node -> bool) n :
  forall a a',
    existsb (fun p => f (snd p)) (walk a n)
    = existsb (fun p => f (snd p)) (walk a' n).
Proof.
  induction n as [h e ks IH] using node_ind. intros a a'. simpl. f_equal.
  induction IH as [|k ks Hk _ IHks]; simpl; [reflexivity|].
  rewrite !existsb_app. f_equal; [apply Hk | apply IHks].
Qed.

(** C2. [isSleeperChar] answers "sleeper" exactly when the element itself
    or one of its descendants, at any depth, carries the asleep or the
    idle-level-three marker class, and "awake" otherwise; the answer is a
    function of the element's subtree alone (the same subtree gives the
    same answer in any store, under any handle), and the call has no
    effect: it takes the store and returns only the answer. *)
Theorem isSleeperChar_spec D el anc n :
  locate D el = Some (anc, n) ->
  (isSleeperChar D el = true <->
   exists m, inside m n /\ carries_level (elem_of m) = true) /\
  (isSleeperChar D el = false <->
   forall m, inside m n -> carries_level (elem_of m) = false) /\
  (forall D' el' anc',
     locate D' el' = Some (anc', n) -> isSleeperChar D' el' = isSleeperChar D el).
Proof.
  intros Hl.
  assert (Hiff : isSleeperChar D el = true <->
     exists m, inside m n /\ carries_level (elem_of m) = true).
  { rewrite (isSleeperChar_subtree _ _ _ _ Hl). rewrite orb_true_iff. split.
    - intros [Hs|Hd].
      + exists n. split; [constructor | exact Hs].
      + apply existsb_exists in Hd as ([a m] & Hin & Hm). exists m.
        split; [|exact Hm]. unfold descendants, walkF in Hin.
        apply in_flat_map in Hin as (k & Hk & Hp).
        destruct n as [h e ks]. eapply inside_kid; eauto.
        apply (walk_inside _ _ _ Hp).
    - intros (m & Hin & Hm). inversion Hin as [|h e ks k Hk Hik Heq]; subst.
      + left; exact Hm.
      + right. apply existsb_exists.
        destruct (inside_walk _ _ Hik ((h, e) :: anc)) as [a Ha].
        exists (a, m). split; [|exact Hm].
        unfold descendants, walkF. apply in_flat_map. eauto. }
  split; [exact Hiff|]. split.
  - split.
    + intros Hf m Hin. destruct (carries_level (elem_of m)) eqn:Hc; [|reflexivity].
      assert (isSleeperChar D el = true) by (apply Hiff; eauto). congruence.
    + intros Hall. apply not_true_is_false. intros Ht.
      apply Hiff in Ht as (m & Hin & Hm). rewrite (Hall m Hin) in Hm. discriminate.
  - intros D' el' anc' Hl'.
    rewrite (isSleeperChar_subtree _ _ _ _ Hl), (isSleeperChar_subtree _ _ _ _ Hl').
    f_equal. unfold descendants, walkF. destruct n as [h e ks]; simpl.
    clear Hl Hl' Hiff.
    induction ks as [|k ks IHks]; simpl; [reflexivity|].
    rewrite !existsb_app. f_equal; [|apply IHks].
    apply (existsb_descendants_ctx (fun m => carries_level (elem_of m))).
Qed.

(** ** Updates by handle *)

Lemma mapT_ext g g' n :
  (forall h e, g h e = g' h e) -> mapT g n = mapT g' n.
Proof.
  intros Hg. induction n as [h e ks IH] using node_ind. simpl.
  rewrite Hg. f_equal. apply map_ext_Forall. exact IH.
Qed.

Lemma mapT_mapT g g' n :
  mapT g' (mapT g n) = mapT (fun h e => g' h (g h e)) n.
Proof.
  induction n as [h e ks IH] using node_ind. simpl. f_equal.
  rewrite map_map. apply map_ext_Forall. exact IH.
Qed.

Lemma mapT_id n : mapT (fun _ e => e) n = n.
Proof.
  induction n as [h e ks IH] using node_ind. simpl. f_equal.
  rewrite <- (map_id ks) at 2. apply map_ext_Forall. exact IH.
Qed.

Lemma upd_mapT h f n :
  upd h f n = mapT (fun h' e => if Nat.eqb h' h then f e else e) n.
Proof.
  induction n as [h' e ks IH] using node_ind. simpl. f_equal.
  apply map_ext_Forall. exact IH.
Qed.

(** Applying an idempotent update at each handle of a list, one after
    the other, changes exactly the elements whose handle is in the list. *)
Lemma fold_upd_mapT f hs :
  (forall e, f (f e) = f e) ->
  forall n,
    fold_left (fun t h => upd h f t) hs n
    = mapT (fun h e => if mem h hs then f e else e) n.
Proof.
  intros Hf. induction hs as [|a hs IH]; intros n; simpl.
  - symmetry. apply mapT_id.
  - rewrite IH, upd_mapT, mapT_mapT. apply mapT_ext. intros h e.
    unfold mem; simpl. fold (mem h hs).
    destruct (Nat.eqb h a), (mem h hs); simpl; auto.
Qed.

Lemma inside_mapT g m' n :
  inside m' (mapT g n) -> exists m, inside m n /\ m' = mapT g m.
Proof.
  induction n as [h e ks IH] using node_ind. intros Hin.
  inversion Hin as [|h0 e0 ks0 k Hk Hik]; subst.
  - exists (Node h e ks). split; [constructor | reflexivity].
  - apply in_map_iff in Hk as (k0 & <- & Hk0).
    rewrite Forall_forall in IH.
    destruct (IH _ Hk0 Hik) as (m & Hm & ->).
    exists m. split; [eapply inside_kid; eauto | reflexivity].
Qed.

Lemma handle_of_mapT g n : handle_of (mapT g n) = handle_of n.
Proof. destruct n; reflexivity. Qed.

Lemma elem_of_mapT g n : elem_of (mapT g n) = g (handle_of n) (elem_of n).
Proof. destruct n; reflexivity. Qed.

Lemma kids_of_mapT g n : kids_of (mapT g n) = map (mapT g) (kids_of n).
Proof. destruct n; reflexivity. Qed.

(** ** Class lists *)

Lemma has_class_remove c e : has_class c (remove_class c e) = false.
Proof.
  unfold has_class, remove_class; simpl.
  induction (classes e) as [|x l IH]; simpl; [reflexivity|].
  destruct (String.eqb c x) eqn:E; simpl; [exact IH|]. rewrite E. exact IH.
Qed.

Lemma has_class_remove_other c c' e :
  c <> c' -> has_class c' (remove_class c e) = has_class c' e.
Proof.
  intros Hne. unfold has_class, remove_class; simpl.
  induction (classes e) as [|x l IH]; simpl; [reflexivity|].
  destruct (String.eqb c x) eqn:E; simpl.
  - apply String.eqb_eq in E; subst x.
    destruct (String.eqb c' c) eqn:E'; [apply String.eqb_eq in E'; congruence|].
    exact IH.
  - rewrite IH. reflexivity.
Qed.

Lemma remove_class_idem c e :
  remove_class c (remove_class c e) = remove_class c e.
Proof.
  unfold remove_class; simpl. f_equal.
  induction (classes e) as [|x l IH]; simpl; [reflexivity|].
  destruct (String.eqb c x) eqn:E; simpl; [exact IH|]. rewrite E. simpl.
  f_equal. exact IH.
Qed.

Lemma remove_class_absent c e : has_class c e = false -> remove_class c e = e.
Proof.
  destruct e as [t i cs s tx]. unfold has_class, remove_class; simpl.
  intros H. f_equal. induction cs as [|x l IH]; simpl in *; [reflexivity|].
  apply orb_false_iff in H as [Hx Hl]. rewrite Hx. simpl. f_equal. auto.
Qed.

Lemma has_class_add c e : has_class c (add_class c e) = true.
Proof.
  unfold add_class. destruct (has_class c e) eqn:E; [exact E|].
  unfold has_class; simpl. rewrite existsb_app. simpl.
  rewrite String.eqb_refl. apply orb_true_iff. right. reflexivity.
Qed.

Lemma has_class_add_other c c' e :
  c <> c' -> has_class c' (add_class c e) = has_class c' e.
Proof.
  intros Hne. unfold add_class. destruct (has_class c e); [reflexivity|].
  unfold has_class; simpl. rewrite existsb_app. simpl.
  destruct (String.eqb c' c) eqn:E; [apply String.eqb_eq in E; congruence|].
  rewrite !orb_false_r. reflexivity.
Qed.

(** ** Cloning *)

Lemma clone_eq nx h e ks :
  clone nx (Node h e ks) =
  let (ks', nx') := cloneF (S nx) ks in (Node nx e ks', nx').
Proof.
  simpl. replace (cloneF (S nx) ks) with
    ((fix go (nx0 : handle) (ks0 : list node) {struct ks0} : list node * handle :=
        match ks0 with
        | [] => ([], nx0)
        | k :: r =>
            let (k', nx1) := clone nx0 k in
            let (r', nx2) := go nx1 r in (k' :: r', nx2)
        end) (S nx) ks); [reflexivity|].
  generalize (S nx). induction ks as [|k r IH]; intros n0; simpl; [reflexivity|].
  destruct (clone n0 k). rewrite IH. reflexivity.
Qed.

Lemma clone_erase n : forall nx, erase (fst (clone nx n)) = erase n.
Proof.
  induction n as [h e ks IH] using node_ind. intros nx. rewrite clone_eq.
  destruct (cloneF (S nx) ks) as [ks' nx'] eqn:E. simpl. f_equal.
  change ks' with (fst (ks', nx')). rewrite <- E. clear E.
  generalize (S nx). induction IH as [|k r Hk _ IHr]; intros n0; simpl.
  - reflexivity.
  - specialize (Hk n0). destruct (clone n0 k) as [k' n1]. simpl in Hk.
    specialize (IHr n1). destruct (cloneF n1 r) as [r' n2]. simpl in *.
    rewrite Hk, IHr. reflexivity.
Qed.

Lemma mapT_ext_inside g g' n :
  (forall m, inside m n ->
     g (handle_of m) (elem_of m) = g' (handle_of m) (elem_of m)) ->
  mapT g n = mapT g' n.
Proof.
  induction n as [h e ks IH] using node_ind. intros Hg. simpl. f_equal.
  - apply (Hg (Node h e ks)). constructor.
  - apply map_ext_Forall. rewrite Forall_forall in *. intros k Hk.
    apply IH; [exact Hk|]. intros m Hm. apply Hg. eapply inside_kid; eauto.
Qed.

Lemma erase_mapT f n : erase (mapT (fun _ e => f e) n) = mapS f (erase n).
Proof.
  induction n as [h e ks IH] using node_ind. simpl. f_equal.
  rewrite !map_map. apply map_ext_Forall. exact IH.
Qed.

Lemma mem_In h hs : mem h hs = true <-> In h hs.
Proof.
  unfold mem. rewrite existsb_exists. split.
  - intros (x & Hx & E). apply Nat.eqb_eq in E. subst. exact Hx.
  - intros H. exists h. split; [exact H | apply Nat.eqb_refl].
Qed.

Lemma matches_cls c p : matches (cls c) p = has_class c (elem_of (snd p)).
Proof.
  unfold matches, cls; simpl. rewrite !andb_true_r, orb_false_r. reflexivity.
Qed.

(** The cloning loop strips the marker from every element of the clone:
    from the root by the first call, from the others because each that
    has it is found by the query. *)
Lemma strip_clone_mapT c :
  strip_clone c = mapT (fun _ e => remove_class hidden e) c.
Proof.
  unfold strip_clone.
  rewrite fold_upd_mapT by (intros; apply remove_class_idem).
  rewrite upd_mapT, mapT_mapT. apply mapT_ext_inside. intros m Hm.
  set (c1 := mapT _ c).
  destruct (Nat.eqb (handle_of m) (handle_of c)) eqn:Hroot.
  - destruct (mem _ _); [apply remove_class_idem | reflexivity].
  - destruct (mem _ _) eqn:Hmem; [reflexivity|].
    destruct (has_class hidden (elem_of m)) eqn:Hh;
      [|symmetry; apply remove_class_absent; exact Hh].
    exfalso. assert (Hin : In (handle_of m) (node_querySelectorAll c1 (cls hidden))).
    { inversion Hm as [|h e ks k Hk Hik Heq]; subst.
      - rewrite Nat.eqb_refl in Hroot. discriminate.
      - unfold node_querySelectorAll. apply in_map_iff.
        set (g := fun h' e0 => if Nat.eqb h' h then remove_class hidden e0 else e0)
          in *.
        assert (Hik' : inside (mapT g m) (mapT g k)).
        { clear -Hik. induction Hik; simpl; [constructor|].
          eapply inside_kid; [apply in_map; eassumption | assumption]. }
        destruct (inside_walk _ _ Hik' ((h, g h e) :: [])) as [a Ha].
        exists (a, mapT g m). split; [apply handle_of_mapT|].
        apply filter_In. split.
        + unfold descendants, walkF, c1. simpl. apply in_flat_map.
          exists (mapT g k). split; [apply in_map; exact Hk | exact Ha].
        + rewrite matches_cls. simpl. rewrite elem_of_mapT. unfold g.
          simpl in Hroot. rewrite Hroot. exact Hh. }
    apply mem_In in Hin. congruence.
Qed.

Lemma strip_clone_erase nx n :
  erase (strip_clone (fst (clone nx n))) = unhidden (erase n).
Proof.
  rewrite strip_clone_mapT, erase_mapT, clone_erase. reflexivity.
Qed.

Lemma strip_clone_no_hidden c m :
  inside m (strip_clone c) -> has_class hidden (elem_of m) = false.
Proof.
  rewrite strip_clone_mapT. intros Hin.
  apply inside_mapT in Hin as (m0 & _ & ->).
  rewrite elem_of_mapT. apply has_class_remove.
Qed.

(** ** The sleepers section *)

Lemma clone_loop_stripped D sl : forall acc,
  Forall (fun c => exists c0, c = strip_clone c0) (fst acc) ->
  Forall (fun c => exists c0, c = strip_clone c0)
         (fst (fold_left (clone_sleeper D) sl acc)).
Proof.
  induction sl as [|el sl IH]; intros acc Hacc; simpl; [exact Hacc|].
  apply IH. unfold clone_sleeper. destruct (locate D el) as [[a n]|]; [|exact Hacc].
  destruct (clone (snd acc) n) as [c nx]. simpl.
  apply Forall_app. split; [exact Hacc|]. constructor; [eauto | constructor].
Qed.

Lemma clone_loop_each D sl : forall acc,
  Forall (fun el => locate D el <> None) sl ->
  exists cs,
    fst (fold_left (clone_sleeper D) sl acc) = fst acc ++ cs /\
    Forall2 (fun el c => exists a m, locate D el = Some (a, m) /\
                                     erase c = unhidden (erase m)) sl cs.
Proof.
  induction sl as [|el sl IH]; intros acc Hv; simpl.
  - exists []. rewrite app_nil_r. split; [reflexivity | constructor].
  - inversion Hv as [|? ? Hel Hsl]; subst.
    destruct (IH (clone_sleeper D acc el) Hsl) as (cs & Hcs & HF).
    unfold clone_sleeper in *. destruct (locate D el) as [[a n]|] eqn:Hl;
      [|congruence].
    pose proof (strip_clone_erase (snd acc) n) as Her.
    destruct (clone (snd acc) n) as [c nx]. simpl in *.
    exists (strip_clone c :: cs). split.
    + rewrite Hcs, <- app_assoc. reflexivity.
    + constructor; [|exact HF]. exists a, n. auto.
Qed.

Lemma section_body_eq P D sl :
  section_body (fst (createSleepersSection P D sl)) =
  if Nat.eqb (List.length sl) 0
  then [Node (next D + 6)
          (new_elem "div" "" [no_sleepers_class] "No sleepers in room.") []]
  else fst (fold_left (clone_sleeper D) sl ([], next D + 6)).
Proof.
  unfold createSleepersSection.
  destruct (Nat.eqb (List.length sl) 0); [reflexivity|].
  destruct (fold_left _ _ _). reflexivity.
Qed.

Lemma section_count_eq P D sl :
  section_count (fst (createSleepersSection P D sl)) =
  String.append "(" (String.append (show_nat (List.length sl)) ")").
Proof.
  unfold createSleepersSection.
  destruct (if Nat.eqb (List.length sl) 0 then _ else _). reflexivity.
Qed.

(** X24 (C8, in the current variant).  Every clone put into the body
    of the sleepers section is free of
    the hidden marker: neither its root nor any of its descendants
    carries it, whatever the original looked like. *)
Theorem clones_carry_no_hidden_marker P D sleepers c m :
  In c (section_body (fst (createSleepersSection P D sleepers))) ->
  inside m c ->
  has_class hidden (elem_of m) = false.
Proof.
  rewrite section_body_eq. destruct (Nat.eqb (List.length sleepers) 0).
  - intros [<-|[]] Hm. inversion Hm as [|? ? ? k Hk]; subst; [reflexivity|].
    destruct Hk.
  - intros Hc Hm.
    pose proof (clone_loop_stripped D sleepers ([], next D + 6) (Forall_nil _))
      as HF.
    rewrite Forall_forall in HF. destruct (HF c Hc) as [c0 ->].
    eapply strip_clone_no_hidden; eauto.
Qed.

(** C6. The section built from a list of [n] sleeper elements has the
    count label "(n)"; for [n = 0] its body is the empty-state message,
    and for [n > 0] its body holds, in order, one clone of each sleeper
    (the sleeper's tree without hidden markers).  On the page with five
    characters of which three are sleepers, the label reads "(3)" and
    two entries stay visible in the main list. *)
Theorem sleepers_section_contents P D sleepers :
  let s := fst (createSleepersSection P D sleepers) in
  let n := List.length sleepers in
  section_count s = String.append "(" (String.append (show_nat n) ")") /\
  (n = 0 ->
   map erase (section_body s) =
   [Shape (new_elem "div" "" [no_sleepers_class] "No sleepers in room.") []]) /\
  (0 < n ->
   Forall (fun el => locate D el <> None) sleepers ->
   List.length (section_body s) = n /\
   Forall2 (fun el c => exists a m, locate D el = Some (a, m) /\
                                    erase c = unhidden (erase m))
           sleepers (section_body s)) /\
  (let D' := store_of (applyFilter Ex.split_on Ex.five) in
   texts_of D' (cls "msf-sleepers-count") = ["(3)"] /\
   List.length (visible_chars D') = 2 /\
   List.length (getCharElements D' (option_map snd (findInRoomSection D'))) = 5).
Proof.
  cbv zeta. split; [apply section_count_eq|]. rewrite section_body_eq.
  split; [|split].
  - intros ->. reflexivity.
  - intros Hn Hv. destruct (Nat.eqb (List.length sleepers) 0) eqn:E.
    + apply Nat.eqb_eq in E. lia.
    + destruct (clone_loop_each D sleepers ([], next D + 6) Hv) as (cs & -> & HF).
      simpl. split; [|exact HF]. symmetry. eapply Forall2_length; eauto.
  - vm_compute. auto.
Qed.

(** ** The mutation observer *)

Lemma closest_in_compound c e anc :
  closest_in [[c]] e anc = existsb (matches_compound c) (e :: map snd anc).
Proof.
  revert e. induction anc as [|[h a] r IH]; intros e; simpl.
  - rewrite andb_true_r, !orb_false_r. reflexivity.
  - rewrite andb_true_r, orb_false_r, IH. reflexivity.
Qed.

Lemma existsb_or {A} (f g : A -> bool) l :
  existsb f l || existsb g l = existsb (fun x => f x || g x) l.
Proof.
  induction l as [|a l IH]; simpl; [reflexivity|]. rewrite <- IH.
  destruct (f a), (g a), (existsb f l); reflexivity.
Qed.

Lemma matches_compound_id i e :
  matches_compound [SId i] e = String.eqb i (eid e).
Proof. unfold matches_compound. cbn [forallb matches_simple]. apply andb_true_r. Qed.

Lemma matches_compound_class c e :
  matches_compound [SClass c] e = has_class c e.
Proof. unfold matches_compound. cbn [forallb matches_simple]. apply andb_true_r. Qed.

Lemma own_target_iff D t :
  own_target D t = true <-> lies_within_injected D t.
Proof.
  destruct t as [| |h]; simpl; try (split; [discriminate | tauto]).
  unfold closest, classList_contains.
  destruct (locate D h) as [[anc n]|]; simpl.
  - unfold cls. rewrite !closest_in_compound, existsb_or, !orb_true_iff. split.
    + intros H. exists anc, n. split; [reflexivity|].
      destruct H as [[[H|H]|H]|H].
      * left. apply Exists_exists. apply existsb_exists in H as (x & Hx & Hm).
        exists x. split; [exact Hx|]. apply orb_true_iff in Hm as [Hm|Hm].
        -- left. rewrite matches_compound_id in Hm.
           apply String.eqb_eq in Hm. auto.
        -- right. rewrite matches_compound_class in Hm. exact Hm.
      * right. constructor. exact H.
      * right. constructor 2. constructor. exact H.
      * right. constructor 2. constructor 2. constructor. exact H.
    + intros (a & m & E & H). inversion E; subst a m.
      destruct H as [H|H].
      * left; left; left. apply existsb_exists. apply Exists_exists in H as (x & Hx & Hm).
        exists x. split; [exact Hx|]. apply orb_true_iff.
        rewrite matches_compound_id, matches_compound_class.
        destruct Hm as [Hm|Hm];
          [left; apply String.eqb_eq; auto | right; exact Hm].
      * inversion H as [? ? H1|? ? H1]; subst; [left; left; right; exact H1|].
        inversion H1 as [? ? H2|? ? H2]; subst; [left; right; exact H2|].
        inversion H2 as [? ? H3|? ? H3]; subst; [right; exact H3|].
        inversion H3.
  - split; [discriminate|]. intros (a & m & E & _). discriminate.
Qed.

Lemma shouldReapply_skip D pre m post :
  own_target D (m_target m) = true ->
  shouldReapply D (pre ++ m :: post) = shouldReapply D (pre ++ post).
Proof.
  intros Hown. induction pre as [|x pre IH]; cbn [shouldReapply app].
  - destruct (m_target m); try discriminate Hown. rewrite Hown. reflexivity.
  - rewrite IH. reflexivity.
Qed.

Lemma shouldReapply_all_own D muts :
  Forall (fun m => own_target D (m_target m) = true) muts ->
  shouldReapply D muts = false.
Proof.
  induction 1 as [|m r Hm _ IH]; cbn [shouldReapply]; [reflexivity|].
  destruct (m_target m); try discriminate Hm. rewrite Hm. exact IH.
Qed.

(** X25 (C9, in the current variant).  A mutation whose target lies
    within the script's own nodes (the
    sleepers section, the toggle control, or an element carrying one of
    the marker classes the observer reserves) never by itself makes the
    observer schedule [applyFilter]: taking such a record out of a batch
    does not change the decision, and a batch made of such records only
    leaves the debounce timer as it was. *)
Theorem own_mutations_do_not_schedule D now t :
  (forall pre m post,
     lies_within_injected D (m_target m) ->
     observerCallback D now (pre ++ m :: post) t
     = observerCallback D now (pre ++ post) t) /\
  (forall batch,
     Forall (fun m => lies_within_injected D (m_target m)) batch ->
     observerCallback D now batch t = t).
Proof.
  split.
  - intros pre m post Hm. unfold observerCallback.
    rewrite shouldReapply_skip by (apply own_target_iff; exact Hm). reflexivity.
  - intros batch Hb. unfold observerCallback.
    rewrite shouldReapply_all_own; [reflexivity|].
    eapply Forall_impl; [|exact Hb]. intros m. apply own_target_iff.
Qed.

(** ** Stores that differ in element data only *)

Lemma walk_mapT g n :
  forall anc, walk (mapC g anc) (mapT g n) = map (mapP g) (walk anc n).
Proof.
  induction n as [h e ks IH] using node_ind. intros anc. simpl.
  unfold mapP at 1. simpl. f_equal.
  rewrite flat_map_concat_map, map_map, flat_map_concat_map, concat_map, map_map.
  f_equal. apply map_ext_Forall. rewrite Forall_forall in *. intros k Hk.
  apply (IH k Hk ((h, e) :: anc)).
Qed.

Lemma walkF_mapT g ns anc :
  walkF (mapC g anc) (map (mapT g) ns) = map (mapP g) (walkF anc ns).
Proof.
  unfold walkF. rewrite !flat_map_concat_map, map_map, concat_map, map_map.
  f_equal. apply map_ext. intros n. apply walk_mapT.
Qed.

Lemma all_nodes_mapTD g D : all_nodes (mapTD g D) = map (mapP g) (all_nodes D).
Proof.
  unfold all_nodes. simpl. rewrite map_app.
  rewrite <- !walkF_mapT. reflexivity.
Qed.

Lemma find_map {A B} (f : A -> B) (p : B -> bool) l :
  find p (map f l) = option_map f (find (fun x => p (f x)) l).
Proof.
  induction l as [|a l IH]; simpl; [reflexivity|].
  destruct (p (f a)); [reflexivity | exact IH].
Qed.

Lemma find_pointwise {A} (p q : A -> bool) l :
  (forall x, p x = q x) -> find p l = find q l.
Proof.
  intros H. induction l as [|a l IH]; simpl; [reflexivity|].
  rewrite H, IH. reflexivity.
Qed.

Lemma locate_mapTD g D h :
  locate (mapTD g D) h = option_map (mapP g) (locate D h).
Proof.
  unfold locate. rewrite all_nodes_mapTD, find_map. f_equal.
  apply find_pointwise. intros [a n]. simpl. rewrite handle_of_mapT. reflexivity.
Qed.

Lemma in_doc_mapTD g D h :
  in_doc (mapTD g D) h = option_map (mapP g) (in_doc D h).
Proof.
  unfold in_doc. simpl. change (@nil (handle * elem)) with (mapC g []).
  rewrite walkF_mapT, find_map. f_equal.
  apply find_pointwise. intros [a n]. simpl. rewrite handle_of_mapT. reflexivity.
Qed.

Lemma updD_mapTD h f D :
  updD h f D = mapTD (fun h' e => if Nat.eqb h' h then f e else e) D.
Proof.
  unfold updD, mapTD. f_equal; apply map_ext; intros; apply upd_mapT.
Qed.

Lemma mapTD_mapTD g g' D :
  mapTD g' (mapTD g D) = mapTD (fun h e => g' h (g h e)) D.
Proof.
  unfold mapTD. simpl. rewrite !map_map.
  f_equal; apply map_ext; intros; apply mapT_mapT.
Qed.

Lemma mapTD_ext g g' D :
  (forall h e, g h e = g' h e) -> mapTD g D = mapTD g' D.
Proof.
  intros Hg. unfold mapTD. f_equal; apply map_ext; intros; apply mapT_ext, Hg.
Qed.

Lemma mapTD_id D : mapTD (fun _ e => e) D = D.
Proof.
  destruct D as [d l n]. unfold mapTD. simpl. f_equal.
  - rewrite <- (map_id d) at 2. apply map_ext. intros; apply mapT_id.
  - rewrite <- (map_id l) at 2. apply map_ext. intros; apply mapT_id.
Qed.

Lemma fold_updD_mapTD f hs :
  (forall e, f (f e) = f e) ->
  forall D,
    fold_left (fun D h => updD h f D) hs D
    = mapTD (fun h e => if mem h hs then f e else e) D.
Proof.
  intros Hf. induction hs as [|a hs IH]; intros D; simpl.
  - symmetry. apply mapTD_id.
  - rewrite IH, updD_mapTD, mapTD_mapTD. apply mapTD_ext. intros h e.
    unfold mem; simpl. fold (mem h hs).
    destruct (Nat.eqb h a), (mem h hs); simpl; auto.
Qed.

(** ** Selectors and the hidden marker *)

Lemma same_but_hidden_refl e : same_but_hidden e e.
Proof. repeat split. Qed.

Lemma same_but_hidden_trans e1 e2 e3 :
  same_but_hidden e1 e2 -> same_but_hidden e2 e3 -> same_but_hidden e1 e3.
Proof.
  intros (A1 & A2 & A3 & A4 & A5) (B1 & B2 & B3 & B4 & B5).
  repeat split; try congruence. intros c Hc. rewrite A5, B5; auto.
Qed.

Lemma hidden_ne c : String.eqb c hidden = false -> c <> hidden.
Proof. intros H E. subst. rewrite String.eqb_refl in H. discriminate. Qed.

Lemma same_but_hidden_remove e : same_but_hidden e (remove_class hidden e).
Proof.
  repeat split. intros c Hc. symmetry. apply has_class_remove_other. congruence.
Qed.

Lemma same_but_hidden_add e : same_but_hidden e (add_class hidden e).
Proof.
  repeat split; try (unfold add_class; destruct (has_class hidden e); reflexivity).
  intros c Hc. symmetry. apply has_class_add_other. congruence.
Qed.

Lemma matches_compound_same c e e' :
  forallb simple_avoids c = true -> same_but_hidden e e' ->
  matches_compound c e = matches_compound c e'.
Proof.
  intros Hc (A1 & A2 & _ & _ & A5). unfold matches_compound.
  induction c as [|s c IH]; [reflexivity|]. cbn [forallb] in *.
  apply andb_true_iff in Hc as [Hs Hc]. rewrite (IH Hc). f_equal.
  destruct s as [x|t|i]; cbn [matches_simple].
  - apply A5. apply hidden_ne. cbn in Hs. destruct (String.eqb x hidden);
      [discriminate | reflexivity].
  - rewrite A1. reflexivity.
  - rewrite A2. reflexivity.
Qed.

Lemma matches_anc_same cs :
  forallb (forallb simple_avoids) cs = true ->
  forall l l', Forall2 same_but_hidden l l' ->
  matches_anc cs l = matches_anc cs l'.
Proof.
  induction cs as [|c cs IH]; intros Hcs l l' HF; [reflexivity|].
  cbn [forallb] in Hcs. apply andb_true_iff in Hcs as [Hc Hcs].
  induction HF as [|a a' l l' Ha HF IHF]; [reflexivity|].
  cbn [matches_anc] in *. rewrite (matches_compound_same c a a' Hc Ha).
  destruct (matches_compound c a'); [apply IH; assumption | exact IHF].
Qed.

Lemma mapC_same g anc :
  hidden_only g -> Forall2 same_but_hidden (map snd anc) (map snd (mapC g anc)).
Proof.
  intros Hg. induction anc as [|[h e] r IH]; simpl; constructor; auto.
Qed.

Lemma matches_mapP g sel p :
  avoids_hidden sel = true -> hidden_only g ->
  matches sel (mapP g p) = matches sel p.
Proof.
  intros Hsel Hg. unfold matches, avoids_hidden in *.
  induction sel as [|cx sel IH]; [reflexivity|]. cbn [forallb existsb] in *.
  apply andb_true_iff in Hsel as [Hcx Hsel]. rewrite (IH Hsel). f_equal.
  destruct p as [anc n]. unfold mapP; simpl. rewrite elem_of_mapT.
  destruct cx as [|c cs]; [reflexivity|]. cbn [matches_complex forallb] in *.
  apply andb_true_iff in Hcx as [Hc Hcs].
  rewrite <- (matches_compound_same c _ _ Hc (Hg (handle_of n) (elem_of n))).
  f_equal. symmetry. apply matches_anc_same; [exact Hcs | apply mapC_same, Hg].
Qed.

Lemma handles_of_filter_mapP g p l :
  (forall x, p (mapP g x) = p x) ->
  map (fun x : ctx * node => handle_of (snd x)) (filter p (map (mapP g) l))
  = map (fun x => handle_of (snd x)) (filter p l).
Proof.
  intros Hp. induction l as [|a l IH]; simpl; [reflexivity|].
  rewrite Hp. destruct (p a); simpl; rewrite IH; [|reflexivity].
  rewrite handle_of_mapT. reflexivity.
Qed.

Lemma descendants_mapT g anc n :
  descendants (mapC g anc) (mapT g n) = map (mapP g) (descendants anc n).
Proof.
  unfold descendants. rewrite handle_of_mapT, elem_of_mapT, kids_of_mapT.
  apply (walkF_mapT g (kids_of n) ((handle_of n, elem_of n) :: anc)).
Qed.

Section HiddenOnly.

Variable g : handle -> elem -> elem.
Hypothesis Hg : hidden_only g.
Variable sel : selector.
Hypothesis Hsel : avoids_hidden sel = true.

Lemma doc_querySelectorAll_mapTD D :
  doc_querySelectorAll (mapTD g D) sel = doc_querySelectorAll D sel.
Proof.
  unfold doc_querySelectorAll. simpl.
  change (@nil (handle * elem)) with (mapC g []). rewrite walkF_mapT.
  apply handles_of_filter_mapP. intros x. apply matches_mapP; assumption.
Qed.

Lemma querySelectorAll_mapTD D el :
  querySelectorAll (mapTD g D) el sel = querySelectorAll D el sel.
Proof.
  unfold querySelectorAll. rewrite locate_mapTD.
  destruct (locate D el) as [[anc n]|]; [|reflexivity]. simpl.
  rewrite descendants_mapT.
  apply handles_of_filter_mapP. intros x. apply matches_mapP; assumption.
Qed.

Lemma querySelector_mapTD D el :
  querySelector (mapTD g D) el sel = querySelector D el sel.
Proof. unfold querySelector. rewrite querySelectorAll_mapTD. reflexivity. Qed.

Lemma doc_querySelector_mapTD D :
  doc_querySelector (mapTD g D) sel = doc_querySelector D sel.
Proof.
  unfold doc_querySelector. rewrite doc_querySelectorAll_mapTD. reflexivity.
Qed.

Lemma img_src_mapTD D h : img_src (mapTD g D) h = img_src D h.
Proof.
  unfold img_src. rewrite locate_mapTD.
  destruct (locate D h) as [[anc n]|]; [|reflexivity]. simpl.
  rewrite elem_of_mapT. destruct (Hg (handle_of n) (elem_of n)) as (_ & _ & E & _).
  symmetry. exact E.
Qed.

Lemma classList_contains_mapTD D h c :
  c <> hidden ->
  classList_contains (mapTD g D) h c = classList_contains D h c.
Proof.
  intros Hc. unfold classList_contains. rewrite locate_mapTD.
  destruct (locate D h) as [[anc n]|]; [|reflexivity]. simpl.
  rewrite elem_of_mapT.
  destruct (Hg (handle_of n) (elem_of n)) as (_ & _ & _ & _ & E).
  symmetry. apply E. exact Hc.
Qed.

Lemma parentElement_mapTD D h :
  parentElement (mapTD g D) h = parentElement D h.
Proof.
  unfold parentElement. rewrite locate_mapTD.
  destruct (locate D h) as [[[|[p e] anc] n]|]; reflexivity.
Qed.

End HiddenOnly.

Lemma isSleeperChar_mapTD g D el :
  hidden_only g -> isSleeperChar (mapTD g D) el = isSleeperChar D el.
Proof.
  intros Hg. unfold isSleeperChar.
  rewrite !(classList_contains_mapTD g Hg) by discriminate.
  rewrite (querySelector_mapTD g Hg) by reflexivity. reflexivity.
Qed.

Lemma hidden_only_upd_remove h :
  hidden_only (fun h' e => if Nat.eqb h' h then remove_class hidden e else e).
Proof.
  intros h' e. destruct (Nat.eqb h' h);
    [apply same_but_hidden_remove | apply same_but_hidden_refl].
Qed.

Lemma hidden_only_upd_add h :
  hidden_only (fun h' e => if Nat.eqb h' h then add_class hidden e else e).
Proof.
  intros h' e. destruct (Nat.eqb h' h);
    [apply same_but_hidden_add | apply same_but_hidden_refl].
Qed.

Lemma hidden_only_comp g g' :
  hidden_only g -> hidden_only g' -> hidden_only (fun h e => g' h (g h e)).
Proof.
  intros Hg Hg' h e. eapply same_but_hidden_trans; [apply Hg | apply Hg'].
Qed.

Lemma hidden_only_mem_remove hs :
  hidden_only (fun h e => if mem h hs then remove_class hidden e else e).
Proof.
  intros h e. destruct (mem h hs);
    [apply same_but_hidden_remove | apply same_but_hidden_refl].
Qed.

(** Element data at a handle. *)
Lemma classList_contains_updD D h' f h c :
  classList_contains (updD h' f D) h c =
  match locate D h with
  | Some (_, n) =>
      has_class c (if Nat.eqb h h' then f (elem_of n) else elem_of n)
  | None => false
  end.
Proof.
  unfold classList_contains. rewrite updD_mapTD, locate_mapTD.
  destruct (locate D h) as [[anc n]|] eqn:E; [|reflexivity]. simpl.
  rewrite elem_of_mapT.
  assert (handle_of n = h) as ->; [|reflexivity].
  unfold locate in E. apply find_some in E as [_ E]. simpl in E.
  apply Nat.eqb_eq. exact E.
Qed.

Lemma locate_handle D h a n : locate D h = Some (a, n) -> handle_of n = h.
Proof.
  unfold locate. intros E. apply find_some in E as [_ E]. simpl in E.
  apply Nat.eqb_eq. exact E.
Qed.

(** ** Well-formed stores *)

Lemma handles_walk n :
  forall a, handles n = map (fun p => handle_of (snd p)) (walk a n).
Proof.
  induction n as [h e ks IH] using node_ind. intros a. simpl. f_equal.
  rewrite !flat_map_concat_map, concat_map, map_map. f_equal.
  apply map_ext_Forall. rewrite Forall_forall in *. intros k Hk. apply (IH k Hk).
Qed.

Lemma handlesF_walkF ns a :
  handlesF ns = map (fun p => handle_of (snd p)) (walkF a ns).
Proof.
  unfold handlesF, walkF. rewrite !flat_map_concat_map, concat_map, map_map.
  f_equal. apply map_ext. intros n. apply handles_walk.
Qed.

Lemma all_handles D :
  handlesF (doc D) ++ handlesF (limbo D)
  = map (fun p => handle_of (snd p)) (all_nodes D).
Proof.
  unfold all_nodes. rewrite map_app, <- !handlesF_walkF. reflexivity.
Qed.

Lemma find_unique {A} (k : A -> nat) l p :
  NoDup (map k l) -> In p l -> find (fun x => Nat.eqb (k x) (k p)) l = Some p.
Proof.
  induction l as [|a l IH]; intros Hnd Hin; [destruct Hin|].
  simpl in *. inversion Hnd as [|? ? Hna Hnd']; subst.
  destruct Hin as [->|Hin].
  - rewrite Nat.eqb_refl. reflexivity.
  - destruct (Nat.eqb (k a) (k p)) eqn:E; [|auto].
    apply Nat.eqb_eq in E. exfalso. apply Hna. rewrite E. apply in_map. exact Hin.
Qed.

(** In a well-formed store a handle denotes the one node that carries it. *)
Lemma locate_unique D p :
  wf D -> In p (all_nodes D) -> locate D (handle_of (snd p)) = Some p.
Proof.
  intros [Hnd _] Hin. unfold locate.
  apply (find_unique (fun x : ctx * node => handle_of (snd x))); [|exact Hin].
  rewrite <- all_handles. exact Hnd.
Qed.

Lemma in_doc_all_nodes D p : In p (walkF [] (doc D)) -> In p (all_nodes D).
Proof. intros H. unfold all_nodes. apply in_or_app. left. exact H. Qed.

Lemma doc_query_In D sel h :
  In h (doc_querySelectorAll D sel) <->
  exists p, In p (walkF [] (doc D)) /\ matches sel p = true /\ handle_of (snd p) = h.
Proof.
  unfold doc_querySelectorAll. rewrite in_map_iff. split.
  - intros (p & E & Hp). apply filter_In in Hp as [Hp Hm]. eauto.
  - intros (p & Hp & Hm & E). exists p. split; [exact E|]. apply filter_In. auto.
Qed.

(** ** Exit thumbnails *)

Lemma unhideExitChars_mapTD D :
  unhideExitChars D =
  mapTD (fun h e => if mem h (doc_querySelectorAll D sel_exitchar_hidden)
                    then remove_class hidden e else e) D.
Proof.
  unfold unhideExitChars, classList_remove.
  apply (fold_updD_mapTD (remove_class hidden)). apply remove_class_idem.
Qed.

Lemma matches_exitchar_hidden p :
  matches sel_exitchar_hidden p =
  matches sel_exitchar p && has_class hidden (elem_of (snd p)).
Proof.
  unfold matches, sel_exitchar_hidden, sel_exitchar, cls.
  cbn [existsb matches_complex matches_compound forallb matches_simple matches_anc].
  rewrite !andb_true_r, !orb_false_r. reflexivity.
Qed.

Lemma unhide_exit D x :
  wf D -> In x (getExitCharElements D) -> is_hidden (unhideExitChars D) x = false.
Proof.
  intros Hwf Hx. rewrite unhideExitChars_mapTD.
  unfold is_hidden, classList_contains. rewrite locate_mapTD.
  apply doc_query_In in Hx as (p & Hp & Hm & E). subst x.
  rewrite (locate_unique D p Hwf (in_doc_all_nodes _ _ Hp)). simpl.
  rewrite elem_of_mapT. destruct (mem _ _) eqn:Hmem; [apply has_class_remove|].
  destruct (has_class hidden (elem_of (snd p))) eqn:Hh; [|reflexivity].
  exfalso. assert (In (handle_of (snd p)) (doc_querySelectorAll D sel_exitchar_hidden)).
  { apply doc_query_In. exists p. repeat split; [exact Hp|].
    rewrite matches_exitchar_hidden, Hm, Hh. reflexivity. }
  apply mem_In in H. congruence.
Qed.

Lemma hideIfMatching_wants urls D x :
  hideIfMatching urls D x =
  if wants urls D x then classList_add D x hidden else D.
Proof.
  unfold hideIfMatching, wants, exit_signature, signature.
  destruct (querySelector D x sel_img); [|reflexivity].
  destruct (String.eqb (img_src D h) ""); reflexivity.
Qed.

Lemma signature_mapTD g sel D el :
  hidden_only g -> avoids_hidden sel = true ->
  signature sel (mapTD g D) el = signature sel D el.
Proof.
  intros Hg Hsel. unfold signature.
  rewrite (querySelector_mapTD g Hg sel Hsel).
  destruct (querySelector D el sel); [|reflexivity].
  rewrite (img_src_mapTD g Hg). reflexivity.
Qed.

Lemma wants_mapTD g urls D x :
  hidden_only g -> wants urls (mapTD g D) x = wants urls D x.
Proof.
  intros Hg. unfold wants, exit_signature.
  rewrite (signature_mapTD g) by (auto; reflexivity). reflexivity.
Qed.

Lemma signature_located sel D el u :
  signature sel D el = Some u -> exists p, locate D el = Some p.
Proof.
  unfold signature, querySelector, querySelectorAll.
  destruct (locate D el); [eauto | discriminate].
Qed.

Lemma hide_loop urls L : forall D h,
  is_hidden (fold_left (hideIfMatching urls) L D) h
  = is_hidden D h || (mem h L && wants urls D h).
Proof.
  induction L as [|x L IH]; intros D h; simpl.
  - rewrite orb_false_r. reflexivity.
  - rewrite IH, hideIfMatching_wants.
    destruct (wants urls D x) eqn:Hw.
    + unfold classList_add. rewrite updD_mapTD at 2.
      rewrite (wants_mapTD _ urls D h (hidden_only_upd_add x)).
      unfold is_hidden at 1. rewrite classList_contains_updD.
      fold (mem h L). destruct (Nat.eqb h x) eqn:E.
      * apply Nat.eqb_eq in E. subst h. rewrite Hw.
        unfold wants in Hw. destruct (exit_signature D x) eqn:Es; [|discriminate].
        destruct (signature_located _ _ _ _ Es) as [[a n] Hl]. rewrite Hl.
        rewrite has_class_add. simpl. rewrite orb_true_r. reflexivity.
      * unfold is_hidden, classList_contains.
        destruct (locate D h) as [[a n]|]; reflexivity.
    + fold (mem h L). destruct (Nat.eqb h x) eqn:E; [|reflexivity].
      apply Nat.eqb_eq in E. subst h. rewrite Hw, !andb_false_r.
      rewrite !orb_false_r. reflexivity.
Qed.

Lemma set_has_add x y s :
  set_has x (set_add y s) = String.eqb x y || set_has x s.
Proof.
  unfold set_has, set_add. destruct (existsb (String.eqb y) s) eqn:E.
  - destruct (String.eqb x y) eqn:Exy; [|reflexivity].
    apply String.eqb_eq in Exy. subst. simpl. exact E.
  - rewrite existsb_app. simpl. rewrite orb_false_r. apply orb_comm.
Qed.

Lemma addAvatarUrl_signature D urls el :
  addAvatarUrl D urls el =
  match sleeper_signature D el with
  | Some u => set_add u urls
  | None => urls
  end.
Proof.
  unfold addAvatarUrl, sleeper_signature, signature.
  destruct (querySelector D el sel_avatar_img); [|reflexivity].
  destruct (String.eqb (img_src D h) ""); reflexivity.
Qed.

Lemma avatar_loop D u sl : forall acc,
  set_has u (fold_left (addAvatarUrl D) sl acc) = true <->
  set_has u acc = true \/ exists s, In s sl /\ sleeper_signature D s = Some u.
Proof.
  induction sl as [|el sl IH]; intros acc; simpl.
  - split; [auto | intros [H|(s & [] & _)]; exact H].
  - rewrite IH, addAvatarUrl_signature. split.
    + intros [H|(s & Hs & E)]; [|right; eauto].
      destruct (sleeper_signature D el) as [v|] eqn:Ev; [|auto].
      rewrite set_has_add in H. apply orb_true_iff in H as [H|H]; [|auto].
      apply String.eqb_eq in H. subst v. right. eauto.
    + intros [H|(s & [->|Hs] & E)].
      * left. destruct (sleeper_signature D el); [|exact H].
        rewrite set_has_add, H. apply orb_true_r.
      * left. rewrite E, set_has_add, String.eqb_refl. reflexivity.
      * right. eauto.
Qed.

Lemma sleeperAvatarUrls_has D sl u :
  set_has u (sleeperAvatarUrls D sl) = true <->
  exists s, In s sl /\ sleeper_signature D s = Some u.
Proof.
  unfold sleeperAvatarUrls. rewrite avatar_loop. simpl. split.
  - intros [H|H]; [discriminate | exact H].
  - auto.
Qed.

Lemma sleeperAvatarUrls_mapTD g D sl :
  hidden_only g -> sleeperAvatarUrls (mapTD g D) sl = sleeperAvatarUrls D sl.
Proof.
  intros Hg. unfold sleeperAvatarUrls. generalize (@nil string).
  induction sl as [|el sl IH]; intros acc; simpl; [reflexivity|].
  rewrite IH. f_equal. rewrite !addAvatarUrl_signature.
  unfold sleeper_signature. rewrite (signature_mapTD g) by (auto; reflexivity).
  reflexivity.
Qed.

Lemma wants_matches D sl x :
  wants (sleeperAvatarUrls D sl) D x = true <-> signature_matches D sl x.
Proof.
  unfold wants, signature_matches. destruct (exit_signature D x) as [u|].
  - rewrite sleeperAvatarUrls_has. split.
    + intros (s & Hs & E). exists u, s. auto.
    + intros (u' & s & E & Hs & Es). inversion E; subst. eauto.
  - split; [discriminate | intros (u & s & E & _); discriminate].
Qed.

(** What a pass of [filterExitChars] leaves on an exit thumbnail. *)
Lemma filterExitChars_hidden P D sl x :
  wf D -> In x (getExitCharElements D) ->
  (is_hidden (filterExitChars P D sl) x = true <->
   splitEnabled P = true /\ signature_matches D sl x).
Proof.
  intros Hwf Hx. unfold filterExitChars.
  pose proof (unhide_exit D x Hwf Hx) as Hun.
  set (D1 := unhideExitChars D) in *.
  assert (HD1 : exists g, hidden_only g /\ D1 = mapTD g D).
  { eexists. split; [|apply unhideExitChars_mapTD]. apply hidden_only_mem_remove. }
  destruct HD1 as (g & Hg & HD1).
  destruct (splitEnabled P); simpl;
    [|rewrite Hun; split; [discriminate | intros [? _]; discriminate]].
  destruct (Nat.eqb (List.length sl) 0) eqn:Hsl.
  { rewrite Hun. split; [discriminate|]. intros (_ & u & s & _ & Hs & _).
    destruct sl; [destruct Hs | discriminate]. }
  assert (Hurls : sleeperAvatarUrls D1 sl = sleeperAvatarUrls D sl)
    by (rewrite HD1; apply sleeperAvatarUrls_mapTD, Hg).
  rewrite Hurls.
  destruct (Nat.eqb (List.length (sleeperAvatarUrls D sl)) 0) eqn:Hu.
  { rewrite Hun. split; [discriminate|]. intros (_ & Hm).
    apply wants_matches in Hm. unfold wants in Hm.
    destruct (sleeperAvatarUrls D sl); [|discriminate].
    destruct (exit_signature D x); discriminate. }
  rewrite hide_loop, Hun. simpl.
  assert (HL : getExitCharElements D1 = getExitCharElements D).
  { rewrite HD1. apply doc_querySelectorAll_mapTD; auto. }
  rewrite HL. apply mem_In in Hx. rewrite Hx. simpl.
  rewrite HD1, (wants_mapTD g _ D x Hg), wants_matches. tauto.
Qed.

Lemma hidden_only_id : hidden_only (fun _ e => e).
Proof. intros h e. apply same_but_hidden_refl. Qed.

Lemma hide_loop_mapTD urls L : forall D,
  exists g, hidden_only g /\ fold_left (hideIfMatching urls) L D = mapTD g D.
Proof.
  induction L as [|x L IH]; intros D; simpl.
  - exists (fun _ e => e). split; [apply hidden_only_id | symmetry; apply mapTD_id].
  - rewrite hideIfMatching_wants. destruct (wants urls D x); [|apply IH].
    unfold classList_add. rewrite updD_mapTD.
    destruct (IH (mapTD (fun h' e => if Nat.eqb h' x then add_class hidden e else e) D))
      as (g & Hg & ->).
    eexists. split; [|apply mapTD_mapTD].
    apply hidden_only_comp; [apply hidden_only_upd_add | exact Hg].
Qed.

Lemma filterExitChars_mapTD P D sl :
  exists g, hidden_only g /\ filterExitChars P D sl = mapTD g D.
Proof.
  unfold filterExitChars. rewrite unhideExitChars_mapTD.
  set (g1 := fun h e => if mem h _ then remove_class hidden e else e).
  assert (Hg1 : hidden_only g1) by apply hidden_only_mem_remove.
  destruct (negb (splitEnabled P) || Nat.eqb (List.length sl) 0); [eauto|].
  destruct (Nat.eqb (List.length _) 0); [eauto|].
  destruct (hide_loop_mapTD (sleeperAvatarUrls (mapTD g1 D) sl)
              (getExitCharElements (mapTD g1 D)) (mapTD g1 D)) as (g & Hg & ->).
  eexists. split; [|apply mapTD_mapTD]. apply hidden_only_comp; assumption.
Qed.

Lemma signature_set_In D sl u :
  In u (signature_set D sl) <->
  exists s, In s sl /\ sleeper_signature D s = Some u.
Proof.
  unfold signature_set. rewrite in_flat_map. split.
  - intros (s & Hs & Hu). exists s. split; [exact Hs|].
    destruct (sleeper_signature D s); [|destruct Hu].
    destruct Hu as [->|[]]. reflexivity.
  - intros (s & Hs & E). exists s. split; [exact Hs|]. rewrite E. left. reflexivity.
Qed.

(** X22 (C3, in the current variant).  In split mode an exit thumbnail
    is hidden exactly when its
    avatar signature belongs to the signatures of the sleepers found in
    the main list; nothing else about the thumbnail is consulted, and with
    an empty signature set every exit thumbnail stays visible. *)
Theorem exit_entries_classified_by_signature P D sleepers x :
  wf D ->
  splitEnabled P = true ->
  In x (getExitCharElements D) ->
  (is_hidden (filterExitChars P D sleepers) x = true <->
   exists u, exit_signature D x = Some u /\ In u (signature_set D sleepers)) /\
  (signature_set D sleepers = [] ->
   is_hidden (filterExitChars P D sleepers) x = false).
Proof.
  intros Hwf Hs Hx.
  assert (Hiff : is_hidden (filterExitChars P D sleepers) x = true <->
     exists u, exit_signature D x = Some u /\ In u (signature_set D sleepers)).
  { rewrite (filterExitChars_hidden P D sleepers x Hwf Hx). unfold signature_matches.
    split.
    - intros (_ & u & s & E & Hin & Es). exists u. split; [exact E|].
      apply signature_set_In. eauto.
    - intros (u & E & Hu). apply signature_set_In in Hu as (s & Hin & Es).
      split; [exact Hs|]. eauto. }
  split; [exact Hiff|]. intros Hempty. apply not_true_is_false. intros Ht.
  apply Hiff in Ht as (u & _ & Hu). rewrite Hempty in Hu. destruct Hu.
Qed.

(** C10. A pass of [filterExitChars] starts by clearing the hidden
    marker of the exit thumbnails, so that afterwards the hidden exit
    thumbnails are exactly those whose avatar signature matches one of the
    current sleepers: a thumbnail hidden by an earlier pass that matches
    no sleeper any more is shown again.  The pass changes nothing but
    hidden markers, so the exit thumbnails are the same before and
    after. *)
Theorem exit_entries_reset_then_hidden P D sleepers :
  wf D ->
  splitEnabled P = true ->
  let D' := filterExitChars P D sleepers in
  getExitCharElements D' = getExitCharElements D /\
  forall x,
    In x (getExitCharElements D) ->
    is_hidden (unhideExitChars D) x = false /\
    (is_hidden D' x = true <-> signature_matches D sleepers x) /\
    (is_hidden D x = true -> ~ signature_matches D sleepers x ->
     is_hidden D' x = false).
Proof.
  intros Hwf Hs D'. subst D'. split.
  - destruct (filterExitChars_mapTD P D sleepers) as (g & Hg & ->).
    apply doc_querySelectorAll_mapTD; auto.
  - intros x Hx. split; [apply unhide_exit; assumption|].
    pose proof (filterExitChars_hidden P D sleepers x Hwf Hx) as H.
    split; [rewrite H; tauto|]. intros _ Hn. apply not_true_is_false.
    intros Ht. apply H in Ht. tauto.
Qed.

(** ** Removing a subtree *)

Lemma handles_cells n : handles n = map fst (cells n).
Proof.
  induction n as [h e ks IH] using node_ind. simpl. f_equal.
  rewrite !flat_map_concat_map, concat_map, map_map. f_equal.
  apply map_ext_Forall. exact IH.
Qed.

Lemma handlesF_cellsF ns : handlesF ns = map fst (cellsF ns).
Proof.
  unfold handlesF, cellsF. rewrite !flat_map_concat_map, concat_map, map_map.
  f_equal. apply map_ext. intros; apply handles_cells.
Qed.

Lemma cellsF_app a b : cellsF (a ++ b) = cellsF a ++ cellsF b.
Proof. apply flat_map_app. Qed.

Lemma handlesF_app a b : handlesF (a ++ b) = handlesF a ++ handlesF b.
Proof. apply flat_map_app. Qed.

Lemma walkF_app anc a b : walkF anc (a ++ b) = walkF anc a ++ walkF anc b.
Proof. apply flat_map_app. Qed.

Lemma all_nodes_forest D : all_nodes D = walkF [] (forest D).
Proof. unfold all_nodes, forest. rewrite walkF_app. reflexivity. Qed.

Lemma prune_eq x h e ks : prune x (Node h e ks) = Node h e (pruneF x ks).
Proof.
  simpl. f_equal. induction ks as [|k r IH]; simpl; [reflexivity|].
  rewrite IH. reflexivity.
Qed.

Lemma prune_absent x n : ~ In x (handles n) -> prune x n = n.
Proof.
  induction n as [h e ks IH] using node_ind. intros Hx. rewrite prune_eq.
  f_equal. simpl in Hx.
  assert (Hks : ~ In x (flat_map handles ks)) by tauto. clear Hx.
  induction IH as [|k r Hk _ IHr]; simpl; [reflexivity|].
  simpl in Hks. rewrite in_app_iff in Hks.
  unfold is_not. destruct (Nat.eqb (handle_of k) x) eqn:E.
  - apply Nat.eqb_eq in E. exfalso. apply Hks. left. destruct k; simpl in *.
    left. exact E.
  - simpl. rewrite Hk, IHr by tauto. reflexivity.
Qed.

Lemma pruneF_absent x ns : ~ In x (handlesF ns) -> pruneF x ns = ns.
Proof.
  induction ns as [|k r IH]; simpl; intros Hx; [reflexivity|].
  rewrite in_app_iff in Hx. unfold is_not.
  destruct (Nat.eqb (handle_of k) x) eqn:E.
  - apply Nat.eqb_eq in E. exfalso. apply Hx. left. destruct k; simpl in *.
    left. exact E.
  - simpl. rewrite prune_absent, IH by tauto. reflexivity.
Qed.

Lemma find_app {A} (p : A -> bool) l1 l2 :
  find p (l1 ++ l2) = match find p l1 with Some x => Some x | None => find p l2 end.
Proof.
  induction l1 as [|a l1 IH]; simpl; [reflexivity|].
  destruct (p a); [reflexivity | exact IH].
Qed.

Lemma find_absent x anc ns :
  ~ In x (handlesF ns) -> find (is_at x) (walkF anc ns) = None.
Proof.
  intros Hx. destruct (find _ _) as [p|] eqn:E; [|reflexivity].
  apply find_some in E as [Hin Hp]. exfalso. apply Hx.
  rewrite (handlesF_walkF ns anc). apply in_map_iff. exists p.
  split; [|exact Hin]. apply Nat.eqb_eq. exact Hp.
Qed.

Lemma NoDup_app_l {A} (l1 l2 : list A) : NoDup (l1 ++ l2) -> NoDup l1.
Proof. intros H. apply NoDup_app_remove_r in H. exact H. Qed.

Lemma NoDup_app_r {A} (l1 l2 : list A) : NoDup (l1 ++ l2) -> NoDup l2.
Proof. intros H. apply NoDup_app_remove_l in H. exact H. Qed.

Lemma NoDup_app_disjoint {A} (l1 l2 : list A) x :
  NoDup (l1 ++ l2) -> In x l1 -> In x l2 -> False.
Proof.
  induction l1 as [|a l1 IH]; simpl; intros Hnd H1 H2; [destruct H1|].
  inversion Hnd as [|? ? Hna Hnd']; subst. destruct H1 as [->|H1].
  - apply Hna. apply in_or_app. right. exact H2.
  - eauto.
Qed.

Lemma prune_spec_forest x ns :
  Forall (fun n => forall anc, prune_spec x anc [n]) ns ->
  forall anc, prune_spec x anc ns.
Proof.
  induction 1 as [|k r Hk _ IHr]; intros anc Hnd Hin; [destruct Hin|].
  change (handlesF (k :: r)) with (handles k ++ handlesF r) in *.
  apply in_app_iff in Hin.
  change (walkF anc (k :: r)) with (walk anc k ++ walkF anc r).
  rewrite find_app.
  change (cellsF (k :: r)) with (cells k ++ cellsF r).
  destruct Hin as [Hin|Hin].
  - assert (Hr : ~ In x (handlesF r))
      by (intros Hr; eapply NoDup_app_disjoint; eauto).
    destruct (Hk anc) as (a & m & Hf & Hp).
    + unfold handlesF. simpl. rewrite app_nil_r. eapply NoDup_app_l; eauto.
    + unfold handlesF. simpl. rewrite app_nil_r. exact Hin.
    + exists a, m. unfold walkF in Hf. simpl in Hf. rewrite app_nil_r in Hf.
      rewrite Hf. split; [reflexivity|].
      unfold cellsF in Hp. simpl in Hp. rewrite app_nil_r in Hp.
      simpl. destruct (is_not x k); simpl in *.
      * rewrite app_nil_r in Hp. rewrite (pruneF_absent x r Hr).
        rewrite app_assoc. apply Permutation_app_tail. exact Hp.
      * rewrite app_nil_r in Hp. rewrite (pruneF_absent x r Hr).
        apply Permutation_app_tail. exact Hp.
  - assert (Hk' : ~ In x (handles k))
      by (intros Hk'; eapply NoDup_app_disjoint; eauto).
    destruct (IHr anc (NoDup_app_r _ _ Hnd) Hin) as (a & m & Hf & Hp).
    exists a, m.
    assert (Hnone : find (is_at x) (walk anc k) = None).
    { pose proof (find_absent x anc [k]) as Hfa. unfold walkF, handlesF in Hfa.
      simpl in Hfa. rewrite !app_nil_r in Hfa. auto. }
    rewrite Hnone. split; [exact Hf|]. simpl.
    assert (Hnot : is_not x k = true).
    { unfold is_not. destruct (Nat.eqb (handle_of k) x) eqn:E; [|reflexivity].
      apply Nat.eqb_eq in E. exfalso. apply Hk'. destruct k; simpl in *. auto. }
    rewrite Hnot, (prune_absent x k Hk'). simpl.
    rewrite Hp. rewrite !app_assoc. apply Permutation_app_tail.
    apply Permutation_app_comm.
Qed.

Lemma prune_spec_node x n : forall anc, prune_spec x anc [n].
Proof.
  induction n as [h e ks IH] using node_ind. intros anc Hnd Hin.
  cbn [pruneF]. rewrite prune_eq.
  unfold handlesF, walkF, cellsF in *.
  cbn [flat_map handles walk cells app find] in *. rewrite !app_nil_r in *.
  unfold is_not, is_at. cbn [handle_of snd].
  destruct (Nat.eqb h x) eqn:E; cbn [negb].
  - exists anc, (Node h e ks). split; [reflexivity|]. cbn [cells flat_map].
    rewrite app_nil_r. apply Permutation_refl.
  - destruct Hin as [Hin|Hin]; [apply Nat.eqb_neq in E; contradiction|].
    inversion Hnd as [|? ? _ Hnd']; subst.
    destruct (prune_spec_forest x ks IH ((h, e) :: anc) Hnd' Hin)
      as (a & m & Hf & Hp).
    exists a, m. split; [exact Hf|]. cbn [flat_map cells].
    rewrite app_nil_r. unfold cellsF in Hp. rewrite Hp.
    apply Permutation_middle.
Qed.

Lemma pruneF_spec x anc ns : prune_spec x anc ns.
Proof.
  apply prune_spec_forest. apply Forall_forall. intros n _.
  apply prune_spec_node.
Qed.

(** ** Object data in well-formed stores *)

Lemma cells_walk n :
  forall a, cells n = map (fun p => (handle_of (snd p), elem_of (snd p))) (walk a n).
Proof.
  induction n as [h e ks IH] using node_ind. intros a. simpl. f_equal.
  rewrite !flat_map_concat_map, concat_map, map_map. f_equal.
  apply map_ext_Forall. rewrite Forall_forall in *. intros k Hk. apply (IH k Hk).
Qed.

Lemma cellsF_walkF ns a :
  cellsF ns = map (fun p => (handle_of (snd p), elem_of (snd p))) (walkF a ns).
Proof.
  unfold cellsF, walkF. rewrite !flat_map_concat_map, concat_map, map_map.
  f_equal. apply map_ext. intros n. apply cells_walk.
Qed.

Lemma cellsD_all_nodes D :
  cellsD D = map (fun p => (handle_of (snd p), elem_of (snd p))) (all_nodes D).
Proof. unfold cellsD. rewrite all_nodes_forest. apply cellsF_walkF. Qed.

Lemma wf_cells D :
  wf D <->
  NoDup (map fst (cellsD D)) /\ Forall (fun h => h < next D) (map fst (cellsD D)).
Proof.
  unfold wf, cellsD, forest. rewrite <- handlesF_cellsF, handlesF_app. tauto.
Qed.

Lemma elem_at_cells D h e :
  wf D -> (elem_at D h = Some e <-> In (h, e) (cellsD D)).
Proof.
  intros Hwf. unfold elem_at. rewrite cellsD_all_nodes, in_map_iff. split.
  - destruct (locate D h) as [p|] eqn:E; [|discriminate]. simpl.
    intros [= <-]. exists p. split.
    + f_equal. destruct p as [a n]. apply (locate_handle _ _ _ _ E).
    + unfold locate in E. apply find_some in E. tauto.
  - intros (p & [= <- <-] & Hp). rewrite (locate_unique D p Hwf Hp). reflexivity.
Qed.

Lemma elem_at_None D h :
  elem_at D h = None <-> ~ In h (map fst (cellsD D)).
Proof.
  unfold elem_at. rewrite cellsD_all_nodes, map_map. simpl. split.
  - destruct (locate D h) as [p|] eqn:E; [discriminate|]. intros _ Hin.
    apply in_map_iff in Hin as (p & Hh & Hp).
    unfold locate in E. eapply find_none in E; [|exact Hp].
    simpl in E. rewrite Hh, Nat.eqb_refl in E. discriminate.
  - intros Hn. destruct (locate D h) as [[a n]|] eqn:E; [|reflexivity].
    exfalso. apply Hn. apply in_map_iff. exists (a, n). split.
    + apply (locate_handle _ _ _ _ E).
    + unfold locate in E. apply find_some in E. tauto.
Qed.

(** Two well-formed stores with the same objects agree on every handle. *)
Lemma elem_at_same D D' h :
  wf D -> wf D' ->
  (forall e, In (h, e) (cellsD D') <-> In (h, e) (cellsD D)) ->
  elem_at D' h = elem_at D h.
Proof.
  intros Hwf Hwf' Hsame.
  destruct (elem_at D h) as [e|] eqn:E.
  - apply elem_at_cells; [exact Hwf'|]. apply Hsame.
    apply elem_at_cells; assumption.
  - destruct (elem_at D' h) as [e'|] eqn:E'; [|reflexivity].
    apply elem_at_cells in E'; [|exact Hwf']. apply Hsame in E'.
    apply elem_at_cells in E'; [|exact Hwf]. congruence.
Qed.

Lemma classList_contains_elem_at D h c :
  classList_contains D h c =
  match elem_at D h with Some e => has_class c e | None => false end.
Proof.
  unfold classList_contains, elem_at.
  destruct (locate D h) as [[a n]|]; reflexivity.
Qed.

Lemma wf_perm D D' :
  wf D -> Permutation (cellsD D') (cellsD D) -> next D' = next D -> wf D'.
Proof.
  intros Hwf Hp Hn. apply wf_cells. apply wf_cells in Hwf as [Hnd Hlt].
  assert (Hp' : Permutation (map fst (cellsD D)) (map fst (cellsD D')))
    by (apply Permutation_map, Permutation_sym, Hp).
  split.
  - eapply Permutation_NoDup; eauto.
  - rewrite Hn. eapply Permutation_Forall; eauto.
Qed.

Lemma remove_cells D x :
  wf D -> Permutation (cellsD (remove D x)) (cellsD D).
Proof.
  intros [Hnd _]. unfold remove, in_doc.
  rewrite <- handlesF_app in Hnd.
  destruct (find _ (walkF [] (doc D))) as [[a n]|] eqn:Ed.
  - unfold cellsD, forest. simpl.
    destruct (pruneF_spec x [] (doc D)) as (a' & m & Hf & Hp).
    + rewrite handlesF_app in Hnd. eapply NoDup_app_l; eauto.
    + rewrite (handlesF_walkF _ []). apply in_map_iff. exists (a, n).
      apply find_some in Ed as [Hin Hh]. split; [|exact Hin].
      apply Nat.eqb_eq. exact Hh.
    + unfold is_at in Hf. rewrite Ed in Hf. inversion Hf; subst a' m.
      rewrite !cellsF_app. rewrite Hp.
      change (cellsF (n :: limbo D)) with (cells n ++ cellsF (limbo D)).
      rewrite !app_assoc. apply Permutation_app_tail.
      apply Permutation_app_comm.
  - destruct (locate D x) as [[[|c a] n]|] eqn:El; try apply Permutation_refl.
    unfold cellsD, forest. simpl. unfold locate, all_nodes in El.
    rewrite find_app, Ed in El.
    destruct (pruneF_spec x [] (limbo D)) as (a' & m & Hf & Hp).
    + rewrite handlesF_app in Hnd. eapply NoDup_app_r; eauto.
    + rewrite (handlesF_walkF _ []). apply in_map_iff. exists (c :: a, n).
      apply find_some in El as [Hin Hh]. split; [|exact Hin].
      apply Nat.eqb_eq. exact Hh.
    + unfold is_at in Hf. rewrite El in Hf. inversion Hf; subst a' m.
      rewrite !cellsF_app.
      change (cellsF (n :: pruneF x (limbo D)))
        with (cells n ++ cellsF (pruneF x (limbo D))).
      rewrite <- Hp. apply Permutation_refl.
Qed.

Lemma remove_next D x : next (remove D x) = next D.
Proof.
  unfold remove. destruct (in_doc D x) as [[a n]|]; [reflexivity|].
  destruct (locate D x) as [[[|c a] n]|]; reflexivity.
Qed.

Lemma wf_remove D x : wf D -> wf (remove D x).
Proof.
  intros Hwf. eapply wf_perm; [exact Hwf | apply remove_cells, Hwf | apply remove_next].
Qed.

Lemma elem_at_remove D x h : wf D -> elem_at (remove D x) h = elem_at D h.
Proof.
  intros Hwf. apply elem_at_same; [exact Hwf | apply wf_remove, Hwf|].
  intros e. split; apply Permutation_in;
    [|apply Permutation_sym]; apply remove_cells, Hwf.
Qed.

Lemma mapTD_cells g D :
  cellsD (mapTD g D) = map (fun c => (fst c, g (fst c) (snd c))) (cellsD D).
Proof.
  rewrite !cellsD_all_nodes, all_nodes_mapTD, !map_map. apply map_ext.
  intros [a n]. simpl. rewrite handle_of_mapT, elem_of_mapT. reflexivity.
Qed.

Lemma wf_mapTD g D : wf D -> wf (mapTD g D).
Proof.
  intros Hwf. apply wf_cells. apply wf_cells in Hwf.
  rewrite mapTD_cells, map_map. simpl. exact Hwf.
Qed.

Lemma elem_at_mapTD g D h :
  elem_at (mapTD g D) h = option_map (g h) (elem_at D h).
Proof.
  unfold elem_at. rewrite locate_mapTD.
  destruct (locate D h) as [[a n]|] eqn:E; [|reflexivity]. simpl.
  rewrite elem_of_mapT, (locate_handle _ _ _ _ E). reflexivity.
Qed.

(** ** Inserting a new subtree *)

Lemma app_child_edit p new n :
  app_child p new n = edit p (fun ks => ks ++ [new]) n.
Proof.
  induction n as [h e ks IH] using node_ind. simpl.
  rewrite (map_ext_Forall _ _ IH). reflexivity.
Qed.

Lemma ins_before_edit p ref new n :
  ins_before p ref new n = edit p (insert_before_in ref new) n.
Proof.
  induction n as [h e ks IH] using node_ind. simpl.
  rewrite (map_ext_Forall _ _ IH). reflexivity.
Qed.

Lemma edit_absent p f n : ~ In p (handles n) -> edit p f n = n.
Proof.
  induction n as [h e ks IH] using node_ind. intros Hp. simpl in *.
  destruct (Nat.eqb h p) eqn:E; [apply Nat.eqb_eq in E; tauto|].
  f_equal. rewrite <- (map_id ks) at 2. apply map_ext_Forall.
  rewrite Forall_forall in *. intros k Hk. apply IH; [exact Hk|].
  intros Hin. apply Hp. right. apply in_flat_map. eauto.
Qed.

Lemma editF_absent p f ns :
  ~ In p (handlesF ns) -> map (edit p f) ns = ns.
Proof.
  intros Hp. rewrite <- (map_id ns) at 2. apply map_ext_in. intros k Hk.
  apply edit_absent. intros Hin. apply Hp. apply in_flat_map. eauto.
Qed.

Lemma find_is_at_In p anc ns q :
  find (is_at p) (walkF anc ns) = Some q -> In p (handlesF ns).
Proof.
  intros E. apply find_some in E as [Hin Hh].
  rewrite (handlesF_walkF ns anc). apply in_map_iff. exists q.
  split; [apply Nat.eqb_eq; exact Hh | exact Hin].
Qed.

Lemma find_walk_absent p anc k :
  ~ In p (handles k) -> find (is_at p) (walk anc k) = None.
Proof.
  intros Hp. pose proof (find_absent p anc [k]) as H.
  unfold walkF, handlesF in H. simpl in H. rewrite !app_nil_r in H. auto.
Qed.

Lemma find_walk_In p anc k q :
  find (is_at p) (walk anc k) = Some q -> In p (handles k).
Proof.
  intros E. pose proof (find_is_at_In p anc [k] q) as H.
  unfold walkF, handlesF in H. simpl in H. rewrite !app_nil_r in H. auto.
Qed.

Lemma edit_spec_forest p f extra ns :
  Forall (fun n => forall anc, edit_spec p f extra anc [n]) ns ->
  forall anc, edit_spec p f extra anc ns.
Proof.
  induction 1 as [|k r Hk _ IHr]; intros anc Hnd a m Hf Hp; [discriminate|].
  change (handlesF (k :: r)) with (handles k ++ handlesF r) in *.
  change (walkF anc (k :: r)) with (walk anc k ++ walkF anc r) in Hf.
  rewrite find_app in Hf.
  change (cellsF (k :: r)) with (cells k ++ cellsF r).
  change (cellsF (map (edit p f) (k :: r)))
    with (cells (edit p f k) ++ cellsF (map (edit p f) r)).
  destruct (find (is_at p) (walk anc k)) as [q|] eqn:Ek.
  - inversion Hf; subst q.
    assert (Hr : ~ In p (handlesF r)).
    { intros Hr. eapply NoDup_app_disjoint; eauto. eapply find_walk_In; eauto. }
    rewrite (editF_absent p f r Hr).
    specialize (Hk anc). unfold edit_spec, handlesF, walkF, cellsF in Hk.
    simpl in Hk. rewrite !app_nil_r in Hk.
    rewrite (Hk (NoDup_app_l _ _ Hnd) a m Ek Hp).
    rewrite app_assoc. reflexivity.
  - assert (Hk' : ~ In p (handles k)).
    { intros Hk'. eapply NoDup_app_disjoint; eauto. eapply find_is_at_In; eauto. }
    rewrite (edit_absent p f k Hk').
    rewrite (IHr anc (NoDup_app_r _ _ Hnd) a m Hf Hp).
    rewrite !app_assoc. apply Permutation_app_tail. apply Permutation_app_comm.
Qed.

Lemma edit_spec_node p f extra n : forall anc, edit_spec p f extra anc [n].
Proof.
  induction n as [h e ks IH] using node_ind. intros anc Hnd a m Hf Hp.
  unfold handlesF, walkF, cellsF in *.
  cbn [flat_map handles walk cells app find map edit] in *.
  rewrite !app_nil_r in *. inversion Hnd as [|? ? Hh Hnd']; subst.
  unfold is_at in Hf. cbn [handle_of snd] in Hf.
  destruct (Nat.eqb h p) eqn:E.
  - inversion Hf; subst a m. cbn [kids_of] in Hp.
    apply Nat.eqb_eq in E. subst p.
    rewrite (editF_absent h f ks Hh). cbn [cells]. fold (cellsF (f ks)).
    rewrite Hp. fold (cellsF ks). apply Permutation_middle.
  - cbn [cells]. fold (cellsF (map (edit p f) ks)).
    rewrite (edit_spec_forest p f extra ks IH ((h, e) :: anc) Hnd' a m Hf Hp).
    fold (cellsF ks). apply Permutation_middle.
Qed.

Lemma editF_spec p f extra anc ns : edit_spec p f extra anc ns.
Proof.
  apply edit_spec_forest. apply Forall_forall. intros n _.
  apply edit_spec_node.
Qed.

Lemma insert_before_in_cells ref new ks :
  In ref (map handle_of ks) ->
  Permutation (cellsF (insert_before_in ref new ks)) (cells new ++ cellsF ks).
Proof.
  induction ks as [|k r IH]; intros Hin; [destruct Hin|]. simpl.
  destruct (Nat.eqb (handle_of k) ref) eqn:E; [reflexivity|].
  destruct Hin as [Hin|Hin]; [apply Nat.eqb_neq in E; contradiction|].
  change (cellsF (k :: insert_before_in ref new r))
    with (cells k ++ cellsF (insert_before_in ref new r)).
  rewrite (IH Hin). change (cellsF (k :: r)) with (cells k ++ cellsF r).
  rewrite !app_assoc. apply Permutation_app_tail. apply Permutation_app_comm.
Qed.

Lemma append_cells new ks :
  Permutation (cellsF (ks ++ [new])) (cells new ++ cellsF ks).
Proof.
  rewrite cellsF_app. unfold cellsF at 2. simpl. rewrite app_nil_r.
  apply Permutation_app_comm.
Qed.

Lemma walk_parent n0 : forall anc0 q,
  In q (walk anc0 n0) ->
  q = (anc0, n0) \/
  exists a P, fst q = (handle_of P, elem_of P) :: a /\
              In (a, P) (walk anc0 n0) /\ In (snd q) (kids_of P).
Proof.
  induction n0 as [h e ks IH] using node_ind. intros anc0 q [<-|Hin]; [auto|].
  right. apply in_flat_map in Hin as (k & Hk & Hq).
  rewrite Forall_forall in IH.
  destruct (IH k Hk _ _ Hq) as [->|(a & P & Hc & HP & Hkid)].
  - exists anc0, (Node h e ks). simpl. auto.
  - exists a, P. repeat split; auto. right. apply in_flat_map. eauto.
Qed.

Lemma walkF_parent ns c a n :
  In (c :: a, n) (walkF [] ns) ->
  exists P, c = (handle_of P, elem_of P) /\ In (a, P) (walkF [] ns) /\
            In n (kids_of P).
Proof.
  intros Hin. apply in_flat_map in Hin as (k & Hk & Hq).
  destruct (walk_parent k [] _ Hq) as [E|(a' & P & Hc & HP & Hkid)];
    [discriminate|].
  simpl in Hc. inversion Hc; subst. exists P. repeat split; auto.
  apply in_flat_map. eauto.
Qed.

Lemma find_unique_forest ns p :
  NoDup (handlesF ns) -> In p (walkF [] ns) ->
  find (is_at (handle_of (snd p))) (walkF [] ns) = Some p.
Proof.
  intros Hnd Hin.
  apply (find_unique (fun x : ctx * node => handle_of (snd x))); [|exact Hin].
  rewrite <- handlesF_walkF. exact Hnd.
Qed.

Lemma forest_edit D p f :
  map (edit p f) (forest D) = map (edit p f) (doc D) ++ map (edit p f) (limbo D).
Proof. unfold forest. apply map_app. Qed.

Lemma wf_NoDup D : wf D -> NoDup (handlesF (forest D)).
Proof. intros [H _]. unfold forest. rewrite handlesF_app. exact H. Qed.

Lemma insertBefore_cells D p new ref D' :
  wf D -> insertBefore D p new ref = Some D' ->
  Permutation (cellsD D') (cells new ++ cellsD D) /\ next D' = next D.
Proof.
  intros Hwf. unfold insertBefore, parentElement.
  destruct (locate D ref) as [[[|[p' e] a] n]|] eqn:El; try discriminate.
  destruct (Nat.eqb p' p) eqn:E; [|discriminate]. apply Nat.eqb_eq in E. subst p'.
  intros [= <-]. split; [|reflexivity].
  pose proof (locate_handle _ _ _ _ El) as Hn.
  unfold locate in El. apply find_some in El as [Hin _].
  rewrite all_nodes_forest in Hin.
  destruct (walkF_parent _ _ _ _ Hin) as (P & Hc & HP & Hkid).
  inversion Hc; subst p e.
  pose proof (find_unique_forest _ _ (wf_NoDup D Hwf) HP) as Hf. simpl in Hf.
  unfold cellsD at 1. unfold forest at 1. simpl.
  rewrite (map_ext _ _ (ins_before_edit (handle_of P) ref new)).
  rewrite (map_ext _ _ (ins_before_edit (handle_of P) ref new)) at 1.
  rewrite <- map_app. fold (forest D).
  apply (editF_spec (handle_of P) _ (cells new) [] (forest D) (wf_NoDup D Hwf) a P Hf).
  apply insert_before_in_cells. apply in_map_iff. exists n. auto.
Qed.

Lemma in_handles_find p anc ns :
  In p (handlesF ns) -> exists q, find (is_at p) (walkF anc ns) = Some q.
Proof.
  intros Hin. destruct (find _ _) as [q|] eqn:E; [eauto|]. exfalso.
  rewrite (handlesF_walkF ns anc) in Hin. apply in_map_iff in Hin as (q & Hh & Hq).
  eapply find_none in E; [|exact Hq]. unfold is_at in E.
  rewrite Hh, Nat.eqb_refl in E. discriminate.
Qed.

Lemma forest_appendChild D p new :
  forest (appendChild D p new) = map (edit p (fun ks => ks ++ [new])) (forest D).
Proof.
  unfold forest. simpl. rewrite map_app.
  rewrite !(map_ext _ _ (app_child_edit p new)). reflexivity.
Qed.

Lemma appendChild_cells D p new :
  wf D ->
  Permutation (cellsD (appendChild D p new)) (cells new ++ cellsD D) \/
  cellsD (appendChild D p new) = cellsD D.
Proof.
  intros Hwf. unfold cellsD. rewrite forest_appendChild.
  destruct (in_dec Nat.eq_dec p (handlesF (forest D))) as [Hin|Hn].
  - left. destruct (in_handles_find p [] _ Hin) as [[a m] Hf].
    apply (editF_spec p _ (cells new) [] (forest D) (wf_NoDup D Hwf) a m Hf).
    apply append_cells.
  - right. rewrite (editF_absent _ _ _ Hn). reflexivity.
Qed.

(** Adding freshly numbered objects keeps the store well formed and
    leaves the old objects as they were. *)
Lemma wf_grow D D' extra :
  wf D ->
  Permutation (cellsD D') (extra ++ cellsD D) ->
  NoDup (map fst extra) ->
  Forall (fun h => next D <= h < next D') (map fst extra) ->
  next D <= next D' ->
  wf D'.
Proof.
  intros Hwf Hp Hnd Hfr Hle. apply wf_cells. apply wf_cells in Hwf as [Hnd0 Hlt0].
  assert (Hp' : Permutation (map fst extra ++ map fst (cellsD D)) (map fst (cellsD D'))).
  { rewrite <- map_app. apply Permutation_map, Permutation_sym, Hp. }
  split.
  - eapply Permutation_NoDup; [exact Hp'|]. apply NoDup_app; auto.
    intros h H1 H2. rewrite Forall_forall in Hfr, Hlt0.
    specialize (Hfr h H1). specialize (Hlt0 h H2). lia.
  - eapply Permutation_Forall; [exact Hp'|]. apply Forall_app. split.
    + eapply Forall_impl; [|exact Hfr]. simpl. intros; lia.
    + eapply Forall_impl; [|exact Hlt0]. simpl. intros; lia.
Qed.

Lemma wf_with_next D nx : wf D -> next D <= nx -> wf (with_next D nx).
Proof.
  intros [Hnd Hlt] Hle. split; [exact Hnd|]. simpl.
  eapply Forall_impl; [|exact Hlt]. simpl. intros; lia.
Qed.

Lemma elem_at_grow D D' extra h :
  wf D -> wf D' ->
  Permutation (cellsD D') (extra ++ cellsD D) ->
  Forall (fun x => next D <= x) (map fst extra) ->
  h < next D ->
  elem_at D' h = elem_at D h.
Proof.
  intros Hwf Hwf' Hp Hfr Hh. apply elem_at_same; auto. intros e. split.
  - intros Hin. apply (Permutation_in _ Hp) in Hin.
    apply in_app_iff in Hin as [Hin|Hin]; [|exact Hin].
    rewrite Forall_forall in Hfr.
    specialize (Hfr h (in_map fst _ _ Hin)). simpl in Hfr. lia.
  - intros Hin. apply (Permutation_in _ (Permutation_sym Hp)).
    apply in_or_app. right. exact Hin.
Qed.

Lemma located_lt D h e : wf D -> elem_at D h = Some e -> h < next D.
Proof.
  intros Hwf He. pose proof Hwf as Hwf0. apply wf_cells in Hwf as [_ Hlt].
  rewrite Forall_forall in Hlt.
  apply Hlt. apply elem_at_cells in He; [|exact Hwf0].
  apply (in_map fst) in He. exact He.
Qed.

(** ** No container, no effect *)

Lemma matches_inroom p : matches sel_inroom p = is_container (elem_of (snd p)).
Proof.
  unfold matches, sel_inroom, is_container.
  cbn [existsb matches_complex matches_compound forallb matches_simple matches_anc].
  rewrite !andb_true_r, orb_false_r. reflexivity.
Qed.

Lemma findInRoomSection_None D :
  findInRoomSection D = None <->
  forall p, In p (walkF [] (doc D)) -> is_container (elem_of (snd p)) = false.
Proof.
  unfold findInRoomSection, doc_querySelector, doc_querySelectorAll. split.
  - intros H p Hp. destruct (is_container (elem_of (snd p))) eqn:E; [|reflexivity].
    destruct (proj1 (hd_error_map_filter_some
                (fun p : ctx * node => handle_of (snd p)) (matches sel_inroom)
                (walkF [] (doc D))))
      as [y Hy].
    + exists p. split; [exact Hp|]. rewrite matches_inroom. exact E.
    + rewrite Hy in H. discriminate.
  - intros H. destruct (hd_error _) eqn:E; [|reflexivity].
    destruct (proj2 (hd_error_map_filter_some _ _ _) (ex_intro _ _ E))
      as (p & Hp & Hm).
    rewrite matches_inroom, (H p Hp) in Hm. discriminate.
Qed.

(** C5. When the document has no main-list container, [applyFilter] is a
    no-op: it returns normally (nothing is thrown) and the store it
    leaves is the store it was given, so no node was created, inserted or
    changed. *)
Theorem applyFilter_without_container P D :
  (forall p, In p (walkF [] (doc D)) -> is_container (elem_of (snd p)) = false) ->
  findInRoomSection D = None /\ applyFilter P D = Returned D.
Proof.
  intros H. apply findInRoomSection_None in H. split; [exact H|].
  unfold applyFilter. rewrite H. reflexivity.
Qed.

(** ** Concrete pages *)

Lemma nodupb_NoDup l : nodupb l = true -> NoDup l.
Proof.
  induction l as [|h r IH]; simpl; intros H; constructor.
  - apply andb_true_iff in H as [H _]. intros Hin. apply mem_In in Hin.
    rewrite Hin in H. discriminate.
  - apply IH. apply andb_true_iff in H. tauto.
Qed.

Lemma wfb_wf D : wfb D = true -> wf D.
Proof.
  unfold wfb, wf. intros H. apply andb_true_iff in H as [H1 H2]. split.
  - apply nodupb_NoDup. exact H1.
  - apply Forall_forall. intros h Hh. rewrite forallb_forall in H2.
    apply Nat.ltb_lt. apply H2. exact Hh.
Qed.

Lemma isSleeperChar_spec_witness :
  isSleeperChar Ex.five 16 = true <->
  exists m, inside m (snd Ex2.first_sleeper) /\ carries_level (elem_of m) = true.
Proof.
  apply (isSleeperChar_spec Ex.five 16 (fst Ex2.first_sleeper) (snd Ex2.first_sleeper)).
  vm_compute. reflexivity.
Defined.

Lemma exit_entries_classified_by_signature_witness :
  is_hidden (filterExitChars Ex.split_on Ex.five Ex2.sleepers) 5 = true <->
  exists u, exit_signature Ex.five 5 = Some u /\
            In u (signature_set Ex.five Ex2.sleepers).
Proof.
  apply (exit_entries_classified_by_signature Ex.split_on Ex.five Ex2.sleepers 5).
  - apply wfb_wf. vm_compute. reflexivity.
  - reflexivity.
  - vm_compute. auto.
Defined.

Lemma applyFilter_without_container_witness :
  applyFilter Ex.split_on Ex2.no_room = Returned Ex2.no_room.
Proof.
  apply (applyFilter_without_container Ex.split_on Ex2.no_room).
  intros p Hp. vm_compute in Hp.
  destruct Hp as [<-|[<-|[]]]; reflexivity.
Defined.

Lemma sleepers_section_contents_witness :
  List.length
    (section_body (fst (createSleepersSection Ex.split_on Ex.five Ex2.sleepers))) = 3.
Proof.
  destruct (sleepers_section_contents Ex.split_on Ex.five Ex2.sleepers)
    as (_ & _ & H & _).
  apply H.
  - simpl. lia.
  - repeat constructor; vm_compute; discriminate.
Defined.

Lemma clones_carry_no_hidden_marker_witness :
  has_class hidden (elem_of Ex2.first_clone) = false.
Proof.
  apply (clones_carry_no_hidden_marker Ex.split_on Ex2.five_split Ex2.sleepers
           Ex2.first_clone Ex2.first_clone).
  - vm_compute. auto.
  - constructor.
Defined.

Lemma own_mutations_do_not_schedule_witness :
  observerCallback Ex2.five_split 1000 Ex2.own_batch None = None.
Proof.
  apply (own_mutations_do_not_schedule Ex2.five_split 1000 None).
  repeat constructor; apply own_target_iff; vm_compute; reflexivity.
Defined.

Lemma exit_entries_reset_then_hidden_witness :
  is_hidden Ex2.stale_exit 7 = true /\
  is_hidden (filterExitChars Ex.split_on Ex2.stale_exit Ex2.sleepers) 7 = false /\
  is_hidden (filterExitChars Ex.split_on Ex2.stale_exit Ex2.sleepers) 5 = true.
Proof.
  destruct (exit_entries_reset_then_hidden Ex.split_on Ex2.stale_exit Ex2.sleepers)
    as [_ H].
  - apply wfb_wf. vm_compute. reflexivity.
  - reflexivity.
  - split; [vm_compute; reflexivity|]. split.
    + destruct (H 7) as (_ & _ & H7); [vm_compute; auto|].
      apply H7; [vm_compute; reflexivity|].
      intros (u & s & Hu & Hs & Es). vm_compute in Hu. inversion Hu; subst u.
      vm_compute in Hs. destruct Hs as [<-|[<-|[<-|[]]]]; vm_compute in Es;
        discriminate.
    + destruct (H 5) as (_ & H5 & _); [vm_compute; auto|].
      apply H5. exists "https://img/1", 16. vm_compute. auto.
Defined.

(** ** Views: what queries see *)

Lemma matches_view sel p : matches sel p = matchesV sel (view_of p).
Proof. reflexivity. Qed.

Lemma views_app anc a b : views anc (a ++ b) = views anc a ++ views anc b.
Proof. unfold views. rewrite walkF_app, map_app. reflexivity. Qed.

Lemma views_cons anc k r : views anc (k :: r) = viewsN anc k ++ views anc r.
Proof. unfold views, viewsN, walkF. simpl. apply map_app. Qed.

Lemma viewsN_node anc h e ks :
  viewsN anc (Node h e ks) = (anc, h, e) :: views ((h, e) :: anc) ks.
Proof. reflexivity. Qed.

Lemma views_handles anc ns : map v_handle (views anc ns) = handlesF ns.
Proof.
  unfold views. rewrite map_map. symmetry. apply handlesF_walkF.
Qed.

Lemma viewsN_handles anc n : map v_handle (viewsN anc n) = handles n.
Proof.
  unfold viewsN. rewrite map_map. symmetry. apply handles_walk.
Qed.

Lemma splice_out_forest x ns :
  Forall (fun n => forall anc, splice_out x anc [n]) ns ->
  forall anc, splice_out x anc ns.
Proof.
  induction 1 as [|k r Hk _ IHr]; intros anc Hnd a m Hf; [discriminate|].
  change (handlesF (k :: r)) with (handles k ++ handlesF r) in *.
  change (walkF anc (k :: r)) with (walk anc k ++ walkF anc r) in Hf.
  rewrite find_app in Hf. rewrite views_cons.
  destruct (find (is_at x) (walk anc k)) as [q|] eqn:Ek.
  - inversion Hf; subst q.
    assert (Hr : ~ In x (handlesF r)).
    { intros Hr. eapply NoDup_app_disjoint; eauto. eapply find_walk_In; eauto. }
    destruct (Hk anc) with (a := a) (m := m) as (v1 & v2 & E1 & E2).
    + unfold handlesF. simpl. rewrite app_nil_r. eapply NoDup_app_l; eauto.
    + unfold walkF. simpl. rewrite app_nil_r. exact Ek.
    + rewrite views_cons in E1. unfold views at 1 in E1. simpl in E1.
      rewrite app_nil_r in E1.
      exists v1, (v2 ++ views anc r). split.
      * rewrite E1, <- !app_assoc. reflexivity.
      * cbn [pruneF] in *. destruct (is_not x k).
        -- rewrite views_cons in *. rewrite (pruneF_absent x r Hr).
           unfold views at 1 in E2. simpl in E2. rewrite app_nil_r in E2.
           rewrite E2, <- app_assoc. reflexivity.
        -- rewrite (pruneF_absent x r Hr). unfold views at 1 in E2.
           simpl in E2. symmetry in E2. apply app_eq_nil in E2 as [-> ->].
           reflexivity.
  - assert (Hk' : ~ In x (handles k)).
    { intros Hk'. eapply NoDup_app_disjoint; eauto. eapply find_is_at_In; eauto. }
    destruct (IHr anc (NoDup_app_r _ _ Hnd) a m Hf) as (v1 & v2 & E1 & E2).
    exists (viewsN anc k ++ v1), v2. split.
    + rewrite E1, <- app_assoc. reflexivity.
    + cbn [pruneF].
      assert (Hnot : is_not x k = true).
      { unfold is_not. destruct (Nat.eqb (handle_of k) x) eqn:E; [|reflexivity].
        apply Nat.eqb_eq in E. exfalso. apply Hk'. destruct k; simpl in *. auto. }
      rewrite Hnot, (prune_absent x k Hk'), views_cons, E2, <- app_assoc.
      reflexivity.
Qed.

Lemma splice_out_node x n : forall anc, splice_out x anc [n].
Proof.
  induction n as [h e ks IH] using node_ind. intros anc Hnd a m Hf.
  cbn [pruneF]. rewrite prune_eq.
  unfold handlesF, walkF in Hnd, Hf.
  cbn [flat_map handles walk app find] in Hnd, Hf. rewrite !app_nil_r in *.
  unfold is_not. unfold is_at in Hf. cbn [handle_of snd] in *.
  destruct (Nat.eqb h x) eqn:E; cbn [negb].
  - inversion Hf; subst a m. exists [], []. split.
    + rewrite views_cons. unfold views. simpl. rewrite !app_nil_r. reflexivity.
    + reflexivity.
  - inversion Hnd as [|? ? _ Hnd']; subst.
    destruct (splice_out_forest x ks IH ((h, e) :: anc) Hnd' a m Hf)
      as (v1 & v2 & E1 & E2).
    exists ((anc, h, e) :: v1), v2. split.
    + rewrite views_cons, viewsN_node. unfold views at 2. simpl.
      rewrite app_nil_r, E1. reflexivity.
    + rewrite views_cons, viewsN_node. unfold views at 2. simpl.
      rewrite app_nil_r, E2. reflexivity.
Qed.

Lemma pruneF_views x anc ns : splice_out x anc ns.
Proof.
  apply splice_out_forest. apply Forall_forall. intros n _.
  apply splice_out_node.
Qed.

Lemma splice_in_forest p f new ns :
  Forall (fun n => forall anc, splice_in p f new anc [n]) ns ->
  forall anc, splice_in p f new anc ns.
Proof.
  induction 1 as [|k r Hk _ IHr]; intros anc Hnd a P Hf Hks; [discriminate|].
  change (handlesF (k :: r)) with (handles k ++ handlesF r) in *.
  change (walkF anc (k :: r)) with (walk anc k ++ walkF anc r) in Hf.
  rewrite find_app in Hf. cbn [map]. rewrite !views_cons.
  destruct (find (is_at p) (walk anc k)) as [q|] eqn:Ek.
  - inversion Hf; subst q.
    assert (Hr : ~ In p (handlesF r)).
    { intros Hr. eapply NoDup_app_disjoint; eauto. eapply find_walk_In; eauto. }
    rewrite (editF_absent p f r Hr).
    destruct (Hk anc) with (a := a) (P := P) as (v1 & v2 & E1 & E2); auto.
    + unfold handlesF. simpl. rewrite app_nil_r. eapply NoDup_app_l; eauto.
    + unfold walkF. simpl. rewrite app_nil_r. exact Ek.
    + cbn [map] in E2. rewrite !views_cons in E1, E2. unfold views in E1, E2.
      simpl in E1, E2. rewrite !app_nil_r in E1, E2.
      exists v1, (v2 ++ views anc r). split.
      * rewrite E1, <- app_assoc. reflexivity.
      * rewrite E2, <- !app_assoc. reflexivity.
  - assert (Hk' : ~ In p (handles k)).
    { intros Hk'. eapply NoDup_app_disjoint; eauto. eapply find_is_at_In; eauto. }
    rewrite (edit_absent p f k Hk').
    destruct (IHr anc (NoDup_app_r _ _ Hnd) a P Hf Hks) as (v1 & v2 & E1 & E2).
    exists (viewsN anc k ++ v1), v2. split.
    + rewrite E1, <- app_assoc. reflexivity.
    + rewrite E2, <- app_assoc. reflexivity.
Qed.

Lemma splice_in_node p f new n : forall anc, splice_in p f new anc [n].
Proof.
  induction n as [h e ks IH] using node_ind. intros anc Hnd a P Hf Hks.
  unfold handlesF, walkF in Hnd, Hf.
  cbn [flat_map handles walk app find] in Hnd, Hf. rewrite !app_nil_r in *.
  unfold is_at in Hf. cbn [handle_of snd] in Hf.
  inversion Hnd as [|? ? Hh Hnd']; subst.
  cbn [map edit]. rewrite !views_cons, !viewsN_node.
  unfold views at 2 4. simpl. rewrite !app_nil_r.
  destruct (Nat.eqb h p) eqn:E.
  - inversion Hf; subst a P. apply Nat.eqb_eq in E. subst p.
    rewrite (editF_absent h f ks Hh).
    destruct Hks as (k1 & k2 & Hk & Hfk). cbn [kids_of elem_of] in *.
    rewrite Hfk, Hk. exists ((anc, h, e) :: views ((h, e) :: anc) k1),
      (views ((h, e) :: anc) k2). split.
    + rewrite views_app. reflexivity.
    + rewrite views_app, views_cons. reflexivity.
  - destruct (splice_in_forest p f new ks IH ((h, e) :: anc) Hnd' a P Hf Hks)
      as (v1 & v2 & E1 & E2).
    exists ((anc, h, e) :: v1), v2. split.
    + rewrite E1. reflexivity.
    + rewrite E2. reflexivity.
Qed.

Lemma edit_views p f new anc ns : splice_in p f new anc ns.
Proof.
  apply splice_in_forest. apply Forall_forall. intros n _.
  apply splice_in_node.
Qed.

Lemma insert_before_in_split ref new ks :
  In ref (map handle_of ks) ->
  exists k1 k2, ks = k1 ++ k2 /\ insert_before_in ref new ks = k1 ++ new :: k2
                /\ option_map handle_of (hd_error k2) = Some ref
                /\ ~ In ref (map handle_of k1).
Proof.
  induction ks as [|k r IH]; intros Hin; [destruct Hin|]. simpl.
  destruct (Nat.eqb (handle_of k) ref) eqn:E.
  - exists [], (k :: r). apply Nat.eqb_eq in E. simpl. rewrite E. auto.
  - destruct Hin as [Hin|Hin]; [apply Nat.eqb_neq in E; contradiction|].
    destruct (IH Hin) as (k1 & k2 & -> & -> & Hhd & Hn).
    exists (k :: k1), k2. repeat split; auto. simpl.
    apply Nat.eqb_neq in E. tauto.
Qed.

(** ** The descendants of a node, within the whole list *)

Lemma views_ctx n : forall anc v,
  In v (viewsN anc n) ->
  exists pre, v_ctx v = pre ++ anc /\
              forall c, In c (map fst pre) -> In c (handles n).
Proof.
  induction n as [h e ks IH] using node_ind. intros anc v Hv.
  rewrite viewsN_node in Hv. destruct Hv as [<-|Hv].
  - exists []. split; [reflexivity | intros c []].
  - unfold views, walkF in Hv. rewrite in_map_iff in Hv.
    destruct Hv as (q & <- & Hq). apply in_flat_map in Hq as (k & Hk & Hq).
    rewrite Forall_forall in IH.
    destruct (IH k Hk ((h, e) :: anc) (view_of q)) as (pre & Hc & Hpre).
    { unfold viewsN. apply in_map. exact Hq. }
    exists (pre ++ [(h, e)]). split.
    + rewrite Hc, <- app_assoc. reflexivity.
    + intros c Hc'. rewrite map_app, in_app_iff in Hc'. simpl.
      destruct Hc' as [Hc'|[<-|[]]]; [right | left; reflexivity].
      apply in_flat_map. exists k. split; [exact Hk | apply Hpre; exact Hc'].
Qed.

Lemma filter_all {A} (p : A -> bool) l :
  (forall x, In x l -> p x = true) -> filter p l = l.
Proof.
  induction l as [|a l IH]; intros H; simpl; [reflexivity|].
  rewrite (H a (or_introl eq_refl)). f_equal. apply IH. intros; apply H.
  right. assumption.
Qed.

Lemma filter_none {A} (p : A -> bool) l :
  (forall x, In x l -> p x = false) -> filter p l = [].
Proof.
  induction l as [|a l IH]; intros H; simpl; [reflexivity|].
  rewrite (H a (or_introl eq_refl)). apply IH. intros; apply H.
  right. assumption.
Qed.

Lemma below_inside s anc n :
  In s (map fst anc) -> filter (below s) (viewsN anc n) = viewsN anc n.
Proof.
  intros Hs. apply filter_all. intros v Hv.
  destruct (views_ctx n anc v Hv) as (pre & Hc & _).
  unfold below. rewrite Hc, map_app. apply mem_In. apply in_or_app. auto.
Qed.

Lemma below_insideF s anc ns :
  In s (map fst anc) -> filter (below s) (views anc ns) = views anc ns.
Proof.
  intros Hs. induction ns as [|k r IH]; [reflexivity|].
  rewrite views_cons, filter_app, IH, below_inside by exact Hs. reflexivity.
Qed.

Lemma below_outside s anc n :
  ~ In s (map fst anc) -> ~ In s (handles n) ->
  filter (below s) (viewsN anc n) = [].
Proof.
  intros Hs Hn. apply filter_none. intros v Hv.
  destruct (views_ctx n anc v Hv) as (pre & Hc & Hpre).
  unfold below. rewrite Hc, map_app. apply not_true_is_false. intros Hm.
  apply mem_In in Hm. apply in_app_iff in Hm as [Hm|Hm]; auto.
Qed.

Lemma below_outsideF s anc ns :
  ~ In s (map fst anc) -> ~ In s (handlesF ns) ->
  filter (below s) (views anc ns) = [].
Proof.
  intros Hs. induction ns as [|k r IH]; intros Hn; [reflexivity|].
  change (handlesF (k :: r)) with (handles k ++ handlesF r) in Hn.
  rewrite in_app_iff in Hn.
  rewrite views_cons, filter_app, IH, below_outside by tauto. reflexivity.
Qed.

Lemma scoped_forest s ns :
  Forall (fun n => forall anc, scoped s anc [n]) ns ->
  forall anc, scoped s anc ns.
Proof.
  induction 1 as [|k r Hk _ IHr]; intros anc Hnd Hs a n Hf; [discriminate|].
  change (handlesF (k :: r)) with (handles k ++ handlesF r) in *.
  change (walkF anc (k :: r)) with (walk anc k ++ walkF anc r) in Hf.
  rewrite find_app in Hf. rewrite views_cons, filter_app.
  destruct (find (is_at s) (walk anc k)) as [q|] eqn:Ek.
  - inversion Hf; subst q.
    assert (Hr : ~ In s (handlesF r)).
    { intros Hr. eapply NoDup_app_disjoint; eauto. eapply find_walk_In; eauto. }
    rewrite (below_outsideF s anc r Hs Hr), app_nil_r.
    specialize (Hk anc). unfold scoped in Hk. rewrite views_cons in Hk.
    unfold views, handlesF, walkF in Hk. simpl in Hk. rewrite !app_nil_r in Hk.
    apply Hk; auto. eapply NoDup_app_l; eauto.
  - assert (Hk' : ~ In s (handles k)).
    { intros Hk'. eapply NoDup_app_disjoint; eauto. eapply find_is_at_In; eauto. }
    rewrite (below_outside s anc k Hs Hk'). simpl.
    apply IHr; auto. eapply NoDup_app_r; eauto.
Qed.

Lemma scoped_node s n : forall anc, scoped s anc [n].
Proof.
  induction n as [h e ks IH] using node_ind. intros anc Hnd Hs a n Hf.
  unfold handlesF, walkF in Hnd, Hf.
  cbn [flat_map handles walk app find] in Hnd, Hf. rewrite !app_nil_r in *.
  unfold is_at in Hf. cbn [handle_of snd] in Hf.
  inversion Hnd as [|? ? Hh Hnd']; subst.
  rewrite views_cons, viewsN_node. unfold views at 2. simpl. rewrite app_nil_r.
  assert (Hhead : below s (anc, h, e) = false).
  { unfold below. simpl. apply not_true_is_false. intros Hm.
    apply mem_In in Hm. contradiction. }
  rewrite Hhead.
  destruct (Nat.eqb h s) eqn:E.
  - inversion Hf; subst a n. apply Nat.eqb_eq in E. subst s.
    unfold descendants. simpl. symmetry. apply below_insideF. simpl. auto.
  - apply (scoped_forest s ks IH ((h, e) :: anc) Hnd'); [|exact Hf].
    simpl. apply Nat.eqb_neq in E. tauto.
Qed.

Lemma descendants_views s anc ns : scoped s anc ns.
Proof.
  apply scoped_forest. apply Forall_forall. intros n _. apply scoped_node.
Qed.

(** ** Queries on the document, through views *)

Lemma doc_query_views D sel :
  doc_querySelectorAll D sel = map v_handle (filter (matchesV sel) (dviews D)).
Proof.
  unfold doc_querySelectorAll, dviews, views.
  induction (walkF [] (doc D)) as [|p l IH]; simpl; [reflexivity|].
  rewrite matches_view. destruct (matchesV sel (view_of p)); simpl; rewrite IH;
    reflexivity.
Qed.

Lemma in_doc_locate D h p : in_doc D h = Some p -> locate D h = Some p.
Proof.
  unfold in_doc, locate, all_nodes. intros E. rewrite find_app.
  fold (is_at h) in *. rewrite E. reflexivity.
Qed.

Lemma wf_doc_NoDup D : wf D -> NoDup (handlesF (doc D)).
Proof. intros [H _]. eapply NoDup_app_l; eauto. Qed.

Lemma map_filter_view_of (q : view -> bool) l :
  map view_of (filter (fun p => q (view_of p)) l) = filter q (map view_of l).
Proof.
  induction l as [|p l IH]; simpl; [reflexivity|].
  destruct (q (view_of p)); simpl; rewrite IH; reflexivity.
Qed.

Lemma scoped_query_views D s a n sel :
  wf D -> in_doc D s = Some (a, n) ->
  querySelectorAll D s sel
  = map v_handle (filter (matchesV sel) (filter (below s) (dviews D))).
Proof.
  intros Hwf Hs. unfold querySelectorAll. rewrite (in_doc_locate _ _ _ Hs).
  unfold dviews.
  rewrite <- (descendants_views s [] (doc D) (wf_doc_NoDup D Hwf)
                (fun H => H) a n Hs).
  rewrite <- map_filter_view_of, map_map. reflexivity.
Qed.

Lemma in_doc_view D h a n :
  in_doc D h = Some (a, n) -> In (a, h, elem_of n) (dviews D).
Proof.
  unfold in_doc. intros E. apply find_some in E as [Hin Hh]. simpl in Hh.
  apply Nat.eqb_eq in Hh. subst h. unfold dviews, views.
  apply in_map_iff. exists (a, n). auto.
Qed.

Lemma view_in_doc D v :
  wf D -> In v (dviews D) ->
  exists n, in_doc D (v_handle v) = Some (v_ctx v, n) /\ elem_of n = v_elem v.
Proof.
  intros Hwf Hv. unfold dviews, views in Hv.
  apply in_map_iff in Hv as ([a n] & <- & Hin). exists n. split; [|reflexivity].
  unfold in_doc. apply (find_unique_forest (doc D) (a, n) (wf_doc_NoDup D Hwf) Hin).
Qed.

Lemma parentElement_in_doc D h a n :
  in_doc D h = Some (a, n) -> parentElement D h = option_map fst (hd_error a).
Proof.
  intros E. unfold parentElement. rewrite (in_doc_locate _ _ _ E).
  destruct a as [|[p e] a]; reflexivity.
Qed.

Lemma ancestors_in_doc D h a n :
  in_doc D h = Some (a, n) -> ancestors D h = map fst a.
Proof.
  intros E. unfold ancestors. rewrite (in_doc_locate _ _ _ E). reflexivity.
Qed.

Lemma dviews_mapTD g D : dviews (mapTD g D) = map (mapV g) (dviews D).
Proof.
  unfold dviews, views. simpl. change (@nil (handle * elem)) with (mapC g []).
  rewrite walkF_mapT, !map_map. apply map_ext. intros [a n].
  unfold view_of, mapV, mapP, v_ctx, v_handle, v_elem. simpl.
  rewrite handle_of_mapT, elem_of_mapT. reflexivity.
Qed.

Lemma in_doc_handles D h : in_doc D h <> None <-> In h (handlesF (doc D)).
Proof.
  unfold in_doc. fold (is_at h). split.
  - destruct (find _ _) eqn:E; [|congruence]. intros _.
    eapply find_is_at_In; eauto.
  - intros Hin. destruct (in_handles_find h [] _ Hin) as [q ->]. discriminate.
Qed.

(** Removing a node of the document takes its views out. *)
Lemma remove_views D x a m :
  wf D -> in_doc D x = Some (a, m) ->
  (exists v1 v2,
      dviews D = v1 ++ viewsN a m ++ v2 /\
      dviews (remove D x) = v1 ++ v2) /\
  doc (remove D x) = pruneF x (doc D).
Proof.
  intros Hwf Hx. unfold remove. rewrite Hx. simpl. split; [|reflexivity].
  unfold dviews. simpl.
  apply (pruneF_views x [] (doc D) (wf_doc_NoDup D Hwf) a m Hx).
Qed.

Lemma remove_outside D x :
  in_doc D x = None -> doc (remove D x) = doc D.
Proof.
  intros Hx. unfold remove. rewrite Hx.
  destruct (locate D x) as [[[|c a] n]|]; reflexivity.
Qed.

Lemma doc_edit_outside D p f :
  in_doc D p = None -> map (edit p f) (doc D) = doc D.
Proof.
  intros Hp. apply editF_absent. intros Hin. apply in_doc_handles in Hin.
  contradiction.
Qed.

Lemma locate_child D ref p e a n :
  wf D -> locate D ref = Some ((p, e) :: a, n) ->
  exists P, find (is_at p) (walkF [] (forest D)) = Some (a, P) /\
            elem_of P = e /\ In ref (map handle_of (kids_of P)).
Proof.
  intros Hwf El. pose proof (locate_handle _ _ _ _ El) as Hn.
  unfold locate in El. apply find_some in El as [Hin _].
  rewrite all_nodes_forest in Hin.
  destruct (walkF_parent _ _ _ _ Hin) as (P & Hc & HP & Hkid).
  inversion Hc; subst p e. exists P. split; [|split; [reflexivity|]].
  - apply (find_unique_forest _ _ (wf_NoDup D Hwf) HP).
  - apply in_map_iff. exists n. auto.
Qed.

(** Inserting before a child of a node of the document puts the views
    of the new subtree in. *)
Lemma insertBefore_views D p new ref D' a P :
  wf D -> insertBefore D p new ref = Some D' -> in_doc D p = Some (a, P) ->
  (exists v1 v2,
      dviews D = v1 ++ v2 /\
      dviews D' = v1 ++ viewsN ((p, elem_of P) :: a) new ++ v2) /\
  doc D' = map (edit p (insert_before_in ref new)) (doc D).
Proof.
  intros Hwf Hins Hp. unfold insertBefore, parentElement in Hins.
  destruct (locate D ref) as [[[|[p' e] a'] n]|] eqn:El; try discriminate.
  destruct (Nat.eqb p' p) eqn:E; [|discriminate]. apply Nat.eqb_eq in E. subst p'.
  inversion Hins; subst D'. clear Hins. simpl.
  rewrite (map_ext _ _ (ins_before_edit p ref new)). split; [|reflexivity].
  destruct (locate_child D ref p e a' n Hwf El) as (P' & HP' & He & Hkid).
  pose proof (in_doc_locate _ _ _ Hp) as Hl. unfold locate in Hl.
  rewrite all_nodes_forest in Hl. fold (is_at p) in Hl. rewrite HP' in Hl.
  inversion Hl; subst a' P'.
  destruct (insert_before_in_split ref new _ Hkid) as (k1 & k2 & Hk & Hf & _).
  unfold dviews. simpl.
  apply (edit_views p _ new [] (doc D) (wf_doc_NoDup D Hwf) a P Hp).
  exists k1, k2. rewrite <- Hk. auto.
Qed.

Lemma insertBefore_outside D p new ref D' :
  insertBefore D p new ref = Some D' -> in_doc D p = None -> doc D' = doc D.
Proof.
  unfold insertBefore. destruct (parentElement D ref); [|discriminate].
  destruct (Nat.eqb h p); [|discriminate]. intros [= <-] Hp. simpl.
  rewrite (map_ext _ _ (ins_before_edit p ref new)).
  apply doc_edit_outside. exact Hp.
Qed.

Lemma appendChild_views D p new a P :
  wf D -> in_doc D p = Some (a, P) ->
  (exists v1 v2,
      dviews D = v1 ++ v2 /\
      dviews (appendChild D p new) = v1 ++ viewsN ((p, elem_of P) :: a) new ++ v2) /\
  doc (appendChild D p new) = map (edit p (fun ks => ks ++ [new])) (doc D).
Proof.
  intros Hwf Hp. simpl. rewrite (map_ext _ _ (app_child_edit p new)).
  split; [|reflexivity]. unfold dviews at 2. simpl.
  rewrite (map_ext _ _ (app_child_edit p new)).
  apply (edit_views p _ new [] (doc D) (wf_doc_NoDup D Hwf) a P Hp).
  exists (kids_of P), []. rewrite app_nil_r. auto.
Qed.

Lemma appendChild_outside D p new :
  in_doc D p = None -> doc (appendChild D p new) = doc D.
Proof.
  intros Hp. simpl. rewrite (map_ext _ _ (app_child_edit p new)).
  apply doc_edit_outside. exact Hp.
Qed.

(** ** The steps of the filter, one by one *)

Lemma wf_removeSleepersSection D : wf D -> wf (removeSleepersSection D).
Proof.
  intros Hwf. unfold removeSleepersSection.
  destruct (getElementById D sleepers_id); [apply wf_remove|]; exact Hwf.
Qed.

Lemma elem_at_removeSleepersSection D h :
  wf D -> elem_at (removeSleepersSection D) h = elem_at D h.
Proof.
  intros Hwf. unfold removeSleepersSection.
  destruct (getElementById D sleepers_id); [apply elem_at_remove, Hwf | reflexivity].
Qed.

Lemma next_removeSleepersSection D : next (removeSleepersSection D) = next D.
Proof.
  unfold removeSleepersSection.
  destruct (getElementById D sleepers_id); [apply remove_next | reflexivity].
Qed.

Lemma resetChars_mapTD D cs :
  resetChars D cs =
  mapTD (fun h e => if mem h cs then remove_class hidden e else e) D.
Proof.
  unfold resetChars, classList_remove.
  apply (fold_updD_mapTD (remove_class hidden)). apply remove_class_idem.
Qed.

Lemma wf_removePlaceholder D s : wf D -> wf (removePlaceholder D s).
Proof.
  intros Hwf. unfold removePlaceholder.
  destruct (querySelector D s (cls no_awake_class)); [apply wf_remove|]; exact Hwf.
Qed.

Lemma elem_at_removePlaceholder D s h :
  wf D -> elem_at (removePlaceholder D s) h = elem_at D h.
Proof.
  intros Hwf. unfold removePlaceholder.
  destruct (querySelector D s (cls no_awake_class));
    [apply elem_at_remove, Hwf | reflexivity].
Qed.

Lemma next_removePlaceholder D s : next (removePlaceholder D s) = next D.
Proof.
  unfold removePlaceholder.
  destruct (querySelector D s (cls no_awake_class));
    [apply remove_next | reflexivity].
Qed.

Lemma cellsD_with_next D nx : cellsD (with_next D nx) = cellsD D.
Proof. reflexivity. Qed.

Lemma toggle_fresh P nx :
  let t := fst (createToggle P nx) in
  NoDup (map fst (cells t)) /\
  Forall (fun h => nx <= h < snd (createToggle P nx)) (map fst (cells t)).
Proof.
  simpl. split.
  - repeat constructor; simpl; intros H; repeat destruct H as [H|H]; lia.
  - repeat constructor; lia.
Qed.

(** What [ensureToggle] does to the store when it does not throw: it
    leaves it alone, or it adds the freshly made toggle. *)
Lemma ensureToggle_cells P D s ex D4 :
  wf D -> ensureToggle P D s ex = Some D4 ->
  D4 = D \/
  (Permutation (cellsD D4) (cells (fst (createToggle P (next D))) ++ cellsD D) /\
   next D4 = snd (createToggle P (next D))).
Proof.
  intros Hwf. unfold ensureToggle. destruct ex; [intros [= <-]; auto|].
  destruct (querySelector D s (cls "panelsection--title")) as [titleEl|];
    [|intros [= <-]; auto].
  destruct (querySelector D s (cls "pageroom--inroomheader")) as [hdr|];
    [|intros [= <-]; auto].
  destruct (createToggle P (next D)) as [t nx] eqn:Et. intros Hins. right.
  apply insertBefore_cells in Hins.
  - simpl. exact Hins.
  - apply wf_with_next; [exact Hwf|]. unfold createToggle in Et.
    inversion Et. lia.
Qed.

Lemma wf_ensureToggle P D s ex D4 :
  wf D -> ensureToggle P D s ex = Some D4 -> wf D4 /\ next D <= next D4.
Proof.
  intros Hwf He. destruct (ensureToggle_cells P D s ex D4 Hwf He) as [->|[Hp Hn]].
  - auto.
  - destruct (toggle_fresh P (next D)) as [Hnd Hfr]. rewrite <- Hn in Hfr.
    assert (Hle : next D <= next D4) by (rewrite Hn; simpl; lia).
    split; [|exact Hle]. eapply wf_grow; eauto.
Qed.

Lemma elem_at_ensureToggle P D s ex D4 h :
  wf D -> ensureToggle P D s ex = Some D4 -> h < next D ->
  elem_at D4 h = elem_at D h.
Proof.
  intros Hwf He Hh. destruct (wf_ensureToggle P D s ex D4 Hwf He) as [Hwf4 _].
  destruct (ensureToggle_cells P D s ex D4 Hwf He) as [->|[Hp Hn]]; [reflexivity|].
  eapply elem_at_grow; eauto.
  destruct (toggle_fresh P (next D)) as [_ Hfr].
  eapply Forall_impl; [|exact Hfr]. simpl. intros; lia.
Qed.

Lemma is_hidden_elem_at D h :
  is_hidden D h = match elem_at D h with
                  | Some e => has_class hidden e
                  | None => false
                  end.
Proof. apply classList_contains_elem_at. Qed.

(** After the reset and up to the sorting, no character found by the
    pass carries the hidden marker. *)
Lemma prepared_chars_visible P D s D4 el :
  wf D -> prepared P D s = Some D4 ->
  In el (getCharElements (removeSleepersSection D) (Some s)) ->
  is_hidden D4 el = false /\ wf D4.
Proof.
  intros Hwf Hp Hel. unfold prepared in Hp.
  set (D1 := removeSleepersSection D) in *.
  set (cs := getCharElements D1 (Some s)) in *.
  assert (Hwf1 : wf D1) by (apply wf_removeSleepersSection, Hwf).
  assert (Hwf2 : wf (resetChars D1 cs))
    by (rewrite resetChars_mapTD; apply wf_mapTD, Hwf1).
  assert (Hwf3 : wf (removePlaceholder (resetChars D1 cs) s))
    by (apply wf_removePlaceholder, Hwf2).
  destruct (wf_ensureToggle _ _ _ _ _ Hwf3 Hp) as [Hwf4 _].
  split; [|exact Hwf4]. rewrite is_hidden_elem_at.
  destruct (elem_at D4 el) as [e|] eqn:E4; [|reflexivity].
  assert (Hlt : el < next (removePlaceholder (resetChars D1 cs) s)).
  { destruct (Nat.lt_ge_cases el (next (removePlaceholder (resetChars D1 cs) s)))
      as [H|H]; [exact H|]. exfalso.
    assert (Hloc : elem_at D1 el <> None).
    { subst cs. simpl in Hel. unfold querySelectorAll in Hel.
      destruct (locate D1 s) as [[a n]|] eqn:Es; [|destruct Hel].
      apply in_map_iff in Hel as (p & Hh & Hp').
      apply filter_In in Hp' as [Hp' _].
      unfold elem_at.
      assert (Hin : In p (all_nodes D1)).
      { unfold locate in Es. apply find_some in Es as [Es _].
        rewrite all_nodes_forest in *. unfold descendants in Hp'.
        apply in_flat_map in Es as (r & Hr & Hq).
        apply in_flat_map. exists r. split; [exact Hr|].
        clear -Hq Hp'. revert Hq Hp'. generalize (@nil (handle * elem)).
        induction r as [h e ks IH] using node_ind. intros c [Hq|Hq] Hp'.
        - inversion Hq; subst. right. exact Hp'.
        - right. apply in_flat_map in Hq as (k & Hk & Hq).
          rewrite Forall_forall in IH. apply in_flat_map. exists k.
          split; [exact Hk|]. eapply IH; eauto. }
      rewrite <- Hh, (locate_unique D1 p Hwf1 Hin). discriminate. }
    destruct (elem_at D1 el) as [e1|] eqn:E1; [|congruence].
    apply (located_lt _ _ _ Hwf1) in E1.
    rewrite next_removePlaceholder, resetChars_mapTD in H. simpl in H. lia. }
  rewrite (elem_at_ensureToggle _ _ _ _ _ el Hwf3 Hp Hlt) in E4.
  rewrite (elem_at_removePlaceholder _ _ _ Hwf2) in E4.
  rewrite resetChars_mapTD, elem_at_mapTD in E4.
  apply mem_In in Hel. rewrite Hel in E4.
  destruct (elem_at D1 el); [|discriminate]. inversion E4.
  apply has_class_remove.
Qed.

(** ** Which elements are in the document *)

Lemma dviews_handles D : map v_handle (dviews D) = handlesF (doc D).
Proof. apply views_handles. Qed.

Lemma doc_handles_mapTD g D : handlesF (doc (mapTD g D)) = handlesF (doc D).
Proof.
  rewrite <- !dviews_handles, dviews_mapTD, map_map. reflexivity.
Qed.

Lemma doc_handles_remove D y h :
  wf D -> In h (handlesF (doc (remove D y))) -> In h (handlesF (doc D)).
Proof.
  intros Hwf. destruct (in_doc D y) as [[a m]|] eqn:Ey.
  - destruct (remove_views D y a m Hwf Ey) as [(v1 & v2 & E1 & E2) _].
    rewrite <- !dviews_handles, E1, E2, !map_app, !in_app_iff. tauto.
  - rewrite (remove_outside D y Ey). auto.
Qed.

Lemma doc_handles_remove_gone D x :
  wf D -> ~ In x (handlesF (doc (remove D x))).
Proof.
  intros Hwf. destruct (in_doc D x) as [[a m]|] eqn:Ex.
  - destruct (remove_views D x a m Hwf Ex) as [(v1 & v2 & E1 & E2) _].
    pose proof (wf_doc_NoDup D Hwf) as Hnd.
    rewrite <- dviews_handles, E1, !map_app in Hnd.
    rewrite <- dviews_handles, E2, map_app. intros Hin.
    assert (Hx : In x (map v_handle (viewsN a m))).
    { rewrite viewsN_handles. unfold in_doc in Ex. apply find_some in Ex as [_ Hh].
      simpl in Hh. apply Nat.eqb_eq in Hh. destruct m; simpl in *. auto. }
    apply in_app_iff in Hin as [Hin|Hin].
    + eapply NoDup_app_disjoint; [exact Hnd | exact Hin|].
      apply in_or_app. left. exact Hx.
    + apply NoDup_app_r in Hnd.
      eapply NoDup_app_disjoint; [exact Hnd | exact Hx | exact Hin].
  - rewrite (remove_outside D x Ex). intros Hin. apply in_doc_handles in Hin.
    contradiction.
Qed.

Lemma ensureToggle_views P D s ex D4 :
  wf D -> ensureToggle P D s ex = Some D4 ->
  doc D4 = doc D \/
  exists v1 v2 c,
    dviews D = v1 ++ v2 /\
    dviews D4 = v1 ++ viewsN c (fst (createToggle P (next D))) ++ v2.
Proof.
  intros Hwf. unfold ensureToggle. destruct ex; [intros [= <-]; auto|].
  destruct (querySelector D s (cls "panelsection--title")) as [titleEl|];
    [|intros [= <-]; auto].
  destruct (querySelector D s (cls "pageroom--inroomheader")) as [hdr|];
    [|intros [= <-]; auto].
  destruct (createToggle P (next D)) as [t nx] eqn:Et. intros Hins.
  assert (Hwf' : wf (with_next D nx)).
  { apply wf_with_next; [exact Hwf|]. unfold createToggle in Et.
    inversion Et. lia. }
  destruct (in_doc (with_next D nx) titleEl) as [[a Pn]|] eqn:Ep.
  - right. destruct (insertBefore_views _ _ _ _ _ a Pn Hwf' Hins Ep)
      as [(v1 & v2 & E1 & E2) _].
    exists v1, v2, ((titleEl, elem_of Pn) :: a). auto.
  - left. apply (insertBefore_outside _ _ _ _ _ Hins Ep).
Qed.

Lemma doc_handles_ensureToggle P D s ex D4 h :
  wf D -> ensureToggle P D s ex = Some D4 ->
  In h (handlesF (doc D4)) -> In h (handlesF (doc D)) \/ next D <= h.
Proof.
  intros Hwf He Hin.
  destruct (ensureToggle_views P D s ex D4 Hwf He) as [E|(v1 & v2 & c & E1 & E2)];
    [rewrite E in Hin; auto|].
  rewrite <- dviews_handles, E2, !map_app, !in_app_iff in Hin.
  rewrite <- dviews_handles, E1, map_app, in_app_iff.
  destruct Hin as [Hin|[Hin|Hin]]; auto. right.
  rewrite viewsN_handles in Hin. simpl in Hin.
  destruct Hin as [Hin|[Hin|[Hin|[]]]]; lia.
Qed.

Lemma doc_query_in_doc D sel x :
  wf D -> In x (doc_querySelectorAll D sel) ->
  in_doc D x <> None /\ x < next D.
Proof.
  intros Hwf Hx. apply doc_query_In in Hx as (p & Hp & _ & <-).
  pose proof (find_unique_forest (doc D) p (wf_doc_NoDup D Hwf) Hp) as Hf.
  unfold in_doc. fold (is_at (handle_of (snd p))). rewrite Hf.
  split; [discriminate|].
  destruct Hwf as [_ Hlt]. rewrite Forall_forall in Hlt. apply Hlt.
  apply in_or_app. left. rewrite (handlesF_walkF _ []).
  apply (in_map (fun q : ctx * node => handle_of (snd q))). exact Hp.
Qed.

Lemma hd_error_In {A} (l : list A) x : hd_error l = Some x -> In x l.
Proof. destruct l; simpl; [discriminate|]. intros [= ->]. auto. Qed.

(** ** Matching by element data only *)

Lemma matchesV_compound c v :
  matchesV [[c]] v = matches_compound c (v_elem v).
Proof.
  unfold matchesV. cbn [existsb matches_complex matches_anc].
  rewrite andb_true_r, orb_false_r. reflexivity.
Qed.

Lemma matchesV_mapV g sel v :
  avoids_hidden sel = true -> hidden_only g ->
  matchesV sel (mapV g v) = matchesV sel v.
Proof.
  intros Hsel Hg. destruct v as [[a h] e].
  pose proof (matches_mapP g sel (a, Node h e []) Hsel Hg) as H.
  exact H.
Qed.

Lemma filter_matchesV_mapV g sel l :
  avoids_hidden sel = true -> hidden_only g ->
  map v_handle (filter (matchesV sel) (map (mapV g) l))
  = map v_handle (filter (matchesV sel) l).
Proof.
  intros Hsel Hg. induction l as [|v l IH]; simpl; [reflexivity|].
  rewrite (matchesV_mapV g sel v Hsel Hg).
  destruct (matchesV sel v); simpl; rewrite IH; reflexivity.
Qed.

(** ** Selectors that find nothing *)

Lemma query_remove_nil D y sel :
  wf D -> doc_querySelectorAll D sel = [] ->
  doc_querySelectorAll (remove D y) sel = [].
Proof.
  intros Hwf. destruct (in_doc D y) as [[a m]|] eqn:Ey.
  - destruct (remove_views D y a m Hwf Ey) as [(v1 & v2 & E1 & E2) _].
    rewrite !doc_query_views, E1, E2, !filter_app, !map_app.
    intros H. apply app_eq_nil in H as [H1 H]. apply app_eq_nil in H as [_ H2].
    rewrite H1, H2. reflexivity.
  - unfold doc_querySelectorAll. rewrite (remove_outside D y Ey). auto.
Qed.

Lemma matchesV_sleepers v :
  matchesV sel_sleepers v = String.eqb sleepers_id (eid (v_elem v)).
Proof.
  unfold sel_sleepers. rewrite matchesV_compound. apply matches_compound_id.
Qed.

Lemma toggle_views_elems P nx c v :
  In v (viewsN c (fst (createToggle P nx))) ->
  eid (v_elem v) = "" /\
  (v_elem v = new_elem "div" "" [toggle_class] "" \/
   has_class toggle_class (v_elem v) = false) /\
  has_class no_awake_class (v_elem v) = false /\
  has_class "pageroom-char" (v_elem v) = false /\
  has_class hidden (v_elem v) = false /\
  carries_level (v_elem v) = false /\
  has_class "pageroom-exitchars--char" (v_elem v) = false.
Proof.
  simpl. intros [<-|[<-|[<-|[]]]]; simpl.
  - repeat split; auto.
  - destruct (splitEnabled P); repeat split; auto.
  - repeat split; auto.
Qed.

Lemma query_ensureToggle_sleepers P D s ex D4 :
  wf D -> ensureToggle P D s ex = Some D4 ->
  doc_querySelectorAll D sel_sleepers = [] ->
  doc_querySelectorAll D4 sel_sleepers = [].
Proof.
  intros Hwf He.
  destruct (ensureToggle_views P D s ex D4 Hwf He) as [E|(v1 & v2 & c & E1 & E2)].
  - unfold doc_querySelectorAll. rewrite E. auto.
  - rewrite !doc_query_views, E1, E2, !filter_app, !map_app.
    intros H. apply app_eq_nil in H as [H1 H2]. rewrite H1, H2.
    rewrite (filter_none (matchesV sel_sleepers)); [reflexivity|].
    intros v Hv. rewrite matchesV_sleepers.
    destruct (toggle_views_elems P _ c v Hv) as (-> & _). reflexivity.
Qed.

Lemma first_match_view D sel x a m :
  wf D -> In x (doc_querySelectorAll D sel) -> in_doc D x = Some (a, m) ->
  matchesV sel (a, x, elem_of m) = true.
Proof.
  intros Hwf Hx Hm. apply doc_query_In in Hx as (p & Hp & Hmatch & Hh).
  pose proof (find_unique_forest (doc D) p (wf_doc_NoDup D Hwf) Hp) as Hf.
  unfold in_doc in Hm. fold (is_at x) in Hm. rewrite Hh, Hm in Hf.
  inversion Hf; subst p. simpl in Hh. rewrite <- Hh. exact Hmatch.
Qed.

(** When at most one element carries the sleepers id, none is left once
    the section found by [getElementById] is removed. *)
Lemma removeSleepersSection_none D :
  wf D ->
  List.length (doc_querySelectorAll D sel_sleepers) <= 1 ->
  doc_querySelectorAll (removeSleepersSection D) sel_sleepers = [].
Proof.
  intros Hwf Hlen. unfold removeSleepersSection, getElementById, doc_querySelector.
  fold sel_sleepers.
  destruct (doc_querySelectorAll D sel_sleepers) as [|x l] eqn:Eq; [exact Eq|].
  simpl.
  assert (Hx : In x (doc_querySelectorAll D sel_sleepers))
    by (rewrite Eq; left; reflexivity).
  destruct (doc_query_in_doc D _ x Hwf Hx) as [Hin _].
  destruct (in_doc D x) as [[a m]|] eqn:Ex; [|congruence].
  destruct (remove_views D x a m Hwf Ex) as [(v1 & v2 & E1 & E2) _].
  pose proof (first_match_view D _ x a m Hwf Hx Ex) as Hm.
  rewrite doc_query_views, E1, !filter_app, !map_app in Eq.
  assert (Hvm : filter (matchesV sel_sleepers) (viewsN a m) <> []).
  { destruct m as [h e ks]. rewrite viewsN_node. simpl.
    assert (h = x) as ->.
    { unfold in_doc in Ex. apply find_some in Ex as [_ Hh]. simpl in Hh.
      apply Nat.eqb_eq. exact Hh. }
    simpl in Hm. rewrite Hm. discriminate. }
  assert (Hl : List.length
            (map v_handle (filter (matchesV sel_sleepers) v1) ++
             map v_handle (filter (matchesV sel_sleepers) (viewsN a m)) ++
             map v_handle (filter (matchesV sel_sleepers) v2)) <= 1).
  { rewrite Eq. exact Hlen. }
  rewrite !length_app, !length_map in Hl.
  rewrite doc_query_views, E2, filter_app, map_app.
  destruct (filter (matchesV sel_sleepers) (viewsN a m)); [congruence|].
  simpl in Hl.
  destruct (filter (matchesV sel_sleepers) v1); [|simpl in Hl; lia].
  destruct (filter (matchesV sel_sleepers) v2); [|simpl in Hl; lia].
  reflexivity.
Qed.

Lemma applyFilter_unified P D hd s D' :
  splitEnabled P = false ->
  findInRoomSection D = Some (hd, s) ->
  applyFilter P D = Returned D' ->
  exists D4, prepared P D s = Some D4 /\ D' = unhideExitChars D4.
Proof.
  intros Hs Hf. unfold applyFilter, prepared. rewrite Hf, Hs.
  destruct (ensureToggle _ _ _ _) as [D4|]; [|discriminate].
  simpl. intros [= <-]. eauto.
Qed.

(** X23 (C4, in the current variant).  On a page that has a main-list
    container, a pass with [splitEnabled = false] that returns normally
    leaves the sleepers section it found outside the document (and no
    element with the section's id at all, if there was at most one),
    and leaves neither the character entries of the main list nor any
    exit thumbnail of the document with the hidden marker.  (Without a
    container the pass changes nothing; that is C5.) *)
Theorem unified_pass_shows_everything P D hd s D' :
  wf D ->
  splitEnabled P = false ->
  findInRoomSection D = Some (hd, s) ->
  applyFilter P D = Returned D' ->
  (forall x, getElementById D sleepers_id = Some x -> in_doc D' x = None) /\
  (List.length (doc_querySelectorAll D sel_sleepers) <= 1 ->
   doc_querySelectorAll D' sel_sleepers = []) /\
  (forall el, In el (getCharElements (removeSleepersSection D) (Some s)) ->
              is_hidden D' el = false) /\
  (forall x, In x (getExitCharElements D') -> is_hidden D' x = false).
Proof.
  intros Hwf Hs Hf Hret.
  destruct (applyFilter_unified P D hd s D' Hs Hf Hret) as (D4 & Hp & ->).
  pose proof Hp as Hp0. unfold prepared in Hp.
  set (D1 := removeSleepersSection D) in *.
  set (cs := getCharElements D1 (Some s)) in *.
  set (D2 := resetChars D1 cs) in *.
  set (D3 := removePlaceholder D2 s) in *.
  assert (Hwf1 : wf D1) by (apply wf_removeSleepersSection, Hwf).
  assert (Hwf2 : wf D2) by (subst D2; rewrite resetChars_mapTD; apply wf_mapTD, Hwf1).
  assert (Hwf3 : wf D3) by (apply wf_removePlaceholder, Hwf2).
  destruct (wf_ensureToggle _ _ _ _ _ Hwf3 Hp) as [Hwf4 Hle].
  assert (Hg : hidden_only
            (fun h e => if mem h (doc_querySelectorAll D4 sel_exitchar_hidden)
                        then remove_class hidden e else e))
    by apply hidden_only_mem_remove.
  repeat split.
  - (* the section is out of the document *)
    intros x Hx.
    destruct (in_doc (unhideExitChars D4) x) eqn:Ein; [|reflexivity]. exfalso.
    assert (Hin : In x (handlesF (doc (unhideExitChars D4))))
      by (apply in_doc_handles; congruence).
    rewrite unhideExitChars_mapTD, doc_handles_mapTD in Hin.
    assert (Hxq : In x (doc_querySelectorAll D sel_sleepers)).
    { unfold getElementById, doc_querySelector in Hx. apply hd_error_In. exact Hx. }
    destruct (doc_query_in_doc D _ x Hwf Hxq) as [_ Hlt].
    apply (doc_handles_ensureToggle _ _ _ _ _ _ Hwf3 Hp) in Hin.
    destruct Hin as [Hin|Hin].
    + subst D3. unfold removePlaceholder in Hin.
      assert (Hin2 : In x (handlesF (doc D2))).
      { destruct (querySelector D2 s (cls no_awake_class));
          [eapply doc_handles_remove; eauto | exact Hin]. }
      subst D2. rewrite resetChars_mapTD, doc_handles_mapTD in Hin2.
      subst D1. unfold removeSleepersSection in Hin2. rewrite Hx in Hin2.
      exact (doc_handles_remove_gone D x Hwf Hin2).
    + subst D3. rewrite next_removePlaceholder in Hin. subst D2.
      rewrite resetChars_mapTD in Hin. simpl in Hin. subst D1.
      rewrite next_removeSleepersSection in Hin. lia.
  - (* no element with the id is left *)
    intros Hlen. rewrite unhideExitChars_mapTD.
    rewrite (doc_querySelectorAll_mapTD _ Hg) by reflexivity.
    apply (query_ensureToggle_sleepers _ _ _ _ _ Hwf3 Hp).
    subst D3. unfold removePlaceholder.
    assert (H2 : doc_querySelectorAll D2 sel_sleepers = []).
    { subst D2. rewrite resetChars_mapTD.
      rewrite doc_querySelectorAll_mapTD;
        [|apply hidden_only_mem_remove | reflexivity].
      apply removeSleepersSection_none; assumption. }
    destruct (querySelector D2 s (cls no_awake_class));
      [apply query_remove_nil; assumption | exact H2].
  - (* the characters of the main list *)
    intros el Hel.
    destruct (prepared_chars_visible P D s D4 el Hwf Hp0 Hel) as [Hh _].
    rewrite unhideExitChars_mapTD. unfold is_hidden in *.
    rewrite classList_contains_elem_at in *. rewrite elem_at_mapTD.
    destruct (elem_at D4 el) as [e|]; [|reflexivity]. simpl.
    destruct (mem el _); [apply has_class_remove | exact Hh].
  - (* the exit thumbnails *)
    intros x Hx. apply unhide_exit; [exact Hwf4|].
    rewrite unhideExitChars_mapTD in Hx. unfold getExitCharElements in *.
    rewrite (doc_querySelectorAll_mapTD _ Hg) in Hx by reflexivity. exact Hx.
Qed.

(** ** Sorting the characters *)

Lemma add_class_idem c e : add_class c (add_class c e) = add_class c e.
Proof.
  unfold add_class at 1. rewrite has_class_add. reflexivity.
Qed.

Lemma hidden_only_mem_add hs :
  hidden_only (fun h e => if mem h hs then add_class hidden e else e).
Proof.
  intros h e. destruct (mem h hs);
    [apply same_but_hidden_add | apply same_but_hidden_refl].
Qed.

Lemma mem_app h l1 l2 : mem h (l1 ++ l2) = mem h l1 || mem h l2.
Proof. unfold mem. apply existsb_app. Qed.

Lemma categorize_loop D cs : forall sl aw,
  fold_left
    (fun acc el =>
       let '(D, sleepers, awake) := acc in
       if isSleeperChar D el
       then (classList_add D el hidden, sleepers ++ [el], awake)
       else (D, sleepers, awake ++ [el]))
    cs
    (mapTD (fun h e => if mem h sl then add_class hidden e else e) D, sl, aw)
  = (mapTD (fun h e => if mem h (sl ++ filter (isSleeperChar D) cs)
                       then add_class hidden e else e) D,
     sl ++ filter (isSleeperChar D) cs,
     aw ++ filter (fun el => negb (isSleeperChar D el)) cs).
Proof.
  induction cs as [|c cs IH]; intros sl aw; simpl.
  - rewrite !app_nil_r. reflexivity.
  - rewrite (isSleeperChar_mapTD _ D c (hidden_only_mem_add sl)).
    destruct (isSleeperChar D c); simpl.
    + unfold classList_add. rewrite updD_mapTD, mapTD_mapTD.
      rewrite (mapTD_ext _ (fun h e => if mem h (sl ++ [c])
                                       then add_class hidden e else e)).
      * rewrite IH, <- !app_assoc. reflexivity.
      * intros h e. rewrite mem_app. unfold mem at 3. simpl.
        rewrite orb_false_r. fold (mem h sl).
        destruct (mem h sl), (Nat.eqb h c); simpl; auto using add_class_idem.
    + rewrite IH, <- !app_assoc. reflexivity.
Qed.

(** The loop hides exactly the entries the classifier calls sleepers,
    and the two lists it builds are the two halves of the list it is
    given; marking one entry does not change how another is classified. *)
Lemma categorize_spec D cs :
  categorize D cs =
  (mapTD (fun h e => if mem h (filter (isSleeperChar D) cs)
                     then add_class hidden e else e) D,
   filter (isSleeperChar D) cs,
   filter (fun el => negb (isSleeperChar D el)) cs).
Proof.
  unfold categorize.
  rewrite <- (mapTD_id D) at 1.
  rewrite (mapTD_ext (fun _ e => e)
             (fun h e => if mem h [] then add_class hidden e else e) D)
    by reflexivity.
  rewrite (categorize_loop D cs [] []). reflexivity.
Qed.

(** ** Handles and views of the whole store *)

Lemma locate_fview D h a n :
  locate D h = Some (a, n) -> In (a, h, elem_of n) (fviews D).
Proof.
  intros E. pose proof (locate_handle _ _ _ _ E) as Hh.
  unfold locate in E. apply find_some in E as [Hin _].
  rewrite all_nodes_forest in Hin. unfold fviews, views.
  apply in_map_iff. exists (a, n). subst h. auto.
Qed.

Lemma fview_locate D v :
  wf D -> In v (fviews D) ->
  exists n, locate D (v_handle v) = Some (v_ctx v, n) /\ elem_of n = v_elem v.
Proof.
  intros Hwf Hv. unfold fviews, views in Hv.
  apply in_map_iff in Hv as ([a n] & <- & Hin). exists n. split; [|reflexivity].
  rewrite <- all_nodes_forest in Hin.
  apply (locate_unique D (a, n) Hwf Hin).
Qed.

Lemma appendChild_fviews D p new a P :
  wf D -> locate D p = Some (a, P) ->
  exists v1 v2,
    fviews D = v1 ++ v2 /\
    fviews (appendChild D p new) = v1 ++ viewsN ((p, elem_of P) :: a) new ++ v2.
Proof.
  intros Hwf Hp. unfold fviews. rewrite forest_appendChild.
  unfold locate in Hp. rewrite all_nodes_forest in Hp.
  apply (edit_views p _ new [] (forest D) (wf_NoDup D Hwf) a P Hp).
  exists (kids_of P), []. rewrite app_nil_r. auto.
Qed.

Lemma wf_appendChild D p new nx :
  wf D ->
  NoDup (map fst (cells new)) ->
  Forall (fun h => next D <= h < nx) (map fst (cells new)) ->
  next D <= nx ->
  wf (appendChild (with_next D nx) p new).
Proof.
  intros Hwf Hnd Hfr Hle.
  destruct (appendChild_cells (with_next D nx) p new (wf_with_next D nx Hwf Hle))
    as [Hp|He].
  - eapply wf_grow; eauto.
  - eapply wf_perm; [apply (wf_with_next D nx Hwf Hle) | rewrite He; reflexivity
                    | reflexivity].
Qed.

Lemma addNoAwakePlaceholder_cases D cs aw :
  addNoAwakePlaceholder D cs aw =
  match aw, hd_error cs with
  | [], Some c0 =>
      match parentElement D c0 with
      | Some cont =>
          appendChild (with_next D (S (next D))) cont (Node (next D) no_awake_elem [])
      | None => D
      end
  | _, _ => D
  end.
Proof.
  unfold addNoAwakePlaceholder. destruct aw as [|a aw]; simpl.
  - destruct cs as [|c cs]; simpl; reflexivity.
  - reflexivity.
Qed.

(** Where the placeholder goes when it is added. *)
Lemma placeholder_added D cont :
  wf D -> elem_at D cont <> None ->
  let D' := appendChild (with_next D (S (next D))) cont
              (Node (next D) no_awake_elem []) in
  wf D' /\ elem_at D' (next D) = Some no_awake_elem /\
  parentElement D' (next D) = Some cont.
Proof.
  intros Hwf Hc D'.
  assert (Hwf' : wf D').
  { apply wf_appendChild; auto.
    - repeat constructor. intros [].
    - repeat constructor; simpl; lia. }
  split; [exact Hwf'|].
  unfold elem_at in Hc. destruct (locate D cont) as [[a Pn]|] eqn:El;
    [|simpl in Hc; congruence].
  assert (El' : locate (with_next D (S (next D))) cont = Some (a, Pn)) by exact El.
  destruct (appendChild_fviews _ cont (Node (next D) no_awake_elem []) a Pn
              (wf_with_next D _ Hwf (Nat.le_succ_diag_r _)) El')
    as (v1 & v2 & _ & E2).
  assert (Hv : In ((cont, elem_of Pn) :: a, next D, no_awake_elem) (fviews D')).
  { subst D'. rewrite E2. apply in_or_app. right. left. reflexivity. }
  destruct (fview_locate D' _ Hwf' Hv) as (n & Hl & He). simpl in Hl, He.
  unfold elem_at, parentElement, v_handle, v_ctx in *. simpl in *.
  rewrite Hl. simpl. rewrite He. auto.
Qed.

(** ** The earlier variant (1.0.0) against the same properties *)

(** C3, in the 1.0.0 variant.  The older [filterExitChars] classifies an
    exit thumbnail by its own
    state marker: the thumbnail with the asleep marker is hidden although
    it shows nobody's avatar, and the thumbnail showing the sleeper's
    avatar stays visible.  The current variant does the opposite on the
    same page. *)
Lemma v100_exit_entries_classified_by_marker :
  let D := Ex5.marked_exit in
  getExitCharElements D = [5; 7] /\
  exit_signature D 5 = Some "https://img/9" /\
  exit_signature D 7 = Some "https://img/1" /\
  signature_set D [16] = ["https://img/1"] /\
  (exists D', V100.applyFilter Ex.split_on D = Returned D' /\
              is_hidden D' 5 = true /\ is_hidden D' 7 = false) /\
  (exists D', applyFilter Ex.split_on D = Returned D' /\
              is_hidden D' 5 = false /\ is_hidden D' 7 = true).
Proof.
  vm_compute. repeat split; eexists; repeat split.
Qed.

(** C4, in the 1.0.0 variant.  The older [applyFilter] returns from its
    unified branch without
    calling [filterExitChars]: an exit thumbnail hidden by the split pass
    before stays hidden.  The current variant unhides it. *)
Lemma v100_unified_pass_leaves_exit_hidden :
  let D := Ex5.after_split_v100 in
  is_hidden D 5 = true /\
  (exists D', V100.applyFilter Ex.split_off D = Returned D' /\
              In 5 (getExitCharElements D') /\ is_hidden D' 5 = true) /\
  (exists D', applyFilter Ex.split_off D = Returned D' /\
              In 5 (getExitCharElements D') /\ is_hidden D' 5 = false).
Proof.
  vm_compute. repeat split; eexists; repeat split; auto.
Qed.

(** C8, in the 1.0.0 variant.  The older cloning loop strips the marker
    from the root of the clone
    only: built from the sleepers of a filtered page, the section holds a
    clone whose child still carries the hidden marker.  The current
    variant, on the same input, leaves no marker in any clone. *)
Lemma v100_clone_keeps_hidden_descendants :
  let D := Ex5.after_split_v100 in
  let body :=
    section_body (fst (V100.createSleepersSection Ex.split_on D Ex6.v100_sleepers)) in
  Ex6.v100_sleepers = [16; 17; 18; 23] /\
  In Ex6.v100_first_clone body /\
  inside Ex6.v100_first_clone_child Ex6.v100_first_clone /\
  has_class hidden (elem_of Ex6.v100_first_clone_child) = true /\
  forallb (fun c => forallb (fun p => negb (has_class hidden (elem_of (snd p))))
                            (walk [] c))
          (section_body (fst (createSleepersSection Ex.split_on D Ex6.v100_sleepers)))
  = true.
Proof.
  split; [reflexivity|]. split; [vm_compute; auto|]. split.
  - eapply inside_kid; [|apply inside_self]. vm_compute. auto.
  - split; vm_compute; reflexivity.
Qed.

(** C9, in the 1.0.0 variant.  The older observer has no test for the
    script's own nodes: a class
    change on a character row that carries the hidden marker schedules
    [applyFilter], where the current observer does not. *)
Lemma v100_own_mutation_schedules :
  let D := Ex2.five_split in
  own_target D (TElem 16) = true /\
  classList_contains D 16 hidden = true /\
  V100.observerCallback D 1000 Ex5.hidden_row_changed None = Some 1200 /\
  observerCallback D 1000 Ex5.hidden_row_changed None = None.
Proof. vm_compute. auto. Qed.

(** C7, in the 1.0.0 variant.  The older [getCharElements] also takes
    every child of a collection list for a character row, and
    [applyFilter] reads the rows before it removes the placeholder of
    the pass before.  On the page left by a first split pass in a room
    whose only character is asleep, the second pass reads the
    placeholder as a row and sorts it as awake: nobody is awake, the
    room is not empty, and no placeholder is added.  The current
    variant, on the same room, sorts the one character, finds nobody
    awake and adds the placeholder in the second pass as in the
    first. *)
Lemma v100_placeholder_sorted_as_awake :
  let D := Ex7.v100_once in
  let D1 := removeSleepersSection D in
  let chars := V100.getCharElements D1 3 in
  let D3 := removePlaceholder (resetChars D1 chars) 3 in
  V100.applyFilter Ex.split_on Ex7.all_asleep = Returned D /\
  V100.findInRoomSection D = Some (7, Some 3) /\
  querySelectorAll D 3 sel_char = [10] /\ isSleeperChar D 10 = true /\
  querySelectorAll D 3 (cls no_awake_class) = [18] /\
  elem_at D 18 = Some no_awake_elem /\
  chars = [10; 11; 12; 17; 18] /\
  categorize D3 chars = (fst (fst (categorize D3 chars)), [10; 11; 12; 17], [18]) /\
  V100.applyFilter Ex.split_on D = Returned Ex7.v100_twice /\
  doc_querySelectorAll Ex7.v100_twice (cls no_awake_class) = [] /\
  (applyFilter Ex.split_on Ex7.all_asleep = Returned Ex7.once /\
   getCharElements (removeSleepersSection Ex7.once) (Some 3) = [10] /\
   applyFilter Ex.split_on Ex7.once = Returned Ex7.twice /\
   List.length (querySelectorAll Ex7.twice 3 (cls no_awake_class)) = 1).
Proof.
  repeat split; vm_compute; reflexivity.
Qed.

(** ** Signatures, node by node *)

Lemma walk_sub n : forall c p q,
  In p (walk c n) -> In q (descendants (fst p) (snd p)) -> In q (walk c n).
Proof.
  induction n as [h e ks IH] using node_ind. intros c p q [Hp|Hp] Hq.
  - subst p. right. exact Hq.
  - right. apply in_flat_map in Hp as (k & Hk & Hp).
    rewrite Forall_forall in IH. apply in_flat_map. exists k.
    split; [exact Hk|]. eapply IH; eauto.
Qed.

Lemma descendants_incl D el a n q :
  locate D el = Some (a, n) -> In q (descendants a n) -> In q (all_nodes D).
Proof.
  intros El Hq. unfold locate in El. apply find_some in El as [Hin _].
  rewrite all_nodes_forest in *. apply in_flat_map in Hin as (r & Hr & Hp).
  apply in_flat_map. exists r. split; [exact Hr|].
  apply (walk_sub r [] (a, n) q Hp Hq).
Qed.

Lemma hd_error_map_filter {A B} (f : A -> B) (p : A -> bool) l :
  hd_error (map f (filter p l)) = option_map f (find p l).
Proof.
  induction l as [|x l IH]; simpl; [reflexivity|].
  destruct (p x); simpl; [reflexivity | exact IH].
Qed.

Lemma signature_node sel D el a n :
  wf D -> locate D el = Some (a, n) ->
  signature sel D el = signatureN sel a n.
Proof.
  intros Hwf El. unfold signature, signatureN, first_src, querySelector,
    querySelectorAll. rewrite El, hd_error_map_filter.
  destruct (find (matches sel) (descendants a n)) as [p|] eqn:Ef; [|reflexivity].
  simpl. unfold img_src.
  apply find_some in Ef as [Hin _].
  rewrite (locate_unique D p Hwf (descendants_incl D el a n p El Hin)).
  destruct p. reflexivity.
Qed.

Lemma wants_node urls D el a n :
  wf D -> locate D el = Some (a, n) -> wants urls D el = wantsN urls a n.
Proof.
  intros Hwf El. unfold wants, wantsN, exit_signature.
  rewrite (signature_node sel_img D el a n Hwf El). reflexivity.
Qed.

(** ** Elements up to the marker of exit thumbnails *)

Lemma remove_add_hidden e :
  remove_class hidden (add_class hidden e) = remove_class hidden e.
Proof.
  unfold add_class. destruct (has_class hidden e); [reflexivity|].
  unfold remove_class. simpl. f_equal. rewrite filter_app. simpl.
  apply app_nil_r.
Qed.

Lemma has_class_exit_remove e :
  has_class exit_class (remove_class hidden e) = has_class exit_class e.
Proof. apply has_class_remove_other. discriminate. Qed.

Lemma has_class_exit_add e :
  has_class exit_class (add_class hidden e) = has_class exit_class e.
Proof. apply has_class_add_other. discriminate. Qed.

Lemma canon_same_but_hidden e e' : canon e = canon e' -> same_but_hidden e e'.
Proof.
  intros H.
  assert (Hc : forall x, same_but_hidden x (canon x)).
  { intros x. unfold canon. destruct (has_class exit_class x);
      [apply same_but_hidden_remove | apply same_but_hidden_refl]. }
  pose proof (Hc e) as (A1 & A2 & A3 & A4 & A5).
  pose proof (Hc e') as (B1 & B2 & B3 & B4 & B5).
  rewrite H in *. repeat split; try congruence.
  intros c Hne. rewrite A5, B5; auto.
Qed.

(** ** Similar trees *)

Lemma sim_node b h e ks h' e' ks' :
  sim b (Node h e ks) (Node h' e' ks') <->
  hrel b h h' /\ canon e = canon e' /\ simL b ks ks'.
Proof.
  simpl. assert (H : forall l l',
    (fix simL (ks ks' : list node) : Prop :=
       match ks, ks' with
       | [], [] => True
       | k :: r, k' :: r' => sim b k k' /\ simL r r'
       | _, _ => False
       end) l l' <-> simL b l l').
  { induction l as [|k r IH]; intros [|k' r']; simpl; try tauto.
    rewrite IH. tauto. }
  rewrite H. tauto.
Qed.

Opaque sim.

Lemma hrel_refl b h : hrel b h h.
Proof. left. reflexivity. Qed.

Lemma simL_app b l1 l1' l2 l2' :
  simL b l1 l1' -> simL b l2 l2' -> simL b (l1 ++ l2) (l1' ++ l2').
Proof.
  revert l1'. induction l1 as [|k r IH]; intros [|k' r']; simpl; try tauto.
  intros [Hk Hr] H2. split; [exact Hk | apply IH; assumption].
Qed.

(** Rewriting elements on both sides. *)
Lemma sim_mapT b g g' n : forall n',
  (forall h h' e e', hrel b h h' -> canon e = canon e' ->
                     canon (g h e) = canon (g' h' e')) ->
  sim b n n' -> sim b (mapT g n) (mapT g' n').
Proof.
  induction n as [h e ks IH] using node_ind. intros [h' e' ks'] Hg Hs.
  apply sim_node in Hs as (Hh & He & Hks). simpl. apply sim_node.
  split; [exact Hh|]. split; [apply Hg; assumption|].
  revert ks' Hks. induction IH as [|k r Hk _ IHr]; intros [|k' r'];
    simpl; try tauto.
  intros [H1 H2]. split; [apply Hk; assumption | apply IHr; assumption].
Qed.

Lemma simL_mapT b g g' ns ns' :
  (forall h h' e e', hrel b h h' -> canon e = canon e' ->
                     canon (g h e) = canon (g' h' e')) ->
  simL b ns ns' -> simL b (map (mapT g) ns) (map (mapT g') ns').
Proof.
  intros Hg. revert ns'. induction ns as [|k r IH]; intros [|k' r'];
    simpl; try tauto.
  intros [H1 H2]. split; [apply sim_mapT; assumption | apply IH; assumption].
Qed.

(** Rewriting the children of the same old node on both sides. *)
Lemma sim_edit b p f f' n : forall n',
  p < b ->
  (forall ks ks', simL b ks ks' -> simL b (f ks) (f' ks')) ->
  sim b n n' -> sim b (edit p f n) (edit p f' n').
Proof.
  induction n as [h e ks IH] using node_ind. intros [h' e' ks'] Hp Hf Hs.
  apply sim_node in Hs as (Hh & He & Hks). simpl.
  assert (Hmap : simL b (map (edit p f) ks) (map (edit p f') ks')).
  { revert ks' Hks. induction IH as [|k r Hk _ IHr]; intros [|k' r'];
      simpl; try tauto.
    intros [H1 H2]. split; [apply Hk; assumption | apply IHr; assumption]. }
  assert (Hb : Nat.eqb h p = Nat.eqb h' p).
  { destruct Hh as [->|[H1 H2]]; [reflexivity|].
    destruct (Nat.eqb_spec h p), (Nat.eqb_spec h' p); try reflexivity; lia. }
  rewrite <- Hb. apply sim_node. split; [exact Hh|]. split; [exact He|].
  destruct (Nat.eqb h p); [apply Hf|]; exact Hmap.
Qed.

Lemma simL_edit b p f f' ns ns' :
  p < b ->
  (forall ks ks', simL b ks ks' -> simL b (f ks) (f' ks')) ->
  simL b ns ns' -> simL b (map (edit p f) ns) (map (edit p f') ns').
Proof.
  intros Hp Hf. revert ns'. induction ns as [|k r IH]; intros [|k' r'];
    simpl; try tauto.
  intros [H1 H2]. split; [apply sim_edit; assumption | apply IH; assumption].
Qed.

Lemma sim_handle b n n' : sim b n n' -> hrel b (handle_of n) (handle_of n').
Proof. destruct n, n'. intros H. apply sim_node in H. tauto. Qed.

Lemma hrel_eqb b h h' s :
  hrel b h h' -> s < b -> Nat.eqb h s = Nat.eqb h' s.
Proof.
  intros [->|[H1 H2]] Hs; [reflexivity|].
  destruct (Nat.eqb_spec h s), (Nat.eqb_spec h' s); try reflexivity; lia.
Qed.

Lemma simL_append b new new' ks ks' :
  sim b new new' -> simL b ks ks' -> simL b (ks ++ [new]) (ks' ++ [new']).
Proof.
  intros Hn Hks. apply simL_app; [exact Hks|]. simpl. auto.
Qed.

Lemma sim_elem b n n' : sim b n n' -> canon (elem_of n) = canon (elem_of n').
Proof. destruct n, n'. intros H. apply sim_node in H. tauto. Qed.

Lemma sim_kids b n n' : sim b n n' -> simL b (kids_of n) (kids_of n').
Proof. destruct n, n'. intros H. apply sim_node in H. tauto. Qed.

Lemma walk_sim b n : forall n' c c',
  sim b n n' -> crel b c c' -> Forall2 (wrel b) (walk c n) (walk c' n').
Proof.
  induction n as [h e ks IH] using node_ind. intros [h' e' ks'] c c' Hs Hc.
  pose proof Hs as Hs0. apply sim_node in Hs as (Hh & He & Hks). simpl.
  constructor; [split; assumption|].
  assert (Hc2 : crel b ((h, e) :: c) ((h', e') :: c')) by (simpl; auto).
  clear Hs0. revert ks' Hks. induction IH as [|k r Hk _ IHr]; intros [|k' r'];
    simpl; try tauto; [constructor|].
  intros [H1 H2]. apply Forall2_app; [apply Hk; assumption | apply IHr; assumption].
Qed.

Lemma walkF_sim b ns : forall ns' c c',
  simL b ns ns' -> crel b c c' -> Forall2 (wrel b) (walkF c ns) (walkF c' ns').
Proof.
  induction ns as [|k r IH]; intros [|k' r'] c c'; simpl; try tauto;
    [constructor|].
  intros [H1 H2] Hc. unfold walkF. simpl.
  apply Forall2_app; [apply walk_sim; assumption | apply IH; assumption].
Qed.

Lemma descendants_sim b n n' c c' :
  sim b n n' -> crel b c c' ->
  Forall2 (wrel b) (descendants c n) (descendants c' n').
Proof.
  intros Hs Hc. unfold descendants. apply walkF_sim.
  - apply sim_kids. exact Hs.
  - simpl. split; [apply sim_handle; exact Hs|].
    split; [apply (sim_elem b); exact Hs | exact Hc].
Qed.

Lemma find_Forall2 {A} (R : A -> A -> Prop) (p p' : A -> bool) l l' :
  Forall2 R l l' -> (forall x y, R x y -> p x = p' y) ->
  orel R (find p l) (find p' l').
Proof.
  intros HF Hp. induction HF as [|x y l l' Hxy _ IH]; simpl; [exact I|].
  rewrite <- (Hp x y Hxy). destruct (p x); [exact Hxy | exact IH].
Qed.

Lemma crel_same b a a' :
  crel b a a' -> Forall2 same_but_hidden (map snd a) (map snd a').
Proof.
  revert a'. induction a as [|c r IH]; intros [|c' r']; simpl; try tauto.
  - constructor.
  - intros (_ & H1 & H2). constructor; [apply canon_same_but_hidden, H1 | apply IH, H2].
Qed.

Lemma matches_wrel b sel p p' :
  avoids_hidden sel = true -> wrel b p p' -> matches sel p = matches sel p'.
Proof.
  intros Hsel [Hc Hs]. unfold matches, avoids_hidden in *.
  pose proof (canon_same_but_hidden _ _ (sim_elem b _ _ Hs)) as He.
  pose proof (crel_same _ _ _ Hc) as Ha.
  induction sel as [|cx sel IH]; [reflexivity|]. cbn [forallb existsb] in *.
  apply andb_true_iff in Hsel as [Hcx Hsel]. rewrite (IH Hsel). f_equal.
  destruct cx as [|c cs]; [reflexivity|]. cbn [matches_complex forallb] in *.
  apply andb_true_iff in Hcx as [Hc1 Hcs].
  rewrite (matches_compound_same c _ _ Hc1 He).
  rewrite (matches_anc_same cs Hcs _ _ Ha). reflexivity.
Qed.

Lemma signatureN_sim b sel n n' c c' :
  avoids_hidden sel = true -> sim b n n' -> crel b c c' ->
  signatureN sel c n = signatureN sel c' n'.
Proof.
  intros Hsel Hs Hc. unfold signatureN, first_src.
  pose proof (find_Forall2 (wrel b) (matches sel) (matches sel) _ _
                (descendants_sim b n n' c c' Hs Hc)
                (fun x y => matches_wrel b sel x y Hsel)) as H.
  destruct (find (matches sel) (descendants c n)) as [p|],
           (find (matches sel) (descendants c' n')) as [p'|]; simpl in H;
    try tauto.
  destruct H as [_ H]. apply (sim_elem b) in H.
  apply canon_same_but_hidden in H. destruct H as (_ & _ & -> & _). reflexivity.
Qed.

Lemma canon_exit_class e e' :
  canon e = canon e' -> has_class exit_class e = has_class exit_class e'.
Proof.
  intros H. apply canon_same_but_hidden in H. destruct H as (_ & _ & _ & _ & H).
  apply H. discriminate.
Qed.

(** The exit pass washes the difference out. *)
Lemma exitN_sim b urls n : forall n' c c',
  sim b n n' -> crel b c c' ->
  erase (exitN urls c n) = erase (exitN urls c' n').
Proof.
  induction n as [h e ks IH] using node_ind. intros [h' e' ks'] c c' Hs Hc.
  pose proof Hs as Hs0. apply sim_node in Hs as (Hh & He & Hks). simpl. f_equal.
  - unfold exit_elem. cbn [elem_of].
    rewrite (canon_exit_class _ _ He).
    unfold wantsN.
    rewrite (signatureN_sim b sel_img _ _ c c' eq_refl Hs0 Hc).
    unfold canon in He. rewrite (canon_exit_class _ _ He) in He.
    fold (canon e') in He.
    assert (He' : (if has_class exit_class e' then remove_class hidden e else e)
                  = canon e') by exact He.
    unfold canon in He'.
    destruct (has_class exit_class e'); [rewrite He'|]; [reflexivity | exact He'].
  - assert (Hc2 : crel b ((h, e) :: c) ((h', e') :: c')) by (simpl; auto).
    rewrite !map_map. clear Hs0.
    revert ks' Hks. induction IH as [|k r Hk _ IHr]; intros [|k' r'];
      simpl; try tauto.
    intros [H1 H2]. f_equal; [apply Hk; assumption | apply IHr; assumption].
Qed.

Lemma exitN_simL b urls ns : forall ns',
  simL b ns ns' ->
  map erase (map (exitN urls []) ns) = map erase (map (exitN urls []) ns').
Proof.
  induction ns as [|k r IH]; intros [|k' r']; simpl; try tauto.
  intros [H1 H2]. f_equal; [apply (exitN_sim b); simpl; auto | apply IH; exact H2].
Qed.

(** An old object is found on both sides, at related places. *)
Lemma subtree_sim b h ns ns' :
  h < b -> simL b ns ns' ->
  orel (wrel b) (subtree h ns) (subtree h ns').
Proof.
  intros Hh Hs. unfold subtree.
  apply (find_Forall2 (wrel b)); [apply walkF_sim; simpl; auto|].
  intros x y [_ Hxy]. unfold is_at.
  apply (hrel_eqb b); [apply sim_handle; exact Hxy | exact Hh].
Qed.

(** ** The exit pass, node by node *)

Lemma hide_loop_exact urls D L : forall acc,
  fold_left (hideIfMatching urls) L
    (mapTD (fun h e => if mem h acc then add_class hidden e else e) D)
  = mapTD (fun h e => if mem h (acc ++ filter (wants urls D) L)
                      then add_class hidden e else e) D.
Proof.
  induction L as [|x L IH]; intros acc; simpl.
  - rewrite app_nil_r. reflexivity.
  - rewrite hideIfMatching_wants.
    rewrite (wants_mapTD _ urls D x (hidden_only_mem_add acc)).
    destruct (wants urls D x); simpl.
    + unfold classList_add. rewrite updD_mapTD, mapTD_mapTD.
      rewrite (mapTD_ext _ (fun h e => if mem h (acc ++ [x])
                                       then add_class hidden e else e)).
      * rewrite IH, <- app_assoc. reflexivity.
      * intros h e. rewrite mem_app. unfold mem at 3. simpl.
        rewrite orb_false_r. fold (mem h acc).
        destruct (mem h acc), (Nat.eqb h x); simpl; auto using add_class_idem.
    + apply IH.
Qed.

Lemma mapT_nodewise g urls n : forall c,
  (forall p, In p (walk c n) ->
     g (handle_of (snd p)) (elem_of (snd p)) = exit_elem urls (fst p) (snd p)) ->
  mapT g n = exitN urls c n.
Proof.
  induction n as [h e ks IH] using node_ind. intros c Hg. simpl. f_equal.
  - apply (Hg (c, Node h e ks)). left. reflexivity.
  - apply map_ext_Forall. rewrite Forall_forall in *. intros k Hk.
    apply IH; [exact Hk|]. intros p Hp. apply Hg. right.
    apply in_flat_map. eauto.
Qed.

Lemma mapTF_nodewise g urls ns :
  (forall p, In p (walkF [] ns) ->
     g (handle_of (snd p)) (elem_of (snd p)) = exit_elem urls (fst p) (snd p)) ->
  map (mapT g) ns = map (exitN urls []) ns.
Proof.
  intros Hg. apply map_ext_in. intros k Hk. apply mapT_nodewise.
  intros p Hp. apply Hg. apply in_flat_map. eauto.
Qed.

Lemma matches_exitchar p :
  matches sel_exitchar p = has_class exit_class (elem_of (snd p)).
Proof. apply matches_cls. Qed.

(** In a well-formed store the handle lists of the pass pick out the
    nodes by what they are. *)
Lemma mem_doc_query D sel p :
  wf D -> In p (walkF [] (doc D)) ->
  mem (handle_of (snd p)) (doc_querySelectorAll D sel) = matches sel p.
Proof.
  intros Hwf Hp. destruct (matches sel p) eqn:Hm.
  - apply mem_In. apply doc_query_In. eauto.
  - apply not_true_is_false. intros Hmem. apply mem_In in Hmem.
    apply doc_query_In in Hmem as (q & Hq & Hmq & Hh).
    pose proof (find_unique_forest (doc D) p (wf_doc_NoDup D Hwf) Hp) as H1.
    pose proof (find_unique_forest (doc D) q (wf_doc_NoDup D Hwf) Hq) as H2.
    rewrite Hh, H1 in H2. inversion H2; subst. congruence.
Qed.

Lemma mem_filter h (f : handle -> bool) l :
  mem h (filter f l) = mem h l && f h.
Proof.
  induction l as [|x l IH]; simpl; [reflexivity|].
  destruct (f x) eqn:Ex; simpl.
  - unfold mem in *. simpl. rewrite IH.
    destruct (Nat.eqb h x) eqn:E; simpl; [|reflexivity].
    apply Nat.eqb_eq in E. subst. rewrite Ex.
    destruct (existsb _ _); reflexivity.
  - unfold mem in *. simpl. rewrite IH.
    destruct (Nat.eqb h x) eqn:E; simpl; [|reflexivity].
    apply Nat.eqb_eq in E. subst. rewrite Ex.
    rewrite !andb_false_r. reflexivity.
Qed.

Lemma wantsN_nil a n : wantsN [] a n = false.
Proof. unfold wantsN. destruct (signatureN sel_img a n); reflexivity. Qed.

Lemma unhide_pointwise D p :
  wf D -> In p (walkF [] (doc D)) ->
  (if mem (handle_of (snd p)) (doc_querySelectorAll D sel_exitchar_hidden)
   then remove_class hidden (elem_of (snd p)) else elem_of (snd p))
  = canon (elem_of (snd p)).
Proof.
  intros Hwf Hp. rewrite (mem_doc_query D _ p Hwf Hp), matches_exitchar_hidden,
    matches_exitchar. unfold canon, exit_class.
  destruct (has_class "pageroom-exitchars--char" (elem_of (snd p))); simpl;
    [|reflexivity].
  destruct (has_class hidden (elem_of (snd p))) eqn:Hh; [reflexivity|].
  symmetry. apply remove_class_absent. exact Hh.
Qed.

Lemma unhideExitChars_doc D :
  wf D -> doc (unhideExitChars D) = map (exitN [] []) (doc D).
Proof.
  intros Hwf. rewrite unhideExitChars_mapTD. simpl.
  apply mapTF_nodewise. intros p Hp.
  rewrite (unhide_pointwise D p Hwf Hp). unfold exit_elem, canon.
  rewrite wantsN_nil. reflexivity.
Qed.

(** The whole exit pass rewrites each node of the document by what the
    node is, not by who it is. *)
Lemma filterExitChars_doc P D sl :
  wf D ->
  doc (filterExitChars P D sl) = map (exitN (exit_urls P D sl) []) (doc D).
Proof.
  intros Hwf. unfold filterExitChars, exit_urls.
  destruct (splitEnabled P); simpl; [|apply unhideExitChars_doc, Hwf].
  destruct (Nat.eqb (List.length sl) 0); simpl;
    [apply unhideExitChars_doc, Hwf|].
  pose proof (unhideExitChars_mapTD D) as HD1.
  set (g1 := fun h e => if mem h (doc_querySelectorAll D sel_exitchar_hidden)
                        then remove_class hidden e else e) in *.
  assert (Hg1 : hidden_only g1) by apply hidden_only_mem_remove.
  rewrite HD1, (sleeperAvatarUrls_mapTD g1 D sl Hg1).
  set (urls := sleeperAvatarUrls D sl).
  destruct (Nat.eqb (List.length urls) 0) eqn:Hu.
  - rewrite <- HD1, (unhideExitChars_doc D Hwf).
    destruct urls; [reflexivity | discriminate].
  - pose proof (hide_loop_exact urls (mapTD g1 D)
                  (getExitCharElements (mapTD g1 D)) []) as Hl.
    rewrite (mapTD_ext (fun h e => if mem h [] then add_class hidden e else e)
               (fun _ e => e) (mapTD g1 D)) in Hl by reflexivity.
    rewrite mapTD_id in Hl. rewrite Hl. clear Hl. cbn [app].
    rewrite mapTD_mapTD. simpl. apply mapTF_nodewise. intros p Hp.
    unfold getExitCharElements.
    rewrite (doc_querySelectorAll_mapTD g1 Hg1) by reflexivity.
    rewrite mem_filter, (mem_doc_query D _ p Hwf Hp), matches_exitchar.
    rewrite (wants_mapTD g1 urls D _ Hg1).
    destruct p as [a n]. cbn [fst snd].
    rewrite (wants_node urls D (handle_of n) a n Hwf
               (locate_unique D (a, n) Hwf (in_doc_all_nodes _ _ Hp))).
    pose proof (unhide_pointwise D (a, n) Hwf Hp) as Hu1. cbn [snd] in Hu1.
    unfold g1. rewrite Hu1.
    unfold exit_elem, canon. cbn [fst snd]. fold exit_class.
    destruct (has_class exit_class (elem_of n)); simpl; [|reflexivity].
    destruct (wantsN urls a n); reflexivity.
Qed.

(** ** The objects of a clone *)

Lemma seq_join a m n : a <= m -> m <= n ->
  seq a (m - a) ++ seq m (n - m) = seq a (n - a).
Proof.
  intros H1 H2. replace (n - a) with ((m - a) + (n - m)) by lia.
  rewrite seq_app. replace (a + (m - a)) with m by lia. reflexivity.
Qed.

Lemma cloneF_numbers ks :
  Forall (fun k => forall nx,
            handles (fst (clone nx k)) = seq nx (snd (clone nx k) - nx) /\
            nx < snd (clone nx k)) ks ->
  forall nx,
    handlesF (fst (cloneF nx ks)) = seq nx (snd (cloneF nx ks) - nx) /\
    nx <= snd (cloneF nx ks).
Proof.
  induction 1 as [|k r Hk _ IH]; intros nx; simpl.
  - rewrite Nat.sub_diag. split; [reflexivity | lia].
  - specialize (Hk nx). destruct (clone nx k) as [k' nx1]. simpl in Hk.
    specialize (IH nx1). destruct (cloneF nx1 r) as [r' nx2]. simpl in *.
    destruct Hk as [Hk1 Hk2], IH as [IH1 IH2].
    unfold handlesF in *. simpl. rewrite Hk1, IH1.
    split; [apply seq_join; lia | lia].
Qed.

(** A clone is made of the objects [nx], [nx + 1], ... in document
    order. *)
Lemma clone_numbers n : forall nx,
  handles (fst (clone nx n)) = seq nx (snd (clone nx n) - nx) /\
  nx < snd (clone nx n).
Proof.
  induction n as [h e ks IH] using node_ind. intros nx. rewrite clone_eq.
  pose proof (cloneF_numbers ks IH (S nx)) as H.
  destruct (cloneF (S nx) ks) as [ks' nx']. simpl in *. destruct H as [H1 H2].
  fold (handlesF ks'). rewrite H1. split; [|lia].
  replace (nx' - nx) with (S (nx' - S nx)) by lia. reflexivity.
Qed.

Lemma handles_mapT g n : handles (mapT g n) = handles n.
Proof.
  induction n as [h e ks IH] using node_ind. simpl. f_equal.
  induction IH as [|k r Hk _ IHr]; simpl; [reflexivity|]. rewrite Hk, IHr.
  reflexivity.
Qed.

Lemma clone_loop_numbers D sl (a : handle) : forall acc : list node * handle,
  handlesF (fst acc) = seq a (snd acc - a) -> a <= snd acc ->
  let r := fold_left (clone_sleeper D) sl acc in
  handlesF (fst r) = seq a (snd r - a) /\ snd acc <= snd r.
Proof.
  induction sl as [|s sl IH]; intros acc H1 H2; cbn [fold_left]; cbv zeta;
    [split; [exact H1 | lia]|].
  assert (Hs : handlesF (fst (clone_sleeper D acc s))
               = seq a (snd (clone_sleeper D acc s) - a) /\
               snd acc <= snd (clone_sleeper D acc s)).
  { unfold clone_sleeper. destruct (locate D s) as [[c n]|]; [|split; [exact H1|lia]].
    pose proof (clone_numbers n (snd acc)) as Hc.
    destruct (clone (snd acc) n) as [k nx]. simpl in *. destruct Hc as [Hc1 Hc2].
    rewrite handlesF_app, H1. unfold handlesF at 1. simpl. rewrite app_nil_r.
    rewrite strip_clone_mapT, handles_mapT, Hc1.
    split; [apply seq_join; lia | lia]. }
  destruct Hs as [Hs1 Hs2].
  destruct (IH (clone_sleeper D acc s) Hs1 ltac:(lia)) as [I1 I2].
  split; [exact I1 | lia].
Qed.

(** The sleepers section is made of the objects from [next D] on. *)
Lemma createSleepersSection_numbers P D sl :
  let r := createSleepersSection P D sl in
  handles (fst r) = seq (next D) (snd r - next D) /\ next D < snd r.
Proof.
  unfold createSleepersSection.
  destruct (Nat.eqb (List.length sl) 0).
  - simpl. replace (next D + 7 - next D) with 7 by lia. simpl.
    replace (next D + 1) with (S (next D)) by lia.
    replace (next D + 2) with (S (S (next D))) by lia.
    replace (next D + 3) with (S (S (S (next D)))) by lia.
    replace (next D + 4) with (S (S (S (S (next D))))) by lia.
    replace (next D + 5) with (S (S (S (S (S (next D)))))) by lia.
    replace (next D + 6) with (S (S (S (S (S (S (next D))))))) by lia.
    split; [reflexivity | lia].
  - pose proof (clone_loop_numbers D sl (next D + 6) ([], next D + 6)) as H.
    simpl in H. rewrite Nat.sub_diag in H. specialize (H eq_refl (le_n _)).
    destruct (fold_left (clone_sleeper D) sl ([], next D + 6)) as [body nx'].
    simpl in *. destruct H as [H1 H2]. fold (handlesF body). rewrite H1.
    split; [|lia].
    replace (nx' - next D) with (6 + (nx' - (next D + 6))) by lia.
    rewrite seq_app. simpl.
    replace (next D + 1) with (S (next D)) by lia.
    replace (next D + 2) with (S (S (next D))) by lia.
    replace (next D + 3) with (S (S (S (next D)))) by lia.
    replace (next D + 4) with (S (S (S (S (next D))))) by lia.
    replace (next D + 5) with (S (S (S (S (S (next D)))))) by lia.
    replace (next D + 6) with (S (S (S (S (S (S (next D))))))) by lia.
    rewrite app_nil_r. reflexivity.
Qed.

(** ** Clones of similar trees *)

Lemma canon_remove_eq e e' :
  canon e = canon e' -> remove_class hidden e = remove_class hidden e'.
Proof.
  intros H. pose proof (canon_exit_class _ _ H) as Hx. unfold canon in H.
  rewrite <- Hx in H. destruct (has_class exit_class e); [exact H|].
  rewrite H. reflexivity.
Qed.

Lemma cloneF_sim b ks :
  Forall (fun k => forall k' nx nx',
            sim b k k' -> b <= nx -> b <= nx' ->
            sim b (fst (clone nx k)) (fst (clone nx' k'))) ks ->
  forall ks' nx nx',
    simL b ks ks' -> b <= nx -> b <= nx' ->
    simL b (fst (cloneF nx ks)) (fst (cloneF nx' ks')).
Proof.
  induction 1 as [|k r Hk _ IH]; intros [|k' r'] nx nx'; simpl; try tauto.
  intros [H1 H2] Hn Hn'. specialize (Hk k' nx nx' H1 Hn Hn').
  pose proof (clone_numbers k nx) as [_ L1].
  pose proof (clone_numbers k' nx') as [_ L2].
  destruct (clone nx k) as [c nx1], (clone nx' k') as [c' nx1']. simpl in *.
  specialize (IH r' nx1 nx1' H2 ltac:(lia) ltac:(lia)).
  destruct (cloneF nx1 r), (cloneF nx1' r'). simpl in *. split; assumption.
Qed.

Lemma clone_sim b n : forall n' nx nx',
  sim b n n' -> b <= nx -> b <= nx' ->
  sim b (fst (clone nx n)) (fst (clone nx' n')).
Proof.
  induction n as [h e ks IH] using node_ind. intros [h' e' ks'] nx nx' Hs Hn Hn'.
  apply sim_node in Hs as (Hh & He & Hks). rewrite !clone_eq.
  pose proof (cloneF_sim b ks IH ks' (S nx) (S nx') Hks ltac:(lia) ltac:(lia)) as H.
  destruct (cloneF (S nx) ks), (cloneF (S nx') ks'). simpl in *.
  apply sim_node. split; [right; lia|]. split; assumption.
Qed.

Lemma strip_clone_sim b c c' : sim b c c' -> sim b (strip_clone c) (strip_clone c').
Proof.
  intros H. rewrite !strip_clone_mapT. apply sim_mapT; [|exact H].
  intros h h' e e' _ He. rewrite (canon_remove_eq _ _ He). reflexivity.
Qed.

Lemma clone_loop_sim b D E sl :
  alike b D E sl ->
  forall acc acc' : list node * handle,
    simL b (fst acc) (fst acc') -> b <= snd acc -> b <= snd acc' ->
    simL b (fst (fold_left (clone_sleeper D) sl acc))
           (fst (fold_left (clone_sleeper E) sl acc')).
Proof.
  induction 1 as [|s sl Hs _ IH]; intros [l x] [l' x'] H1 H2 H3; simpl;
    [exact H1|].
  unfold clone_sleeper at 2 4. simpl in H1, H2, H3 |- *.
  destruct (locate D s) as [[a n]|], (locate E s) as [[a' n']|]; simpl in Hs;
    try tauto; [|apply IH; assumption].
  destruct Hs as [_ Hs].
  pose proof (clone_sim b n n' x x' Hs H2 H3) as Hc.
  pose proof (clone_numbers n x) as [_ L1].
  pose proof (clone_numbers n' x') as [_ L2].
  destruct (clone x n) as [c nx], (clone x' n') as [c' nx'].
  simpl in *. apply IH; simpl; [|lia|lia].
  apply simL_append; [apply strip_clone_sim; exact Hc | exact H1].
Qed.

Lemma createSleepersSection_sim b P D E sl :
  b <= next D -> b <= next E -> alike b D E sl ->
  sim b (fst (createSleepersSection P D sl)) (fst (createSleepersSection P E sl)).
Proof.
  intros HD HE Hsl. unfold createSleepersSection.
  assert (Hleaf : forall h h' e, b <= h -> b <= h' ->
                    sim b (Node h e []) (Node h' e [])).
  { intros h h' e Hh Hh'. apply sim_node. split; [right; lia|].
    split; [reflexivity | exact I]. }
  destruct (Nat.eqb (List.length sl) 0).
  - simpl. apply sim_node. split; [right; lia|]. split; [reflexivity|].
    simpl. split.
    + apply sim_node. split; [right; lia|]. split; [reflexivity|]. simpl.
      split; [apply Hleaf; lia|]. split; [apply Hleaf; lia|].
      split; [apply Hleaf; lia | exact I].
    + split; [|exact I]. apply sim_node. split; [right; lia|].
      split; [reflexivity|]. simpl. split; [apply Hleaf; lia | exact I].
  - pose proof (clone_loop_sim b D E sl Hsl ([], next D + 6) ([], next E + 6)
                  I ltac:(simpl; lia) ltac:(simpl; lia)) as H.
    destruct (fold_left (clone_sleeper D) sl ([], next D + 6)) as [body nx].
    destruct (fold_left (clone_sleeper E) sl ([], next E + 6)) as [body' nx'].
    simpl in *. apply sim_node. split; [right; lia|]. split; [reflexivity|].
    simpl. split.
    + apply sim_node. split; [right; lia|]. split; [reflexivity|]. simpl.
      split; [apply Hleaf; lia|]. split; [apply Hleaf; lia|].
      split; [apply Hleaf; lia | exact I].
    + split; [|exact I]. apply sim_node. split; [right; lia|].
      split; [reflexivity | exact H].
Qed.

(** ** Queries on similar documents *)

Lemma applyFilter_finish P D hd s :
  findInRoomSection D = Some (hd, s) ->
  applyFilter P D =
  let D1 := removeSleepersSection D in
  let chars := getCharElements D1 (Some s) in
  match prepared P D s with
  | None => Thrown (removePlaceholder (resetChars D1 chars) s)
  | Some D4 => finish P D4 s chars
  end.
Proof.
  intros H. unfold applyFilter, prepared, finish. rewrite H. cbv zeta.
  destruct (ensureToggle P _ s _); reflexivity.
Qed.

Lemma hrel_old b h h' : hrel b h h' -> h < b -> h = h'.
Proof. intros [H|[H1 H2]] Hh; [exact H | lia]. Qed.

Lemma hrel_weaken b b' h h' : b <= b' -> hrel b' h h' -> hrel b h h'.
Proof. intros Hb [H|[H1 H2]]; [left; exact H | right; lia]. Qed.

Lemma Forall2_filter {A} (R : A -> A -> Prop) (p p' : A -> bool) l l' :
  Forall2 R l l' -> (forall x y, R x y -> p x = p' y) ->
  Forall2 R (filter p l) (filter p' l').
Proof.
  intros HF Hp. induction HF as [|x y l l' Hxy _ IH]; simpl; [constructor|].
  rewrite <- (Hp x y Hxy). destruct (p x); [constructor; assumption | exact IH].
Qed.

Lemma wrel_handles b l l' :
  Forall2 (wrel b) l l' ->
  (forall p, In p l -> handle_of (snd p) < b) ->
  map (fun p => handle_of (snd p)) l = map (fun p => handle_of (snd p)) l'.
Proof.
  induction 1 as [|x y l l' Hxy _ IH]; intros Hl; simpl; [reflexivity|].
  f_equal.
  - apply (hrel_old b); [apply sim_handle, Hxy | apply Hl; left; reflexivity].
  - apply IH. intros p Hp. apply Hl. right. exact Hp.
Qed.

Lemma all_nodes_lt D p : wf D -> In p (all_nodes D) -> handle_of (snd p) < next D.
Proof.
  intros [_ Hlt] Hp. rewrite all_handles in Hlt. rewrite Forall_forall in Hlt.
  apply Hlt. apply (in_map (fun p => handle_of (snd p))). exact Hp.
Qed.

Lemma doc_lt D h : wf D -> In h (handlesF (doc D)) -> h < next D.
Proof.
  intros [_ Hlt] Hh. rewrite Forall_forall in Hlt. apply Hlt.
  apply in_or_app. left. exact Hh.
Qed.

(** An object of the first document is found in both, at similar
    places. *)
Lemma located_sim b D E h :
  simL b (doc D) (doc E) -> h < b -> In h (handlesF (doc D)) ->
  exists p p', in_doc D h = Some p /\ in_doc E h = Some p' /\ wrel b p p'.
Proof.
  intros Hs Hh Hin. pose proof (subtree_sim b h _ _ Hh Hs) as H.
  destruct (in_handles_find h [] (doc D) Hin) as [q Hq]. unfold subtree in H.
  rewrite Hq in H.
  destruct (find (is_at h) (walkF [] (doc E))) as [q'|] eqn:Hq'; simpl in H;
    [|tauto].
  exists q, q'. split; [exact Hq|]. split; [exact Hq' | exact H].
Qed.

Lemma doc_query_sim b D E sel :
  avoids_hidden sel = true -> wf D -> next D <= b ->
  simL b (doc D) (doc E) ->
  doc_querySelectorAll D sel = doc_querySelectorAll E sel.
Proof.
  intros Hsel Hwf Hb Hs. unfold doc_querySelectorAll. apply (wrel_handles b).
  - apply Forall2_filter; [apply walkF_sim; simpl; auto|].
    intros x y Hxy. apply (matches_wrel b); assumption.
  - intros p Hp. apply filter_In in Hp as [Hp _].
    pose proof (all_nodes_lt D p Hwf (in_doc_all_nodes _ _ Hp)). lia.
Qed.

Lemma query_sim b D E s sel :
  avoids_hidden sel = true -> wf D -> next D <= b ->
  simL b (doc D) (doc E) -> In s (handlesF (doc D)) ->
  querySelectorAll D s sel = querySelectorAll E s sel.
Proof.
  intros Hsel Hwf Hb Hs Hin.
  pose proof (doc_lt D s Hwf Hin) as Hlt.
  destruct (located_sim b D E s Hs ltac:(lia) Hin) as ([a n] & [a' n'] & H1 & H2 & Hc & Hn).
  unfold querySelectorAll.
  rewrite (in_doc_locate _ _ _ H1), (in_doc_locate _ _ _ H2).
  apply (wrel_handles b).
  - apply Forall2_filter; [apply descendants_sim; assumption|].
    intros x y Hxy. apply (matches_wrel b); assumption.
  - intros p Hp. apply filter_In in Hp as [Hp _].
    pose proof (all_nodes_lt D p Hwf
                  (descendants_incl D s a n p (in_doc_locate _ _ _ H1) Hp)). lia.
Qed.

Lemma querySelector_sim b D E s sel :
  avoids_hidden sel = true -> wf D -> next D <= b ->
  simL b (doc D) (doc E) -> In s (handlesF (doc D)) ->
  querySelector D s sel = querySelector E s sel.
Proof.
  intros. unfold querySelector. rewrite (query_sim b D E); auto.
Qed.

Lemma classList_contains_sim b D E h c :
  c <> hidden -> wf D -> next D <= b ->
  simL b (doc D) (doc E) -> In h (handlesF (doc D)) ->
  classList_contains D h c = classList_contains E h c.
Proof.
  intros Hc Hwf Hb Hs Hin. pose proof (doc_lt D h Hwf Hin) as Hlt.
  destruct (located_sim b D E h Hs ltac:(lia) Hin) as ([a n] & [a' n'] & H1 & H2 & _ & Hn).
  unfold classList_contains.
  rewrite (in_doc_locate _ _ _ H1), (in_doc_locate _ _ _ H2).
  apply (sim_elem b) in Hn. apply canon_same_but_hidden in Hn.
  destruct Hn as (_ & _ & _ & _ & Hn). apply Hn. exact Hc.
Qed.

Lemma isSleeperChar_sim b D E c :
  wf D -> next D <= b -> simL b (doc D) (doc E) -> In c (handlesF (doc D)) ->
  isSleeperChar D c = isSleeperChar E c.
Proof.
  intros Hwf Hb Hs Hin. unfold isSleeperChar.
  rewrite (classList_contains_sim b D E c level_asleep), 
          (classList_contains_sim b D E c level_inactive),
          (querySelector_sim b D E c sel_levels); auto; discriminate.
Qed.

Lemma in_doc_In D h p : in_doc D h = Some p -> In p (walkF [] (doc D)).
Proof. intros H. apply find_some in H. tauto. Qed.

Lemma parent_in_doc D h c a n :
  in_doc D h = Some (c :: a, n) ->
  exists P, In (a, P) (walkF [] (doc D)) /\ c = (handle_of P, elem_of P) /\
            In n (kids_of P).
Proof.
  intros H. apply in_doc_In in H. apply walkF_parent in H as (P & H1 & H2 & H3).
  exists P. auto.
Qed.

Lemma walkF_handles ns a p : In p (walkF a ns) -> In (handle_of (snd p)) (handlesF ns).
Proof.
  intros H. rewrite (handlesF_walkF ns a).
  apply (in_map (fun p => handle_of (snd p))). exact H.
Qed.

Lemma parentElement_sim b D E h :
  wf D -> next D <= b -> simL b (doc D) (doc E) -> In h (handlesF (doc D)) ->
  parentElement D h = parentElement E h.
Proof.
  intros Hwf Hb Hs Hin. pose proof (doc_lt D h Hwf Hin) as Hlt.
  destruct (located_sim b D E h Hs ltac:(lia) Hin)
    as ([a n] & [a' n'] & H1 & H2 & Hc & _).
  rewrite (parentElement_in_doc _ _ _ _ H1), (parentElement_in_doc _ _ _ _ H2).
  simpl in Hc. destruct a as [|c a], a' as [|c' a']; simpl in Hc; try tauto.
  simpl. f_equal. destruct Hc as (Hh & _).
  apply (hrel_old b); [exact Hh|].
  destruct (parent_in_doc D h c a n H1) as (P & HP & -> & _). simpl.
  pose proof (all_nodes_lt D _ Hwf (in_doc_all_nodes _ _ HP)). simpl in *. lia.
Qed.

Lemma next_after_sim b s ks : forall ks',
  simL b ks ks' -> s < b ->
  orel (hrel b) (next_after s ks) (next_after s ks').
Proof.
  induction ks as [|k r IH]; intros [|k' r']; simpl; try tauto.
  intros [H1 H2] Hs.
  rewrite <- (hrel_eqb b _ _ s (sim_handle b k k' H1) Hs).
  destruct (Nat.eqb (handle_of k) s); [|apply IH; assumption].
  destruct r as [|k2 r2], r' as [|k2' r2']; simpl in *; try tauto.
  apply sim_handle. tauto.
Qed.

Lemma next_after_In s ks r :
  next_after s ks = Some r -> In r (map handle_of ks).
Proof.
  induction ks as [|k ks IH]; simpl; [discriminate|].
  destruct (Nat.eqb (handle_of k) s).
  - destruct ks as [|k2 ks2]; simpl; [discriminate|].
    intros [= <-]. right. left. reflexivity.
  - intros H. right. apply IH. exact H.
Qed.

Lemma nextSibling_sim b D E h :
  wf D -> next D <= b -> simL b (doc D) (doc E) -> In h (handlesF (doc D)) ->
  nextSibling D h = nextSibling E h.
Proof.
  intros Hwf Hb Hs Hin. unfold nextSibling.
  rewrite <- (parentElement_sim b D E h Hwf Hb Hs Hin).
  pose proof (doc_lt D h Hwf Hin) as Hlt.
  destruct (in_handles_find h [] (doc D) Hin) as [[a n] Hq].
  rewrite (parentElement_in_doc D h a n Hq).
  destruct a as [|c a]; simpl; [reflexivity|].
  destruct (parent_in_doc D h c a n Hq) as (P & HP & -> & Hk). simpl.
  pose proof (walkF_handles _ _ _ HP) as HPin. simpl in HPin.
  pose proof (doc_lt D _ Hwf HPin) as HPlt.
  destruct (located_sim b D E (handle_of P) Hs ltac:(lia) HPin)
    as ([a1 n1] & [a2 n2] & H1 & H2 & _ & Hn).
  rewrite (in_doc_locate _ _ _ H1), (in_doc_locate _ _ _ H2).
  simpl in Hn.
  pose proof (next_after_sim b h _ _ (sim_kids b _ _ Hn) ltac:(lia)) as Hr.
  destruct (next_after h (kids_of n1)) as [r|] eqn:Er;
    destruct (next_after h (kids_of n2)) as [r'|]; simpl in Hr; try tauto.
  f_equal. apply (hrel_old b); [exact Hr|].
  apply next_after_In in Er. apply in_map_iff in Er as (k & <- & Hk1).
  assert (Hk2 : In ((handle_of n1, elem_of n1) :: a1, k) (descendants a1 n1)).
  { unfold descendants, walkF. apply in_flat_map. exists k.
    split; [exact Hk1|]. destruct k; simpl; left; reflexivity. }
  pose proof (all_nodes_lt D _ Hwf
                (descendants_incl D _ a1 n1 _ (in_doc_locate _ _ _ H1) Hk2)).
  simpl in *. lia.
Qed.

(** ** Ancestors *)

Lemma NoDup_flat_map_In {A B} (f : A -> list B) l x :
  NoDup (flat_map f l) -> In x l -> NoDup (f x).
Proof.
  induction l as [|y l IH]; simpl; [tauto|]. intros H [->|Hx].
  - apply NoDup_app_l in H. exact H.
  - apply IH; [apply NoDup_app_r in H; exact H | exact Hx].
Qed.

(** The ancestors of a node are distinct objects, none of which lies in
    the subtree of the node. *)
Lemma walk_ctx_nodup n : forall anc c m,
  NoDup (handles n) -> In (c, m) (walk anc n) ->
  exists pre, c = pre ++ anc /\
              NoDup (map fst pre ++ handles m) /\
              incl (map fst pre ++ handles m) (handles n).
Proof.
  induction n as [h e ks IH] using node_ind. intros anc c m Hnd [Hq|Hq].
  - inversion Hq; subst. exists []. split; [reflexivity|].
    split; [exact Hnd | apply incl_refl].
  - apply in_flat_map in Hq as (k & Hk & Hq). rewrite Forall_forall in IH.
    simpl in Hnd. apply NoDup_cons_iff in Hnd as [Hh Hks].
    fold (handlesF ks) in *.
    destruct (IH k Hk ((h, e) :: anc) c m
                (NoDup_flat_map_In handles ks k Hks Hk) Hq)
      as (pre & -> & Hn & Hi).
    exists (pre ++ [(h, e)]). split; [rewrite <- app_assoc; reflexivity|].
    assert (Hk' : incl (handles k) (handlesF ks)).
    { intros x Hx. apply in_flat_map. exists k. auto. }
    split.
    + rewrite map_app, <- app_assoc. simpl. apply NoDup_Add with (a := h)
        (l := map fst pre ++ handles m).
      * apply Add_app.
      * split; [exact Hn|]. intros Hc. apply Hh. apply Hk', Hi. exact Hc.
    + intros x Hx. rewrite map_app, <- app_assoc in Hx. simpl in Hx.
      apply in_app_or in Hx as [Hx|[<-|Hx]].
      * right. apply Hk', Hi. apply in_or_app. left. exact Hx.
      * left. reflexivity.
      * right. apply Hk', Hi. apply in_or_app. right. exact Hx.
Qed.

Lemma walkF_ctx_nodup ns c m :
  NoDup (handlesF ns) -> In (c, m) (walkF [] ns) ->
  NoDup (map fst c ++ handles m) /\ incl (map fst c ++ handles m) (handlesF ns).
Proof.
  intros Hnd Hq. apply in_flat_map in Hq as (k & Hk & Hq).
  destruct (walk_ctx_nodup k [] c m (NoDup_flat_map_In handles ns k Hnd Hk) Hq)
    as (pre & -> & Hn & Hi).
  rewrite app_nil_r. split; [exact Hn|].
  intros x Hx. apply in_flat_map. exists k. split; [exact Hk | apply Hi, Hx].
Qed.

Lemma handles_self n : In (handle_of n) (handles n).
Proof. destruct n. simpl. left. reflexivity. Qed.

(** No element is its own ancestor. *)
Lemma in_doc_acyclic D h a n :
  wf D -> in_doc D h = Some (a, n) ->
  ~ In h (map fst a) /\ (forall x, In x (map fst a) -> ~ In x (handles n)).
Proof.
  intros Hwf H. pose proof (in_doc_In _ _ _ H) as Hin.
  apply find_some in H as [_ Hh]. apply Nat.eqb_eq in Hh. simpl in Hh.
  destruct (walkF_ctx_nodup _ _ _ (wf_doc_NoDup D Hwf) Hin) as [Hn _].
  split.
  - intros Hc. apply (NoDup_app_disjoint _ _ h Hn Hc). rewrite <- Hh.
    apply handles_self.
  - intros x Hx Hx'. exact (NoDup_app_disjoint _ _ x Hn Hx Hx').
Qed.

Lemma in_doc_parent D h c a n :
  wf D -> in_doc D h = Some (c :: a, n) ->
  exists P, in_doc D (fst c) = Some (a, P) /\ c = (handle_of P, elem_of P) /\
            In n (kids_of P).
Proof.
  intros Hwf H. destruct (parent_in_doc D h c a n H) as (P & HP & -> & Hk).
  exists P. split; [|auto].
  exact (find_unique_forest (doc D) (a, P) (wf_doc_NoDup D Hwf) HP).
Qed.

(** What a scoped query finds lies below its scope. *)
Lemma query_below D s sel c :
  wf D -> In s (handlesF (doc D)) -> In c (querySelectorAll D s sel) ->
  exists a n, in_doc D c = Some (a, n) /\ In s (map fst a) /\
              matchesV sel (a, c, elem_of n) = true.
Proof.
  intros Hwf Hs Hc. destruct (in_handles_find s [] (doc D) Hs) as [[a0 n0] H0].
  rewrite (scoped_query_views D s a0 n0 sel Hwf H0) in Hc.
  apply in_map_iff in Hc as (v & <- & Hv).
  apply filter_In in Hv as [Hv Hm]. apply filter_In in Hv as [Hv Hb].
  destruct (view_in_doc D v Hwf Hv) as (n & Hn & He).
  exists (v_ctx v), n. split; [exact Hn|]. split.
  - unfold below in Hb. apply mem_In in Hb. exact Hb.
  - rewrite He. destruct v as [[x y] z]. exact Hm.
Qed.

Lemma walkF_kid ns a n k :
  In (a, n) (walkF [] ns) -> In k (kids_of n) ->
  In ((handle_of n, elem_of n) :: a, k) (walkF [] ns).
Proof.
  intros Hn Hk. apply in_flat_map in Hn as (t & Ht & Hn). apply in_flat_map.
  exists t. split; [exact Ht|].
  apply (walk_sub t [] (a, n)); [exact Hn|]. simpl.
  unfold descendants, walkF. apply in_flat_map. exists k. split; [exact Hk|].
  destruct k. simpl. left. reflexivity.
Qed.

(** The next sibling of an element has the same parent. *)
Lemma sibling_parent D s r :
  wf D -> In s (handlesF (doc D)) -> nextSibling D s = Some r ->
  parentElement D r = parentElement D s /\ In r (handlesF (doc D)).
Proof.
  intros Hwf Hs H. unfold nextSibling in H.
  destruct (in_handles_find s [] (doc D) Hs) as [[a n] Hq].
  rewrite (parentElement_in_doc D s a n Hq) in *.
  destruct a as [|c a]; simpl in *; [discriminate|].
  destruct (in_doc_parent D s c a n Hwf Hq) as (P & HP & -> & Hk). simpl in *.
  rewrite (in_doc_locate _ _ _ HP) in H.
  apply next_after_In in H. apply in_map_iff in H as (k & <- & Hk').
  pose proof (walkF_kid (doc D) a P k (in_doc_In _ _ _ HP) Hk') as Hin.
  pose proof (find_unique_forest (doc D) _ (wf_doc_NoDup D Hwf) Hin) as Hf.
  simpl in Hf. split.
  - rewrite (parentElement_in_doc D (handle_of k) _ k Hf). reflexivity.
  - apply (walkF_handles _ _ _ Hin).
Qed.

(** ** Documents that differ by one subtree *)

Lemma spliced_view D D' vs v : spliced D D' vs -> In v (dviews D) -> In v (dviews D').
Proof.
  intros (v1 & v2 & H1 & H2) Hv. rewrite H1 in Hv. rewrite H2.
  apply in_app_or in Hv as [Hv|Hv]; apply in_or_app; [left; exact Hv|].
  right. apply in_or_app. right. exact Hv.
Qed.

Lemma spliced_in_doc D D' vs h a n :
  wf D' -> spliced D D' vs -> in_doc D h = Some (a, n) ->
  exists n', in_doc D' h = Some (a, n') /\ elem_of n' = elem_of n.
Proof.
  intros Hwf Hsp H. pose proof (spliced_view D D' vs _ Hsp (in_doc_view D h a n H)) as Hv.
  destruct (view_in_doc D' _ Hwf Hv) as (n' & H1 & H2). exists n'. auto.
Qed.

Lemma spliced_handles D D' vs h :
  spliced D D' vs -> In h (handlesF (doc D)) -> In h (handlesF (doc D')).
Proof.
  intros (v1 & v2 & H1 & H2). rewrite <- !dviews_handles, H1, H2, !map_app, !in_app_iff.
  tauto.
Qed.

Lemma spliced_handles_inv D D' vs h :
  spliced D D' vs -> In h (handlesF (doc D')) ->
  In h (handlesF (doc D)) \/ In h (map v_handle vs).
Proof.
  intros (v1 & v2 & H1 & H2). rewrite <- !dviews_handles, H1, H2, !map_app, !in_app_iff.
  tauto.
Qed.

Lemma spliced_parent D D' vs h :
  wf D' -> spliced D D' vs -> In h (handlesF (doc D)) ->
  parentElement D' h = parentElement D h.
Proof.
  intros Hwf Hsp Hh. destruct (in_handles_find h [] (doc D) Hh) as [[a n] H].
  destruct (spliced_in_doc D D' vs h a n Hwf Hsp H) as (n' & H' & _).
  rewrite (parentElement_in_doc _ _ _ _ H), (parentElement_in_doc _ _ _ _ H').
  reflexivity.
Qed.

Lemma filter_app_nil {A} (p : A -> bool) l1 l2 l3 :
  filter p l2 = [] -> filter p (l1 ++ l2 ++ l3) = filter p (l1 ++ l3).
Proof. intros H. rewrite !filter_app, H. reflexivity. Qed.

Lemma spliced_doc_query D D' vs sel :
  spliced D D' vs -> filter (matchesV sel) vs = [] ->
  doc_querySelectorAll D' sel = doc_querySelectorAll D sel.
Proof.
  intros (v1 & v2 & H1 & H2) Hn. rewrite !doc_query_views, H1, H2.
  rewrite (filter_app_nil _ _ _ _ Hn). reflexivity.
Qed.

Lemma spliced_query D D' vs s sel :
  wf D -> wf D' -> spliced D D' vs -> In s (handlesF (doc D)) ->
  filter (matchesV sel) (filter (below s) vs) = [] ->
  querySelectorAll D' s sel = querySelectorAll D s sel.
Proof.
  intros Hwf Hwf' Hsp Hs Hn. destruct (in_handles_find s [] (doc D) Hs) as [[a n] H].
  destruct (spliced_in_doc D D' vs s a n Hwf' Hsp H) as (n' & H' & _).
  rewrite (scoped_query_views D s a n sel Hwf H),
          (scoped_query_views D' s a n' sel Hwf' H').
  destruct Hsp as (v1 & v2 & H1 & H2). rewrite H1, H2.
  rewrite !filter_app, Hn. reflexivity.
Qed.

(** The views that a query finds among those spliced in come on top of
    what it found before. *)
Lemma spliced_doc_query_new D D' vs sel :
  spliced D D' vs -> doc_querySelectorAll D sel = [] ->
  doc_querySelectorAll D' sel = map v_handle (filter (matchesV sel) vs).
Proof.
  intros (v1 & v2 & H1 & H2) Hn. rewrite !doc_query_views, H1 in *.
  rewrite H2, !filter_app, !map_app. rewrite filter_app, map_app in Hn.
  apply app_eq_nil in Hn as [-> ->]. rewrite app_nil_r. reflexivity.
Qed.

Lemma spliced_query_new D D' vs s sel :
  wf D -> wf D' -> spliced D D' vs -> In s (handlesF (doc D)) ->
  querySelectorAll D s sel = [] ->
  querySelectorAll D' s sel
  = map v_handle (filter (matchesV sel) (filter (below s) vs)).
Proof.
  intros Hwf Hwf' Hsp Hs Hn. destruct (in_handles_find s [] (doc D) Hs) as [[a n] H].
  destruct (spliced_in_doc D D' vs s a n Hwf' Hsp H) as (n' & H' & _).
  rewrite (scoped_query_views D s a n sel Hwf H) in Hn.
  rewrite (scoped_query_views D' s a n' sel Hwf' H').
  destruct Hsp as (v1 & v2 & H1 & H2). rewrite H1 in Hn. rewrite H2.
  rewrite !filter_app, !map_app. rewrite !filter_app, map_app in Hn.
  apply app_eq_nil in Hn as [-> ->]. rewrite app_nil_r. reflexivity.
Qed.

(** ** The steps of a split pass, one by one *)

Lemma elem_at_in_doc D h a n : in_doc D h = Some (a, n) -> elem_at D h <> None.
Proof.
  intros H. unfold elem_at. rewrite (in_doc_locate _ _ _ H). discriminate.
Qed.

(** The step that may add the placeholder. *)
Lemma placeholder_step D5 sec chars aw :
  wf D5 -> In sec (handlesF (doc D5)) ->
  (forall c, In c chars -> In c (querySelectorAll D5 sec sel_char)) ->
  let D6 := addNoAwakePlaceholder D5 chars aw in
  let pl := Node (next D5) no_awake_elem [] in
  wf D6 /\
  match aw, hd_error chars with
  | [], Some c0 =>
      match parentElement D5 c0 with
      | Some cont =>
          exists a C,
            in_doc D5 cont = Some (a, C) /\ In sec (cont :: map fst a) /\
            D6 = appendChild (with_next D5 (S (next D5))) cont pl /\
            spliced D5 D6 [((cont, elem_of C) :: a, next D5, no_awake_elem)] /\
            doc D6 = map (edit cont (fun ks => ks ++ [pl])) (doc D5) /\
            parentElement D6 (next D5) = Some cont
      | None => D6 = D5
      end
  | _, _ => D6 = D5
  end.
Proof.
  intros Hwf Hsec Hch. cbv zeta. rewrite addNoAwakePlaceholder_cases.
  destruct aw as [|x aw]; [|split; [exact Hwf | reflexivity]].
  destruct (hd_error chars) as [c0|] eqn:Hc0;
    [|split; [exact Hwf | reflexivity]].
  destruct (parentElement D5 c0) as [cont|] eqn:Hp;
    [|split; [exact Hwf | reflexivity]].
  destruct (query_below D5 sec sel_char c0 Hwf Hsec (Hch c0 (hd_error_In _ _ Hc0)))
    as (ac & nc & Hin & Hbelow & _).
  rewrite (parentElement_in_doc _ _ _ _ Hin) in Hp.
  destruct ac as [|[p e] a]; simpl in Hp; [discriminate|]. injection Hp as ->.
  destruct (in_doc_parent D5 c0 _ a nc Hwf Hin) as (C & HC & HCe & _).
  simpl in HC. injection HCe as _ ->.
  destruct (placeholder_added D5 cont Hwf (elem_at_in_doc _ _ _ _ HC))
    as (Hwf6 & _ & Hpar).
  split; [exact Hwf6|]. exists a, C.
  split; [exact HC|]. split; [exact Hbelow|]. split; [reflexivity|].
  destruct (appendChild_views (with_next D5 (S (next D5))) cont
              (Node (next D5) no_awake_elem []) a C
              (wf_with_next D5 _ Hwf (Nat.le_succ_diag_r _)) HC) as [Hv Hd].
  split; [exact Hv|]. split; [exact Hd | exact Hpar].
Qed.

Lemma seq_bounds a n h : In h (seq a (n - a)) -> a <= h < n.
Proof. intros H. apply in_seq in H. lia. Qed.

(** The step that puts the sleepers section after the "In room"
    section. *)
Lemma insert_step D6 nx sec s D7 :
  wf D6 -> In sec (handlesF (doc D6)) ->
  handles s = seq (next D6) (nx - next D6) -> next D6 < nx ->
  insertSleepersSection (with_next D6 nx) sec s = Some D7 ->
  wf D7 /\ next D7 = nx /\
  exists par a Pn f,
    parentElement D6 sec = Some par /\ in_doc D6 par = Some (a, Pn) /\
    spliced D6 D7 (viewsN ((par, elem_of Pn) :: a) s) /\
    doc D7 = map (edit par f) (doc D6) /\
    ((exists r, nextSibling D6 sec = Some r /\ f = insert_before_in r s) \/
     (nextSibling D6 sec = None /\ f = fun ks => ks ++ [s])).
Proof.
  intros Hwf Hsec Hs Hnx H. unfold insertSleepersSection in H.
  change (nextSibling (with_next D6 nx) sec) with (nextSibling D6 sec) in H.
  change (parentElement (with_next D6 nx) sec) with (parentElement D6 sec) in H.
  destruct (in_handles_find sec [] (doc D6) Hsec) as [[a0 n0] H0].
  pose proof (parentElement_in_doc _ _ _ _ H0) as Hp.
  destruct a0 as [|[par e] a]; simpl in Hp; rewrite Hp in H;
    [destruct (nextSibling D6 sec); discriminate|].
  destruct (in_doc_parent D6 sec _ a n0 Hwf H0) as (Pn & HP & HPe & _).
  simpl in HP. injection HPe as _ ->.
  assert (Hwf' : wf (with_next D6 nx)) by (apply wf_with_next; [exact Hwf | lia]).
  assert (Hnd : NoDup (map fst (cells s))).
  { rewrite <- handles_cells, Hs. apply seq_NoDup. }
  assert (Hfr : Forall (fun h => next D6 <= h < nx) (map fst (cells s))).
  { rewrite <- handles_cells, Hs. apply Forall_forall. intros h Hh.
    apply seq_bounds in Hh. exact Hh. }
  destruct (nextSibling D6 sec) as [r|] eqn:Hr.
  - destruct (insertBefore_cells _ _ _ _ _ Hwf' H) as [Hperm Hn].
    destruct (insertBefore_views _ _ _ _ _ a Pn Hwf' H HP) as [Hv Hd].
    split; [|split; [exact Hn|]].
    + apply (wf_grow D6 D7 (cells s) Hwf);
        [exact Hperm | exact Hnd | rewrite Hn; exact Hfr | rewrite Hn; simpl; lia].
    + exists par, a, Pn, (insert_before_in r s). split; [exact Hp|].
      split; [exact HP|]. split; [exact Hv|]. split; [exact Hd|].
      left. exists r. auto.
  - injection H as <-.
    destruct (appendChild_views _ par s a Pn Hwf' HP) as [Hv Hd].
    split; [|split; [reflexivity|]].
    + apply wf_appendChild; try assumption. lia.
    + exists par, a, Pn, (fun ks => ks ++ [s]). split; [exact Hp|].
      split; [exact HP|]. split; [exact Hv|]. split; [exact Hd|].
      right. auto.
Qed.

(** ** Two passes on similar documents *)

Lemma nextSibling_sim' b D E h :
  simL b (doc D) (doc E) -> h < b -> In h (handlesF (doc D)) ->
  parentElement D h = parentElement E h ->
  (forall p, parentElement D h = Some p -> p < b) ->
  (forall r, nextSibling D h = Some r -> r < b) ->
  nextSibling D h = nextSibling E h.
Proof.
  intros Hs Hlt Hin Hpe Hpo Hro. unfold nextSibling in *. rewrite <- Hpe.
  destruct (in_handles_find h [] (doc D) Hin) as [[a n] Hq].
  rewrite (parentElement_in_doc D h a n Hq) in *.
  destruct a as [|c a]; simpl in *; [reflexivity|].
  destruct (parent_in_doc D h c a n Hq) as (P & HP & -> & Hk). simpl in *.
  pose proof (walkF_handles _ _ _ HP) as HPin. simpl in HPin.
  destruct (located_sim b D E (handle_of P) Hs (Hpo _ eq_refl) HPin)
    as ([a1 n1] & [a2 n2] & H1 & H2 & _ & Hn).
  rewrite (in_doc_locate _ _ _ H1) in *. rewrite (in_doc_locate _ _ _ H2).
  simpl in Hn.
  pose proof (next_after_sim b h _ _ (sim_kids b _ _ Hn) Hlt) as Hr.
  destruct (next_after h (kids_of n1)) as [r|] eqn:Er;
    destruct (next_after h (kids_of n2)) as [r'|]; simpl in Hr; try tauto.
  f_equal. apply (hrel_old b); [exact Hr | apply Hro; reflexivity].
Qed.

Lemma canon_add e e' :
  canon e = canon e' -> canon (add_class hidden e) = canon (add_class hidden e').
Proof.
  intros H. pose proof (canon_exit_class _ _ H) as Hx. unfold canon in *.
  rewrite !has_class_exit_add, <- Hx. rewrite <- Hx in H.
  destruct (has_class exit_class e).
  - rewrite !remove_add_hidden. exact H.
  - rewrite H. reflexivity.
Qed.

Lemma gc_sim b sl :
  (forall s, In s sl -> s < b) ->
  forall h h' e e', hrel b h h' -> canon e = canon e' ->
    canon (if mem h sl then add_class hidden e else e)
    = canon (if mem h' sl then add_class hidden e' else e').
Proof.
  intros Hsl h h' e e' Hh He.
  assert (Hm : mem h sl = mem h' sl).
  { destruct Hh as [->|[H1 H2]]; [reflexivity|].
    destruct (mem h sl) eqn:E1, (mem h' sl) eqn:E2; try reflexivity.
    - apply mem_In, Hsl in E1. lia.
    - apply mem_In, Hsl in E2. lia. }
  rewrite <- Hm. destruct (mem h sl); [apply canon_add|]; exact He.
Qed.

Lemma simL_insert_before_in b r new new' ks : forall ks',
  r < b -> sim b new new' -> simL b ks ks' ->
  simL b (insert_before_in r new ks) (insert_before_in r new' ks').
Proof.
  induction ks as [|k ks IH]; intros [|k' ks'] Hr Hn; simpl; try tauto.
  intros [H1 H2].
  rewrite <- (hrel_eqb b _ _ r (sim_handle b k k' H1) Hr).
  destruct (Nat.eqb (handle_of k) r); simpl; [tauto|].
  split; [exact H1 | apply IH; assumption].
Qed.

Lemma signature_sim b D E sel s :
  avoids_hidden sel = true -> wf D -> wf E -> simL b (doc D) (doc E) ->
  s < b -> In s (handlesF (doc D)) ->
  signature sel D s = signature sel E s.
Proof.
  intros Hsel HD HE Hs Hlt Hin.
  destruct (located_sim b D E s Hs Hlt Hin) as ([a n] & [a' n'] & H1 & H2 & Hc & Hn).
  rewrite (signature_node sel D s a n HD (in_doc_locate _ _ _ H1)),
          (signature_node sel E s a' n' HE (in_doc_locate _ _ _ H2)).
  apply (signatureN_sim b); assumption.
Qed.

Lemma sleeperAvatarUrls_sim b D E sl :
  wf D -> wf E -> simL b (doc D) (doc E) ->
  (forall s, In s sl -> s < b /\ In s (handlesF (doc D))) ->
  sleeperAvatarUrls D sl = sleeperAvatarUrls E sl.
Proof.
  intros HD HE Hs Hsl. unfold sleeperAvatarUrls. generalize (@nil string).
  induction sl as [|s sl IH]; intros acc; simpl; [reflexivity|].
  rewrite !addAvatarUrl_signature. unfold sleeper_signature.
  destruct (Hsl s (or_introl eq_refl)) as [H1 H2].
  rewrite (signature_sim b D E sel_avatar_img s eq_refl HD HE Hs H1 H2).
  apply IH. intros x Hx. apply Hsl. right. exact Hx.
Qed.

Lemma in_doc_Some_handles D h p : in_doc D h = Some p -> In h (handlesF (doc D)).
Proof. intros H. apply in_doc_handles. rewrite H. discriminate. Qed.

Lemma sim_in_doc b D E h :
  simL b (doc D) (doc E) -> h < b -> In h (handlesF (doc D)) ->
  In h (handlesF (doc E)).
Proof.
  intros Hs Hlt Hin. destruct (located_sim b D E h Hs Hlt Hin) as (p & p' & _ & H & _).
  exact (in_doc_Some_handles _ _ _ H).
Qed.

(** The placeholder step keeps two similar documents similar, and the
    "In room" section keeps its place among its siblings. *)
Lemma placeholder_sim D5 E5 sec chars aw :
  wf D5 -> wf E5 -> next D5 <= next E5 ->
  simL (next D5) (doc D5) (doc E5) ->
  In sec (handlesF (doc D5)) ->
  (forall c, In c chars -> In c (querySelectorAll D5 sec sel_char)) ->
  let b := next D5 in
  let D6 := addNoAwakePlaceholder D5 chars aw in
  let E6 := addNoAwakePlaceholder E5 chars aw in
  wf D6 /\ wf E6 /\ b <= next D6 /\ b <= next E6 /\
  simL b (doc D6) (doc E6) /\
  (forall h, In h (handlesF (doc D5)) -> In h (handlesF (doc D6))) /\
  (forall h, In h (handlesF (doc D5)) -> parentElement D6 h = parentElement E6 h) /\
  (forall h p, In h (handlesF (doc D5)) -> parentElement D6 h = Some p -> p < b) /\
  nextSibling D6 sec = nextSibling E6 sec /\
  (forall r, nextSibling D6 sec = Some r -> In r (handlesF (doc D5))).
Proof.
  intros HD HE Hnx Hs Hsec Hch b.
  assert (HsecE : In sec (handlesF (doc E5))).
  { apply (sim_in_doc b D5 E5); [exact Hs | apply doc_lt; assumption | exact Hsec]. }
  assert (HchE : forall c, In c chars -> In c (querySelectorAll E5 sec sel_char)).
  { intros c Hc. rewrite <- (query_sim b D5 E5 sec sel_char eq_refl HD (le_n _) Hs Hsec).
    apply Hch, Hc. }
  assert (Hpar5 : forall h, In h (handlesF (doc D5)) ->
                            parentElement D5 h = parentElement E5 h).
  { intros h Hh. apply (parentElement_sim b); auto. }
  assert (Hold5 : forall h p, In h (handlesF (doc D5)) ->
                              parentElement D5 h = Some p -> p < b).
  { intros h p Hh Hp. destruct (in_handles_find h [] (doc D5) Hh) as [[a n] Hq].
    rewrite (parentElement_in_doc D5 h a n Hq) in Hp.
    destruct a as [|c a]; simpl in Hp; [discriminate|]. injection Hp as <-.
    destruct (in_doc_parent D5 h c a n HD Hq) as (Pn & HP & _).
    apply doc_lt; [exact HD | exact (in_doc_Some_handles _ _ _ HP)]. }
  assert (Hbase :
    wf D5 /\ wf E5 /\ b <= next D5 /\ b <= next E5 /\
    simL b (doc D5) (doc E5) /\
    (forall h, In h (handlesF (doc D5)) -> In h (handlesF (doc D5))) /\
    (forall h, In h (handlesF (doc D5)) -> parentElement D5 h = parentElement E5 h) /\
    (forall h p, In h (handlesF (doc D5)) -> parentElement D5 h = Some p -> p < b) /\
    nextSibling D5 sec = nextSibling E5 sec /\
    (forall r, nextSibling D5 sec = Some r -> In r (handlesF (doc D5)))).
  { repeat (split; [solve [auto | unfold b; lia]|]). split.
    - apply (nextSibling_sim b); auto.
    - intros r Hr. apply (sibling_parent D5 sec r HD Hsec Hr). }
  pose proof (placeholder_step D5 sec chars aw HD Hsec Hch) as [HD6 HcD].
  pose proof (placeholder_step E5 sec chars aw HE HsecE HchE) as [HE6 HcE].
  cbv zeta in *.
  destruct aw as [|x aw]; [|rewrite HcD, HcE; exact Hbase].
  destruct (hd_error chars) as [c0|] eqn:Hc0; [|rewrite HcD, HcE; exact Hbase].
  assert (Hc0in : In c0 (handlesF (doc D5))).
  { destruct (query_below D5 sec sel_char c0 HD Hsec (Hch c0 (hd_error_In _ _ Hc0)))
      as (a & n & H & _). exact (in_doc_Some_handles _ _ _ H). }
  rewrite <- (Hpar5 c0 Hc0in) in HcE.
  destruct (parentElement D5 c0) as [cont|] eqn:Hp; [|rewrite HcD, HcE; exact Hbase].
  destruct HcD as (a & C & HC & Hbel & HeqD & HspD & HdocD & HplD).
  destruct HcE as (a' & C' & HC' & _ & HeqE & HspE & HdocE & _).
  set (D6 := addNoAwakePlaceholder D5 chars []) in *.
  set (E6 := addNoAwakePlaceholder E5 chars []) in *.
  assert (Hn6 : next D6 = S (next D5)) by (rewrite HeqD; reflexivity).
  assert (Hn6' : next E6 = S (next E5)) by (rewrite HeqE; reflexivity).
  assert (Hcont : cont < b).
  { apply doc_lt; [exact HD | exact (in_doc_Some_handles _ _ _ HC)]. }
  assert (Hsim6 : simL b (doc D6) (doc E6)).
  { rewrite HdocD, HdocE. apply simL_edit; [exact Hcont | | exact Hs].
    intros ks ks' Hks. apply simL_append; [|exact Hks].
    apply sim_node. split; [right; unfold b; lia|]. split; [reflexivity | exact I]. }
  assert (HparD : forall h, In h (handlesF (doc D5)) ->
                            parentElement D6 h = parentElement D5 h).
  { intros h Hh. apply (spliced_parent D5 D6 _ h HD6 HspD Hh). }
  assert (HparE : forall h, In h (handlesF (doc E5)) ->
                            parentElement E6 h = parentElement E5 h).
  { intros h Hh. apply (spliced_parent E5 E6 _ h HE6 HspE Hh). }
  assert (Hpar6 : forall h, In h (handlesF (doc D5)) ->
                            parentElement D6 h = parentElement E6 h).
  { intros h Hh. rewrite (HparD h Hh), HparE; [apply Hpar5, Hh|].
    apply (sim_in_doc b D5 E5); [exact Hs | apply doc_lt; assumption | exact Hh]. }
  assert (Hsib : forall r, nextSibling D6 sec = Some r -> In r (handlesF (doc D5))).
  { intros r Hr.
    destruct (sibling_parent D6 sec r HD6 (spliced_handles _ _ _ _ HspD Hsec) Hr)
      as [Hrp Hrin].
    apply (spliced_handles_inv _ _ _ _ HspD) in Hrin as [Hrin|Hrin]; [exact Hrin|].
    exfalso. simpl in Hrin. destruct Hrin as [<-|[]]. unfold v_handle in *.
    simpl in Hrp. rewrite HplD, (HparD sec Hsec) in Hrp.
    destruct (in_handles_find sec [] (doc D5) Hsec) as [[as0 ns] Hq].
    rewrite (parentElement_in_doc D5 sec as0 ns Hq) in Hrp.
    destruct as0 as [|c a0]; simpl in Hrp; [discriminate|].
    destruct (in_doc_parent D5 sec c a0 ns HD Hq) as (Pn & HPn & -> & _).
    simpl in *. injection Hrp as Hrp. rewrite <- Hrp in HPn.
    rewrite HC in HPn. injection HPn as -> ->.
    destruct (in_doc_acyclic D5 sec _ ns HD Hq) as [Hac _]. apply Hac.
    simpl. rewrite <- Hrp. exact Hbel. }
  split; [exact HD6|]. split; [exact HE6|].
  split; [unfold b; lia|]. split; [unfold b; lia|]. split; [exact Hsim6|].
  split; [intros h Hh; apply (spliced_handles _ _ _ _ HspD Hh)|].
  split; [exact Hpar6|].
  split; [intros h p Hh Hq; rewrite (HparD h Hh) in Hq; apply (Hold5 h p Hh Hq)|].
  split; [|exact Hsib].
  apply (nextSibling_sim' b); auto.
  - apply doc_lt; assumption.
  - apply (spliced_handles _ _ _ _ HspD Hsec).
  - intros p Hq. rewrite (HparD sec Hsec) in Hq. apply (Hold5 sec p Hsec Hq).
  - intros r Hr. apply doc_lt; [exact HD | apply Hsib, Hr].
Qed.

Lemma exit_urls_sim b P D E sl :
  wf D -> wf E -> simL b (doc D) (doc E) ->
  (forall s, In s sl -> s < b /\ In s (handlesF (doc D))) ->
  exit_urls P D sl = exit_urls P E sl.
Proof.
  intros HD HE Hs Hsl. unfold exit_urls.
  rewrite (sleeperAvatarUrls_sim b D E sl HD HE Hs Hsl). reflexivity.
Qed.

(** From similar prepared stores, the rest of the pass shows the same
    page. *)
Lemma finish_sim P D4 E4 sec chars D' :
  wf D4 -> wf E4 -> next D4 <= next E4 ->
  simL (next D4) (doc D4) (doc E4) ->
  In sec (handlesF (doc D4)) ->
  querySelectorAll D4 sec sel_char = chars ->
  finish P D4 sec chars = Returned D' ->
  exists D'', finish P E4 sec chars = Returned D'' /\ page D'' = page D'.
Proof.
  intros HD HE Hnx Hs Hsec Hch. set (b := next D4) in *. unfold finish.
  destruct (splitEnabled P) eqn:Hsp; simpl.
  2:{ intros [= <-]. eexists. split; [reflexivity|]. unfold page.
      rewrite !unhideExitChars_doc by assumption. symmetry.
      apply (exitN_simL b). exact Hs. }
  rewrite !categorize_spec.
  assert (Hin : forall c, In c chars -> In c (handlesF (doc D4))).
  { intros c Hc. rewrite <- Hch in Hc.
    destruct (query_below D4 sec sel_char c HD Hsec Hc) as (a & n & H & _).
    exact (in_doc_Some_handles _ _ _ H). }
  assert (Hsl : filter (isSleeperChar E4) chars = filter (isSleeperChar D4) chars).
  { apply filter_ext_in. intros c Hc. symmetry.
    apply (isSleeperChar_sim b); auto. }
  assert (Haw : filter (fun el => negb (isSleeperChar E4 el)) chars
                = filter (fun el => negb (isSleeperChar D4 el)) chars).
  { apply filter_ext_in. intros c Hc. f_equal. symmetry.
    apply (isSleeperChar_sim b); auto. }
  rewrite Hsl, Haw.
  set (sl := filter (isSleeperChar D4) chars).
  set (aw := filter (fun el => negb (isSleeperChar D4 el)) chars).
  set (gc := fun h e => if mem h sl then add_class hidden e else e).
  assert (Hgc : hidden_only gc) by apply hidden_only_mem_add.
  assert (Hslin : forall s, In s sl -> In s (handlesF (doc D4))).
  { intros s Hs'. apply Hin. apply filter_In in Hs'. tauto. }
  assert (Hs5 : simL b (doc (mapTD gc D4)) (doc (mapTD gc E4))).
  { simpl. apply simL_mapT; [|exact Hs]. apply gc_sim.
    intros s Hs'. apply doc_lt; [exact HD | apply Hslin, Hs']. }
  assert (Hch5 : forall c, In c chars ->
                   In c (querySelectorAll (mapTD gc D4) sec sel_char)).
  { intros c Hc. rewrite (querySelectorAll_mapTD gc Hgc sel_char eq_refl), Hch.
    exact Hc. }
  destruct (placeholder_sim (mapTD gc D4) (mapTD gc E4) sec chars aw
              (wf_mapTD gc D4 HD) (wf_mapTD gc E4 HE) Hnx Hs5
              ltac:(rewrite doc_handles_mapTD; exact Hsec) Hch5)
    as (HD6 & HE6 & Hb6 & Hb6' & Hs6 & Hin6 & Hpar6 & Hold6 & Hsib6 & Hsibin).
  cbv zeta in *. change (next (mapTD gc D4)) with b in *.
  set (D6 := addNoAwakePlaceholder (mapTD gc D4) chars aw) in *.
  set (E6 := addNoAwakePlaceholder (mapTD gc E4) chars aw) in *.
  assert (Hsec5 : In sec (handlesF (doc (mapTD gc D4)))).
  { rewrite doc_handles_mapTD. exact Hsec. }
  assert (Hslin6 : forall s, In s sl -> s < b /\ In s (handlesF (doc D6))).
  { intros s Hs'. split; [apply doc_lt; [exact HD | apply Hslin, Hs']|].
    apply Hin6. rewrite doc_handles_mapTD. apply Hslin, Hs'. }
  assert (Halike : alike b D6 E6 sl).
  { apply Forall_forall. intros s Hs'. destruct (Hslin6 s Hs') as [H1 H2].
    destruct (located_sim b D6 E6 s Hs6 H1 H2) as (p & p' & Hp & Hp' & Hw).
    rewrite (in_doc_locate _ _ _ Hp), (in_doc_locate _ _ _ Hp'). exact Hw. }
  pose proof (createSleepersSection_sim b P D6 E6 sl Hb6 Hb6' Halike) as HsimS.
  pose proof (createSleepersSection_numbers P D6 sl) as HnumD.
  pose proof (createSleepersSection_numbers P E6 sl) as HnumE.
  cbv zeta in HnumD, HnumE.
  destruct (createSleepersSection P D6 sl) as [s nx].
  destruct (createSleepersSection P E6 sl) as [s' nx']. simpl in *.
  destruct HnumD as [HnD1 HnD2], HnumE as [HnE1 HnE2].
  destruct (insertSleepersSection (with_next D6 nx) sec s) as [D7|] eqn:H7;
    [|discriminate].
  intros [= <-].
  destruct (insert_step D6 nx sec s D7 HD6 (Hin6 sec Hsec5) HnD1 HnD2 H7)
    as (HD7 & _ & par & a & Pn & f & Hpar & HPn & Hsp7 & Hdoc7 & Hf).
  assert (Hpar' : parentElement E6 sec = Some par).
  { rewrite <- (Hpar6 sec Hsec5). exact Hpar. }
  assert (HsecE6 : In sec (handlesF (doc E6))).
  { apply (sim_in_doc b D6 E6);
      [exact Hs6 | apply doc_lt; assumption | apply Hin6, Hsec5]. }
  assert (H7' : exists E7, insertSleepersSection (with_next E6 nx') sec s' = Some E7).
  { unfold insertSleepersSection.
    change (nextSibling (with_next E6 nx') sec) with (nextSibling E6 sec).
    change (parentElement (with_next E6 nx') sec) with (parentElement E6 sec).
    rewrite <- Hsib6, Hpar'.
    destruct (nextSibling D6 sec) as [r|] eqn:Hr; [|eexists; reflexivity].
    unfold insertBefore.
    change (parentElement (with_next E6 nx') r) with (parentElement E6 r).
    rewrite <- (Hpar6 r (Hsibin r eq_refl)).
    destruct (sibling_parent D6 sec r HD6 (Hin6 sec Hsec5) Hr) as [Hrp _].
    rewrite Hrp, Hpar, Nat.eqb_refl. eexists. reflexivity. }
  destruct H7' as [E7 H7'].
  destruct (insert_step E6 nx' sec s' E7 HE6 HsecE6 HnE1 HnE2 H7')
    as (HE7 & _ & par' & a' & Pn' & f' & Hpar2 & _ & _ & Hdoc7' & Hf').
  rewrite Hpar' in Hpar2. injection Hpar2 as <-.
  rewrite H7'. eexists. split; [reflexivity|]. unfold page.
  rewrite !filterExitChars_doc by assumption.
  assert (Hs7 : simL b (doc D7) (doc E7)).
  { rewrite Hdoc7, Hdoc7'. apply simL_edit; [|intros ks ks' Hks|exact Hs6].
    - apply (Hold6 sec par Hsec5 Hpar).
    - rewrite <- Hsib6 in Hf'.
      destruct Hf as [(r & Hr & ->)|[Hr ->]], Hf' as [(r' & Hr' & ->)|[Hr' ->]];
        try congruence.
      + rewrite Hr in Hr'. injection Hr' as <-.
        apply simL_insert_before_in; [|exact HsimS | exact Hks].
        apply doc_lt with (D := mapTD gc D4); [apply wf_mapTD, HD|].
        apply Hsibin, Hr.
      + apply simL_append; assumption. }
  rewrite <- (exit_urls_sim b P D7 E7 sl HD7 HE7 Hs7).
  - symmetry. apply (exitN_simL b). exact Hs7.
  - intros x Hx. destruct (Hslin6 x Hx) as [H1 H2]. split; [exact H1|].
    apply (spliced_handles _ _ _ _ Hsp7 H2).
Qed.

(** ** Taking a subtree out again *)

Lemma handle_of_edit p f n : handle_of (edit p f n) = handle_of n.
Proof. destruct n. reflexivity. Qed.

Lemma pruneF_app x a b : pruneF x (a ++ b) = pruneF x a ++ pruneF x b.
Proof.
  induction a as [|k r IH]; simpl; [reflexivity|].
  destruct (is_not x k); simpl; rewrite IH; reflexivity.
Qed.

Lemma is_not_self n : is_not (handle_of n) n = false.
Proof. unfold is_not. rewrite Nat.eqb_refl. reflexivity. Qed.

Lemma pruneF_insert_before_in r new ks :
  pruneF (handle_of new) (insert_before_in r new ks) = pruneF (handle_of new) ks.
Proof.
  induction ks as [|k ks IH]; simpl; [reflexivity|].
  destruct (Nat.eqb (handle_of k) r); simpl.
  - rewrite is_not_self. reflexivity.
  - rewrite IH. reflexivity.
Qed.

Lemma pruneF_append new ks :
  pruneF (handle_of new) (ks ++ [new]) = pruneF (handle_of new) ks.
Proof.
  rewrite pruneF_app. simpl. rewrite is_not_self, app_nil_r. reflexivity.
Qed.

Lemma is_not_absent x k : ~ In x (handles k) -> is_not x k = true.
Proof.
  intros H. unfold is_not. apply negb_true_iff, Nat.eqb_neq. intros E.
  apply H. rewrite <- E. apply handles_self.
Qed.

Lemma pruneF_edit_forest x p f ks :
  Forall (fun n => ~ In x (handles n) -> prune x (edit p f n) = n) ks ->
  ~ In x (handlesF ks) -> pruneF x (map (edit p f) ks) = ks.
Proof.
  induction 1 as [|k r Hk _ IH]; intros Hx; simpl; [reflexivity|].
  unfold handlesF in Hx. simpl in Hx. rewrite in_app_iff in Hx.
  assert (H1 : ~ In x (handles k)) by tauto.
  assert (H2 : ~ In x (handlesF r)) by (unfold handlesF; tauto).
  unfold is_not. rewrite handle_of_edit. fold (is_not x k).
  rewrite (is_not_absent x k H1), (Hk H1), (IH H2). reflexivity.
Qed.

Lemma prune_edit x p f n :
  (forall ks, pruneF x (f ks) = pruneF x ks) ->
  ~ In x (handles n) -> prune x (edit p f n) = n.
Proof.
  intros Hf. induction n as [h e ks IH] using node_ind. intros Hx. simpl edit.
  rewrite prune_eq. f_equal.
  assert (Hks : ~ In x (handlesF ks)) by (intros H; apply Hx; right; exact H).
  destruct (Nat.eqb h p); [rewrite Hf|]; apply pruneF_edit_forest; assumption.
Qed.

(** Pruning a fresh subtree that an edit has put in gives the forest
    before the edit. *)
Lemma pruneF_edit x p f ns :
  (forall ks, pruneF x (f ks) = pruneF x ks) ->
  ~ In x (handlesF ns) -> pruneF x (map (edit p f) ns) = ns.
Proof.
  intros Hf Hx. apply pruneF_edit_forest; [|exact Hx].
  apply Forall_forall. intros n _. apply prune_edit. exact Hf.
Qed.

Lemma pruneF_mapT_forest x g ks :
  Forall (fun n => prune x (mapT g n) = mapT g (prune x n)) ks ->
  pruneF x (map (mapT g) ks) = map (mapT g) (pruneF x ks).
Proof.
  induction 1 as [|k r Hk _ IH]; simpl; [reflexivity|].
  unfold is_not. rewrite handle_of_mapT. fold (is_not x k).
  destruct (is_not x k); simpl; rewrite IH; [rewrite Hk|]; reflexivity.
Qed.

Lemma prune_mapT x g n : prune x (mapT g n) = mapT g (prune x n).
Proof.
  induction n as [h e ks IH] using node_ind.
  change (mapT g (Node h e ks)) with (Node h (g h e) (map (mapT g) ks)).
  rewrite !prune_eq. simpl. f_equal. apply pruneF_mapT_forest. exact IH.
Qed.

Lemma pruneF_mapT x g ns :
  pruneF x (map (mapT g) ns) = map (mapT g) (pruneF x ns).
Proof.
  apply pruneF_mapT_forest. apply Forall_forall. intros n _. apply prune_mapT.
Qed.

Lemma simL_pruneF_forest b x ks :
  x < b ->
  Forall (fun n => forall n', sim b n n' -> sim b (prune x n) (prune x n')) ks ->
  forall ks', simL b ks ks' -> simL b (pruneF x ks) (pruneF x ks').
Proof.
  intros Hx. induction 1 as [|k r Hk _ IH]; intros [|k' r']; simpl; try tauto.
  intros [H1 H2]. unfold is_not.
  rewrite <- (hrel_eqb b _ _ x (sim_handle b k k' H1) Hx).
  destruct (Nat.eqb (handle_of k) x); simpl; [apply IH; exact H2|].
  split; [apply Hk; exact H1 | apply IH; exact H2].
Qed.

Lemma sim_prune b x n : forall n',
  x < b -> sim b n n' -> sim b (prune x n) (prune x n').
Proof.
  induction n as [h e ks IH] using node_ind. intros [h' e' ks'] Hx Hs.
  apply sim_node in Hs as (Hh & He & Hks). rewrite !prune_eq. apply sim_node.
  split; [exact Hh|]. split; [exact He|].
  apply simL_pruneF_forest; [exact Hx | | exact Hks].
  apply Forall_forall. intros k Hk n' Hs. rewrite Forall_forall in IH.
  apply IH; assumption.
Qed.

Lemma simL_pruneF b x ns ns' :
  x < b -> simL b ns ns' -> simL b (pruneF x ns) (pruneF x ns').
Proof.
  intros Hx. apply simL_pruneF_forest; [exact Hx|].
  apply Forall_forall. intros n _ n' Hs. apply sim_prune; assumption.
Qed.

Lemma canon_exit_elem urls a n : canon (exit_elem urls a n) = canon (elem_of n).
Proof.
  unfold exit_elem, canon. cbv zeta.
  destruct (has_class exit_class (elem_of n)) eqn:E; [|rewrite E; reflexivity].
  destruct (wantsN urls a n).
  - rewrite has_class_exit_add, has_class_exit_remove, E.
    rewrite remove_add_hidden, remove_class_idem. reflexivity.
  - rewrite has_class_exit_remove, E, remove_class_idem. reflexivity.
Qed.

Lemma sim_exitN b urls n : forall a, sim b n (exitN urls a n).
Proof.
  induction n as [h e ks IH] using node_ind. intros a. simpl. apply sim_node.
  split; [apply hrel_refl|].
  split; [symmetry; apply (canon_exit_elem urls a (Node h e ks))|].
  induction IH as [|k r Hk _ IHr]; simpl; [exact I|].
  split; [apply Hk | exact IHr].
Qed.

Lemma simL_exitN b urls ns : simL b ns (map (exitN urls []) ns).
Proof.
  induction ns as [|k r IH]; simpl; [exact I|]. split; [apply sim_exitN | exact IH].
Qed.

Lemma sim_weaken b b' n : forall n', b <= b' -> sim b' n n' -> sim b n n'.
Proof.
  induction n as [h e ks IH] using node_ind. intros [h' e' ks'] Hb Hs.
  apply sim_node in Hs as (Hh & He & Hks). apply sim_node.
  split; [apply (hrel_weaken b b'); assumption|]. split; [exact He|].
  revert ks' Hks. induction IH as [|k r Hk _ IHr]; intros [|k' r'];
    simpl; try tauto.
  intros [H1 H2]. split; [apply Hk; assumption | apply IHr; exact H2].
Qed.

Lemma simL_weaken b b' ns : forall ns', b <= b' -> simL b' ns ns' -> simL b ns ns'.
Proof.
  induction ns as [|k r IH]; intros [|k' r'] Hb; simpl; try tauto.
  intros [H1 H2]. split; [apply (sim_weaken b b'); assumption | apply IH; assumption].
Qed.

(** ** The elements of a sleepers section *)

Lemma views_elems anc ns : map v_elem (views anc ns) = map snd (cellsF ns).
Proof.
  unfold views. rewrite (cellsF_walkF ns anc), !map_map. reflexivity.
Qed.

Lemma cloneF_elems ks :
  Forall (fun k => forall nx, map snd (cells (fst (clone nx k))) = map snd (cells k)) ks ->
  forall nx, map snd (cellsF (fst (cloneF nx ks))) = map snd (cellsF ks).
Proof.
  induction 1 as [|k r Hk _ IH]; intros nx; simpl; [reflexivity|].
  specialize (Hk nx). destruct (clone nx k) as [k' nx1]. specialize (IH nx1).
  destruct (cloneF nx1 r) as [r' nx2]. simpl in *.
  unfold cellsF in *. simpl. rewrite !map_app, Hk, IH. reflexivity.
Qed.

(** A clone has the elements of the original, in the same order. *)
Lemma clone_elems n : forall nx,
  map snd (cells (fst (clone nx n))) = map snd (cells n).
Proof.
  induction n as [h e ks IH] using node_ind. intros nx. rewrite clone_eq.
  pose proof (cloneF_elems ks IH (S nx)) as H.
  destruct (cloneF (S nx) ks) as [ks' nx']. simpl in *. f_equal. exact H.
Qed.

Lemma mapT_elems f n :
  map snd (cells (mapT (fun _ e => f e) n)) = map f (map snd (cells n)).
Proof.
  induction n as [h e ks IH] using node_ind. simpl. f_equal.
  induction IH as [|k r Hk _ IHr]; simpl; [reflexivity|].
  rewrite !map_app, Hk, IHr. reflexivity.
Qed.

Lemma clone_loop_elems D sl : forall acc,
  map snd (cellsF (fst (fold_left (clone_sleeper D) sl acc)))
  = map snd (cellsF (fst acc)) ++ cloned_elems D sl.
Proof.
  induction sl as [|s sl IH]; intros acc; simpl; [rewrite app_nil_r; reflexivity|].
  rewrite IH. unfold clone_sleeper at 1.
  destruct (locate D s) as [[a n]|]; [|reflexivity].
  pose proof (clone_elems n (snd acc)) as Hc.
  destruct (clone (snd acc) n) as [c nx]. simpl in *.
  rewrite cellsF_app, map_app, <- app_assoc. f_equal. f_equal.
  unfold cellsF. simpl. rewrite app_nil_r, strip_clone_mapT, mapT_elems, Hc.
  reflexivity.
Qed.

(** Below its root a sleepers section holds new elements without an
    id and without the class of a panel section, and the stripped
    elements of the sleepers. *)
Lemma section_rest P D sl c :
  exists rest,
    viewsN c (fst (createSleepersSection P D sl))
    = (c, next D, new_elem "div" sleepers_id ["msf-sleepers-section"] "") :: rest /\
    Forall (fun v => (eid (v_elem v) = "" /\
                      has_class "panelsection" (v_elem v) = false) \/
                     In (v_elem v) (cloned_elems D sl)) rest.
Proof.
  unfold createSleepersSection.
  destruct (Nat.eqb (List.length sl) 0).
  - simpl. eexists. split; [reflexivity|].
    repeat (constructor; [left; split; destruct (sleepersOpen P); reflexivity|]).
    constructor.
  - pose proof (clone_loop_elems D sl ([], next D + 6)) as H.
    destruct (fold_left (clone_sleeper D) sl ([], next D + 6)) as [body nx'].
    simpl in H. cbn [fst]. rewrite viewsN_node. eexists. split; [reflexivity|].
    rewrite views_cons, views_cons.
    apply Forall_app. split; [|apply Forall_app; split; [|constructor]].
    + simpl.
      repeat (constructor; [left; split; destruct (sleepersOpen P); reflexivity|]).
      constructor.
    + rewrite viewsN_node.
      constructor; [left; split; destruct (sleepersOpen P); reflexivity|].
      apply Forall_forall. intros v Hv. right. rewrite <- H.
      erewrite <- views_elems. apply in_map. exact Hv.
Qed.

(** ** A second pass undoes what the first has added *)

Lemma walkF_sub ns p q :
  In p (walkF [] ns) -> In q (descendants (fst p) (snd p)) -> In q (walkF [] ns).
Proof.
  intros Hp Hq. apply in_flat_map in Hp as (t & Ht & Hp). apply in_flat_map.
  exists t. split; [exact Ht | exact (walk_sub t [] p q Hp Hq)].
Qed.

Lemma walk_head a n : walk a n = (a, n) :: descendants a n.
Proof. destruct n. reflexivity. Qed.

(** Every element of a subtree of the document is seen in the
    document. *)
Lemma subtree_views D s a n h e :
  in_doc D s = Some (a, n) -> In (h, e) (cells n) ->
  exists c, In (c, h, e) (dviews D) /\ In h (handles n).
Proof.
  intros Hs Hc. rewrite (cells_walk n a) in Hc. apply in_map_iff in Hc as (q & Hq & Hin).
  injection Hq as <- <-.
  assert (Hh : In (handle_of (snd q)) (handles n)).
  { rewrite (handles_walk n a). apply (in_map (fun p => handle_of (snd p))). exact Hin. }
  exists (fst q). split; [|exact Hh].
  assert (Hd : In q (walkF [] (doc D))).
  { rewrite walk_head in Hin. destruct Hin as [<-|Hin]; [exact (in_doc_In _ _ _ Hs)|].
    exact (walkF_sub (doc D) (a, n) q (in_doc_In _ _ _ Hs) Hin). }
  unfold dviews, views. apply in_map_iff. exists q. split; [|exact Hd].
  destruct q as [c m]. reflexivity.
Qed.

Lemma cloned_elem_origin D sl e :
  (forall s, In s sl -> In s (handlesF (doc D))) ->
  In e (cloned_elems D sl) ->
  exists s a n v, In s sl /\ in_doc D s = Some (a, n) /\ In v (dviews D) /\
                  In (v_handle v) (handles n) /\
                  e = remove_class hidden (v_elem v).
Proof.
  intros Hsl He. unfold cloned_elems in He. apply in_flat_map in He as (s & Hs & He).
  destruct (in_handles_find s [] (doc D) (Hsl s Hs)) as [[a n] Hq].
  change (find (is_at s) (walkF [] (doc D))) with (in_doc D s) in Hq.
  rewrite (in_doc_locate _ _ _ Hq) in He.
  apply in_map_iff in He as (e0 & <- & He). apply in_map_iff in He as ([h0 e1] & He1 & Hc).
  simpl in He1. subst e1.
  destruct (subtree_views D s a n h0 e0 Hq Hc) as (c & Hv & Hh).
  exists s, a, n, (c, h0, e0). auto.
Qed.

Lemma elem_at_walkF D p :
  wf D -> In p (walkF [] (doc D)) ->
  elem_at D (handle_of (snd p)) = Some (elem_of (snd p)).
Proof.
  intros Hwf Hp. unfold elem_at.
  rewrite (locate_unique D p Hwf (in_doc_all_nodes _ _ Hp)). reflexivity.
Qed.

(** Resetting the characters takes back the markers that sorting has
    put on the sleepers. *)
Lemma reset_undo D4 chars sl :
  wf D4 ->
  (forall c, In c chars -> is_hidden D4 c = false) ->
  (forall s, In s sl -> In s chars) ->
  map (mapT (fun h e => if mem h chars then remove_class hidden e else e))
      (map (mapT (fun h e => if mem h sl then add_class hidden e else e)) (doc D4))
  = doc D4.
Proof.
  intros Hwf Hvis Hsl. rewrite map_map. rewrite <- (map_id (doc D4)) at 2.
  apply map_ext_in. intros n Hn. rewrite mapT_mapT. rewrite <- (mapT_id n) at 2.
  apply mapT_ext_inside. intros m Hm.
  destruct (inside_walk m n Hm []) as [a Ha].
  assert (Hp : In (a, m) (walkF [] (doc D4))).
  { apply in_flat_map. exists n. auto. }
  pose proof (elem_at_walkF D4 _ Hwf Hp) as He. simpl in He.
  destruct (mem (handle_of m) chars) eqn:Hc.
  - apply mem_In in Hc. pose proof (Hvis _ Hc) as Hh.
    rewrite is_hidden_elem_at, He in Hh.
    destruct (mem (handle_of m) sl);
      [rewrite remove_add_hidden|]; apply remove_class_absent; exact Hh.
  - destruct (mem (handle_of m) sl) eqn:Hs; [|reflexivity].
    apply mem_In, Hsl, mem_In in Hs. congruence.
Qed.

Lemma gr_sim b chars :
  (forall c, In c chars -> c < b) ->
  forall h h' e e', hrel b h h' -> canon e = canon e' ->
    canon (if mem h chars then remove_class hidden e else e)
    = canon (if mem h' chars then remove_class hidden e' else e').
Proof.
  intros Hch h h' e e' Hh He.
  assert (Hm : mem h chars = mem h' chars).
  { destruct Hh as [->|[H1 H2]]; [reflexivity|].
    destruct (mem h chars) eqn:E1, (mem h' chars) eqn:E2; try reflexivity.
    - apply mem_In, Hch in E1. lia.
    - apply mem_In, Hch in E2. lia. }
  rewrite <- Hm. destruct (mem h chars); [|exact He].
  rewrite (canon_remove_eq _ _ He). reflexivity.
Qed.

Lemma remove_doc D x p : in_doc D x = Some p -> doc (remove D x) = pruneF x (doc D).
Proof. intros H. unfold remove. rewrite H. destruct p. reflexivity. Qed.

Lemma matchesV_cls c v : matchesV (cls c) v = has_class c (v_elem v).
Proof.
  unfold cls. rewrite matchesV_compound. simpl. rewrite andb_true_r. reflexivity.
Qed.

Lemma pl_view_other c s ctx h :
  has_class c no_awake_elem = false ->
  filter (matchesV (cls c)) (filter (below s) [(ctx, h, no_awake_elem)]) = [].
Proof.
  intros Hc. apply filter_none. intros v Hv. apply filter_In in Hv as [[<-|[]] _].
  rewrite matchesV_cls. exact Hc.
Qed.

(** From the store left by the first pass, without its sleepers
    section, the second pass gets back to the prepared store of the
    first. *)
Lemma rerun_from P D4 sec chars sl D6 E1 :
  ready D4 sec chars ->
  (forall s, In s sl -> In s chars) ->
  let gc := fun h e => if mem h sl then add_class hidden e else e in
  let D5 := mapTD gc D4 in
  wf D6 ->
  (D6 = D5 \/
   exists cont a C,
     in_doc D5 cont = Some (a, C) /\ In sec (cont :: map fst a) /\
     spliced D5 D6 [((cont, elem_of C) :: a, next D5, no_awake_elem)] /\
     doc D6 = map (edit cont (fun ks => ks ++ [Node (next D5) no_awake_elem []]))
                  (doc D5)) ->
  wf E1 -> next D6 <= next E1 ->
  simL (next E1) (doc D6) (doc E1) ->
  exists E4,
    ensureToggle P (removePlaceholder (resetChars E1 chars) sec) sec
                 (querySelector E1 sec (cls toggle_class)) = Some E4 /\
    getCharElements E1 (Some sec) = chars /\
    wf E4 /\ next E4 = next E1 /\ simL (next E1) (doc D4) (doc E4).
Proof.
  intros (Hwf & Hsec & Hinroom & Hnos & Hch & Hpl & Htl & Htog & Hvis) Hsl gc D5
         Hwf6 H6 HwfE Hnx Hs.
  set (B := next E1) in *.
  assert (Hgc : hidden_only gc) by apply hidden_only_mem_add.
  assert (Hwf5 : wf D5) by (apply wf_mapTD; exact Hwf).
  assert (Hsec5 : In sec (handlesF (doc D5))).
  { unfold D5. rewrite doc_handles_mapTD. exact Hsec. }
  assert (Hn5 : next D5 <= next D6).
  { destruct H6 as [->|(cont & a & C & _ & _ & Hsp & _)]; [lia|].
    assert (In (next D5) (handlesF (doc D6))).
    { rewrite <- dviews_handles. destruct Hsp as (v1 & v2 & _ & ->).
      rewrite !map_app. apply in_or_app. right. left. reflexivity. }
    pose proof (doc_lt D6 _ Hwf6 H). lia. }
  assert (Hsec6 : In sec (handlesF (doc D6))).
  { destruct H6 as [->|(cont & a & C & _ & _ & Hsp & _)]; [exact Hsec5|].
    apply (spliced_handles _ _ _ _ Hsp Hsec5). }
  (* the queries of the head of the pass, on D6 *)
  assert (Hq6 : forall c, has_class c no_awake_elem = false ->
                  negb (String.eqb c hidden) = true ->
                  querySelectorAll D6 sec (cls c) = querySelectorAll D4 sec (cls c)).
  { intros c Hc Hh.
    assert (Hav : avoids_hidden (cls c) = true) by (simpl; rewrite Hh; reflexivity).
    destruct H6 as [->|(cont & a & C & _ & _ & Hsp & _)].
    - apply (querySelectorAll_mapTD gc Hgc (cls c) Hav).
    - rewrite (spliced_query D5 D6 _ sec (cls c) Hwf5 Hwf6 Hsp Hsec5
                 (pl_view_other c sec _ _ Hc)).
      apply (querySelectorAll_mapTD gc Hgc (cls c) Hav). }
  assert (HqE : forall sel, avoids_hidden sel = true ->
                  querySelectorAll E1 sec sel = querySelectorAll D6 sec sel).
  { intros sel Hav. symmetry. apply (query_sim B); assumption. }
  assert (Hchars : getCharElements E1 (Some sec) = chars).
  { simpl. rewrite (HqE sel_char eq_refl). unfold sel_char.
    rewrite (Hq6 "pageroom-char" eq_refl eq_refl). exact Hch. }
  assert (Htoggle : querySelector E1 sec (cls toggle_class)
                    = querySelector D4 sec (cls toggle_class)).
  { unfold querySelector. rewrite (HqE (cls toggle_class) eq_refl).
    rewrite (Hq6 toggle_class eq_refl eq_refl). reflexivity. }
  set (gr := fun h e => if mem h chars then remove_class hidden e else e).
  assert (Hgr : hidden_only gr) by apply hidden_only_mem_remove.
  rewrite resetChars_mapTD. fold gr.
  assert (HwfE2 : wf (mapTD gr E1)) by (apply wf_mapTD; exact HwfE).
  assert (Hin4 : forall c, In c chars -> c < B).
  { intros c Hc. rewrite <- Hch in Hc.
    destruct (query_below D4 sec sel_char c Hwf Hsec Hc) as (a & n & H & _).
    pose proof (doc_lt D4 c Hwf (in_doc_Some_handles _ _ _ H)).
    change (next D5) with (next D4) in Hn5. lia. }
  (* the placeholder goes away *)
  assert (H3 : exists X,
             doc (removePlaceholder (mapTD gr E1) sec) = map (mapT gr) X /\
             simL B (doc D5) X /\
             wf (removePlaceholder (mapTD gr E1) sec) /\
             next (removePlaceholder (mapTD gr E1) sec) = B).
  { unfold removePlaceholder, querySelector.
    rewrite (querySelectorAll_mapTD gr Hgr (cls no_awake_class) eq_refl).
    rewrite (HqE (cls no_awake_class) eq_refl).
    destruct H6 as [->|(cont & a & C & HC & Hbel & Hsp & Hdoc)].
    - unfold D5. rewrite (querySelectorAll_mapTD gc Hgc (cls no_awake_class) eq_refl).
      rewrite Hpl. simpl. exists (doc E1). split; [reflexivity|].
      split; [exact Hs|]. split; [exact HwfE2 | reflexivity].
    - rewrite (spliced_query_new D5 D6 _ sec (cls no_awake_class) Hwf5 Hwf6 Hsp Hsec5).
      2:{ unfold D5. rewrite (querySelectorAll_mapTD gc Hgc (cls no_awake_class) eq_refl).
          exact Hpl. }
      assert (Hb : below sec ((cont, elem_of C) :: a, next D5, no_awake_elem) = true).
      { unfold below. apply mem_In. exact Hbel. }
      cbn [filter]. rewrite Hb. cbn [filter]. rewrite matchesV_cls.
      unfold v_elem. cbn [snd].
      change (has_class no_awake_class no_awake_elem) with true. cbn [map hd_error].
      unfold v_handle. cbn [fst snd].
      assert (Hpin : In (next D5) (handlesF (doc D6))).
      { rewrite <- dviews_handles. destruct Hsp as (v1 & v2 & _ & ->).
        rewrite !map_app. apply in_or_app. right. left. reflexivity. }
      pose proof (doc_lt D6 _ Hwf6 Hpin) as Hplt.
      assert (HpinE : In (next D5) (handlesF (doc (mapTD gr E1)))).
      { rewrite doc_handles_mapTD. apply (sim_in_doc B D6 E1); [exact Hs | lia | exact Hpin]. }
      destruct (in_handles_find _ [] _ HpinE) as [q Hq].
      change (find (is_at (next D5)) (walkF [] (doc (mapTD gr E1))))
        with (in_doc (mapTD gr E1) (next D5)) in Hq.
      exists (pruneF (next D5) (doc E1)). split; [|split; [|split]].
      + rewrite (remove_doc _ _ _ Hq). simpl. apply pruneF_mapT.
      + assert (Hp5 : pruneF (next D5) (doc D6) = doc D5).
        { rewrite Hdoc. apply pruneF_edit.
          - intros ks. apply (pruneF_append (Node (next D5) no_awake_elem [])).
          - intros Hc. pose proof (doc_lt D5 _ Hwf5 Hc). lia. }
        rewrite <- Hp5. apply simL_pruneF; [lia | exact Hs].
      + apply wf_remove. exact HwfE2.
      + apply remove_next. }
  destruct H3 as (X & HdocE3 & HsX & HwfE3 & HnE3).
  set (E3 := removePlaceholder (mapTD gr E1) sec) in *.
  assert (Hs4 : simL B (doc D4) (doc E3)).
  { rewrite HdocE3, <- (reset_undo D4 chars sl Hwf Hvis Hsl). fold gc gr.
    apply simL_mapT; [|exact HsX]. apply gr_sim. exact Hin4. }
  exists E3.
  split; [|split; [exact Hchars|split; [exact HwfE3|split; [exact HnE3 | exact Hs4]]]].
  rewrite Htoggle. unfold ensureToggle.
  destruct (querySelector D4 sec (cls toggle_class)) as [t|] eqn:Ht; [reflexivity|].
  assert (Hn4 : next D4 <= B) by (change (next D5) with (next D4) in Hn5; lia).
  rewrite <- (querySelector_sim B D4 E3 sec (cls "panelsection--title")
                eq_refl Hwf Hn4 Hs4 Hsec).
  rewrite <- (querySelector_sim B D4 E3 sec (cls "pageroom--inroomheader")
                eq_refl Hwf Hn4 Hs4 Hsec).
  destruct (Htog eq_refl) as [->| ->]; [reflexivity|].
  destruct (querySelector D4 sec (cls "panelsection--title")); reflexivity.
Qed.

Lemma handle_of_seq n a k : handles n = seq a k -> 0 < k -> handle_of n = a.
Proof.
  destruct n as [h e ks]. destruct k; [lia|]. simpl. intros [= -> _] _. reflexivity.
Qed.

Lemma is_container_remove e : is_container (remove_class hidden e) = is_container e.
Proof.
  unfold is_container. rewrite !has_class_remove_other by discriminate. reflexivity.
Qed.

Lemma matchesV_inroom v : matchesV sel_inroom v = is_container (v_elem v).
Proof.
  unfold sel_inroom. rewrite matchesV_compound. unfold is_container. simpl.
  rewrite andb_true_r. reflexivity.
Qed.

Lemma doc_query_view D sel v :
  In v (dviews D) -> matchesV sel v = true -> In (v_handle v) (doc_querySelectorAll D sel).
Proof.
  intros Hv Hm. rewrite doc_query_views. apply in_map. apply filter_In. auto.
Qed.

(** ** Where an insertion lands *)

Lemma splice_at_forest p f new k1 k2 ns :
  Forall (fun n => forall anc, splice_at p f new k1 k2 anc [n]) ns ->
  forall anc, splice_at p f new k1 k2 anc ns.
Proof.
  induction 1 as [|k r Hk _ IHr]; intros anc Hnd a P Hf Hks Hfk; [discriminate|].
  change (handlesF (k :: r)) with (handles k ++ handlesF r) in *.
  change (walkF anc (k :: r)) with (walk anc k ++ walkF anc r) in Hf.
  rewrite find_app in Hf. cbn [map]. rewrite !views_cons.
  destruct (find (is_at p) (walk anc k)) as [q|] eqn:Ek.
  - inversion Hf; subst q.
    assert (Hr : ~ In p (handlesF r)).
    { intros Hr. eapply NoDup_app_disjoint; eauto. eapply find_walk_In; eauto. }
    rewrite (editF_absent p f r Hr).
    destruct (Hk anc) with (a := a) (P := P) as (v1 & v2 & E1 & E2 & E3); auto.
    + unfold handlesF. simpl. rewrite app_nil_r. eapply NoDup_app_l; eauto.
    + unfold walkF. simpl. rewrite app_nil_r. exact Ek.
    + cbn [map] in E2. rewrite !views_cons in E1, E2. unfold views at 1 in E1.
      unfold views at 1 in E2. simpl in E1, E2. rewrite !app_nil_r in E1, E2.
      exists v1, (v2 ++ views anc r). split; [|split; [|exact E3]].
      * rewrite E1, <- app_assoc. reflexivity.
      * rewrite E2, <- !app_assoc. reflexivity.
  - assert (Hk' : ~ In p (handles k)).
    { intros Hk'. eapply NoDup_app_disjoint; eauto. eapply find_is_at_In; eauto. }
    rewrite (edit_absent p f k Hk').
    destruct (IHr anc (NoDup_app_r _ _ Hnd) a P Hf Hks Hfk) as (v1 & v2 & E1 & E2 & E3).
    exists (viewsN anc k ++ v1), v2. split; [|split].
    + rewrite E1, <- app_assoc. reflexivity.
    + rewrite E2, <- app_assoc. reflexivity.
    + apply incl_appr. exact E3.
Qed.

Lemma splice_at_node p f new k1 k2 n : forall anc, splice_at p f new k1 k2 anc [n].
Proof.
  induction n as [h e ks IH] using node_ind. intros anc Hnd a P Hf Hks Hfk.
  unfold handlesF, walkF in Hnd, Hf.
  cbn [flat_map handles walk app find] in Hnd, Hf. rewrite !app_nil_r in *.
  unfold is_at in Hf. cbn [handle_of snd] in Hf.
  inversion Hnd as [|? ? Hh Hnd']; subst.
  cbn [map edit]. rewrite !views_cons, !viewsN_node.
  unfold views at 2 4. simpl. rewrite !app_nil_r.
  destruct (Nat.eqb h p) eqn:E.
  - inversion Hf; subst a P. apply Nat.eqb_eq in E. subst p.
    rewrite (editF_absent h f ks Hh).
    cbn [kids_of elem_of] in *.
    rewrite Hfk, Hks. exists ((anc, h, e) :: views ((h, e) :: anc) k1),
      (views ((h, e) :: anc) k2). split; [|split].
    + rewrite views_app. reflexivity.
    + rewrite views_app, views_cons. reflexivity.
    + apply incl_tl, incl_refl.
  - destruct (splice_at_forest p f new k1 k2 ks IH ((h, e) :: anc) Hnd' a P Hf Hks Hfk)
      as (v1 & v2 & E1 & E2 & E3).
    exists ((anc, h, e) :: v1), v2. split; [|split].
    + rewrite E1. reflexivity.
    + rewrite E2. reflexivity.
    + apply incl_tl. exact E3.
Qed.

Lemma edit_views_at p f new k1 k2 anc ns : splice_at p f new k1 k2 anc ns.
Proof.
  apply splice_at_forest. apply Forall_forall. intros n _.
  apply splice_at_node.
Qed.

(** The first of the views that pass a test stays the first when views
    are taken out elsewhere, and when views are put in after it. *)
Lemma hd_filter_drop {A} (q : A -> bool) (f : A -> handle) v1 vs v2 h :
  hd_error (map f (filter q (v1 ++ vs ++ v2))) = Some h ->
  ~ In h (map f vs) ->
  hd_error (map f (filter q (v1 ++ v2))) = Some h.
Proof.
  rewrite !filter_app, !map_app. intros H Hn.
  destruct (map f (filter q v1)) as [|x l]; [|exact H]. cbn [app] in *.
  destruct (filter q vs) as [|y l] eqn:E; [exact H|]. exfalso. apply Hn.
  cbn in H. injection H as <-. apply in_map.
  assert (Hy : In y (filter q vs)) by (rewrite E; left; reflexivity).
  apply filter_In in Hy. tauto.
Qed.

Lemma hd_filter_add {A} (q : A -> bool) (f : A -> handle) v1 vs v2 h :
  hd_error (map f (filter q (v1 ++ v2))) = Some h ->
  In h (map f v1) -> NoDup (map f (v1 ++ v2)) ->
  hd_error (map f (filter q (v1 ++ vs ++ v2))) = Some h.
Proof.
  rewrite !filter_app, !map_app. intros H Hin Hnd.
  destruct (map f (filter q v1)) as [|x l]; [|exact H]. cbn [app] in *.
  exfalso. apply hd_error_In in H. apply in_map_iff in H as (y & <- & Hy).
  apply filter_In in Hy as [Hy _].
  apply (NoDup_app_disjoint _ _ _ Hnd Hin). apply in_map. exact Hy.
Qed.

Lemma kids_nodup ks : NoDup (handlesF ks) -> NoDup (map handle_of ks).
Proof.
  induction ks as [|k r IH]; intros H; [constructor|].
  unfold handlesF in H. cbn [flat_map] in H. cbn [map]. constructor.
  - intros Hin. apply in_map_iff in Hin as (k' & Hk' & Hin).
    apply (NoDup_app_disjoint _ _ (handle_of k) H); [apply handles_self|].
    apply in_flat_map. exists k'. split; [exact Hin|]. rewrite <- Hk'.
    apply handles_self.
  - apply IH. exact (NoDup_app_r _ _ H).
Qed.

(** The children up to the one that follows [h] include [h]. *)
Lemma next_after_split h r : forall k1 k2,
  next_after h (k1 ++ k2) = Some r ->
  option_map handle_of (hd_error k2) = Some r ->
  NoDup (map handle_of (k1 ++ k2)) ->
  In h (map handle_of k1).
Proof.
  induction k1 as [|k k1 IH]; intros k2 H Hhd Hnd.
  - exfalso. cbn [app] in *. destruct k2 as [|k k2]; [discriminate|].
    cbn in Hhd. injection Hhd as Hk. cbn [map] in Hnd.
    inversion Hnd as [|? ? Hn _]; subst. apply Hn. cbn [next_after] in H.
    destruct (Nat.eqb (handle_of k) h).
    + destruct k2 as [|k' k2]; [discriminate|]. cbn in H. injection H as H.
      left. exact H.
    + apply (next_after_In h k2 _ H).
  - cbn [app next_after map] in *. destruct (Nat.eqb (handle_of k) h) eqn:E.
    + left. apply Nat.eqb_eq. exact E.
    + right. inversion Hnd; subst. apply (IH k2 H Hhd). assumption.
Qed.

Lemma root_view c k ks : In k ks -> In (handle_of k) (map v_handle (views c ks)).
Proof.
  intros Hk. rewrite views_handles. apply in_flat_map. exists k.
  split; [exact Hk | apply handles_self].
Qed.

(** The sleepers section goes in after the container: an element that a
    document query found first, the container or one before it, is
    still found first. *)
Lemma insert_keeps_first D6 nx sec s D7 sel :
  wf D6 -> In sec (handlesF (doc D6)) -> next D6 <= nx ->
  insertSleepersSection (with_next D6 nx) sec s = Some D7 ->
  doc_querySelector D6 sel = Some sec ->
  doc_querySelector D7 sel = Some sec.
Proof.
  intros Hwf Hsec Hnx H Hq.
  unfold insertSleepersSection in H.
  change (nextSibling (with_next D6 nx) sec) with (nextSibling D6 sec) in H.
  change (parentElement (with_next D6 nx) sec) with (parentElement D6 sec) in H.
  destruct (in_handles_find sec [] (doc D6) Hsec) as [[a0 n0] H0].
  change (find (is_at sec) (walkF [] (doc D6))) with (in_doc D6 sec) in H0.
  pose proof (parentElement_in_doc _ _ _ _ H0) as Hp.
  destruct a0 as [|[par e] a]; simpl in Hp; rewrite Hp in H;
    [destruct (nextSibling D6 sec); discriminate|].
  destruct (in_doc_parent D6 sec _ a n0 Hwf H0) as (Pn & HP & HPe & Hkid).
  simpl in HP. injection HPe as _ ->.
  assert (Hn0 : handle_of n0 = sec).
  { apply find_some in H0 as [_ E]. apply Nat.eqb_eq in E. exact E. }
  assert (Hkids : In sec (map handle_of (kids_of Pn))).
  { apply in_map_iff. exists n0. auto. }
  assert (Hndk : NoDup (map handle_of (kids_of Pn))).
  { apply kids_nodup.
    destruct (walkF_ctx_nodup (doc D6) a Pn (wf_doc_NoDup D6 Hwf))
      as [Hnd _].
    { apply find_some in HP as [HP _]. exact HP. }
    apply NoDup_app_r in Hnd. destruct Pn as [hp ep kp]. cbn [handles kids_of] in *.
    inversion Hnd. assumption. }
  assert (Hnext : nextSibling D6 sec = next_after sec (kids_of Pn)).
  { unfold nextSibling. rewrite Hp, (in_doc_locate D6 par _ HP). reflexivity. }
  assert (Hwf' : wf (with_next D6 nx)) by (apply wf_with_next; [exact Hwf | lia]).
  assert (Hgo : forall f k1 k2,
            doc D7 = map (edit par f) (doc D6) ->
            kids_of Pn = k1 ++ k2 -> f (kids_of Pn) = k1 ++ s :: k2 ->
            In sec (map handle_of k1) ->
            doc_querySelector D7 sel = Some sec).
  { intros f k1 k2 Hd Hks Hfk Hk1.
    destruct (edit_views_at par f s k1 k2 [] (doc D6) (wf_doc_NoDup D6 Hwf)
                a Pn HP Hks Hfk) as (v1 & v2 & E1 & E2 & E3).
    unfold doc_querySelector in *. rewrite doc_query_views in *.
    unfold dviews in *. rewrite Hd, E2. rewrite E1 in Hq.
    apply hd_filter_add; [exact Hq| |].
    - apply in_map_iff in Hk1 as (k & Hk & Hin).
      pose proof (root_view ((par, elem_of Pn) :: a) k k1 Hin) as Hv.
      rewrite Hk in Hv. apply in_map_iff in Hv as (v & Hv1 & Hv2).
      apply in_map_iff. exists v. split; [exact Hv1 | apply E3, Hv2].
    - rewrite <- E1, views_handles. apply (wf_doc_NoDup D6 Hwf). }
  destruct (nextSibling D6 sec) as [r|] eqn:Hr.
  - destruct (insertBefore_views _ _ _ _ _ a Pn Hwf' H HP) as [_ Hd].
    pose proof (next_after_In sec _ r (eq_sym Hnext)) as Hrin.
    destruct (insert_before_in_split r s _ Hrin) as (k1 & k2 & Hk & Hf & Hhd & _).
    apply (Hgo (insert_before_in r s) k1 k2 Hd Hk Hf).
    apply (next_after_split sec r k1 k2); [rewrite <- Hk; auto | exact Hhd|].
    rewrite <- Hk. exact Hndk.
  - injection H as <-.
    destruct (appendChild_views _ par s a Pn Hwf' HP) as [_ Hd].
    apply (Hgo (fun ks => ks ++ [s]) (kids_of Pn) [] Hd).
    + rewrite app_nil_r. reflexivity.
    + reflexivity.
    + exact Hkids.
Qed.

(** What the query by id of the head of a pass finds in a sleepers
    section: the section itself. *)
Lemma section_queries P D6 sec sl c :
  wf D6 -> In sec (handlesF (doc D6)) ->
  doc_querySelectorAll D6 sel_sleepers = [] ->
  (forall s, In s sl -> In s (querySelectorAll D6 sec sel_char)) ->
  let s := fst (createSleepersSection P D6 sl) in
  map v_handle (filter (matchesV sel_sleepers) (viewsN c s)) = [next D6].
Proof.
  intros Hwf Hsec Hnos Hsl s.
  destruct (section_rest P D6 sl c) as (rest & Hv & Hrest). fold s in Hv.
  rewrite Hv. rewrite Forall_forall in Hrest.
  assert (Hor : forall v, In v rest ->
            In (v_elem v) (cloned_elems D6 sl) ->
            exists s0 a n v0, In s0 sl /\ in_doc D6 s0 = Some (a, n) /\
              In sec (map fst a) /\ In v0 (dviews D6) /\
              In (v_handle v0) (handles n) /\
              v_elem v = remove_class hidden (v_elem v0)).
  { intros v _ Hc.
    assert (Hsl' : forall x, In x sl -> In x (handlesF (doc D6))).
    { intros x Hx. destruct (query_below D6 sec sel_char x Hwf Hsec (Hsl x Hx))
        as (a & n & H & _). exact (in_doc_Some_handles _ _ _ H). }
    destruct (cloned_elem_origin D6 sl (v_elem v) Hsl' Hc)
      as (s0 & a & n & v0 & Hs0 & Hin & Hv0 & Hh & He).
    destruct (query_below D6 sec sel_char s0 Hwf Hsec (Hsl s0 Hs0))
      as (a' & n' & Hin' & Hbel & _).
    rewrite Hin in Hin'. injection Hin' as <- <-.
    exists s0, a, n, v0. auto 10. }
  cbn [filter]. rewrite matchesV_sleepers. unfold v_elem at 1. cbn [snd].
  change (String.eqb sleepers_id
            (eid (new_elem "div" sleepers_id ["msf-sleepers-section"] "")))
    with true. cbv iota. cbn [map]. f_equal.
  replace (filter (matchesV sel_sleepers) rest) with (@nil view); [reflexivity|].
  symmetry. apply filter_none. intros v Hin. rewrite matchesV_sleepers.
  destruct (Hrest v Hin) as [[Hp _]|Hc].
  - rewrite Hp. reflexivity.
  - destruct (Hor v Hin Hc) as (s0 & a & n & v0 & Hs0 & Hd & Hbel & Hv0 & Hh & ->).
    change (eid (remove_class hidden (v_elem v0))) with (eid (v_elem v0)).
    destruct (String.eqb sleepers_id (eid (v_elem v0))) eqn:E; [|reflexivity].
    exfalso.
    assert (Hq : In (v_handle v0) (doc_querySelectorAll D6 sel_sleepers)).
    { apply doc_query_view; [exact Hv0 | rewrite matchesV_sleepers; exact E]. }
    rewrite Hnos in Hq. exact Hq.
Qed.

Lemma filterExitChars_next P D sl : next (filterExitChars P D sl) = next D.
Proof.
  destruct (filterExitChars_mapTD P D sl) as (g & _ & ->). reflexivity.
Qed.

Lemma wf_filterExitChars P D sl : wf D -> wf (filterExitChars P D sl).
Proof.
  intros H. destruct (filterExitChars_mapTD P D sl) as (g & _ & ->).
  apply wf_mapTD. exact H.
Qed.

Lemma pl_view_doc sel c h :
  matchesV sel (c, h, no_awake_elem) = false ->
  filter (matchesV sel) [(c, h, no_awake_elem)] = [].
Proof. intros H. simpl. rewrite H. reflexivity. Qed.

(** The second pass finds the same container and the same characters,
    and prepares a store that is similar to the prepared store of the
    first pass. *)
Lemma rerun P D4 sec chars D' :
  ready D4 sec chars ->
  finish P D4 sec chars = Returned D' ->
  wf D' /\ at_most_one D' sec /\
  exists hd E4,
    findInRoomSection D' = Some (hd, sec) /\
    getCharElements (removeSleepersSection D') (Some sec) = chars /\
    prepared P D' sec = Some E4 /\
    wf E4 /\ next D4 <= next E4 /\ simL (next D4) (doc D4) (doc E4).
Proof.
  intros Hready. pose proof Hready as Hready0.
  destruct Hready as (Hwf & Hsec & Hinroom & Hnos & Hch & Hpl & Htl & Htog & Hvis).
  unfold finish. destruct (splitEnabled P) eqn:Hsp; simpl.
  2:{ intros [= <-].
      assert (HwfD' : wf (unhideExitChars D4)).
      { rewrite unhideExitChars_mapTD. apply wf_mapTD. exact Hwf. }
      assert (Hn : next (unhideExitChars D4) = next D4).
      { rewrite unhideExitChars_mapTD. reflexivity. }
      assert (Hs : simL (next D4) (doc D4) (doc (unhideExitChars D4))).
      { rewrite (unhideExitChars_doc D4 Hwf). apply simL_exitN. }
      split; [exact HwfD'|].
      split.
      { unfold at_most_one.
        rewrite <- (doc_query_sim (next D4) D4 _ sel_sleepers eq_refl Hwf (le_n _) Hs).
        rewrite <- (query_sim (next D4) D4 _ sec (cls toggle_class) eq_refl
                      Hwf (le_n _) Hs Hsec).
        rewrite <- (query_sim (next D4) D4 _ sec (cls no_awake_class) eq_refl
                      Hwf (le_n _) Hs Hsec).
        rewrite Hnos, Hpl. simpl. repeat split; [lia | exact Htl | lia]. }
      assert (H1 : doc_querySelector (unhideExitChars D4) sel_inroom = Some sec).
      { unfold doc_querySelector.
        rewrite <- (doc_query_sim (next D4) D4 _ sel_inroom eq_refl Hwf (le_n _) Hs).
        exact Hinroom. }
      assert (H2 : removeSleepersSection (unhideExitChars D4) = unhideExitChars D4).
      { unfold removeSleepersSection, getElementById, doc_querySelector.
        change [[[SId sleepers_id]]] with sel_sleepers.
        rewrite <- (doc_query_sim (next D4) D4 _ sel_sleepers eq_refl Hwf (le_n _) Hs).
        rewrite Hnos. reflexivity. }
      destruct (rerun_from P D4 sec chars [] (mapTD (fun h e => e) D4)
                  (unhideExitChars D4) Hready0 (fun s (H : In s []) => match H with end)
                  (wf_mapTD _ D4 Hwf) (or_introl eq_refl) HwfD')
        as (E4 & HE4 & Hc & HwfE & HnE & HsE).
      { rewrite Hn. simpl. lia. }
      { rewrite Hn. simpl. rewrite (map_ext _ _ mapT_id), map_id. exact Hs. }
      exists (querySelector (unhideExitChars D4) sec sel_h3), E4.
      split; [unfold findInRoomSection; rewrite H1; reflexivity|].
      rewrite H2. split; [exact Hc|]. unfold prepared. rewrite H2.
      simpl in Hc. change (getCharElements (unhideExitChars D4) (Some sec))
        with (querySelectorAll (unhideExitChars D4) sec sel_char). rewrite Hc.
      split; [exact HE4|]. split; [exact HwfE|]. rewrite HnE, Hn in *.
      split; [lia | exact HsE]. }
  rewrite categorize_spec.
  set (sl := filter (isSleeperChar D4) chars).
  set (aw := filter (fun el => negb (isSleeperChar D4 el)) chars).
  set (gc := fun h e => if mem h sl then add_class hidden e else e).
  assert (Hgc : hidden_only gc) by apply hidden_only_mem_add.
  assert (Hslch : forall s, In s sl -> In s chars).
  { intros s Hs. apply filter_In in Hs. tauto. }
  set (D5 := mapTD gc D4).
  assert (Hwf5 : wf D5) by (apply wf_mapTD; exact Hwf).
  assert (Hsec5 : In sec (handlesF (doc D5))).
  { unfold D5. rewrite doc_handles_mapTD. exact Hsec. }
  assert (Hch5 : querySelectorAll D5 sec sel_char = chars).
  { unfold D5. rewrite (querySelectorAll_mapTD gc Hgc sel_char eq_refl). exact Hch. }
  destruct (placeholder_step D5 sec chars aw Hwf5 Hsec5
              ltac:(intros c Hc; rewrite Hch5; exact Hc)) as [Hwf6 Hc6].
  cbv zeta in Hwf6, Hc6.
  set (D6 := addNoAwakePlaceholder D5 chars aw) in *.
  assert (H6 : D6 = D5 \/
   exists cont a C,
     in_doc D5 cont = Some (a, C) /\ In sec (cont :: map fst a) /\
     spliced D5 D6 [((cont, elem_of C) :: a, next D5, no_awake_elem)] /\
     doc D6 = map (edit cont (fun ks => ks ++ [Node (next D5) no_awake_elem []]))
                  (doc D5)).
  { destruct aw; [|left; exact Hc6].
    destruct (hd_error chars); [|left; exact Hc6].
    destruct (parentElement D5 h); [|left; exact Hc6].
    destruct Hc6 as (a & C & H1 & H2 & _ & H3 & H4 & _).
    right. exists h0, a, C. auto. }
  assert (Hsec6 : In sec (handlesF (doc D6))).
  { destruct H6 as [->|(cont & a & C & _ & _ & Hsp6 & _)]; [exact Hsec5|].
    apply (spliced_handles _ _ _ _ Hsp6 Hsec5). }
  assert (Hdq6 : forall sel, avoids_hidden sel = true ->
             (forall c h, matchesV sel (c, h, no_awake_elem) = false) ->
             doc_querySelectorAll D6 sel = doc_querySelectorAll D4 sel).
  { intros sel Hav Hno. destruct H6 as [->|(cont & a & C & _ & _ & Hsp6 & _)].
    - apply (doc_querySelectorAll_mapTD gc Hgc sel Hav).
    - rewrite (spliced_doc_query D5 D6 _ sel Hsp6 (pl_view_doc sel _ _ (Hno _ _))).
      apply (doc_querySelectorAll_mapTD gc Hgc sel Hav). }
  assert (Hinroom6 : doc_querySelector D6 sel_inroom = Some sec).
  { unfold doc_querySelector.
    rewrite (Hdq6 sel_inroom eq_refl); [exact Hinroom | reflexivity]. }
  assert (Hnos6 : doc_querySelectorAll D6 sel_sleepers = []).
  { rewrite (Hdq6 sel_sleepers eq_refl); [exact Hnos | reflexivity]. }
  assert (Hch6 : querySelectorAll D6 sec sel_char = chars).
  { destruct H6 as [->|(cont & a & C & _ & _ & Hsp6 & _)]; [exact Hch5|].
    rewrite (spliced_query D5 D6 _ sec sel_char Hwf5 Hwf6 Hsp6 Hsec5
               (pl_view_other "pageroom-char" sec _ _ eq_refl)).
    exact Hch5. }
  pose proof (createSleepersSection_numbers P D6 sl) as Hnum. cbv zeta in Hnum.
  pose proof (fun c => section_queries P D6 sec sl c Hwf6 Hsec6 Hnos6
               ltac:(intros s Hs; rewrite Hch6; apply Hslch, Hs)) as HSq.
  cbv zeta in HSq.
  destruct (createSleepersSection P D6 sl) as [s nx]. simpl in Hnum, HSq.
  destruct Hnum as [Hnum1 Hnum2].
  destruct (insertSleepersSection (with_next D6 nx) sec s) as [D7|] eqn:H7;
    [|discriminate].
  intros [= <-].
  destruct (insert_step D6 nx sec s D7 Hwf6 Hsec6 Hnum1 Hnum2 H7)
    as (Hwf7 & Hn7 & par & a & Pn & f & Hpar & HPn & Hsp7 & Hdoc7 & Hf).
  set (D' := filterExitChars P D7 sl).
  assert (HwfD' : wf D') by (apply wf_filterExitChars; exact Hwf7).
  assert (HnD' : next D' = nx).
  { unfold D'. rewrite filterExitChars_next. exact Hn7. }
  assert (Hs7 : simL nx (doc D7) (doc D')).
  { unfold D'. rewrite (filterExitChars_doc P D7 sl Hwf7). apply simL_exitN. }
  assert (Hle7 : next D7 <= nx) by lia.
  split; [exact HwfD'|].
  assert (Hsh : handle_of s = next D6).
  { apply (handle_of_seq s _ _ Hnum1). lia. }
  assert (H2 : doc_querySelectorAll D' sel_sleepers = [next D6]).
  { rewrite <- (doc_query_sim nx D7 D' sel_sleepers eq_refl Hwf7 Hle7 Hs7).
    rewrite (spliced_doc_query_new D6 D7 _ sel_sleepers Hsp7 Hnos6).
    exact (HSq _). }
  assert (Hout : filter (below sec) (viewsN ((par, elem_of Pn) :: a) s) = []).
  { apply below_outside.
    - destruct (in_handles_find sec [] (doc D6) Hsec6) as [[a0 n0] H0].
      change (find (is_at sec) (walkF [] (doc D6))) with (in_doc D6 sec) in H0.
      pose proof (parentElement_in_doc _ _ _ _ H0) as Hp0. rewrite Hpar in Hp0.
      destruct a0 as [|c0 a0]; simpl in Hp0; [discriminate|]. injection Hp0 as Hp0.
      destruct (in_doc_parent D6 sec c0 a0 n0 Hwf6 H0) as (P0 & HP0 & -> & _).
      simpl in Hp0, HP0. rewrite <- Hp0, HPn in HP0. injection HP0 as <- <-.
      destruct (in_doc_acyclic D6 sec _ n0 Hwf6 H0) as [Hac _].
      simpl in Hac. rewrite <- Hp0 in Hac. exact Hac.
    - rewrite Hnum1. intros Hc. apply seq_bounds in Hc.
      pose proof (doc_lt D6 sec Hwf6 Hsec6). lia. }
  assert (Hsec7 : In sec (handlesF (doc D7))).
  { apply (spliced_handles _ _ _ _ Hsp7 Hsec6). }
  assert (Hq7 : forall sel, avoids_hidden sel = true ->
            querySelectorAll D' sec sel = querySelectorAll D6 sec sel).
  { intros sel Hav.
    rewrite <- (query_sim nx D7 D' sec sel Hav Hwf7 Hle7 Hs7 Hsec7).
    apply (spliced_query D6 D7 _ sec sel Hwf6 Hwf7 Hsp7 Hsec6).
    rewrite Hout. reflexivity. }
  split.
  { unfold at_most_one. rewrite H2, !Hq7 by reflexivity.
    split; [simpl; lia|].
    destruct H6 as [E6|(cont & a0 & C & _ & _ & Hsp6 & _)].
    - rewrite E6. unfold D5.
      rewrite !(querySelectorAll_mapTD gc Hgc) by reflexivity.
      rewrite Hpl. split; [exact Htl | simpl; lia].
    - split.
      + rewrite (spliced_query D5 D6 _ sec (cls toggle_class) Hwf5 Hwf6 Hsp6 Hsec5
                   (pl_view_other toggle_class sec _ _ eq_refl)).
        unfold D5. rewrite (querySelectorAll_mapTD gc Hgc) by reflexivity. exact Htl.
      + rewrite (spliced_query_new D5 D6 _ sec (cls no_awake_class)
                   Hwf5 Hwf6 Hsp6 Hsec5).
        * cbn [filter]. destruct (below sec _); cbn [filter];
            [destruct (matchesV _ _)|]; simpl; lia.
        * unfold D5. rewrite (querySelectorAll_mapTD gc Hgc) by reflexivity.
          exact Hpl. }
  assert (H1 : doc_querySelector D' sel_inroom = Some sec).
  { unfold doc_querySelector.
    rewrite <- (doc_query_sim nx D7 D' sel_inroom eq_refl Hwf7 Hle7 Hs7).
    apply (insert_keeps_first D6 nx sec s D7 sel_inroom Hwf6 Hsec6); [lia | exact H7|].
    exact Hinroom6. }
  assert (HSin7 : In (next D6) (handlesF (doc D7))).
  { rewrite <- dviews_handles. destruct Hsp7 as (v1 & v2 & _ & ->).
    rewrite !map_app, viewsN_handles. apply in_or_app. right. apply in_or_app.
    left. rewrite <- Hsh. apply handles_self. }
  assert (HSinD' : In (next D6) (handlesF (doc D'))).
  { apply (sim_in_doc nx D7 D'); [exact Hs7 | lia | exact HSin7]. }
  destruct (in_handles_find _ [] _ HSinD') as [q Hq].
  change (find (is_at (next D6)) (walkF [] (doc D'))) with (in_doc D' (next D6)) in Hq.
  assert (HE1 : removeSleepersSection D' = remove D' (next D6)).
  { unfold removeSleepersSection, getElementById, doc_querySelector.
    change [[[SId sleepers_id]]] with sel_sleepers. rewrite H2. reflexivity. }
  set (E1 := remove D' (next D6)) in *.
  assert (HwfE1 : wf E1) by (apply wf_remove; exact HwfD').
  assert (HnE1 : next E1 = nx) by (unfold E1; rewrite remove_next; exact HnD').
  assert (Hp7 : pruneF (next D6) (doc D7) = doc D6).
  { rewrite Hdoc7. apply pruneF_edit.
    - intros ks. rewrite <- Hsh.
      destruct Hf as [(r & _ & ->)|[_ ->]];
        [apply pruneF_insert_before_in | apply pruneF_append].
    - intros Hc. pose proof (doc_lt D6 _ Hwf6 Hc). lia. }
  assert (HsE1 : simL (next E1) (doc D6) (doc E1)).
  { rewrite HnE1. unfold E1. rewrite (remove_doc _ _ _ Hq), <- Hp7.
    apply simL_pruneF; [lia | exact Hs7]. }
  destruct (rerun_from P D4 sec chars sl D6 E1 Hready0 Hslch Hwf6 H6 HwfE1
              ltac:(rewrite HnE1; lia) HsE1)
    as (E4 & HE4 & Hc & HwfE & HnE & HsE).
  assert (Hn46 : next D4 <= next D6).
  { destruct H6 as [->|(cont & a0 & C & _ & _ & Hsp6 & _)]; [simpl; lia|].
    assert (In (next D5) (handlesF (doc D6))).
    { rewrite <- dviews_handles. destruct Hsp6 as (v1 & v2 & _ & ->).
      rewrite !map_app. apply in_or_app. right. left. reflexivity. }
    pose proof (doc_lt D6 _ Hwf6 H). change (next D5) with (next D4) in H0. lia. }
  exists (querySelector D' sec sel_h3), E4.
  split; [unfold findInRoomSection; rewrite H1; reflexivity|].
  rewrite HE1. split; [exact Hc|]. unfold prepared. rewrite HE1.
  simpl in Hc. change (getCharElements E1 (Some sec))
    with (querySelectorAll E1 sec sel_char). rewrite Hc.
  split; [exact HE4|]. split; [exact HwfE|]. rewrite HnE, HnE1 in *.
  split; [lia|]. apply (simL_weaken _ nx); [lia | exact HsE].
Qed.

Lemma ready_sim D4 E4 sec chars :
  ready D4 sec chars -> wf E4 ->
  simL (next D4) (doc D4) (doc E4) ->
  (forall c, In c chars -> is_hidden E4 c = false) ->
  ready E4 sec chars.
Proof.
  intros (Hwf & Hsec & Hin & Hno & Hch & Hpl & Htl & Htog & _) HwfE Hs Hvis.
  assert (Hd : forall sel, avoids_hidden sel = true ->
             doc_querySelectorAll E4 sel = doc_querySelectorAll D4 sel).
  { intros sel Hav. symmetry. apply (doc_query_sim (next D4)); auto. }
  assert (Hq : forall sel, avoids_hidden sel = true ->
             querySelectorAll E4 sec sel = querySelectorAll D4 sec sel).
  { intros sel Hav. symmetry. apply (query_sim (next D4)); auto. }
  split; [exact HwfE|]. split.
  { apply (sim_in_doc (next D4) D4 E4); [exact Hs | apply doc_lt; assumption | exact Hsec]. }
  unfold doc_querySelector. rewrite !Hd by reflexivity.
  unfold querySelector. rewrite !Hq by reflexivity.
  repeat (split; [assumption|]). exact Hvis.
Qed.

(** From a prepared store on, a second pass shows what the first has
    shown, and neither leaves a duplicate. *)
Lemma finish_twice P D4 sec chars D' :
  ready D4 sec chars ->
  finish P D4 sec chars = Returned D' ->
  wf D' /\ at_most_one D' sec /\
  exists D'', applyFilter P D' = Returned D'' /\ page D'' = page D' /\
              at_most_one D'' sec.
Proof.
  intros Hready Hfin.
  destruct (rerun P D4 sec chars D' Hready Hfin)
    as (HwfD' & Hamo & hd & E4 & Hfind & Hchars & Hprep & HwfE & Hnx & Hs).
  split; [exact HwfD'|]. split; [exact Hamo|].
  rewrite (applyFilter_finish P D' hd sec Hfind). cbv zeta.
  rewrite Hprep, Hchars.
  pose proof Hready as (Hwf & Hsec & _ & _ & Hch & _).
  destruct (finish_sim P D4 E4 sec chars D' Hwf HwfE Hnx Hs Hsec Hch Hfin)
    as (D'' & Hfin' & Hpage).
  exists D''. split; [exact Hfin'|]. split; [exact Hpage|].
  assert (HreadyE : ready E4 sec chars).
  { apply (ready_sim D4 E4 sec chars Hready HwfE Hs). intros c Hc.
    apply (prepared_chars_visible P D' sec E4 c HwfD' Hprep). rewrite Hchars.
    exact Hc. }
  destruct (rerun P E4 sec chars D'' HreadyE Hfin') as (_ & H & _). exact H.
Qed.

(** ** From a tidy page to a prepared store *)

Lemma remove_spliced D x a m :
  wf D -> in_doc D x = Some (a, m) -> spliced (remove D x) D (viewsN a m).
Proof.
  intros Hwf H. destruct (remove_views D x a m Hwf H) as [(v1 & v2 & H1 & H2) _].
  exists v1, v2. auto.
Qed.

(** The views of a subtree: its root, and views below the root. *)
Lemma subtree_below x a m v :
  handle_of m = x -> In v (viewsN a m) -> v_handle v = x \/ below x v = true.
Proof.
  destruct m as [h e ks]. cbn [handle_of]. intros -> Hv. rewrite viewsN_node in Hv.
  destruct Hv as [<-|Hv]; [left; reflexivity | right].
  rewrite <- (below_insideF x ((x, e) :: a) ks) in Hv by (left; reflexivity).
  apply filter_In in Hv. tauto.
Qed.

Lemma spliced_sub D D' vs v : spliced D D' vs -> In v vs -> In v (dviews D').
Proof.
  intros (v1 & v2 & _ & ->) Hv. apply in_or_app. right. apply in_or_app. left.
  exact Hv.
Qed.

Lemma spliced_doc_parts D D' vs sel :
  spliced D D' vs ->
  exists A C,
    doc_querySelectorAll D' sel
    = A ++ map v_handle (filter (matchesV sel) vs) ++ C /\
    doc_querySelectorAll D sel = A ++ C.
Proof.
  intros (v1 & v2 & H1 & H2). rewrite !doc_query_views, H1, H2.
  exists (map v_handle (filter (matchesV sel) v1)),
         (map v_handle (filter (matchesV sel) v2)).
  rewrite !filter_app, !map_app. auto.
Qed.

Lemma spliced_parts D D' vs s sel :
  wf D -> wf D' -> spliced D D' vs -> In s (handlesF (doc D)) ->
  exists A C,
    querySelectorAll D' s sel
    = A ++ map v_handle (filter (matchesV sel) (filter (below s) vs)) ++ C /\
    querySelectorAll D s sel = A ++ C.
Proof.
  intros Hwf Hwf' Hsp Hs. destruct (in_handles_find s [] (doc D) Hs) as [[a n] H].
  destruct (spliced_in_doc D D' vs s a n Hwf' Hsp H) as (n' & H' & _).
  rewrite (scoped_query_views D s a n sel Hwf H),
          (scoped_query_views D' s a n' sel Hwf' H').
  destruct Hsp as (v1 & v2 & H1 & H2). rewrite H1, H2.
  exists (map v_handle (filter (matchesV sel) (filter (below s) v1))),
         (map v_handle (filter (matchesV sel) (filter (below s) v2))).
  rewrite !filter_app, !map_app. auto.
Qed.

Lemma singleton_parts {A} (x : A) l1 l2 l3 :
  l1 ++ l2 ++ l3 = [x] -> ~ In x l2 -> l1 ++ l3 = [x].
Proof.
  intros H Hn. destruct l2 as [|y l2]; [exact H|]. exfalso. apply Hn.
  assert (Hy : In y [x]) by (rewrite <- H; apply in_or_app; right; left; reflexivity).
  destruct Hy as [->|[]]. left. reflexivity.
Qed.

Lemma short_parts {A} (l1 l2 l3 : list A) :
  List.length (l1 ++ l2 ++ l3) <= 1 -> l2 <> [] -> l1 ++ l3 = [].
Proof.
  intros H Hn. rewrite !length_app in H. destruct l2 as [|y l2]; [congruence|].
  simpl in H. destruct l1, l3; simpl in *; try lia. reflexivity.
Qed.

Lemma parts_length {A} (l1 l2 l3 : list A) n :
  List.length (l1 ++ l2 ++ l3) <= n -> List.length (l1 ++ l3) <= n.
Proof. rewrite !length_app. lia. Qed.

Lemma parts_In {A} (l1 l2 l3 : list A) x : In x (l1 ++ l3) -> In x (l1 ++ l2 ++ l3).
Proof. rewrite !in_app_iff. tauto. Qed.

Lemma view_ancestors D v :
  wf D -> In v (dviews D) -> ancestors D (v_handle v) = map fst (v_ctx v).
Proof.
  intros Hwf Hv. destruct (view_in_doc D v Hwf Hv) as (n & H & _).
  exact (ancestors_in_doc D _ _ n H).
Qed.

Lemma scoped_view_In D s sel v :
  wf D -> In s (handlesF (doc D)) -> In v (dviews D) -> below s v = true ->
  matchesV sel v = true -> In (v_handle v) (querySelectorAll D s sel).
Proof.
  intros Hwf Hs Hv Hb Hm. destruct (in_handles_find s [] (doc D) Hs) as [[a n] H].
  rewrite (scoped_query_views D s a n sel Hwf H). apply in_map.
  apply filter_In. split; [|exact Hm]. apply filter_In. auto.
Qed.

Lemma in_doc_handle D h a n : in_doc D h = Some (a, n) -> handle_of n = h.
Proof.
  intros H. apply find_some in H as [_ H]. apply Nat.eqb_eq in H. exact H.
Qed.

(** Without its sleepers section a tidy page is neat. *)
Lemma tidy_neat D sec : wf D -> tidy D sec -> neat (removeSleepersSection D) sec.
Proof.
  intros Hwf (Hin & Hsl & Hnot & Hpl & Htg & He).
  assert (Hsec : In sec (handlesF (doc D))).
  { apply in_doc_handles.
    apply (doc_query_in_doc D sel_inroom sec Hwf). rewrite Hin. left. reflexivity. }
  assert (HeD : forall v p,
     In v (dviews D) -> below sec v = true ->
     has_class "pageroom-char" (v_elem v) || has_class toggle_class (v_elem v) = true ->
     In p (querySelectorAll D sec (cls no_awake_class)) ->
     v_handle v <> p /\ below p v = false).
  { intros v p Hv Hb Hc Hp.
    assert (Hx : In (v_handle v) (querySelectorAll D sec sel_char ++
                                  querySelectorAll D sec (cls toggle_class))).
    { apply in_or_app. apply orb_true_iff in Hc as [Hc|Hc]; [left | right];
        apply scoped_view_In; auto; unfold sel_char; rewrite matchesV_cls; exact Hc. }
    pose proof (He p _ Hp Hx) as Hn. rewrite (view_ancestors D v Hwf Hv) in Hn.
    split.
    - intros E. apply Hn. left. exact E.
    - unfold below. destruct (mem p (map fst (v_ctx v))) eqn:E; [|reflexivity].
      exfalso. apply Hn. right. apply mem_In. exact E. }
  pose proof (removeSleepersSection_none D Hwf Hsl) as Hnone.
  unfold removeSleepersSection, getElementById, doc_querySelector in *.
  change [[[SId sleepers_id]]] with sel_sleepers in *.
  destruct (doc_querySelectorAll D sel_sleepers) as [|x l] eqn:Hq.
  { simpl. repeat (split; [assumption|]). exact HeD. }
  simpl in Hnone |- *.
  assert (Hxq : In x (doc_querySelectorAll D sel_sleepers)) by (rewrite Hq; left; reflexivity).
  destruct (in_doc D x) as [[a m]|] eqn:Hx;
    [|exfalso; exact (proj1 (doc_query_in_doc D sel_sleepers x Hwf Hxq) Hx)].
  pose proof (remove_spliced D x a m Hwf Hx) as Hsp.
  pose proof (wf_remove D x Hwf) as Hwf1.
  pose proof (in_doc_handle D x a m Hx) as Hm.
  assert (Hsecm : ~ In sec (map v_handle (viewsN a m))).
  { intros Hc. apply in_map_iff in Hc as (v & Hv1 & Hv2).
    pose proof (spliced_sub _ _ _ v Hsp Hv2) as HvD.
    pose proof (view_ancestors D v Hwf HvD) as Ha. rewrite Hv1 in Ha.
    apply (Hnot x); [left; reflexivity|].
    destruct (subtree_below x a m v Hm Hv2) as [E|E].
    - left. congruence.
    - right. rewrite Ha. apply mem_In. exact E. }
  assert (Hsec1 : In sec (handlesF (doc (remove D x)))).
  { destruct (spliced_handles_inv _ _ _ sec Hsp Hsec) as [H|H]; [exact H | tauto]. }
  split; [exact Hwf1|]. split; [exact Hsec1|]. split.
  { destruct (spliced_doc_parts _ _ _ sel_inroom Hsp) as (A & C & H1 & ->).
    rewrite Hin in H1. symmetry in H1. apply (singleton_parts sec _ _ _ H1).
    intros Hc. apply Hsecm. apply in_map_iff in Hc as (v & Hv1 & Hv2).
    apply in_map_iff. exists v. split; [exact Hv1|]. apply filter_In in Hv2. tauto. }
  split; [exact Hnone|].
  destruct (spliced_parts _ _ _ sec (cls no_awake_class) Hwf1 Hwf Hsp Hsec1)
    as (A & C & H1 & H2).
  destruct (spliced_parts _ _ _ sec (cls toggle_class) Hwf1 Hwf Hsp Hsec1)
    as (A' & C' & H1' & H2').
  split; [rewrite H2; rewrite H1 in Hpl; exact (parts_length _ _ _ _ Hpl)|].
  split; [rewrite H2'; rewrite H1' in Htg; exact (parts_length _ _ _ _ Htg)|].
  intros v p Hv Hb Hc Hp. apply HeD; try assumption.
  - apply (spliced_view _ _ _ v Hsp Hv).
  - rewrite H1. rewrite H2 in Hp. apply parts_In. exact Hp.
Qed.

Lemma below_mapV g s v : below s (mapV g v) = below s v.
Proof.
  unfold below, mapV, v_ctx, mapC. simpl. rewrite map_map. reflexivity.
Qed.

Lemma hidden_only_class g c h e :
  hidden_only g -> c <> hidden -> has_class c (g h e) = has_class c e.
Proof.
  intros Hg Hc. destruct (Hg h e) as (_ & _ & _ & _ & H). symmetry. apply H, Hc.
Qed.

Lemma neat_mapTD g D sec : hidden_only g -> neat D sec -> neat (mapTD g D) sec.
Proof.
  intros Hg (Hwf & Hsec & Hin & Hno & Hpl & Htg & He).
  split; [apply wf_mapTD; exact Hwf|].
  split; [rewrite doc_handles_mapTD; exact Hsec|].
  rewrite !(doc_querySelectorAll_mapTD g Hg) by reflexivity.
  rewrite !(querySelectorAll_mapTD g Hg) by reflexivity.
  repeat (split; [assumption|]).
  intros v p Hv Hb Hc Hp. rewrite dviews_mapTD in Hv.
  apply in_map_iff in Hv as (v0 & <- & Hv0). rewrite below_mapV in *.
  apply (He v0 p Hv0 Hb); [|exact Hp].
  unfold mapV, v_elem in Hc. simpl in Hc.
  rewrite !(hidden_only_class g _ _ _ Hg) in Hc by discriminate. exact Hc.
Qed.

Lemma toggle_views_plain P nx c v :
  In v (viewsN c (fst (createToggle P nx))) ->
  has_class "panelsection" (v_elem v) = false.
Proof.
  simpl. intros [<-|[<-|[<-|[]]]]; simpl; [|destruct (splitEnabled P)|]; reflexivity.
Qed.

Lemma toggle_views_root P nx c :
  exists rest,
    viewsN c (fst (createToggle P nx))
    = (c, nx, new_elem "div" "" [toggle_class] "") :: rest /\
    forall v, In v rest -> has_class toggle_class (v_elem v) = false.
Proof.
  simpl. eexists. split; [reflexivity|].
  intros v [<-|[<-|[]]]; simpl; [destruct (splitEnabled P)|]; reflexivity.
Qed.

Lemma filter_filter_none {A} (p q : A -> bool) l :
  (forall x, In x l -> p x = false) -> filter p (filter q l) = [].
Proof.
  intros H. apply filter_none. intros x Hx. apply filter_In in Hx as [Hx _].
  apply H, Hx.
Qed.

(** Removing the placeholder from a neat store. *)
Lemma neat_cleared D2 sec :
  neat D2 sec ->
  let D3 := removePlaceholder D2 sec in
  wf D3 /\ In sec (handlesF (doc D3)) /\
  doc_querySelectorAll D3 sel_inroom = [sec] /\
  doc_querySelectorAll D3 sel_sleepers = [] /\
  querySelectorAll D3 sec sel_char = querySelectorAll D2 sec sel_char /\
  querySelectorAll D3 sec (cls no_awake_class) = [] /\
  querySelectorAll D3 sec (cls toggle_class)
  = querySelectorAll D2 sec (cls toggle_class).
Proof.
  intros (Hwf & Hsec & Hin & Hno & Hpl & Htg & He) D3.
  unfold D3, removePlaceholder, querySelector.
  destruct (querySelectorAll D2 sec (cls no_awake_class)) as [|p l] eqn:Hq.
  { simpl. rewrite Hq. repeat (split; [assumption|]).
    split; [reflexivity|]. split; reflexivity. }
  simpl.
  assert (Hpq : In p (querySelectorAll D2 sec (cls no_awake_class)))
    by (rewrite Hq; left; reflexivity).
  destruct (query_below D2 sec _ p Hwf Hsec Hpq) as (ap & mp & Hp & Hbel & Hmat).
  pose proof (remove_spliced D2 p ap mp Hwf Hp) as Hsp.
  pose proof (wf_remove D2 p Hwf) as Hwf3.
  pose proof (in_doc_handle D2 p ap mp Hp) as Hm.
  destruct (in_doc_acyclic D2 p ap mp Hwf Hp) as [_ Hac].
  assert (Hsecm : ~ In sec (map v_handle (viewsN ap mp))).
  { rewrite viewsN_handles. apply Hac. exact Hbel. }
  assert (Hsec3 : In sec (handlesF (doc (remove D2 p)))).
  { destruct (spliced_handles_inv _ _ _ sec Hsp Hsec) as [H|H]; [exact H | tauto]. }
  assert (Hnone : forall c, c = "pageroom-char" \/ c = toggle_class ->
            filter (matchesV (cls c)) (filter (below sec) (viewsN ap mp)) = []).
  { intros c Hc. apply filter_none. intros v Hv. apply filter_In in Hv as [Hv Hb].
    rewrite matchesV_cls. destruct (has_class c (v_elem v)) eqn:E; [|reflexivity].
    exfalso.
    destruct (He v p (spliced_sub _ _ _ v Hsp Hv) Hb) as [H1 H2].
    - destruct Hc as [-> | ->]; rewrite E; [reflexivity | apply orb_true_r].
    - left. reflexivity.
    - destruct (subtree_below p ap mp v Hm Hv) as [H|H]; congruence. }
  split; [exact Hwf3|]. split; [exact Hsec3|]. split.
  { destruct (spliced_doc_parts _ _ _ sel_inroom Hsp) as (A & C & H1 & ->).
    rewrite Hin in H1. symmetry in H1. apply (singleton_parts sec _ _ _ H1).
    intros Hc. apply Hsecm. apply in_map_iff in Hc as (v & Hv1 & Hv2).
    apply in_map_iff. exists v. split; [exact Hv1|]. apply filter_In in Hv2. tauto. }
  split; [apply query_remove_nil; assumption|].
  split.
  { destruct (spliced_parts _ _ _ sec sel_char Hwf3 Hwf Hsp Hsec3) as (A & C & H1 & H2).
    unfold sel_char in *. rewrite (Hnone "pageroom-char" (or_introl eq_refl)) in H1.
    rewrite H1, H2. reflexivity. }
  split.
  { destruct (spliced_parts _ _ _ sec (cls no_awake_class) Hwf3 Hwf Hsp Hsec3)
      as (A & C & H1 & H2).
    rewrite H2.
    apply (short_parts A (map v_handle (filter (matchesV (cls no_awake_class))
                                   (filter (below sec) (viewsN ap mp)))) C).
    - rewrite <- H1, Hq. exact Hpl.
    - destruct mp as [h e ks]. simpl in Hm. subst h. rewrite viewsN_node.
      cbn [filter]. unfold below at 1. unfold v_ctx. cbn [fst].
      replace (mem sec (map fst ap)) with true by (symmetry; apply mem_In; exact Hbel).
      cbn [filter]. cbn [elem_of] in Hmat. rewrite Hmat. discriminate. }
  destruct (spliced_parts _ _ _ sec (cls toggle_class) Hwf3 Hwf Hsp Hsec3)
    as (A & C & H1 & H2).
  rewrite (Hnone toggle_class (or_intror eq_refl)) in H1. rewrite H1, H2.
  reflexivity.
Qed.

(** From a neat store, removing the placeholder and ensuring the toggle
    give a prepared store. *)
Lemma neat_ready P D2 sec D4 :
  neat D2 sec ->
  ensureToggle P (removePlaceholder D2 sec) sec
    (querySelector D2 sec (cls toggle_class)) = Some D4 ->
  wf D4 /\ In sec (handlesF (doc D4)) /\
  doc_querySelectorAll D4 sel_inroom = [sec] /\
  doc_querySelectorAll D4 sel_sleepers = [] /\
  querySelectorAll D4 sec sel_char = querySelectorAll D2 sec sel_char /\
  querySelectorAll D4 sec (cls no_awake_class) = [] /\
  List.length (querySelectorAll D4 sec (cls toggle_class)) <= 1 /\
  (querySelector D4 sec (cls toggle_class) = None ->
   querySelector D4 sec (cls "panelsection--title") = None \/
   querySelector D4 sec (cls "pageroom--inroomheader") = None).
Proof.
  intros Hneat. pose proof (neat_cleared D2 sec Hneat) as H3. cbv zeta in H3.
  destruct Hneat as (Hwf & Hsec & Hin & Hno & Hpl & Htg & He).
  set (D3 := removePlaceholder D2 sec) in *.
  destruct H3 as (Hwf3 & Hsec3 & Hin3 & Hno3 & Hch3 & Hpl3 & Htg3).
  unfold ensureToggle. unfold querySelector at 1. rewrite <- Htg3.
  destruct (querySelectorAll D3 sec (cls toggle_class)) as [|t l] eqn:Ht.
  2:{ simpl. intros [= <-]. repeat (split; [assumption|]).
      split; [rewrite Ht, Htg3; exact Htg|].
      unfold querySelector at 1. rewrite Ht. discriminate. }
  simpl.
  destruct (querySelector D3 sec (cls "panelsection--title")) as [titleEl|] eqn:Hti.
  2:{ intros [= <-]. repeat (split; [assumption|]).
      split; [rewrite Ht; simpl; lia|]. intros _. left. exact Hti. }
  destruct (querySelector D3 sec (cls "pageroom--inroomheader")) as [hdr|] eqn:Hhd.
  2:{ intros [= <-]. repeat (split; [assumption|]).
      split; [rewrite Ht; simpl; lia|]. intros _. right. exact Hhd. }
  intros Hins.
  set (t := fst (createToggle P (next D3))).
  set (nx := snd (createToggle P (next D3))).
  change (insertBefore (with_next D3 nx) titleEl t hdr = Some D4) in Hins.
  assert (Hnx : next D3 <= nx) by (unfold nx; simpl; lia).
  assert (Hwf3' : wf (with_next D3 nx)) by (apply wf_with_next; assumption).
  unfold querySelector in Hti. apply hd_error_In in Hti.
  destruct (query_below D3 sec _ titleEl Hwf3 Hsec3 Hti) as (at0 & nt & Ht0 & Hbel & _).
  destruct (insertBefore_views _ _ _ _ _ at0 nt Hwf3' Hins Ht0) as [Hsp _].
  change (spliced D3 D4 (viewsN ((titleEl, elem_of nt) :: at0) t)) in Hsp.
  set (vs := viewsN ((titleEl, elem_of nt) :: at0) t) in *.
  assert (Hwf4 : wf D4).
  { destruct (insertBefore_cells _ _ _ _ _ Hwf3' Hins) as [Hperm Hn].
    destruct (toggle_fresh P (next D3)) as [Hf1 Hf2].
    apply (wf_grow D3 D4 (cells t) Hwf3 Hperm).
    - exact Hf1.
    - rewrite Hn. exact Hf2.
    - rewrite Hn. exact Hnx. }
  assert (Hsec4 : In sec (handlesF (doc D4))) by (apply (spliced_handles _ _ _ _ Hsp Hsec3)).
  split; [exact Hwf4|]. split; [exact Hsec4|].
  split.
  { rewrite (spliced_doc_query D3 D4 vs sel_inroom Hsp); [exact Hin3|].
    apply filter_none. intros v Hv. rewrite matchesV_inroom. unfold is_container.
    rewrite (toggle_views_plain P _ _ v Hv). reflexivity. }
  split.
  { rewrite (spliced_doc_query D3 D4 vs sel_sleepers Hsp); [exact Hno3|].
    apply filter_none. intros v Hv. rewrite matchesV_sleepers.
    destruct (toggle_views_elems P _ _ v Hv) as (-> & _). reflexivity. }
  split.
  { rewrite (spliced_query D3 D4 vs sec sel_char Hwf3 Hwf4 Hsp Hsec3); [exact Hch3|].
    apply filter_filter_none. intros v Hv. unfold sel_char. rewrite matchesV_cls.
    destruct (toggle_views_elems P _ _ v Hv) as (_ & _ & _ & H & _). exact H. }
  split.
  { rewrite (spliced_query D3 D4 vs sec (cls no_awake_class) Hwf3 Hwf4 Hsp Hsec3);
      [exact Hpl3|].
    apply filter_filter_none. intros v Hv. rewrite matchesV_cls.
    destruct (toggle_views_elems P _ _ v Hv) as (_ & _ & H & _). exact H. }
  assert (Hq4 : querySelectorAll D4 sec (cls toggle_class) = [next D3]).
  { rewrite (spliced_query_new D3 D4 vs sec (cls toggle_class) Hwf3 Hwf4 Hsp Hsec3 Ht).
    unfold vs, t.
    destruct (toggle_views_root P (next D3) ((titleEl, elem_of nt) :: at0))
      as (rest & -> & Hrest).
    cbn [filter]. unfold below at 1. unfold v_ctx. cbn [fst map].
    replace (mem sec (titleEl :: map fst at0)) with true
      by (symmetry; apply mem_In; right; exact Hbel).
    cbn [filter]. rewrite matchesV_cls. unfold v_elem at 1. cbn [snd].
    change (has_class toggle_class (new_elem "div" "" [toggle_class] "")) with true.
    cbv iota. cbn [map]. f_equal.
    rewrite filter_filter_none; [reflexivity|].
    intros v Hv. rewrite matchesV_cls. apply Hrest, Hv. }
  split; [rewrite Hq4; simpl; lia|].
  unfold querySelector at 1. rewrite Hq4. discriminate.
Qed.

(** The store that a pass on a tidy page prepares. *)
Lemma prepared_ready P D sec D4 :
  wf D -> tidy D sec -> prepared P D sec = Some D4 ->
  ready D4 sec (getCharElements (removeSleepersSection D) (Some sec)).
Proof.
  intros Hwf Ht Hprep. pose proof (tidy_neat D sec Hwf Ht) as Hn1.
  set (D1 := removeSleepersSection D) in *.
  set (chars := getCharElements D1 (Some sec)).
  set (gr := fun h e => if mem h chars then remove_class hidden e else e).
  assert (Hgr : hidden_only gr) by apply hidden_only_mem_remove.
  pose proof (neat_mapTD gr D1 sec Hgr Hn1) as Hn2.
  pose proof Hprep as Hprep0.
  unfold prepared in Hprep. fold D1 chars in Hprep.
  rewrite resetChars_mapTD in Hprep. fold gr in Hprep.
  rewrite <- (querySelector_mapTD gr Hgr (cls toggle_class) eq_refl D1 sec) in Hprep.
  destruct (neat_ready P (mapTD gr D1) sec D4 Hn2 Hprep)
    as (H1 & H2 & H3 & H4 & H5 & H6 & H7 & H8).
  split; [exact H1|]. split; [exact H2|].
  split; [unfold doc_querySelector; rewrite H3; reflexivity|].
  split; [exact H4|]. split.
  - rewrite H5. apply (querySelectorAll_mapTD gr Hgr sel_char eq_refl).
  - repeat (split; [assumption|]).
    intros c Hc. apply (prepared_chars_visible P D sec D4 c Hwf Hprep0 Hc).
Qed.

Lemma tidy_found D sec :
  tidy D sec -> findInRoomSection D = Some (querySelector D sec sel_h3, sec).
Proof.
  intros (H & _). unfold findInRoomSection, doc_querySelector. rewrite H. reflexivity.
Qed.

(** ** The clean-up at the head of a pass *)

(** What a document query found first it still finds first when a
    subtree is taken out that does not hold it. *)
Lemma remove_keeps_first D x sel h :
  wf D -> doc_querySelector D sel = Some h ->
  In h (handlesF (doc (remove D x))) ->
  doc_querySelector (remove D x) sel = Some h.
Proof.
  intros Hwf Hq Hin. destruct (in_doc D x) as [[a m]|] eqn:Hx.
  - destruct (remove_spliced D x a m Hwf Hx) as (v1 & v2 & E1 & E2).
    unfold doc_querySelector in *. rewrite doc_query_views in *.
    rewrite E1. rewrite E2 in Hq.
    apply (hd_filter_drop _ _ v1 (viewsN a m) v2 h Hq). intros Hc.
    pose proof (wf_doc_NoDup D Hwf) as Hnd.
    rewrite <- dviews_handles, E2, !map_app in Hnd.
    rewrite <- dviews_handles, E1, map_app in Hin.
    apply in_app_iff in Hin as [Hin|Hin].
    + apply (NoDup_app_disjoint _ _ h Hnd Hin). apply in_or_app. left. exact Hc.
    + apply NoDup_app_r in Hnd. apply (NoDup_app_disjoint _ _ h Hnd Hc Hin).
  - unfold doc_querySelector, doc_querySelectorAll in *.
    rewrite (remove_outside D x Hx). exact Hq.
Qed.

Lemma remove_handles D x h :
  wf D -> In h (handlesF (doc (remove D x))) -> In h (handlesF (doc D)).
Proof.
  intros Hwf Hin. destruct (in_doc D x) as [[a m]|] eqn:Hx.
  - exact (spliced_handles _ _ _ h (remove_spliced D x a m Hwf Hx) Hin).
  - rewrite (remove_outside D x Hx) in Hin. exact Hin.
Qed.

(** A query below [s] finds no more once a subtree is taken out. *)
Lemma remove_query_nil D x s sel :
  wf D -> In s (handlesF (doc (remove D x))) ->
  querySelectorAll D s sel = [] -> querySelectorAll (remove D x) s sel = [].
Proof.
  intros Hwf Hin Hq. destruct (in_doc D x) as [[a m]|] eqn:Hx.
  - destruct (spliced_parts _ _ _ s sel (wf_remove D x Hwf) Hwf
                (remove_spliced D x a m Hwf Hx) Hin) as (A & C & H1 & H2).
    rewrite Hq in H1. symmetry in H1. apply app_eq_nil in H1 as [-> H1].
    apply app_eq_nil in H1 as [_ ->]. exact H2.
  - pose proof (remove_outside D x Hx) as Hd.
    destruct (in_handles_find s [] _ Hin) as [[a n] H].
    change (find (is_at s) (walkF [] (doc (remove D x)))) with (in_doc (remove D x) s) in H.
    rewrite (scoped_query_views _ s a n sel (wf_remove D x Hwf) H).
    assert (H' : in_doc D s = Some (a, n)).
    { unfold in_doc in *. rewrite <- Hd. exact H. }
    rewrite (scoped_query_views D s a n sel Hwf H') in Hq.
    unfold dviews in *. rewrite Hd. exact Hq.
Qed.

(** What the clean-up leaves, on a page on which it works. *)
Lemma cleared_facts D sec :
  wf D -> doc_querySelector D sel_inroom = Some sec -> cleans_up D sec ->
  let D1 := removeSleepersSection D in
  let chars := getCharElements D1 (Some sec) in
  let D3 := cleared D sec in
  wf D3 /\ doc_querySelector D3 sel_inroom = Some sec /\
  (querySelector D1 sec (cls toggle_class) = None ->
   querySelectorAll D3 sec (cls toggle_class) = []) /\
  (forall c, In c chars -> is_hidden D3 c = false).
Proof.
  intros Hwf Hq (Hsec & _) D1 chars D3.
  set (gr := fun h e => if mem h chars then remove_class hidden e else e).
  assert (Hgr : hidden_only gr) by apply hidden_only_mem_remove.
  assert (E3 : D3 = removePlaceholder (mapTD gr D1) sec).
  { unfold D3, cleared. fold D1. fold chars. rewrite resetChars_mapTD. reflexivity. }
  fold D3 in Hsec. rewrite E3 in *. clear E3 D3.
  assert (Hwf1 : wf D1) by (apply wf_removeSleepersSection, Hwf).
  assert (Hwf2 : wf (mapTD gr D1)) by (apply wf_mapTD, Hwf1).
  assert (Hsec2 : In sec (handlesF (doc (mapTD gr D1)))).
  { unfold removePlaceholder in Hsec.
    destruct (querySelector (mapTD gr D1) sec (cls no_awake_class)); [|exact Hsec].
    exact (remove_handles _ _ _ Hwf2 Hsec). }
  assert (Hsec1 : In sec (handlesF (doc D1))).
  { rewrite doc_handles_mapTD in Hsec2. exact Hsec2. }
  assert (Hq1 : doc_querySelector D1 sel_inroom = Some sec).
  { revert Hsec1. unfold D1, removeSleepersSection.
    destruct (getElementById D sleepers_id); [|intros _; exact Hq].
    apply remove_keeps_first; assumption. }
  assert (Hq2 : doc_querySelector (mapTD gr D1) sel_inroom = Some sec).
  { unfold doc_querySelector.
    rewrite (doc_querySelectorAll_mapTD gr Hgr sel_inroom eq_refl). exact Hq1. }
  split; [apply wf_removePlaceholder, Hwf2|]. split; [|split].
  - revert Hsec. unfold removePlaceholder.
    destruct (querySelector (mapTD gr D1) sec (cls no_awake_class)); [|intros _; exact Hq2].
    apply remove_keeps_first; assumption.
  - intros Hnone.
    assert (H2 : querySelectorAll (mapTD gr D1) sec (cls toggle_class) = []).
    { rewrite (querySelectorAll_mapTD gr Hgr (cls toggle_class) eq_refl).
      unfold querySelector in Hnone.
      destruct (querySelectorAll D1 sec (cls toggle_class)); [reflexivity | discriminate]. }
    revert Hsec. unfold removePlaceholder.
    destruct (querySelector (mapTD gr D1) sec (cls no_awake_class)); [|intros _; exact H2].
    intros Hsec3. apply remove_query_nil; assumption.
  - intros c Hc. rewrite is_hidden_elem_at, (elem_at_removePlaceholder _ _ _ Hwf2),
      elem_at_mapTD.
    destruct (elem_at D1 c) as [e|]; [|reflexivity]. cbn [option_map]. unfold gr.
    replace (mem c chars) with true by (symmetry; apply mem_In; exact Hc).
    apply has_class_remove.
Qed.

(** Putting the toggle in, from a store on which the clean-up has
    worked. *)
Lemma toggle_step P D3 sec existing D4 :
  wf D3 -> In sec (handlesF (doc D3)) ->
  (existing = None -> querySelectorAll D3 sec (cls toggle_class) = []) ->
  ensureToggle P D3 sec existing = Some D4 ->
  wf D4 /\ In sec (handlesF (doc D4)) /\ next D3 <= next D4 /\
  doc_querySelectorAll D4 sel_inroom = doc_querySelectorAll D3 sel_inroom /\
  doc_querySelectorAll D4 sel_sleepers = doc_querySelectorAll D3 sel_sleepers /\
  querySelectorAll D4 sec sel_char = querySelectorAll D3 sec sel_char /\
  querySelectorAll D4 sec (cls no_awake_class)
  = querySelectorAll D3 sec (cls no_awake_class) /\
  (D4 = D3 /\
   (existing = None ->
    querySelector D3 sec (cls "panelsection--title") = None \/
    querySelector D3 sec (cls "pageroom--inroomheader") = None) \/
   existing = None /\ querySelectorAll D4 sec (cls toggle_class) = [next D3]).
Proof.
  intros Hwf3 Hsec3 Hex. unfold ensureToggle.
  destruct existing as [t|].
  { intros [= <-]. repeat (split; [assumption || reflexivity || lia|]).
    left. split; [reflexivity | discriminate]. }
  specialize (Hex eq_refl).
  destruct (querySelector D3 sec (cls "panelsection--title")) as [titleEl|] eqn:Hti.
  2:{ intros [= <-]. repeat (split; [assumption || reflexivity || lia|]).
      left. split; [reflexivity | intros _; left; reflexivity]. }
  destruct (querySelector D3 sec (cls "pageroom--inroomheader")) as [hdr|] eqn:Hhd.
  2:{ intros [= <-]. repeat (split; [assumption || reflexivity || lia|]).
      left. split; [reflexivity | intros _; right; reflexivity]. }
  intros Hins.
  set (t := fst (createToggle P (next D3))).
  set (nx := snd (createToggle P (next D3))).
  change (insertBefore (with_next D3 nx) titleEl t hdr = Some D4) in Hins.
  assert (Hnx : next D3 <= nx) by (unfold nx; simpl; lia).
  assert (Hwf3' : wf (with_next D3 nx)) by (apply wf_with_next; assumption).
  unfold querySelector in Hti. apply hd_error_In in Hti.
  destruct (query_below D3 sec _ titleEl Hwf3 Hsec3 Hti) as (at0 & nt & Ht0 & Hbel & _).
  destruct (insertBefore_views _ _ _ _ _ at0 nt Hwf3' Hins Ht0) as [Hsp _].
  change (spliced D3 D4 (viewsN ((titleEl, elem_of nt) :: at0) t)) in Hsp.
  set (vs := viewsN ((titleEl, elem_of nt) :: at0) t) in *.
  destruct (insertBefore_cells _ _ _ _ _ Hwf3' Hins) as [Hperm Hn].
  assert (Hwf4 : wf D4).
  { destruct (toggle_fresh P (next D3)) as [Hf1 Hf2].
    apply (wf_grow D3 D4 (cells t) Hwf3 Hperm).
    - exact Hf1.
    - rewrite Hn. exact Hf2.
    - rewrite Hn. exact Hnx. }
  assert (Hsec4 : In sec (handlesF (doc D4))) by (apply (spliced_handles _ _ _ _ Hsp Hsec3)).
  split; [exact Hwf4|]. split; [exact Hsec4|].
  split; [rewrite Hn; exact Hnx|].
  split.
  { apply (spliced_doc_query D3 D4 vs sel_inroom Hsp).
    apply filter_none. intros v Hv. rewrite matchesV_inroom. unfold is_container.
    rewrite (toggle_views_plain P _ _ v Hv). reflexivity. }
  split.
  { apply (spliced_doc_query D3 D4 vs sel_sleepers Hsp).
    apply filter_none. intros v Hv. rewrite matchesV_sleepers.
    destruct (toggle_views_elems P _ _ v Hv) as (-> & _). reflexivity. }
  split.
  { apply (spliced_query D3 D4 vs sec sel_char Hwf3 Hwf4 Hsp Hsec3).
    apply filter_filter_none. intros v Hv. unfold sel_char. rewrite matchesV_cls.
    destruct (toggle_views_elems P _ _ v Hv) as (_ & _ & _ & H & _). exact H. }
  split.
  { apply (spliced_query D3 D4 vs sec (cls no_awake_class) Hwf3 Hwf4 Hsp Hsec3).
    apply filter_filter_none. intros v Hv. rewrite matchesV_cls.
    destruct (toggle_views_elems P _ _ v Hv) as (_ & _ & H & _). exact H. }
  right. split; [reflexivity|].
  rewrite (spliced_query_new D3 D4 vs sec (cls toggle_class) Hwf3 Hwf4 Hsp Hsec3 Hex).
  unfold vs, t.
  destruct (toggle_views_root P (next D3) ((titleEl, elem_of nt) :: at0))
    as (rest & -> & Hrest).
  cbn [filter]. unfold below at 1. unfold v_ctx. cbn [fst map].
  replace (mem sec (titleEl :: map fst at0)) with true
    by (symmetry; apply mem_In; right; exact Hbel).
  cbn [filter]. rewrite matchesV_cls. unfold v_elem at 1. cbn [snd].
  change (has_class toggle_class (new_elem "div" "" [toggle_class] "")) with true.
  cbv iota. cbn [map]. f_equal.
  rewrite filter_filter_none; [reflexivity|].
  intros v Hv. rewrite matchesV_cls. apply Hrest, Hv.
Qed.

(** The store that a pass prepares on a page on which the clean-up
    works. *)
Lemma cleans_ready P D sec D4 :
  wf D -> doc_querySelector D sel_inroom = Some sec -> cleans_up D sec ->
  prepared P D sec = Some D4 ->
  ready D4 sec (getCharElements (removeSleepersSection D) (Some sec)).
Proof.
  intros Hwf Hq Hc Hprep.
  destruct (cleared_facts D sec Hwf Hq Hc) as (Hwf3 & Hq3 & Htg3 & _).
  destruct Hc as (Hsec3 & Hno3 & Hpl3 & Hch3 & Htl3 & Htog3).
  cbv zeta in *.
  set (D1 := removeSleepersSection D) in *.
  set (chars := getCharElements D1 (Some sec)) in *.
  set (D3 := cleared D sec) in *.
  pose proof Hprep as Hprep0.
  change (ensureToggle P D3 sec (querySelector D1 sec (cls toggle_class)) = Some D4)
    in Hprep.
  destruct (toggle_step P D3 sec _ D4 Hwf3 Hsec3 Htg3 Hprep)
    as (Hwf4 & Hsec4 & _ & Hi4 & Hn4 & Hc4 & Hp4 & Hcase).
  split; [exact Hwf4|]. split; [exact Hsec4|].
  split; [unfold doc_querySelector in *; rewrite Hi4; exact Hq3|].
  split; [rewrite Hn4; exact Hno3|].
  split; [rewrite Hc4; exact Hch3|].
  split; [rewrite Hp4; exact Hpl3|].
  split; [|split].
  - destruct Hcase as [[-> _]|[_ ->]]; [exact Htl3 | simpl; lia].
  - destruct Hcase as [[-> Hmiss]|[_ Ht4]].
    + intros Hnone. destruct (Htog3 Hnone) as [H|H]; [exact (Hmiss H) | exact H].
    + unfold querySelector at 1. rewrite Ht4. discriminate.
  - intros c Hc. apply (prepared_chars_visible P D sec D4 c Hwf Hprep0 Hc).
Qed.

(** The tidy pages are among the pages on which the clean-up works. *)
Lemma tidy_cleans_up D sec : wf D -> tidy D sec -> cleans_up D sec.
Proof.
  intros Hwf Ht. pose proof (tidy_neat D sec Hwf Ht) as Hn1.
  unfold cleans_up, cleared.
  set (D1 := removeSleepersSection D) in *.
  set (chars := getCharElements D1 (Some sec)).
  set (gr := fun h e => if mem h chars then remove_class hidden e else e).
  assert (Hgr : hidden_only gr) by apply hidden_only_mem_remove.
  pose proof (neat_mapTD gr D1 sec Hgr Hn1) as Hn2.
  rewrite resetChars_mapTD. fold gr.
  destruct (neat_cleared (mapTD gr D1) sec Hn2) as (_ & H2 & _ & H4 & H5 & H6 & H7).
  destruct Hn2 as (_ & _ & _ & _ & _ & Htg & _).
  cbv zeta in *.
  split; [exact H2|]. split; [exact H4|]. split; [exact H6|].
  split; [rewrite H5; apply (querySelectorAll_mapTD gr Hgr sel_char eq_refl)|].
  split; [rewrite H7; exact Htg|].
  intros Hnone. left. unfold querySelector in *. rewrite H7 in Hnone.
  rewrite (querySelectorAll_mapTD gr Hgr (cls toggle_class) eq_refl) in Hnone.
  exact Hnone.
Qed.

(** ** Stores with the same document *)

Lemma locate_same_doc D E h :
  doc D = doc E -> In h (handlesF (doc D)) -> locate D h = locate E h.
Proof.
  intros Hd Hin. destruct (in_handles_find h [] (doc D) Hin) as [q Hq].
  assert (H1 : in_doc D h = Some q) by exact Hq.
  assert (H2 : in_doc E h = Some q) by (unfold in_doc; rewrite <- Hd; exact Hq).
  rewrite (in_doc_locate _ _ _ H1), (in_doc_locate _ _ _ H2). reflexivity.
Qed.

Lemma query_same_doc D E s sel :
  doc D = doc E -> In s (handlesF (doc D)) ->
  querySelectorAll D s sel = querySelectorAll E s sel.
Proof.
  intros Hd Hin. unfold querySelectorAll.
  rewrite (locate_same_doc D E s Hd Hin). reflexivity.
Qed.

Lemma parentElement_same_doc D E h :
  doc D = doc E -> In h (handlesF (doc D)) -> parentElement D h = parentElement E h.
Proof.
  intros Hd Hin. unfold parentElement.
  rewrite (locate_same_doc D E h Hd Hin). reflexivity.
Qed.

Lemma is_hidden_same_doc D E h :
  doc D = doc E -> In h (handlesF (doc D)) -> is_hidden D h = is_hidden E h.
Proof.
  intros Hd Hin. unfold is_hidden, classList_contains.
  rewrite (locate_same_doc D E h Hd Hin). reflexivity.
Qed.

Lemma isSleeperChar_same_doc D E h :
  doc D = doc E -> In h (handlesF (doc D)) -> isSleeperChar D h = isSleeperChar E h.
Proof.
  intros Hd Hin. unfold isSleeperChar, classList_contains, querySelector.
  rewrite (query_same_doc D E h sel_levels Hd Hin),
          (locate_same_doc D E h Hd Hin). reflexivity.
Qed.

Lemma sim_refl b n : sim b n n.
Proof.
  induction n as [h e ks IH] using node_ind. apply sim_node.
  split; [apply hrel_refl|]. split; [reflexivity|].
  induction IH as [|k r Hk _ IHr]; simpl; auto.
Qed.

Lemma simL_refl b ns : simL b ns ns.
Proof. induction ns as [|k r IH]; simpl; auto using sim_refl. Qed.

(** The placeholder shows the same whichever object it is. *)
Lemma erase_app_child p e h h' n :
  erase (app_child p (Node h e []) n) = erase (app_child p (Node h' e []) n).
Proof.
  induction n as [h0 e0 ks IH] using node_ind. cbn [app_child erase]. f_equal.
  assert (Hm : map erase (map (app_child p (Node h e [])) ks)
               = map erase (map (app_child p (Node h' e [])) ks)).
  { induction IH as [|k r Hk _ IHr]; cbn [map]; [reflexivity|].
    rewrite Hk, IHr. reflexivity. }
  destruct (Nat.eqb h0 p); [|exact Hm].
  rewrite !map_app, Hm. reflexivity.
Qed.

Lemma page_placeholder D E chars aw :
  doc D = doc E ->
  (forall c, hd_error chars = Some c -> In c (handlesF (doc D))) ->
  page (addNoAwakePlaceholder D chars aw) = page (addNoAwakePlaceholder E chars aw).
Proof.
  intros Hd Hc. rewrite !addNoAwakePlaceholder_cases.
  assert (Hp : page D = page E) by (unfold page; rewrite Hd; reflexivity).
  destruct aw; [|exact Hp]. destruct (hd_error chars) as [c0|]; [|exact Hp].
  rewrite <- (parentElement_same_doc D E c0 Hd (Hc c0 eq_refl)).
  destruct (parentElement D c0) as [cont|]; [|exact Hp].
  unfold page, appendChild. cbn [doc with_next]. rewrite Hd, !map_map.
  apply map_ext. intros n. apply erase_app_child.
Qed.

Lemma finish_returns P D4 sec chars :
  ready D4 sec chars ->
  ((exists D', finish P D4 sec chars = Returned D') <->
   splitEnabled P = false \/ parentElement D4 sec <> None).
Proof.
  intros (Hwf & Hsec & _ & _ & Hch & _).
  unfold finish. destruct (splitEnabled P) eqn:Hsp; cbn [negb].
  2:{ split; [intros _; left; reflexivity | intros _; eexists; reflexivity]. }
  rewrite categorize_spec.
  set (sl := filter (isSleeperChar D4) chars).
  set (aw := filter (fun el => negb (isSleeperChar D4 el)) chars).
  set (gc := fun (h : handle) (e : elem) => if mem h sl then add_class hidden e else e).
  set (D5 := mapTD gc D4).
  assert (Hgc : hidden_only gc) by apply hidden_only_mem_add.
  assert (Hwf5 : wf D5) by (apply wf_mapTD; exact Hwf).
  assert (Hsec5 : In sec (handlesF (doc D5))).
  { unfold D5. rewrite doc_handles_mapTD. exact Hsec. }
  assert (Hch5 : querySelectorAll D5 sec sel_char = chars).
  { unfold D5. rewrite (querySelectorAll_mapTD gc Hgc sel_char eq_refl). exact Hch. }
  destruct (placeholder_step D5 sec chars aw Hwf5 Hsec5
              ltac:(intros c Hc; rewrite Hch5; exact Hc)) as [Hwf6 Hc6].
  cbv zeta in Hwf6, Hc6.
  set (D6 := addNoAwakePlaceholder D5 chars aw) in *.
  assert (H6 : parentElement D6 sec = parentElement D4 sec /\
               In sec (handlesF (doc D6))).
  { assert (H5 : parentElement D5 sec = parentElement D4 sec)
      by apply parentElement_mapTD.
    destruct aw; [|rewrite Hc6; auto].
    destruct (hd_error chars); [|rewrite Hc6; auto].
    destruct (parentElement D5 h); [|rewrite Hc6; auto].
    destruct Hc6 as (a & C & _ & _ & _ & Hspl & _).
    split; [|apply (spliced_handles _ _ _ _ Hspl Hsec5)].
    rewrite (spliced_parent D5 D6 _ sec Hwf6 Hspl Hsec5). exact H5. }
  destruct H6 as [Hpar6 Hsec6].
  destruct (createSleepersSection P D6 sl) as [s nx].
  unfold insertSleepersSection.
  change (parentElement (with_next D6 nx) sec) with (parentElement D6 sec).
  change (nextSibling (with_next D6 nx) sec) with (nextSibling D6 sec).
  rewrite Hpar6.
  destruct (parentElement D4 sec) as [p|] eqn:Hp.
  - destruct (nextSibling D6 sec) as [r|] eqn:Hr.
    + unfold insertBefore.
      change (parentElement (with_next D6 nx) r) with (parentElement D6 r).
      destruct (sibling_parent D6 sec r Hwf6 Hsec6 Hr) as [Hpr _].
      rewrite Hpr, Hpar6, Nat.eqb_refl.
      split; [intros _; right; discriminate | intros _; eexists; reflexivity].
    + split; [intros _; right; discriminate | intros _; eexists; reflexivity].
  - destruct (nextSibling D6 sec);
      (split; [intros [D' H]; discriminate | intros [H|H]; [discriminate | congruence]]).
Qed.

(** ** A pass that throws, and the pass after it *)

(** What holds when the characters of a prepared store are sorted and
    the placeholder is in. *)
Lemma sorted_facts D4 sec chars sl aw :
  ready D4 sec chars ->
  (forall s, In s sl -> In s chars) ->
  let gc := fun (h : handle) (e : elem) => if mem h sl then add_class hidden e else e in
  let D5 := mapTD gc D4 in
  let D6 := addNoAwakePlaceholder D5 chars aw in
  wf D6 /\ In sec (handlesF (doc D6)) /\
  (D6 = D5 \/
   exists cont a C,
     in_doc D5 cont = Some (a, C) /\ In sec (cont :: map fst a) /\
     spliced D5 D6 [((cont, elem_of C) :: a, next D5, no_awake_elem)] /\
     doc D6 = map (edit cont (fun ks => ks ++ [Node (next D5) no_awake_elem []]))
                  (doc D5)) /\
  doc_querySelector D6 sel_inroom = Some sec /\
  doc_querySelectorAll D6 sel_sleepers = [] /\
  (forall c, has_class c no_awake_elem = false ->
             negb (String.eqb c hidden) = true ->
             querySelectorAll D6 sec (cls c) = querySelectorAll D4 sec (cls c)) /\
  parentElement D6 sec = parentElement D4 sec /\
  at_most_one D6 sec.
Proof.
  intros (Hwf & Hsec & Hinroom & Hnos & Hch & Hpl & Htl & Htog & Hvis) Hslch gc D5 D6.
  assert (Hgc : hidden_only gc) by apply hidden_only_mem_add.
  assert (Hwf5 : wf D5) by (apply wf_mapTD; exact Hwf).
  assert (Hsec5 : In sec (handlesF (doc D5))).
  { unfold D5. rewrite doc_handles_mapTD. exact Hsec. }
  assert (Hch5 : querySelectorAll D5 sec sel_char = chars).
  { unfold D5. rewrite (querySelectorAll_mapTD gc Hgc sel_char eq_refl). exact Hch. }
  destruct (placeholder_step D5 sec chars aw Hwf5 Hsec5
              ltac:(intros c Hc; rewrite Hch5; exact Hc)) as [Hwf6 Hc6].
  cbv zeta in Hwf6, Hc6. fold D6 in Hwf6, Hc6.
  assert (H6 : D6 = D5 \/
   exists cont a C,
     in_doc D5 cont = Some (a, C) /\ In sec (cont :: map fst a) /\
     spliced D5 D6 [((cont, elem_of C) :: a, next D5, no_awake_elem)] /\
     doc D6 = map (edit cont (fun ks => ks ++ [Node (next D5) no_awake_elem []]))
                  (doc D5)).
  { destruct aw; [|left; exact Hc6].
    destruct (hd_error chars); [|left; exact Hc6].
    destruct (parentElement D5 h); [|left; exact Hc6].
    destruct Hc6 as (a & C & H1 & H2 & _ & H3 & H4 & _).
    right. exists h0, a, C. auto. }
  assert (Hsec6 : In sec (handlesF (doc D6))).
  { destruct H6 as [->|(cont & a & C & _ & _ & Hsp6 & _)]; [exact Hsec5|].
    apply (spliced_handles _ _ _ _ Hsp6 Hsec5). }
  assert (Hdq6 : forall sel, avoids_hidden sel = true ->
             (forall c h, matchesV sel (c, h, no_awake_elem) = false) ->
             doc_querySelectorAll D6 sel = doc_querySelectorAll D4 sel).
  { intros sel Hav Hno. destruct H6 as [->|(cont & a & C & _ & _ & Hsp6 & _)].
    - apply (doc_querySelectorAll_mapTD gc Hgc sel Hav).
    - rewrite (spliced_doc_query D5 D6 _ sel Hsp6 (pl_view_doc sel _ _ (Hno _ _))).
      apply (doc_querySelectorAll_mapTD gc Hgc sel Hav). }
  assert (Hq6 : forall c, has_class c no_awake_elem = false ->
                  negb (String.eqb c hidden) = true ->
                  querySelectorAll D6 sec (cls c) = querySelectorAll D4 sec (cls c)).
  { intros c Hc Hh.
    assert (Hav : avoids_hidden (cls c) = true) by (simpl; rewrite Hh; reflexivity).
    destruct H6 as [->|(cont & a & C & _ & _ & Hsp & _)].
    - apply (querySelectorAll_mapTD gc Hgc (cls c) Hav).
    - rewrite (spliced_query D5 D6 _ sec (cls c) Hwf5 Hwf6 Hsp Hsec5
                 (pl_view_other c sec _ _ Hc)).
      apply (querySelectorAll_mapTD gc Hgc (cls c) Hav). }
  split; [exact Hwf6|]. split; [exact Hsec6|]. split; [exact H6|].
  split; [unfold doc_querySelector; rewrite (Hdq6 sel_inroom eq_refl);
          [exact Hinroom | reflexivity]|].
  split; [rewrite (Hdq6 sel_sleepers eq_refl); [exact Hnos | reflexivity]|].
  split; [exact Hq6|].
  split.
  { destruct H6 as [->|(cont & a & C & _ & _ & Hsp & _)].
    - apply parentElement_mapTD.
    - rewrite (spliced_parent D5 D6 _ sec Hwf6 Hsp Hsec5). apply parentElement_mapTD. }
  unfold at_most_one.
  rewrite (Hdq6 sel_sleepers eq_refl), Hnos by reflexivity.
  rewrite (Hq6 toggle_class eq_refl eq_refl).
  split; [simpl; lia|]. split; [exact Htl|].
  destruct H6 as [E6|(cont & a0 & C & _ & _ & Hsp6 & _)].
  - rewrite E6. unfold D5.
    rewrite (querySelectorAll_mapTD gc Hgc (cls no_awake_class) eq_refl).
    rewrite Hpl. simpl. lia.
  - rewrite (spliced_query_new D5 D6 _ sec (cls no_awake_class)
               Hwf5 Hwf6 Hsp6 Hsec5).
    + cbn [filter]. destruct (below sec _); cbn [filter];
        [destruct (matchesV _ _)|]; simpl; lia.
    + unfold D5. rewrite (querySelectorAll_mapTD gc Hgc (cls no_awake_class) eq_refl).
      exact Hpl.
Qed.

(** The clean-up of the next pass undoes the sorting: the document is
    that of the prepared store again. *)
Lemma undo_sorting D4 sec chars sl aw :
  ready D4 sec chars ->
  (forall s, In s sl -> In s chars) ->
  let gc := fun (h : handle) (e : elem) => if mem h sl then add_class hidden e else e in
  let D6 := addNoAwakePlaceholder (mapTD gc D4) chars aw in
  doc (removePlaceholder (resetChars D6 chars) sec) = doc D4.
Proof.
  intros Hready Hsl gc D6.
  destruct (sorted_facts D4 sec chars sl aw Hready Hsl)
    as (Hwf6 & Hsec6 & H6 & _ & _ & Hq6 & _).
  cbv zeta in *. fold gc in Hwf6, Hsec6, H6, Hq6. fold D6 in Hwf6, Hsec6, H6, Hq6.
  destruct Hready as (Hwf & Hsec & _ & _ & Hch & Hpl & _ & _ & Hvis).
  set (D5 := mapTD gc D4) in *.
  assert (Hgc : hidden_only gc) by apply hidden_only_mem_add.
  assert (Hwf5 : wf D5) by (apply wf_mapTD; exact Hwf).
  assert (Hsec5 : In sec (handlesF (doc D5))).
  { unfold D5. rewrite doc_handles_mapTD. exact Hsec. }
  set (gr := fun h e => if mem h chars then remove_class hidden e else e).
  assert (Hgr : hidden_only gr) by apply hidden_only_mem_remove.
  rewrite resetChars_mapTD. fold gr.
  assert (HwfE2 : wf (mapTD gr D6)) by (apply wf_mapTD; exact Hwf6).
  assert (H3 : doc (removePlaceholder (mapTD gr D6) sec) = map (mapT gr) (doc D5)).
  { unfold removePlaceholder, querySelector.
    rewrite (querySelectorAll_mapTD gr Hgr (cls no_awake_class) eq_refl).
    destruct H6 as [->|(cont & a & C & HC & Hbel & Hsp & Hdoc)].
    - unfold D5. rewrite (querySelectorAll_mapTD gc Hgc (cls no_awake_class) eq_refl).
      rewrite Hpl. reflexivity.
    - rewrite (spliced_query_new D5 D6 _ sec (cls no_awake_class) Hwf5 Hwf6 Hsp Hsec5).
      2:{ unfold D5. rewrite (querySelectorAll_mapTD gc Hgc (cls no_awake_class) eq_refl).
          exact Hpl. }
      assert (Hb : below sec ((cont, elem_of C) :: a, next D5, no_awake_elem) = true).
      { unfold below. apply mem_In. exact Hbel. }
      cbn [filter]. rewrite Hb. cbn [filter]. rewrite matchesV_cls.
      unfold v_elem. cbn [snd].
      change (has_class no_awake_class no_awake_elem) with true. cbn [map hd_error].
      unfold v_handle. cbn [fst snd].
      assert (Hpin : In (next D5) (handlesF (doc D6))).
      { rewrite <- dviews_handles. destruct Hsp as (v1 & v2 & _ & ->).
        rewrite !map_app. apply in_or_app. right. left. reflexivity. }
      assert (HpinE : In (next D5) (handlesF (doc (mapTD gr D6)))).
      { rewrite doc_handles_mapTD. exact Hpin. }
      destruct (in_handles_find _ [] _ HpinE) as [q Hq].
      change (find (is_at (next D5)) (walkF [] (doc (mapTD gr D6))))
        with (in_doc (mapTD gr D6) (next D5)) in Hq.
      rewrite (remove_doc _ _ _ Hq). cbn [doc mapTD]. rewrite pruneF_mapT.
      f_equal. rewrite Hdoc. apply pruneF_edit.
      + intros ks. apply (pruneF_append (Node (next D5) no_awake_elem [])).
      + intros Hc. pose proof (doc_lt D5 _ Hwf5 Hc). lia. }
  rewrite H3. apply (reset_undo D4 chars sl Hwf Hvis Hsl).
Qed.

Lemma finish_thrown P D4 sec chars D6 :
  finish P D4 sec chars = Thrown D6 ->
  splitEnabled P = true /\
  D6 = addNoAwakePlaceholder
         (mapTD (fun h e => if mem h (filter (isSleeperChar D4) chars)
                            then add_class hidden e else e) D4)
         chars (filter (fun el => negb (isSleeperChar D4 el)) chars).
Proof.
  unfold finish. destruct (splitEnabled P); cbn [negb]; [|discriminate].
  rewrite categorize_spec.
  destruct (createSleepersSection P _ _) as [s nx].
  destruct (insertSleepersSection _ sec s); [discriminate|].
  intros [= <-]. split; reflexivity.
Qed.

(** When the pass throws because the container has no parent element,
    the next pass throws at the same place and leaves the page as it
    was. *)
Lemma thrown_twice P D4 sec chars D6 :
  ready D4 sec chars -> finish P D4 sec chars = Thrown D6 ->
  at_most_one D6 sec /\
  exists hd E6,
    findInRoomSection D6 = Some (hd, sec) /\
    applyFilter P D6 = Thrown E6 /\ page E6 = page D6 /\ at_most_one E6 sec.
Proof.
  intros Hready Hfin.
  destruct (finish_thrown P D4 sec chars D6 Hfin) as [Hsp HD6].
  set (sl := filter (isSleeperChar D4) chars) in *.
  set (aw := filter (fun el => negb (isSleeperChar D4 el)) chars) in *.
  set (gc := fun (h : handle) (e : elem) => if mem h sl then add_class hidden e else e) in *.
  assert (Hslch : forall s, In s sl -> In s chars).
  { intros s Hs. apply filter_In in Hs. tauto. }
  destruct (sorted_facts D4 sec chars sl aw Hready Hslch)
    as (Hwf6 & Hsec6 & H6 & Hin6 & Hnos6 & Hq6 & Hpar6 & Hamo6).
  pose proof (undo_sorting D4 sec chars sl aw Hready Hslch) as Hdoc.
  cbv zeta in *. fold gc in Hwf6, Hsec6, H6, Hin6, Hnos6, Hq6, Hpar6, Hamo6, Hdoc.
  rewrite <- HD6 in *. clear H6.
  split; [exact Hamo6|].
  set (E3 := removePlaceholder (resetChars D6 chars) sec) in *.
  pose proof Hready as (Hwf & Hsec & _ & _ & Hch & _ & _ & Htog & Hvis).
  assert (Hp4 : parentElement D4 sec = None).
  { destruct (parentElement D4 sec) eqn:E; [|reflexivity]. exfalso.
    destruct (proj2 (finish_returns P D4 sec chars Hready)) as [D' HD'].
    - right. rewrite E. discriminate.
    - rewrite Hfin in HD'. discriminate. }
  assert (HwfE : wf E3).
  { unfold E3. apply wf_removePlaceholder. rewrite resetChars_mapTD.
    apply wf_mapTD. exact Hwf6. }
  assert (HsecE : In sec (handlesF (doc E3))) by (rewrite Hdoc; exact Hsec).
  assert (Hcd : forall c, In c chars -> In c (handlesF (doc E3))).
  { intros c Hc. rewrite Hdoc. rewrite <- Hch in Hc.
    destruct (query_below D4 sec sel_char c Hwf Hsec Hc) as (a & n & H & _).
    exact (in_doc_Some_handles _ _ _ H). }
  assert (Hfind : findInRoomSection D6 = Some (querySelector D6 sec sel_h3, sec)).
  { unfold findInRoomSection. rewrite Hin6. reflexivity. }
  assert (HE1 : removeSleepersSection D6 = D6).
  { unfold removeSleepersSection, getElementById, doc_querySelector.
    change [[[SId sleepers_id]]] with sel_sleepers. rewrite Hnos6. reflexivity. }
  assert (Hchars : getCharElements D6 (Some sec) = chars).
  { cbn [getCharElements]. unfold sel_char.
    rewrite (Hq6 "pageroom-char" eq_refl eq_refl). exact Hch. }
  assert (Hex : querySelector D6 sec (cls toggle_class)
                = querySelector D4 sec (cls toggle_class)).
  { unfold querySelector. rewrite (Hq6 toggle_class eq_refl eq_refl). reflexivity. }
  assert (HqE : forall sel, querySelector E3 sec sel = querySelector D4 sec sel).
  { intros sel. unfold querySelector.
    rewrite (query_same_doc E3 D4 sec sel Hdoc HsecE). reflexivity. }
  assert (Hprep : prepared P D6 sec = Some E3).
  { unfold prepared. rewrite HE1, Hchars, Hex. fold E3. unfold ensureToggle.
    destruct (querySelector D4 sec (cls toggle_class)) eqn:Ht; [reflexivity|].
    rewrite !HqE.
    destruct (Htog eq_refl) as [H|H]; rewrite H; [reflexivity|].
    destruct (querySelector D4 sec (cls "panelsection--title")); reflexivity. }
  assert (HreadyE : ready E3 sec chars).
  { apply (ready_sim D4 E3 sec chars Hready HwfE).
    - rewrite Hdoc. apply simL_refl.
    - intros c Hc. rewrite (is_hidden_same_doc E3 D4 c Hdoc (Hcd c Hc)).
      apply Hvis, Hc. }
  assert (Happ : applyFilter P D6 = finish P E3 sec chars).
  { rewrite (applyFilter_finish P D6 _ sec Hfind). cbv zeta.
    rewrite Hprep, HE1, Hchars. reflexivity. }
  exists (querySelector D6 sec sel_h3). rewrite Happ.
  destruct (finish P E3 sec chars) as [D'|E6] eqn:HfE.
  - exfalso.
    destruct (proj1 (finish_returns P E3 sec chars HreadyE) (ex_intro _ D' HfE))
      as [H|H].
    + congruence.
    + apply H. rewrite (parentElement_same_doc E3 D4 sec Hdoc HsecE). exact Hp4.
  - exists E6. split; [exact Hfind|]. split; [reflexivity|].
    destruct (finish_thrown P E3 sec chars E6 HfE) as [_ HE6].
    assert (Hsl' : filter (isSleeperChar E3) chars = sl).
    { apply filter_ext_in. intros c Hc.
      apply (isSleeperChar_same_doc E3 D4 c Hdoc (Hcd c Hc)). }
    assert (Haw' : filter (fun el => negb (isSleeperChar E3 el)) chars = aw).
    { apply filter_ext_in. intros c Hc. f_equal.
      apply (isSleeperChar_same_doc E3 D4 c Hdoc (Hcd c Hc)). }
    rewrite Hsl', Haw' in HE6. fold gc in HE6. rewrite HE6, HD6. split.
    + apply page_placeholder.
      * cbn [doc mapTD]. rewrite Hdoc. reflexivity.
      * intros c Hc. rewrite doc_handles_mapTD. apply Hcd.
        apply hd_error_In. exact Hc.
    + destruct (sorted_facts E3 sec chars sl aw HreadyE Hslch)
        as (_ & _ & _ & _ & _ & _ & _ & H). exact H.
Qed.

(** When the pass throws because the toggle cannot be put in, the next
    pass throws there again and leaves the page as it was. *)
Lemma toggle_thrown_twice P D sec :
  wf D -> doc_querySelector D sel_inroom = Some sec -> cleans_up D sec ->
  prepared P D sec = None ->
  let D3 := cleared D sec in
  at_most_one D3 sec /\
  exists hd E3,
    findInRoomSection D3 = Some (hd, sec) /\
    applyFilter P D3 = Thrown E3 /\ page E3 = page D3 /\ at_most_one E3 sec.
Proof.
  intros Hwf Hq Hc Hprep.
  destruct (cleared_facts D sec Hwf Hq Hc) as (Hwf3 & Hq3 & Htg3 & Hvis3).
  destruct Hc as (Hsec3 & Hno3 & Hpl3 & Hch3 & Htl3 & _).
  cbv zeta in *.
  set (D1 := removeSleepersSection D) in *.
  set (chars := getCharElements D1 (Some sec)) in *.
  set (D3 := cleared D sec) in *.
  change (ensureToggle P D3 sec (querySelector D1 sec (cls toggle_class)) = None)
    in Hprep.
  unfold ensureToggle in Hprep.
  destruct (querySelector D1 sec (cls toggle_class)) eqn:Hex; [discriminate|].
  specialize (Htg3 eq_refl).
  destruct (querySelector D3 sec (cls "panelsection--title")) as [titleEl|] eqn:Hti;
    [|discriminate].
  destruct (querySelector D3 sec (cls "pageroom--inroomheader")) as [hdr|] eqn:Hhd;
    [|discriminate].
  assert (Hamo : at_most_one D3 sec).
  { unfold at_most_one. rewrite Hno3, Hpl3, Htg3. simpl. lia. }
  split; [exact Hamo|].
  set (gr := fun h e => if mem h chars then remove_class hidden e else e).
  assert (Hgr : hidden_only gr) by apply hidden_only_mem_remove.
  assert (Hfind : findInRoomSection D3 = Some (querySelector D3 sec sel_h3, sec)).
  { unfold findInRoomSection. rewrite Hq3. reflexivity. }
  assert (HE1 : removeSleepersSection D3 = D3).
  { unfold removeSleepersSection, getElementById, doc_querySelector.
    change [[[SId sleepers_id]]] with sel_sleepers. rewrite Hno3. reflexivity. }
  assert (Hchars : getCharElements D3 (Some sec) = chars) by exact Hch3.
  assert (HE3 : cleared D3 sec = mapTD gr D3).
  { unfold cleared. rewrite HE1, Hchars, resetChars_mapTD. fold gr.
    unfold removePlaceholder.
    rewrite (querySelector_mapTD gr Hgr (cls no_awake_class) eq_refl).
    unfold querySelector. rewrite Hpl3. reflexivity. }
  assert (Hprep3 : prepared P D3 sec = None).
  { change (prepared P D3 sec)
      with (ensureToggle P (cleared D3 sec) sec
              (querySelector (removeSleepersSection D3) sec (cls toggle_class))).
    rewrite HE3, HE1. unfold ensureToggle.
    unfold querySelector at 1. rewrite Htg3. cbn [hd_error].
    rewrite (querySelector_mapTD gr Hgr (cls "panelsection--title") eq_refl), Hti.
    rewrite (querySelector_mapTD gr Hgr (cls "pageroom--inroomheader") eq_refl), Hhd.
    cbn [next mapTD].
    destruct (createToggle P (next D3)) as [t nx].
    unfold insertBefore in *.
    change (parentElement (with_next (mapTD gr D3) nx) hdr)
      with (parentElement (mapTD gr D3) hdr).
    change (parentElement (with_next D3 nx) hdr) with (parentElement D3 hdr) in Hprep.
    rewrite parentElement_mapTD.
    destruct (parentElement D3 hdr) as [p'|]; [|reflexivity].
    destruct (Nat.eqb p' titleEl); [discriminate | reflexivity]. }
  exists (querySelector D3 sec sel_h3), (mapTD gr D3).
  split; [exact Hfind|]. split; [|split].
  - rewrite (applyFilter_finish P D3 _ sec Hfind). cbv zeta. rewrite Hprep3.
    f_equal. exact HE3.
  - unfold page. cbn [doc mapTD].
    pose proof (reset_undo D3 chars [] Hwf3 Hvis3
                  (fun s (H : In s []) => match H with end)) as Hu.
    cbn [mem existsb] in Hu. rewrite (map_ext _ _ mapT_id), map_id in Hu.
    fold gr in Hu. rewrite Hu. reflexivity.
  - unfold at_most_one in *.
    rewrite (doc_querySelectorAll_mapTD gr Hgr sel_sleepers eq_refl).
    rewrite (querySelectorAll_mapTD gr Hgr (cls toggle_class) eq_refl).
    rewrite (querySelectorAll_mapTD gr Hgr (cls no_awake_class) eq_refl). exact Hamo.
Qed.

(** ** Two passes in succession *)

(** With a container: a second pass ends as the first one did, on the
    same container, and shows the same page. *)
Lemma twice_with_container P D hd sec :
  wf D -> findInRoomSection D = Some (hd, sec) -> cleans_up D sec ->
  let o1 := applyFilter P D in
  let o2 := applyFilter P (store_of o1) in
  returned o2 = returned o1 /\
  page (store_of o2) = page (store_of o1) /\
  (exists hd', findInRoomSection (store_of o1) = Some (hd', sec)) /\
  at_most_one (store_of o1) sec /\ at_most_one (store_of o2) sec.
Proof.
  intros Hwf Hf Hc o1 o2.
  assert (Hq : doc_querySelector D sel_inroom = Some sec).
  { unfold findInRoomSection in Hf.
    destruct (doc_querySelector D sel_inroom); [|discriminate].
    injection Hf as _ ->. reflexivity. }
  subst o2 o1. rewrite (applyFilter_finish P D hd sec Hf). cbv zeta.
  destruct (prepared P D sec) as [D4|] eqn:Hprep.
  - pose proof (cleans_ready P D sec D4 Hwf Hq Hc Hprep) as Hready.
    destruct (finish P D4 sec _) as [D'|D6] eqn:Hfin; cbn [store_of].
    + destruct (rerun P D4 sec _ D' Hready Hfin) as (_ & _ & hd' & _ & Hfind & _).
      destruct (finish_twice P D4 sec _ D' Hready Hfin)
        as (_ & Hamo & D'' & Happ & Hpage & Hamo').
      rewrite Happ. cbn [store_of returned]. eauto 10.
    + destruct (thrown_twice P D4 sec _ D6 Hready Hfin)
        as (Hamo & hd' & E6 & Hfind & Happ & Hpage & Hamo').
      rewrite Happ. cbn [store_of returned]. eauto 10.
  - destruct (toggle_thrown_twice P D sec Hwf Hq Hc Hprep)
      as (Hamo & hd' & E3 & Hfind & Happ & Hpage & Hamo').
    cbn [store_of]. change (removePlaceholder _ sec) with (cleared D sec).
    rewrite Happ. cbn [store_of returned]. eauto 10.
Qed.

(** C1 (as the code has it).  Take a well-formed page on which, if it
    has a main-list container, the clean-up at the head of a pass works:
    it leaves the container in the document, no element with the id of
    the sleepers section in the document, and below the container no
    placeholder, all the character rows that were found, at most one
    toggle, and a toggle if one was found (unless the title or the
    header is missing).  Then a second pass of [applyFilter] ends as the
    first one did, returning or throwing, and leaves the page showing
    exactly what the first has left.  Without a container both passes
    return the store they were given.  With one, the second pass works
    on the same container, and after either pass there is at most one
    sleepers section in the document and at most one toggle and one
    placeholder in the container. *)
Theorem applyFilter_twice P D :
  wf D ->
  (forall hd sec, findInRoomSection D = Some (hd, sec) -> cleans_up D sec) ->
  let o1 := applyFilter P D in
  let o2 := applyFilter P (store_of o1) in
  returned o2 = returned o1 /\
  page (store_of o2) = page (store_of o1) /\
  (findInRoomSection D = None -> o1 = Returned D /\ o2 = Returned D) /\
  (forall hd sec, findInRoomSection D = Some (hd, sec) ->
     (exists hd', findInRoomSection (store_of o1) = Some (hd', sec)) /\
     at_most_one (store_of o1) sec /\ at_most_one (store_of o2) sec).
Proof.
  intros Hwf Hc o1 o2.
  destruct (findInRoomSection D) as [[hd sec]|] eqn:Hf.
  - destruct (twice_with_container P D hd sec Hwf Hf (Hc hd sec eq_refl))
      as (H1 & H2 & H3 & H4 & H5).
    split; [exact H1|]. split; [exact H2|]. split; [discriminate|].
    intros hd0 sec0 E. injection E as <- <-. auto.
  - assert (E1 : o1 = Returned D).
    { unfold o1, applyFilter. rewrite Hf. reflexivity. }
    assert (E2 : o2 = Returned D).
    { unfold o2. rewrite E1. cbn [store_of]. unfold applyFilter.
      rewrite Hf. reflexivity. }
    rewrite E1, E2. split; [reflexivity|]. split; [reflexivity|].
    split; [auto|]. discriminate.
Qed.

Lemma applyFilter_twice_witness :
  let o1 := applyFilter Ex.split_on Ex12.two_rooms in
  let o2 := applyFilter Ex.split_on (store_of o1) in
  returned o2 = returned o1 /\
  page (store_of o2) = page (store_of o1) /\
  (exists hd', findInRoomSection (store_of o1) = Some (hd', 3)) /\
  at_most_one (store_of o1) 3 /\ at_most_one (store_of o2) 3.
Proof.
  destruct (applyFilter_twice Ex.split_on Ex12.two_rooms) as (H1 & H2 & _ & H4).
  - apply wfb_wf. vm_compute. reflexivity.
  - intros hd sec E. vm_compute in E. injection E as <- <-.
    unfold cleans_up. cbv zeta.
    split; [vm_compute; repeat (first [left; reflexivity | right])|].
    split; [vm_compute; reflexivity|].
    split; [vm_compute; reflexivity|].
    split; [vm_compute; reflexivity|].
    split; [vm_compute; lia|].
    intros _. left. vm_compute. reflexivity.
  - split; [exact H1|]. split; [exact H2|].
    apply (H4 (Some 7) 3). vm_compute. reflexivity.
Defined.

(** The conditions on the page are needed.  With two stale
    placeholders in the container, each pass removes the first one it
    finds: after one pass in unified mode the page still shows a
    placeholder, after two it shows none. *)
Lemma applyFilter_twice_counterexample :
  let D := Ex8.stale_two in
  findInRoomSection D = Some (Some 9, 5) /\
  querySelectorAll D 5 (cls no_awake_class) = [20; 21] /\
  applyFilter Ex.split_off D = Returned Ex8.stale_once /\
  applyFilter Ex.split_off Ex8.stale_once = Returned Ex8.stale_twice /\
  querySelectorAll Ex8.stale_once 5 (cls no_awake_class) = [21] /\
  querySelectorAll Ex8.stale_twice 5 (cls no_awake_class) = [] /\
  page Ex8.stale_twice <> page Ex8.stale_once.
Proof.
  repeat split; try (vm_compute; reflexivity). vm_compute. discriminate.
Qed.

(** Each condition on the clean-up is needed: where one of them fails,
    so can the claim.  A second stale sleepers section is left in the
    document and the next pass removes it; a character row that is
    itself what the clean-up takes for the placeholder is counted by
    the first pass and not by the second; two stale toggles both stay;
    a toggle inside the stale placeholder is found, goes away with the
    placeholder, and the next pass puts in a new one; a container inside
    the stale section leaves the document, and the next pass works on
    another container. *)
Lemma cleans_up_needed :
  (let D := Ex12.two_sections in
   findInRoomSection D = Some (Some 7, 3) /\
   doc_querySelectorAll (cleared D 3) sel_sleepers = [19] /\
   page (after_two Ex.split_off D) <> page (after_one Ex.split_off D)) /\
  (let D := Ex3.stale_first in
   let D1 := removeSleepersSection D in
   findInRoomSection D = Some (Some 9, 5) /\
   getCharElements D1 (Some 5) = [12] /\
   querySelectorAll (cleared D 5) 5 sel_char = [] /\
   page (after_two Ex.split_on D) <> page (after_one Ex.split_on D)) /\
  (let D := Ex12.two_toggles in
   findInRoomSection D = Some (Some 9, 5) /\
   querySelectorAll (cleared D 5) 5 (cls toggle_class) = [20; 21] /\
   querySelectorAll (after_one Ex.split_off D) 5 (cls toggle_class) = [20; 21]) /\
  (let D := Ex12.toggle_in_placeholder in
   let D1 := removeSleepersSection D in
   findInRoomSection D = Some (Some 9, 5) /\
   querySelector D1 5 (cls toggle_class) = Some 21 /\
   querySelector (cleared D 5) 5 (cls toggle_class) = None /\
   page (after_two Ex.split_off D) <> page (after_one Ex.split_off D)) /\
  (let D := Ex12.room_in_section in
   findInRoomSection D = Some (Some 7, 3) /\
   ~ In 3 (handlesF (doc (cleared D 3))) /\
   findInRoomSection (after_one Ex.split_off D) = Some (Some 22, 18) /\
   page (after_two Ex.split_off D) <> page (after_one Ex.split_off D)).
Proof.
  repeat split; try (vm_compute; reflexivity); try (vm_compute; discriminate).
  vm_compute. intros H. repeat (destruct H as [H|H]; [discriminate|]). exact H.
Qed.

(** * Further properties *)
(** ** Avatar URLs *)

Lemma includes_question_cons a u :
  includes (String a u) "?" = false ->
  Ascii.eqb a "?"%char = false /\ includes u "?" = false.
Proof.
  cbn [includes prefixb]. intros H. apply orb_false_elim in H as [H1 H2].
  rewrite andb_true_r in H1. rewrite Ascii.eqb_sym. split; assumption.
Qed.

(** Stripping the query string: for a URL [u] without a question mark,
    [(u + "?" + q).split("?")[0]] is [u], whatever [q] is, and [u]
    itself is left as it is. *)
Lemma before_question_strips u q :
  includes u "?" = false ->
  before_question (String.append u (String "?"%char q)) = u /\
  before_question u = u.
Proof.
  induction u as [|a u IH]; intros H.
  - split; reflexivity.
  - apply includes_question_cons in H as [Ha Hu].
    destruct (IH Hu) as [IH1 IH2]. cbn [String.append before_question].
    rewrite Ha, IH1, IH2. split; reflexivity.
Qed.

Lemma set_has_In x s : set_has x s = true <-> In x s.
Proof.
  unfold set_has. rewrite existsb_exists. split.
  - intros (y & Hy & E). apply String.eqb_eq in E. subst. exact Hy.
  - intros H. exists x. split; [exact H | apply String.eqb_refl].
Qed.

Lemma set_add_NoDup x s : NoDup s -> NoDup (set_add x s).
Proof.
  intros H. unfold set_add. destruct (existsb (String.eqb x) s) eqn:E; [exact H|].
  apply NoDup_app; [exact H | repeat constructor; intros [] |].
  intros y Hy [<-|[]].
  assert (H0 : set_has x s = true) by (apply set_has_In; exact Hy).
  unfold set_has in H0. congruence.
Qed.

Lemma avatar_loop_NoDup D sl : forall acc,
  NoDup acc -> NoDup (fold_left (addAvatarUrl D) sl acc).
Proof.
  induction sl as [|s sl IH]; intros acc H; [exact H|].
  cbn [fold_left]. apply IH. rewrite addAvatarUrl_signature.
  destruct (sleeper_signature D s); [apply set_add_NoDup|]; exact H.
Qed.

(** X2.  The set of avatar URLs that [filterExitChars] builds from the
    sleepers holds every URL once; a URL is in it exactly when one of
    the sleepers has an avatar image with that URL up to the query
    string.  Its size is 0, and the function returns early, exactly
    when no sleeper has such an image. *)
Theorem sleeperAvatarUrls_set D sl :
  NoDup (sleeperAvatarUrls D sl) /\
  (forall u, In u (sleeperAvatarUrls D sl) <->
             exists s, In s sl /\ sleeper_signature D s = Some u) /\
  (Nat.eqb (List.length (sleeperAvatarUrls D sl)) 0 = true <->
   forall s, In s sl -> sleeper_signature D s = None).
Proof.
  assert (Hin : forall u, In u (sleeperAvatarUrls D sl) <->
                  exists s, In s sl /\ sleeper_signature D s = Some u).
  { intros u. rewrite <- set_has_In. apply sleeperAvatarUrls_has. }
  split; [apply avatar_loop_NoDup; constructor|]. split; [exact Hin|].
  rewrite Nat.eqb_eq. split.
  - intros H s Hs. destruct (sleeper_signature D s) as [u|] eqn:E; [|reflexivity].
    assert (Hu : In u (sleeperAvatarUrls D sl)) by (apply Hin; eauto).
    destruct (sleeperAvatarUrls D sl); [destruct Hu | discriminate].
  - intros H. destruct (sleeperAvatarUrls D sl) as [|u l]; [reflexivity|].
    destruct (proj1 (Hin u) (or_introl eq_refl)) as (s & Hs & Hsig).
    rewrite (H s Hs) in Hsig. discriminate.
Qed.

(** ** Sorting the characters *)

Lemma filter_partition {A} (f : A -> bool) (l : list A) :
  Permutation (filter f l ++ filter (fun x => negb (f x)) l) l.
Proof.
  induction l as [|x l IH]; [constructor|].
  cbn [filter]. destruct (f x); cbn [negb app].
  - constructor. exact IH.
  - apply Permutation_sym, Permutation_cons_app, Permutation_sym. exact IH.
Qed.

(** X3.  The loop that sorts the characters: the sleepers are the
    characters that [isSleeperChar] accepts on the page as it is when
    the loop starts, the awake ones are the others, both in the order
    of the list; hiding a row does not change how a later row is
    classified.  Together they are the characters, and afterwards a
    character is hidden exactly when it is a sleeper or was hidden
    before. *)
Theorem categorize_partition D cs :
  let '(D5, sleepers, awake) := categorize D cs in
  sleepers = filter (isSleeperChar D) cs /\
  awake = filter (fun el => negb (isSleeperChar D el)) cs /\
  Permutation (sleepers ++ awake) cs /\
  forall el, In el cs ->
    is_hidden D5 el = (isSleeperChar D el && negb (is_hidden D el) || is_hidden D el).
Proof.
  rewrite categorize_spec. split; [reflexivity|]. split; [reflexivity|].
  split; [apply filter_partition|].
  intros el Hel. rewrite !is_hidden_elem_at, elem_at_mapTD.
  destruct (elem_at D el) as [e|] eqn:E; cbn [option_map].
  - destruct (mem el (filter (isSleeperChar D) cs)) eqn:M.
    + apply mem_In, filter_In in M as [_ M]. rewrite M, has_class_add.
      destruct (has_class hidden e); reflexivity.
    + destruct (isSleeperChar D el) eqn:S.
      * assert (mem el (filter (isSleeperChar D) cs) = true).
        { apply mem_In, filter_In. auto. }
        congruence.
      * reflexivity.
  - unfold isSleeperChar, classList_contains, querySelector, querySelectorAll.
    unfold elem_at in E. destruct (locate D el) as [[a n]|]; [discriminate|].
    reflexivity.
Qed.

(** ** The observer's loop *)

(** X4.  The loop of the observer callback asks for a new pass exactly
    when some record of the batch has a target, is not skipped as one
    of the script's own, and is relevant; where the loop breaks does
    not matter, so the order of the records does not, and a longer
    batch never asks for less.  A record on an element is relevant when
    nodes were added or removed, or when the string read from
    [className] contains one of five words: that string is the class
    attribute of an HTML element, and holds none of the words for an
    SVG element. *)
Theorem shouldReapply_any D ms :
  (shouldReapply D ms = true <->
   exists m, In m ms /\ m_target m <> TNull /\
             own_target D (m_target m) = false /\ relevant D m = true) /\
  (forall ms', Permutation ms ms' -> shouldReapply D ms' = shouldReapply D ms) /\
  (forall ms', shouldReapply D (ms ++ ms') = shouldReapply D ms || shouldReapply D ms') /\
  (forall m h e, m_target m = TElem h -> elem_at D h = Some e ->
     relevant D m
     = (if svg e then false
        else existsb (includes (className e))
               ["pageroom"; "panelsection"; "common--level"; "fader"; "badge"])
       || Nat.ltb 0 (addedNodes m) || Nat.ltb 0 (removedNodes m)).
Proof.
  assert (Hsvg : forall m h e, m_target m = TElem h -> elem_at D h = Some e ->
     relevant D m
     = (if svg e then false
        else existsb (includes (className e))
               ["pageroom"; "panelsection"; "common--level"; "fader"; "badge"])
       || Nat.ltb 0 (addedNodes m) || Nat.ltb 0 (removedNodes m)).
  { intros m h e Ht He. unfold relevant, target_className. rewrite Ht.
    unfold elem_at in He. destruct (locate D h) as [[a n]|]; [|discriminate].
    cbn [option_map snd] in He. injection He as <-.
    unfold className_toString. destruct (svg (elem_of n)).
    - change (includes "[object SVGAnimatedString]" "pageroom") with false.
      change (includes "[object SVGAnimatedString]" "panelsection") with false.
      change (includes "[object SVGAnimatedString]" "common--level") with false.
      change (includes "[object SVGAnimatedString]" "fader") with false.
      change (includes "[object SVGAnimatedString]" "badge") with false.
      reflexivity.
    - cbn [existsb]. rewrite orb_false_r, !orb_assoc. reflexivity. }
  assert (Hex : forall l, shouldReapply D l = existsb (triggers D) l).
  { induction l as [|m l IH]; [reflexivity|].
    cbn [shouldReapply existsb]. unfold triggers at 1. rewrite <- IH.
    destruct (m_target m) as [| |h] eqn:T; [reflexivity| |].
    - destruct (own_target D TNode); cbn [negb andb orb]; [reflexivity|].
      destruct (relevant D m); reflexivity.
    - destruct (own_target D (TElem h)); cbn [negb andb orb]; [reflexivity|].
      destruct (relevant D m); reflexivity. }
  split; [|split; [|split; [|exact Hsvg]]]; clear Hsvg.
  - rewrite Hex, existsb_exists. split.
    + intros (m & Hm & Ht). exists m. split; [exact Hm|]. unfold triggers in Ht.
      destruct (m_target m); [discriminate| |];
        apply andb_true_iff in Ht as [H1 H2]; apply negb_true_iff in H1;
        (split; [discriminate | split; assumption]).
    + intros (m & Hm & Hn & Ho & Hr). exists m. split; [exact Hm|].
      unfold triggers. destruct (m_target m); [congruence| |];
        rewrite Ho, Hr; reflexivity.
  - intros ms' Hp. rewrite !Hex.
    destruct (existsb (triggers D) ms) eqn:E.
    + apply existsb_exists in E as (m & Hm & Ht). apply existsb_exists.
      exists m. split; [apply (Permutation_in _ Hp Hm) | exact Ht].
    + destruct (existsb (triggers D) ms') eqn:E'; [|reflexivity].
      apply existsb_exists in E' as (m & Hm & Ht).
      assert (existsb (triggers D) ms = true).
      { apply existsb_exists. exists m.
        split; [apply (Permutation_in _ (Permutation_sym Hp) Hm) | exact Ht]. }
      congruence.
  - intros ms'. rewrite !Hex. apply existsb_app.
Qed.

(** ** What is stored *)

Lemma react_stored e S D :
  s_prefs S = loadPrefs (s_storage S) ->
  s_prefs (fst (react e S D)) = loadPrefs (s_storage (fst (react e S D))).
Proof.
  intros H. destruct S as [P st l]. cbn [s_prefs s_storage] in H. subst P.
  destruct e as [t|a l0| | |D']; cbn [react].
  - unfold toggleClick. reflexivity.
  - unfold headerClick. reflexivity.
  - cbn [s_prefs s_storage lastRoomPanel].
    destruct (scanTick (loadPrefs st) l D). reflexivity.
  - reflexivity.
  - reflexivity.
Qed.

(** X5.  The two state variables are read from the stored values when
    the script starts, and each click listener stores the value it has
    just changed: whatever happens (clicks on toggles and headers,
    scans, passes, the host changing the page), the state of the script
    is what a reload would read back from the stored values. *)
Theorem prefs_are_stored es st D :
  let S := fst (run es (start st) D) in
  s_prefs S = loadPrefs (s_storage S).
Proof.
  cbv zeta.
  assert (H : forall es S D, s_prefs S = loadPrefs (s_storage S) ->
              s_prefs (fst (run es S D)) = loadPrefs (s_storage (fst (run es S D)))).
  { clear. induction es as [|e es IH]; intros S D H; [exact H|].
    cbn [run]. pose proof (react_stored e S D H) as H'.
    destruct (react e S D) as [S' D']. apply IH. exact H'. }
  apply H. reflexivity.
Qed.

(** ** Exit thumbnails and the query string *)

Lemma includes_question_nil s : includes s "?" = false -> before_question s = s.
Proof. intros H. exact (proj2 (before_question_strips s "" H)). Qed.

Lemma before_question_clean s : includes (before_question s) "?" = false.
Proof.
  induction s as [|a s IH]; [reflexivity|]. cbn [before_question].
  destruct (Ascii.eqb a "?"%char) eqn:E; [reflexivity|].
  cbn [includes prefixb]. rewrite IH, andb_true_r, Ascii.eqb_sym, E. reflexivity.
Qed.

Lemma before_question_rest s :
  s = before_question s \/
  exists q, s = String.append (before_question s) (String "?"%char q).
Proof.
  induction s as [|a s IH]; [left; reflexivity|]. cbn [before_question].
  destruct (Ascii.eqb a "?"%char) eqn:E.
  - apply Ascii.eqb_eq in E. subst a. right. exists s. reflexivity.
  - destruct IH as [IH|[q IH]].
    + left. f_equal. exact IH.
    + right. exists q. cbn [String.append]. f_equal. exact IH.
Qed.

(** [before_question] computes the URL up to the first question mark,
    and nothing else is one. *)
Lemma up_to_query_iff u s : up_to_query u s <-> before_question s = u.
Proof.
  split.
  - intros [Hu [->|[q ->]]].
    + apply includes_question_nil, Hu.
    + apply (proj1 (before_question_strips u q Hu)).
  - intros <-. split; [apply before_question_clean | apply before_question_rest].
Qed.

(** X1.  In split mode an exit thumbnail is hidden exactly when it has
    an image with a URL, some sleeper has an avatar image with a URL,
    and the two URLs are the same up to the first question mark: what
    follows it on either side ([?thumb=s], [?thumb=m]) does not matter,
    nor whether there is a question mark at all. *)
Theorem thumbnail_hidden_up_to_query P D sl x :
  wf D -> splitEnabled P = true ->
  In x (getExitCharElements D) ->
  (is_hidden (filterExitChars P D sl) x = true <->
   exists ix s ia u,
     querySelector D x sel_img = Some ix /\ img_src D ix <> "" /\
     In s sl /\
     querySelector D s sel_avatar_img = Some ia /\ img_src D ia <> "" /\
     up_to_query u (img_src D ix) /\ up_to_query u (img_src D ia)).
Proof.
  intros Hwf Hsp Hx.
  rewrite (filterExitChars_hidden P D sl x Hwf Hx).
  unfold signature_matches, exit_signature, sleeper_signature, signature.
  split.
  - intros (_ & u & s & Hu & Hs & Hsu).
    destruct (querySelector D x sel_img) as [ix|] eqn:Hix; [|discriminate].
    destruct (String.eqb (img_src D ix) "") eqn:Ex; [discriminate|].
    destruct (querySelector D s sel_avatar_img) as [ia|] eqn:Hia; [|discriminate].
    destruct (String.eqb (img_src D ia) "") eqn:Ea; [discriminate|].
    injection Hu as Hu. injection Hsu as Hsu.
    exists ix, s, ia, u. apply String.eqb_neq in Ex, Ea.
    repeat (split; [assumption || reflexivity|]).
    split; apply up_to_query_iff; assumption.
  - intros (ix & s & ia & u & Hix & Hnx & Hs & Hia & Hna & Hux & Hua).
    split; [exact Hsp|]. exists u, s. rewrite Hix, Hia.
    apply String.eqb_neq in Hnx, Hna. rewrite Hnx, Hna.
    apply up_to_query_iff in Hux, Hua. rewrite Hux, Hua. auto.
Qed.

Lemma thumbnail_hidden_up_to_query_witness :
  is_hidden (filterExitChars Ex.split_on Ex11.plain_exit [14]) 5 = true.
Proof.
  apply (thumbnail_hidden_up_to_query Ex.split_on Ex11.plain_exit [14] 5).
  - apply wfb_wf. vm_compute. reflexivity.
  - reflexivity.
  - vm_compute. left. reflexivity.
  - exists 6, 14, 19, "https://img/1".
    split; [vm_compute; reflexivity|]. split; [vm_compute; discriminate|].
    split; [left; reflexivity|]. split; [vm_compute; reflexivity|].
    split; [vm_compute; discriminate|].
    split; (split; [vm_compute; reflexivity|]).
    + left. vm_compute. reflexivity.
    + right. exists "thumb=m". vm_compute. reflexivity.
Defined.

(** ** The header of the sleepers section *)

Lemma classList_toggle_mapTD D el c force :
  classList_toggle D el c force =
  mapTD (fun h e => if Nat.eqb h el
                    then (if force then add_class c e else remove_class c e)
                    else e) D.
Proof.
  unfold classList_toggle, classList_add, classList_remove.
  destruct force; apply updD_mapTD.
Qed.

Lemma inside_handles m n : inside m n -> In (handle_of m) (handles n).
Proof.
  intros H. destruct (inside_walk m n H []) as [a Ha].
  rewrite (handles_walk n []).
  exact (in_map (fun p => handle_of (snd p)) _ _ Ha).
Qed.

Lemma mapT_fix g n :
  (forall h, In h (handles n) -> forall e, g h e = e) -> mapT g n = n.
Proof.
  intros H. rewrite <- (mapT_id n) at 2. apply mapT_ext_inside.
  intros m Hm. apply H, inside_handles, Hm.
Qed.

Lemma map_mapT_fix g ns :
  (forall h, In h (handlesF ns) -> forall e, g h e = e) -> map (mapT g) ns = ns.
Proof.
  intros H. induction ns as [|n ns IH]; [reflexivity|].
  cbn [map]. f_equal.
  - apply mapT_fix. intros h Hh. apply H. unfold handlesF. cbn [flat_map].
    apply in_or_app. left. exact Hh.
  - apply IH. intros h Hh. apply H. unfold handlesF. cbn [flat_map].
    apply in_or_app. right. exact Hh.
Qed.

(** X6.  A click on the header of a sleepers section flips
    [sleepersOpen], stores it, and leaves the section exactly as
    [createSleepersSection] builds it for the new state: the arrow
    with or without [open], the list with or without [collapsed], the
    count and the clones as they were. *)
Theorem headerClick_rebuilds P st D sl D0 :
  option_map snd (locate D0 (next D)) = Some (fst (createSleepersSection P D sl)) ->
  let '(P', st', D2) :=
    headerClick (section_arrow (next D)) (section_list (next D)) P st D0 in
  sleepersOpen P' = negb (sleepersOpen P) /\
  splitEnabled P' = splitEnabled P /\
  GM_getValue st' sleepersOpenKey false = sleepersOpen P' /\
  option_map snd (locate D2 (next D))
  = Some (fst (createSleepersSection P' D sl)).
Proof.
  intros Hloc. unfold headerClick.
  split; [reflexivity|]. split; [reflexivity|]. split; [reflexivity|].
  rewrite !classList_toggle_mapTD, mapTD_mapTD, locate_mapTD.
  destruct (locate D0 (next D)) as [[a n]|]; [|discriminate].
  cbn [option_map snd] in Hloc. injection Hloc as ->.
  cbn [option_map mapP snd]. f_equal.
  pose proof (createSleepersSection_numbers P D sl) as Hnum. cbv zeta in Hnum.
  destruct Hnum as [Hnum _].
  assert (Hnd : NoDup (handles (fst (createSleepersSection P D sl)))).
  { rewrite Hnum. apply seq_NoDup. }
  clear Hnum. revert Hnd. unfold createSleepersSection, section_arrow, section_list.
  set (nx := next D).
  set (B := if Nat.eqb (List.length sl) 0
            then ([Node (nx + 6)
                     (new_elem "div" "" [no_sleepers_class] "No sleepers in room.") []],
                  nx + 7)
            else fold_left (clone_sleeper D) sl ([], nx + 6)).
  destruct B as [body nx']. cbn [fst sleepersOpen].
  intros Hnd. cbn [handles flat_map] in Hnd. rewrite !app_nil_r in Hnd.
  cbn [app] in Hnd.
  assert (Hbody : forall h, In h (handlesF body) -> h <> nx + 2 /\ h <> nx + 5).
  { intros h Hh. split; intros ->.
    - apply NoDup_cons_iff in Hnd as [_ Hnd]. apply NoDup_cons_iff in Hnd as [_ Hnd].
      apply NoDup_cons_iff in Hnd as [Hnd _]. apply Hnd.
      right. right. right. exact Hh.
    - do 5 (apply NoDup_cons_iff in Hnd as [_ Hnd]).
      apply NoDup_cons_iff in Hnd as [Hnd _]. apply Hnd. exact Hh. }
  cbn [mapT map].
  rewrite map_mapT_fix.
  2:{ intros h Hh e. destruct (Hbody h Hh) as [H2 H5].
      rewrite (proj2 (Nat.eqb_neq h (nx + 2)) H2), (proj2 (Nat.eqb_neq h (nx + 5)) H5).
      reflexivity. }
  rewrite !Nat.eqb_refl.
  replace (Nat.eqb nx (nx + 2)) with false by (symmetry; apply Nat.eqb_neq; lia).
  replace (Nat.eqb nx (nx + 5)) with false by (symmetry; apply Nat.eqb_neq; lia).
  replace (Nat.eqb (nx + 1) (nx + 2)) with false by (symmetry; apply Nat.eqb_neq; lia).
  replace (Nat.eqb (nx + 1) (nx + 5)) with false by (symmetry; apply Nat.eqb_neq; lia).
  replace (Nat.eqb (nx + 2) (nx + 5)) with false by (symmetry; apply Nat.eqb_neq; lia).
  replace (Nat.eqb (nx + 3) (nx + 2)) with false by (symmetry; apply Nat.eqb_neq; lia).
  replace (Nat.eqb (nx + 3) (nx + 5)) with false by (symmetry; apply Nat.eqb_neq; lia).
  replace (Nat.eqb (nx + 4) (nx + 2)) with false by (symmetry; apply Nat.eqb_neq; lia).
  replace (Nat.eqb (nx + 4) (nx + 5)) with false by (symmetry; apply Nat.eqb_neq; lia).
  replace (Nat.eqb (nx + 5) (nx + 2)) with false by (symmetry; apply Nat.eqb_neq; lia).
  destruct (sleepersOpen P); reflexivity.
Qed.

Lemma headerClick_rebuilds_witness :
  let '(P', st', D2) :=
    headerClick (section_arrow (next Ex9.five_sorted))
                (section_list (next Ex9.five_sorted)) Ex.split_on [] Ex2.five_split in
  sleepersOpen P' = negb (sleepersOpen Ex.split_on) /\
  splitEnabled P' = splitEnabled Ex.split_on /\
  GM_getValue st' sleepersOpenKey false = sleepersOpen P' /\
  option_map snd (locate D2 (next Ex9.five_sorted))
  = Some (fst (createSleepersSection P' Ex9.five_sorted Ex2.sleepers)).
Proof.
  apply (headerClick_rebuilds Ex.split_on [] Ex9.five_sorted Ex2.sleepers
           Ex2.five_split).
  vm_compute. reflexivity.
Defined.

(** ** What a pass leaves alone *)

Lemma keeps_refl D : wf D -> keeps D D.
Proof.
  intros H. split; [exact H|]. split; [lia|]. intros h e He. exists e.
  split; [exact He | apply same_but_hidden_refl].
Qed.

Lemma keeps_trans D1 D2 D3 : keeps D1 D2 -> keeps D2 D3 -> keeps D1 D3.
Proof.
  intros (_ & Hn1 & H1) (Hwf & Hn2 & H2). split; [exact Hwf|]. split; [lia|].
  intros h e He. destruct (H1 h e He) as (e1 & He1 & Hs1).
  destruct (H2 h e1 He1) as (e2 & He2 & Hs2). exists e2.
  split; [exact He2 | exact (same_but_hidden_trans _ _ _ Hs1 Hs2)].
Qed.

Lemma keeps_mapTD g D : hidden_only g -> wf D -> keeps D (mapTD g D).
Proof.
  intros Hg Hwf. split; [apply wf_mapTD; exact Hwf|]. split; [simpl; lia|].
  intros h e He. exists (g h e). rewrite elem_at_mapTD, He.
  split; [reflexivity | apply Hg].
Qed.

Lemma keeps_same D D' :
  wf D' -> next D <= next D' -> (forall h, elem_at D' h = elem_at D h) ->
  keeps D D'.
Proof.
  intros Hwf Hn H. split; [exact Hwf|]. split; [exact Hn|].
  intros h e He. exists e. rewrite H. split; [exact He | apply same_but_hidden_refl].
Qed.

Lemma keeps_grow D D' extra :
  wf D -> wf D' ->
  Permutation (cellsD D') (extra ++ cellsD D) ->
  Forall (fun x => next D <= x) (map fst extra) ->
  next D <= next D' ->
  keeps D D'.
Proof.
  intros Hwf Hwf' Hp Hex Hn. split; [exact Hwf'|]. split; [exact Hn|].
  intros h e He. exists e. split; [|apply same_but_hidden_refl].
  rewrite (elem_at_grow D D' extra h Hwf Hwf' Hp Hex); [exact He|].
  exact (located_lt D h e Hwf He).
Qed.

Lemma Forall_range_lower (a b : handle) (l : list handle) :
  Forall (fun h => a <= h < b) l -> Forall (fun x => a <= x) l.
Proof. apply Forall_impl. intros x Hx. lia. Qed.

Lemma keeps_appendChild D p new nx :
  wf D ->
  NoDup (map fst (cells new)) ->
  Forall (fun h => next D <= h < nx) (map fst (cells new)) ->
  next D <= nx ->
  keeps D (appendChild (with_next D nx) p new).
Proof.
  intros Hwf Hnd Hr Hn.
  pose proof (wf_appendChild D p new nx Hwf Hnd Hr Hn) as Hwf'.
  destruct (appendChild_cells (with_next D nx) p new (wf_with_next D nx Hwf Hn))
    as [Hp|He]; rewrite ?cellsD_with_next in *.
  - apply (keeps_grow D _ (cells new) Hwf Hwf' Hp (Forall_range_lower _ _ _ Hr)).
    exact Hn.
  - apply (keeps_grow D _ [] Hwf Hwf'); [rewrite He; reflexivity | constructor | exact Hn].
Qed.

Lemma keeps_insertBefore D p new ref nx D' :
  wf D ->
  NoDup (map fst (cells new)) ->
  Forall (fun h => next D <= h < nx) (map fst (cells new)) ->
  next D <= nx ->
  insertBefore (with_next D nx) p new ref = Some D' ->
  keeps D D'.
Proof.
  intros Hwf Hnd Hr Hn Hins.
  destruct (insertBefore_cells (with_next D nx) p new ref D'
              (wf_with_next D nx Hwf Hn) Hins) as [Hp Hnx].
  rewrite cellsD_with_next in Hp. simpl in Hnx.
  assert (Hwf' : wf D').
  { apply (wf_grow D D' (cells new) Hwf Hp Hnd); [|lia].
    rewrite Hnx. exact Hr. }
  apply (keeps_grow D D' (cells new) Hwf Hwf' Hp (Forall_range_lower _ _ _ Hr)).
  lia.
Qed.

Lemma keeps_head D cs s :
  wf D ->
  keeps D (removePlaceholder (resetChars (removeSleepersSection D) cs) s).
Proof.
  intros Hwf.
  apply (keeps_trans _ (removeSleepersSection D)).
  { apply keeps_same; [apply wf_removeSleepersSection; exact Hwf
                      | rewrite next_removeSleepersSection; lia
                      | intros h; apply elem_at_removeSleepersSection; exact Hwf]. }
  pose proof (wf_removeSleepersSection D Hwf) as Hwf1.
  apply (keeps_trans _ (resetChars (removeSleepersSection D) cs)).
  { rewrite resetChars_mapTD. apply keeps_mapTD; [apply hidden_only_mem_remove | exact Hwf1]. }
  assert (Hwf2 : wf (resetChars (removeSleepersSection D) cs)).
  { rewrite resetChars_mapTD. apply wf_mapTD. exact Hwf1. }
  apply keeps_same; [apply wf_removePlaceholder; exact Hwf2
                    | rewrite next_removePlaceholder; lia
                    | intros h; apply elem_at_removePlaceholder; exact Hwf2].
Qed.

Lemma keeps_ensureToggle P D s ex D4 :
  wf D -> ensureToggle P D s ex = Some D4 -> keeps D D4.
Proof.
  intros Hwf H. destruct (wf_ensureToggle P D s ex D4 Hwf H) as [Hwf4 Hn].
  split; [exact Hwf4|]. split; [exact Hn|]. intros h e He. exists e.
  split; [|apply same_but_hidden_refl].
  rewrite (elem_at_ensureToggle P D s ex D4 h Hwf H); [exact He|].
  exact (located_lt D h e Hwf He).
Qed.

Lemma keeps_unhide D : wf D -> keeps D (unhideExitChars D).
Proof.
  intros Hwf. rewrite unhideExitChars_mapTD.
  apply keeps_mapTD; [apply hidden_only_mem_remove | exact Hwf].
Qed.

Lemma keeps_placeholder D cs aw : wf D -> keeps D (addNoAwakePlaceholder D cs aw).
Proof.
  intros Hwf. rewrite addNoAwakePlaceholder_cases.
  destruct aw; [|apply keeps_refl; exact Hwf].
  destruct (hd_error cs); [|apply keeps_refl; exact Hwf].
  destruct (parentElement D h); [|apply keeps_refl; exact Hwf].
  apply keeps_appendChild; [exact Hwf | | | lia].
  - simpl. repeat constructor. intros [].
  - simpl. repeat constructor; lia.
Qed.

Lemma keeps_insertSleepersSection D nx sec s D7 :
  wf D ->
  handles s = seq (next D) (nx - next D) -> next D < nx ->
  insertSleepersSection (with_next D nx) sec s = Some D7 ->
  keeps D D7.
Proof.
  intros Hwf Hnum Hlt H.
  assert (Hnd : NoDup (map fst (cells s))).
  { rewrite <- handles_cells, Hnum. apply seq_NoDup. }
  assert (Hr : Forall (fun h => next D <= h < nx) (map fst (cells s))).
  { rewrite <- handles_cells, Hnum. apply Forall_forall. intros h Hh.
    apply in_seq in Hh. lia. }
  unfold insertSleepersSection in H.
  destruct (parentElement (with_next D nx) sec) as [p|];
    [|destruct (nextSibling (with_next D nx) sec); discriminate].
  destruct (nextSibling (with_next D nx) sec) as [r|].
  - apply (keeps_insertBefore D p s r nx D7 Hwf Hnd Hr); [lia | exact H].
  - injection H as <-. apply keeps_appendChild; [exact Hwf | exact Hnd | exact Hr | lia].
Qed.

Lemma keeps_finish P D4 sec chars :
  wf D4 -> keeps D4 (store_of (finish P D4 sec chars)).
Proof.
  intros Hwf. unfold finish. destruct (splitEnabled P); cbn [negb];
    [|apply keeps_unhide; exact Hwf].
  rewrite categorize_spec.
  set (g := fun h e => if mem h (filter (isSleeperChar D4) chars)
                       then add_class hidden e else e).
  set (sl := filter (isSleeperChar D4) chars).
  set (aw := filter (fun el => negb (isSleeperChar D4 el)) chars).
  assert (H5 : keeps D4 (mapTD g D4))
    by (apply keeps_mapTD; [apply hidden_only_mem_add | exact Hwf]).
  set (D5 := mapTD g D4) in *.
  assert (H6 : keeps D4 (addNoAwakePlaceholder D5 chars aw)).
  { apply (keeps_trans _ D5 _ H5). apply keeps_placeholder. exact (proj1 H5). }
  set (D6 := addNoAwakePlaceholder D5 chars aw) in *.
  pose proof (createSleepersSection_numbers P D6 sl) as Hnum. cbv zeta in Hnum.
  destruct (createSleepersSection P D6 sl) as [s nx]. cbn [fst snd] in Hnum.
  destruct Hnum as [Hnum Hlt].
  destruct (insertSleepersSection (with_next D6 nx) sec s) as [D7|] eqn:H7;
    cbn [store_of]; [|exact H6].
  pose proof (keeps_insertSleepersSection D6 nx sec s D7 (proj1 H6) Hnum Hlt H7) as K7.
  apply (keeps_trans _ D6 _ H6). apply (keeps_trans _ D7 _ K7).
  destruct (filterExitChars_mapTD P D7 sl) as (g' & Hg' & ->).
  apply keeps_mapTD; [exact Hg' | exact (proj1 K7)].
Qed.

Lemma pass_keeps P D : wf D -> keeps D (store_of (applyFilter P D)).
Proof.
  intros Hwf. destruct (findInRoomSection D) as [[hd s]|] eqn:F.
  - rewrite (applyFilter_finish P D hd s F). cbv zeta. unfold prepared.
    set (cs := getCharElements (removeSleepersSection D) (Some s)).
    set (D3 := removePlaceholder (resetChars (removeSleepersSection D) cs) s).
    pose proof (keeps_head D cs s Hwf) as K3. fold D3 in K3.
    destruct (ensureToggle P D3 s _) as [D4|] eqn:E; cbn [store_of]; [|exact K3].
    pose proof (keeps_ensureToggle P D3 s _ D4 (proj1 K3) E) as K4.
    apply (keeps_trans _ D3 _ K3). apply (keeps_trans _ D4 _ K4).
    apply keeps_finish. exact (proj1 K4).
  - unfold applyFilter. rewrite F. apply keeps_refl. exact Hwf.
Qed.

(** X7.  A pass changes nothing of the elements it finds but the
    hidden marker: every element that exists before the pass exists
    after it (in the document, or removed but alive), with the same
    tag, id, image URL and text and the same classes apart from
    [msf-hidden-char]; this holds when the pass throws, too.  The store
    stays well formed: the elements the pass makes are new objects. *)
Theorem applyFilter_keeps_elements P D :
  wf D ->
  let D' := store_of (applyFilter P D) in
  wf D' /\
  forall h e, elem_at D h = Some e ->
    exists e', elem_at D' h = Some e' /\
      tag e' = tag e /\ eid e' = eid e /\ src e' = src e /\ text e' = text e /\
      forall c, c <> hidden -> has_class c e' = has_class c e.
Proof.
  intros Hwf D'. destruct (pass_keeps P D Hwf) as (Hwf' & _ & H).
  split; [exact Hwf'|]. intros h e He.
  destruct (H h e He) as (e' & He' & H1 & H2 & H3 & H4 & H5).
  exists e'. split; [exact He'|]. repeat split; try congruence.
  intros c Hc. symmetry. apply H5, Hc.
Qed.

Lemma applyFilter_keeps_elements_witness :
  let D' := store_of (applyFilter Ex.split_on Ex.five) in
  wf D' /\
  forall h e, elem_at Ex.five h = Some e ->
    exists e', elem_at D' h = Some e' /\
      tag e' = tag e /\ eid e' = eid e /\ src e' = src e /\ text e' = text e /\
      forall c, c <> hidden -> has_class c e' = has_class c e.
Proof.
  apply (applyFilter_keeps_elements Ex.split_on Ex.five).
  apply wfb_wf. vm_compute. reflexivity.
Defined.

(** ** The toggle *)

(** X8.  A click on the toggle flips [splitEnabled], stores it, sets
    the switch and runs a pass with the new state; when the listener is
    done (whether the pass returned or threw) the switch carries
    [active] exactly when splitting is on. *)
Theorem toggleClick_switch P st D t :
  wf D -> elem_at D t <> None ->
  let '(P', st', o) := toggleClick t P st D in
  splitEnabled P' = negb (splitEnabled P) /\
  sleepersOpen P' = sleepersOpen P /\
  GM_getValue st' storageKey false = splitEnabled P' /\
  o = applyFilter P' (classList_toggle D t "active" (splitEnabled P')) /\
  classList_contains (store_of o) t "active" = splitEnabled P'.
Proof.
  intros Hwf Ht. unfold toggleClick. cbn [splitEnabled sleepersOpen].
  split; [reflexivity|]. split; [reflexivity|]. split; [reflexivity|].
  split; [reflexivity|].
  set (b := negb (splitEnabled P)).
  set (P' := mkPrefs b (sleepersOpen P)).
  rewrite classList_toggle_mapTD.
  set (g := fun (h : handle) (e : elem) =>
              if Nat.eqb h t
              then (if b then add_class "active" e else remove_class "active" e)
              else e).
  assert (Hwf1 : wf (mapTD g D)) by (apply wf_mapTD; exact Hwf).
  destruct (elem_at D t) as [e|] eqn:E; [|congruence].
  assert (E1 : elem_at (mapTD g D) t = Some (g t e)).
  { rewrite elem_at_mapTD, E. reflexivity. }
  destruct (pass_keeps P' (mapTD g D) Hwf1) as (_ & _ & K).
  destruct (K t (g t e) E1) as (e' & He' & _ & _ & _ & _ & Hc).
  rewrite classList_contains_elem_at, He', <- Hc by discriminate.
  unfold g. rewrite Nat.eqb_refl. destruct b;
    [apply has_class_add | apply has_class_remove].
Qed.

Lemma toggleClick_switch_witness :
  let '(P', st', o) := toggleClick (toggle_switch 56) Ex.split_on [] Ex2.five_split in
  splitEnabled P' = negb (splitEnabled Ex.split_on) /\
  sleepersOpen P' = sleepersOpen Ex.split_on /\
  GM_getValue st' storageKey false = splitEnabled P' /\
  o = applyFilter P'
        (classList_toggle Ex2.five_split (toggle_switch 56) "active" (splitEnabled P')) /\
  classList_contains (store_of o) (toggle_switch 56) "active" = splitEnabled P'.
Proof.
  apply (toggleClick_switch Ex.split_on [] Ex2.five_split (toggle_switch 56)).
  - apply wfb_wf. vm_compute. reflexivity.
  - vm_compute. discriminate.
Defined.

(** ** Passes after the first *)

Lemma pass_filtered P D sec D' :
  wf D -> tidy D sec -> applyFilter P D = Returned D' -> filtered P sec D'.
Proof.
  intros Hwf Ht H. rewrite (applyFilter_finish P D _ sec (tidy_found D sec Ht)) in H.
  cbv zeta in H. destruct (prepared P D sec) as [D4|] eqn:Hprep; [|discriminate].
  exists D4, (getCharElements (removeSleepersSection D) (Some sec)).
  split; [exact (prepared_ready P D sec D4 Hwf Ht Hprep) | exact H].
Qed.

Lemma finish_next P D4 sec chars D' :
  wf D4 -> finish P D4 sec chars = Returned D' -> next D4 <= next D'.
Proof.
  intros Hwf H. pose proof (keeps_finish P D4 sec chars Hwf) as (_ & Hn & _).
  rewrite H in Hn. exact Hn.
Qed.

(** The toggle that a first pass could not make, a second pass does not
    make either: the prepared store of the second pass does not depend
    on the preferences. *)
Lemma prepared_any P Q D4 sec chars D' E4 :
  ready D4 sec chars ->
  finish P D4 sec chars = Returned D' -> wf D' ->
  prepared P D' sec = Some E4 ->
  simL (next D4) (doc D4) (doc E4) ->
  prepared Q D' sec = Some E4.
Proof.
  intros Hready Hfin HwfD' Hprep Hs.
  pose proof Hready as (Hwf & Hsec & _).
  pose proof (finish_next P D4 sec chars D' Hwf Hfin) as Hn.
  unfold prepared in *.
  set (cs := getCharElements (removeSleepersSection D') (Some sec)) in *.
  set (D3 := removePlaceholder (resetChars (removeSleepersSection D') cs) sec) in *.
  pose proof (keeps_head D' cs sec HwfD') as (Hwf3 & Hn3 & _). fold D3 in Hwf3, Hn3.
  pose proof Hprep as Hprep0.
  unfold ensureToggle in Hprep |- *.
  destruct (querySelector (removeSleepersSection D') sec (cls toggle_class)) as [tg|];
    [exact Hprep|].
  destruct (querySelector D3 sec (cls "panelsection--title")) as [titleEl|] eqn:Ht;
    [|exact Hprep].
  destruct (querySelector D3 sec (cls "pageroom--inroomheader")) as [hdr|];
    [|exact Hprep].
  exfalso.
  assert (HsecE : In sec (handlesF (doc E4))).
  { apply (sim_in_doc (next D4) D4 E4); [exact Hs | apply doc_lt; assumption | exact Hsec]. }
  assert (Hsec3 : In sec (handlesF (doc D3))).
  { destruct (doc_handles_ensureToggle P D3 sec _ E4 sec Hwf3 Hprep0 HsecE) as [H|H];
      [exact H|]. pose proof (doc_lt D4 sec Hwf Hsec). lia. }
  destruct (query_below D3 sec (cls "panelsection--title") titleEl Hwf3 Hsec3
              (hd_error_In _ _ Ht)) as (a & n & Hin & _).
  set (t := fst (createToggle P (next D3))) in *.
  set (nx := snd (createToggle P (next D3))) in *.
  change (insertBefore (with_next D3 nx) titleEl t hdr = Some E4) in Hprep.
  assert (Hwf3' : wf (with_next D3 nx)).
  { apply wf_with_next; [exact Hwf3 | unfold nx; simpl; lia]. }
  destruct (insertBefore_views (with_next D3 nx) titleEl t hdr E4 a n Hwf3' Hprep Hin)
    as [(v1 & v2 & _ & Hv) _].
  destruct (toggle_views_root P (next D3) ((titleEl, elem_of n) :: a))
    as (rest & Hroot & _).
  fold t in Hroot. rewrite Hroot in Hv.
  assert (Hq : In (next D3) (doc_querySelectorAll E4 (cls toggle_class))).
  { apply (doc_query_view E4 (cls toggle_class)
             ((titleEl, elem_of n) :: a, next D3, new_elem "div" "" [toggle_class] "")).
    - rewrite Hv. apply in_or_app. right. left. reflexivity.
    - reflexivity. }
  rewrite <- (doc_query_sim (next D4) D4 E4 (cls toggle_class) eq_refl Hwf (le_n _) Hs)
    in Hq.
  apply doc_query_In in Hq as (p & Hp & _ & Hh).
  assert (Hlt : handle_of (snd p) < next D4).
  { apply (all_nodes_lt D4 p Hwf). unfold all_nodes. apply in_or_app. left. exact Hp. }
  lia.
Qed.

(** What a pass on a filtered page works with. *)
Lemma again P D4 sec chars D' :
  ready D4 sec chars ->
  finish P D4 sec chars = Returned D' ->
  exists hd E4,
    findInRoomSection D' = Some (hd, sec) /\
    ready E4 sec chars /\ next D4 <= next E4 /\
    simL (next D4) (doc D4) (doc E4) /\
    forall Q, applyFilter Q D' = finish Q E4 sec chars.
Proof.
  intros Hready Hfin.
  destruct (rerun P D4 sec chars D' Hready Hfin)
    as (HwfD' & _ & hd & E4 & Hfind & Hchars & Hprep & HwfE & Hnx & Hs).
  exists hd, E4. split; [exact Hfind|]. split.
  { apply (ready_sim D4 E4 sec chars Hready HwfE Hs). intros c Hc.
    apply (prepared_chars_visible P D' sec E4 c HwfD' Hprep). rewrite Hchars.
    exact Hc. }
  split; [exact Hnx|]. split; [exact Hs|].
  intros Q. rewrite (applyFilter_finish Q D' hd sec Hfind). cbv zeta.
  rewrite (prepared_any P Q D4 sec chars D' E4 Hready Hfin HwfD' Hprep Hs), Hchars.
  reflexivity.
Qed.

Lemma filtered_pass P sec D' :
  filtered P sec D' ->
  exists hd D'',
    findInRoomSection D' = Some (hd, sec) /\
    applyFilter P D' = Returned D'' /\ page D'' = page D' /\ filtered P sec D''.
Proof.
  intros (D4 & chars & Hready & Hfin).
  destruct (again P D4 sec chars D' Hready Hfin)
    as (hd & E4 & Hfind & HreadyE & Hnx & Hs & Hpass).
  pose proof Hready as (Hwf & Hsec & _ & _ & Hch & _).
  pose proof HreadyE as (HwfE & _).
  destruct (finish_sim P D4 E4 sec chars D' Hwf HwfE Hnx Hs Hsec Hch Hfin)
    as (D'' & Hfin' & Hpage).
  exists hd, D''. split; [exact Hfind|]. rewrite Hpass.
  split; [exact Hfin'|]. split; [exact Hpage|]. exists E4, chars. split; assumption.
Qed.




Lemma later_pass P0 P1 P2 D sec D0 D1 D2 :
  wf D -> tidy D sec ->
  applyFilter P0 D = Returned D0 ->
  applyFilter P1 D0 = Returned D1 ->
  applyFilter P2 D0 = Returned D2 ->
  exists D12, applyFilter P2 D1 = Returned D12 /\ page D12 = page D2.
Proof.
  intros Hwf Ht H0 H1 H2.
  destruct (pass_filtered P0 D sec D0 Hwf Ht H0) as (D4 & chars & Hready & Hfin).
  destruct (again P0 D4 sec chars D0 Hready Hfin)
    as (_ & E4 & _ & HreadyE & _ & _ & Hpass).
  rewrite Hpass in H1, H2.
  destruct (again P1 E4 sec chars D1 HreadyE H1)
    as (_ & F4 & _ & HreadyF & Hnx & Hs & Hpass1).
  pose proof HreadyE as (HwfE & Hsec & _ & _ & Hch & _).
  pose proof HreadyF as (HwfF & _).
  rewrite Hpass1.
  exact (finish_sim P2 E4 F4 sec chars D2 HwfE HwfF Hnx Hs Hsec Hch H2).
Qed.

(** X10.  Once a pass has returned on a tidy page, what a later pass
    shows depends on the preferences it runs with and not on the passes
    in between: a pass with [P2] after a pass with [P1] shows what a
    pass with [P2] alone shows.  In particular a pass with the
    preferences of the first pass brings back the page the first pass
    has shown: nothing of a split view (the sleepers section, the
    placeholder, hidden rows and thumbnails) survives a unified pass,
    and the other way round. *)
Theorem later_pass_forgets P0 P1 P2 D sec D0 D1 D2 :
  wf D -> tidy D sec ->
  applyFilter P0 D = Returned D0 ->
  applyFilter P1 D0 = Returned D1 ->
  applyFilter P2 D0 = Returned D2 ->
  (exists D12, applyFilter P2 D1 = Returned D12 /\ page D12 = page D2) /\
  (exists D10, applyFilter P0 D1 = Returned D10 /\ page D10 = page D0).
Proof.
  intros Hwf Ht H0 H1 H2.
  split; [exact (later_pass P0 P1 P2 D sec D0 D1 D2 Hwf Ht H0 H1 H2)|].
  destruct (filtered_pass P0 sec D0 (pass_filtered P0 D sec D0 Hwf Ht H0))
    as (_ & D00 & _ & H00 & Hpage & _).
  destruct (later_pass P0 P1 P0 D sec D0 D1 D00 Hwf Ht H0 H1 H00) as (D10 & H10 & Hp).
  exists D10. split; [exact H10 | congruence].
Qed.

Lemma later_pass_forgets_witness :
  (exists D12, applyFilter Ex.split_on Ex10.five_unsplit = Returned D12 /\
               page D12 = page Ex8.five_twice) /\
  (exists D10, applyFilter Ex.split_on Ex10.five_unsplit = Returned D10 /\
               page D10 = page Ex2.five_split).
Proof.
  apply (later_pass_forgets Ex.split_on Ex.split_off Ex.split_on Ex.five 9
           Ex2.five_split Ex10.five_unsplit Ex8.five_twice).
  - apply wfb_wf. vm_compute. reflexivity.
  - unfold tidy. repeat split; vm_compute; intros; lia.
  - vm_compute. reflexivity.
  - vm_compute. reflexivity.
  - vm_compute. reflexivity.
Defined.

(** ** When a pass throws *)

Lemma prepared_parent P D sec D4 :
  wf D -> tidy D sec -> prepared P D sec = Some D4 ->
  parentElement D4 sec = parentElement D sec.
Proof.
  intros Hwf Ht Hprep. pose proof (tidy_neat D sec Hwf Ht) as Hn1.
  pose proof (prepared_ready P D sec D4 Hwf Ht Hprep) as (Hwf4 & Hsec4 & _).
  assert (H1 : parentElement (removeSleepersSection D) sec = parentElement D sec).
  { destruct Hn1 as (_ & Hsec1 & _). revert Hsec1. unfold removeSleepersSection.
    destruct (getElementById D sleepers_id) as [x|] eqn:Hx; [|reflexivity].
    intros Hsec1.
    destruct (doc_query_in_doc D [[[SId sleepers_id]]] x Hwf (hd_error_In _ _ Hx))
      as [Hin _].
    destruct (in_doc D x) as [[a m]|] eqn:Hinx; [|congruence].
    symmetry.
    exact (spliced_parent (remove D x) D _ sec Hwf (remove_spliced D x a m Hwf Hinx) Hsec1). }
  set (D1 := removeSleepersSection D) in *.
  set (chars := getCharElements D1 (Some sec)).
  set (gr := fun (h : handle) (e : elem) =>
               if mem h chars then remove_class hidden e else e).
  assert (Hgr : hidden_only gr) by apply hidden_only_mem_remove.
  pose proof (neat_mapTD gr D1 sec Hgr Hn1) as (Hwf2 & Hsec2 & _).
  unfold prepared in Hprep. fold D1 chars in Hprep.
  rewrite resetChars_mapTD in Hprep. fold gr in Hprep.
  set (D2 := mapTD gr D1) in *.
  assert (H2 : parentElement D2 sec = parentElement D1 sec)
    by apply parentElement_mapTD.
  set (D3 := removePlaceholder D2 sec) in *.
  assert (Hwf3 : wf D3) by (apply wf_removePlaceholder; exact Hwf2).
  assert (Hsec3 : In sec (handlesF (doc D3))).
  { destruct (doc_handles_ensureToggle P D3 sec _ D4 sec Hwf3 Hprep Hsec4) as [H|H];
      [exact H|].
    pose proof (doc_lt D2 sec Hwf2 Hsec2) as Hlt.
    unfold D3 in H. rewrite next_removePlaceholder in H. lia. }
  assert (H3 : parentElement D3 sec = parentElement D2 sec).
  { revert Hsec3. unfold D3, removePlaceholder.
    destruct (querySelector D2 sec (cls no_awake_class)) as [p|] eqn:Hq; [|reflexivity].
    intros Hsec3.
    destruct (query_below D2 sec (cls no_awake_class) p Hwf2 Hsec2 (hd_error_In _ _ Hq))
      as (a & n & Hin & _).
    symmetry.
    exact (spliced_parent (remove D2 p) D2 _ sec Hwf2
             (remove_spliced D2 p a n Hwf2 Hin) Hsec3). }
  assert (H4 : parentElement D4 sec = parentElement D3 sec).
  { destruct (in_handles_find sec [] (doc D3) Hsec3) as [[a3 n3] Hf3].
    change (find (is_at sec) (walkF [] (doc D3))) with (in_doc D3 sec) in Hf3.
    destruct (ensureToggle_views P D3 sec _ D4 Hwf3 Hprep) as [Hd|(v1 & v2 & c & Hv3 & Hv4)].
    - destruct (in_handles_find sec [] (doc D4) Hsec4) as [[a4 n4] Hf4].
      change (find (is_at sec) (walkF [] (doc D4))) with (in_doc D4 sec) in Hf4.
      rewrite (parentElement_in_doc _ _ _ _ Hf4), (parentElement_in_doc _ _ _ _ Hf3).
      unfold in_doc in Hf3, Hf4. rewrite Hd in Hf4. rewrite Hf3 in Hf4.
      injection Hf4 as <- <-. reflexivity.
    - apply (spliced_parent D3 D4 (viewsN c (fst (createToggle P (next D3)))) sec Hwf4);
        [|exact Hsec3].
      exists v1, v2. split; [exact Hv3 | exact Hv4]. }
  rewrite H4, H3, H2, H1. reflexivity.
Qed.

(** X11.  On a tidy page a pass throws in two cases only: inserting the
    toggle throws (the header that is found is not a child of the title
    that is found), or splitting is on and the container has no parent
    element, so that [section.parentElement] is [null] when the
    sleepers section is to be inserted.  In unified mode, once the
    toggle is dealt with, the pass always returns. *)
Theorem applyFilter_throws_iff P D sec :
  wf D -> tidy D sec ->
  ((exists D', applyFilter P D = Thrown D') <->
   prepared P D sec = None \/
   (splitEnabled P = true /\ parentElement D sec = None)).
Proof.
  intros Hwf Ht.
  rewrite (applyFilter_finish P D _ sec (tidy_found D sec Ht)). cbv zeta.
  destruct (prepared P D sec) as [D4|] eqn:Hprep.
  2:{ split; [intros _; left; reflexivity | intros _; eexists; reflexivity]. }
  pose proof (prepared_ready P D sec D4 Hwf Ht Hprep) as Hready.
  pose proof (finish_returns P D4 sec _ Hready) as Hret.
  rewrite (prepared_parent P D sec D4 Hwf Ht Hprep) in Hret.
  set (o := finish P D4 sec (getCharElements (removeSleepersSection D) (Some sec))) in *.
  split.
  - intros [D' H]. right. destruct (splitEnabled P).
    + split; [reflexivity|]. destruct (parentElement D sec); [|reflexivity].
      destruct (proj2 Hret) as [D'' H'']; [right; discriminate|]. congruence.
    + destruct (proj2 Hret) as [D'' H'']; [left; reflexivity|]. congruence.
  - intros [H|[Hsp Hp]]; [discriminate|].
    destruct o as [D'|D'] eqn:Ho; [|eexists; reflexivity].
    destruct (proj1 Hret) as [H|H]; [eexists; reflexivity | congruence | congruence].
Qed.

Lemma applyFilter_throws_iff_witness :
  (exists D', applyFilter Ex.split_on Ex10.rootless = Thrown D') <->
  prepared Ex.split_on Ex10.rootless 1 = None \/
  (splitEnabled Ex.split_on = true /\ parentElement Ex10.rootless 1 = None).
Proof.
  apply (applyFilter_throws_iff Ex.split_on Ex10.rootless 1).
  - apply wfb_wf. vm_compute. reflexivity.
  - unfold tidy. repeat split; vm_compute; intros; lia.
Defined.

(** ** What the queries find after a pass *)

Lemma ctx_suffix ns : forall (pre : ctx) x e rest m,
  In (pre ++ (x, e) :: rest, m) (walkF [] ns) ->
  exists X, In (rest, X) (walkF [] ns) /\ handle_of X = x.
Proof.
  induction pre as [|c pre IH]; intros x e rest m H.
  - cbn [app] in H. destruct (walkF_parent ns _ _ _ H) as (X & Hc & HX & _).
    exists X. split; [exact HX|]. injection Hc as -> _. reflexivity.
  - cbn [app] in H. destruct (walkF_parent ns _ _ _ H) as (X & _ & HX & _).
    exact (IH x e rest X HX).
Qed.

Lemma in_doc_handle_of D x a n : in_doc D x = Some (a, n) -> handle_of n = x.
Proof.
  intros H. apply find_some in H as [_ H]. apply Nat.eqb_eq in H. exact H.
Qed.

(** An element at or below [sec] is not among the ancestors of [sec]. *)
Lemma not_above D sec x a0 n0 ax n :
  wf D -> in_doc D sec = Some (a0, n0) -> in_doc D x = Some (ax, n) ->
  x = sec \/ In sec (map fst ax) ->
  ~ In x (map fst a0).
Proof.
  intros Hwf Hs Hx [->|Hin].
  - exact (proj1 (in_doc_acyclic D sec a0 n0 Hwf Hs)).
  - apply in_split in Hin as (l1 & l2 & Hl).
    apply map_eq_app in Hl as (pre & tl & -> & _ & Htl).
    apply map_eq_cons in Htl as ([s e] & rest & -> & Hse & Hrest).
    cbn [fst] in Hse. subst s.
    pose proof (in_doc_In D x _ Hx) as Hw.
    destruct (ctx_suffix (doc D) pre sec e rest n Hw) as (X & HX & HhX).
    pose proof (find_unique_forest (doc D) (rest, X) (wf_doc_NoDup D Hwf) HX) as Hu.
    cbn [snd] in Hu. rewrite HhX in Hu.
    change (find (is_at sec) (walkF [] (doc D))) with (in_doc D sec) in Hu.
    rewrite Hs in Hu. injection Hu as -> ->.
    destruct (walkF_ctx_nodup (doc D) _ n (wf_doc_NoDup D Hwf) Hw) as [Hnd _].
    intros Hc. apply (NoDup_app_disjoint _ _ x Hnd).
    + rewrite map_app. apply in_or_app. right. right. exact Hc.
    + rewrite <- (in_doc_handle_of D x _ n Hx). apply handles_self.
Qed.

Lemma map_fst_mapC g (a : ctx) : map fst (mapC g a) = map fst a.
Proof. unfold mapC. rewrite map_map. apply map_ext. reflexivity. Qed.

(** After a pass, a query that does not look at the hidden marker and
    does not pick the placeholder finds, at or below the container,
    what it found in the prepared store. *)
Lemma finish_queries P D4 sec chars D' x ax n sel :
  ready D4 sec chars ->
  finish P D4 sec chars = Returned D' ->
  in_doc D4 x = Some (ax, n) -> x = sec \/ In sec (map fst ax) ->
  avoids_hidden sel = true ->
  (forall c h, matchesV sel (c, h, no_awake_elem) = false) ->
  querySelectorAll D' x sel = querySelectorAll D4 x sel.
Proof.
  intros (Hwf & Hsec & _ & _ & Hch & _) Hfin Hx Hxs Hav Hno.
  pose proof (in_doc_Some_handles D4 x _ Hx) as Hx4.
  revert Hfin. unfold finish. destruct (splitEnabled P) eqn:Hsp; cbn [negb].
  2:{ intros [= <-]. symmetry.
      apply (query_sim (next D4) D4 _ x sel Hav Hwf (le_n _)); [|exact Hx4].
      rewrite (unhideExitChars_doc D4 Hwf). apply simL_exitN. }
  rewrite categorize_spec.
  set (sl := filter (isSleeperChar D4) chars).
  set (aw := filter (fun el => negb (isSleeperChar D4 el)) chars).
  set (gc := fun (h : handle) (e : elem) => if mem h sl then add_class hidden e else e).
  assert (Hgc : hidden_only gc) by apply hidden_only_mem_add.
  set (D5 := mapTD gc D4).
  assert (Hwf5 : wf D5) by (apply wf_mapTD; exact Hwf).
  assert (Hsec5 : In sec (handlesF (doc D5))).
  { unfold D5. rewrite doc_handles_mapTD. exact Hsec. }
  assert (Hx5 : In x (handlesF (doc D5))).
  { unfold D5. rewrite doc_handles_mapTD. exact Hx4. }
  assert (Hin5 : in_doc D5 x = Some (mapC gc ax, mapT gc n)).
  { unfold D5. rewrite in_doc_mapTD, Hx. reflexivity. }
  assert (Hch5 : querySelectorAll D5 sec sel_char = chars).
  { unfold D5. rewrite (querySelectorAll_mapTD gc Hgc sel_char eq_refl). exact Hch. }
  assert (Hq5 : querySelectorAll D5 x sel = querySelectorAll D4 x sel).
  { apply (querySelectorAll_mapTD gc Hgc sel Hav). }
  destruct (placeholder_step D5 sec chars aw Hwf5 Hsec5
              ltac:(intros c Hc; rewrite Hch5; exact Hc)) as [Hwf6 Hc6].
  cbv zeta in Hwf6, Hc6.
  set (D6 := addNoAwakePlaceholder D5 chars aw) in *.
  assert (H6 : In sec (handlesF (doc D6)) /\
               (exists n6, in_doc D6 x = Some (mapC gc ax, n6)) /\
               querySelectorAll D6 x sel = querySelectorAll D5 x sel).
  { assert (Hsame : D6 = D5 ->
               In sec (handlesF (doc D6)) /\
               (exists n6, in_doc D6 x = Some (mapC gc ax, n6)) /\
               querySelectorAll D6 x sel = querySelectorAll D5 x sel).
    { intros ->. split; [exact Hsec5|]. split; [eauto | reflexivity]. }
    destruct aw; [|exact (Hsame Hc6)].
    destruct (hd_error chars); [|exact (Hsame Hc6)].
    destruct (parentElement D5 h); [|exact (Hsame Hc6)].
    destruct Hc6 as (a & C & _ & _ & _ & Hspl & _).
    split; [apply (spliced_handles _ _ _ _ Hspl Hsec5)|]. split.
    - destruct (spliced_in_doc D5 D6 _ x _ _ Hwf6 Hspl Hin5) as (n6 & Hn6 & _). eauto.
    - apply (spliced_query D5 D6 _ x sel Hwf5 Hwf6 Hspl Hx5).
      cbn [filter]. destruct (below x _); cbn [filter]; [|reflexivity].
      rewrite Hno. reflexivity. }
  destruct H6 as (Hsec6 & (n6 & Hin6) & Hq6).
  pose proof (in_doc_Some_handles D6 x _ Hin6) as Hx6.
  pose proof (createSleepersSection_numbers P D6 sl) as Hnum. cbv zeta in Hnum.
  destruct (createSleepersSection P D6 sl) as [s nx]. cbn [fst snd] in Hnum.
  destruct Hnum as [Hnum1 Hnum2].
  destruct (insertSleepersSection (with_next D6 nx) sec s) as [D7|] eqn:H7;
    [|discriminate].
  intros [= <-].
  destruct (insert_step D6 nx sec s D7 Hwf6 Hsec6 Hnum1 Hnum2 H7)
    as (Hwf7 & Hn7 & par & a & Pn & f & Hpar & HPn & Hsp7 & _).
  assert (Hs7 : simL nx (doc D7) (doc (filterExitChars P D7 sl))).
  { rewrite (filterExitChars_doc P D7 sl Hwf7). apply simL_exitN. }
  assert (Hx7 : In x (handlesF (doc D7))) by apply (spliced_handles _ _ _ _ Hsp7 Hx6).
  assert (Hout : filter (below x) (viewsN ((par, elem_of Pn) :: a) s) = []).
  { apply below_outside.
    - destruct (in_handles_find sec [] (doc D6) Hsec6) as [[a0 n0] H0].
      change (find (is_at sec) (walkF [] (doc D6))) with (in_doc D6 sec) in H0.
      pose proof (parentElement_in_doc _ _ _ _ H0) as Hp0. rewrite Hpar in Hp0.
      destruct a0 as [|c0 a0]; simpl in Hp0; [discriminate|]. injection Hp0 as Hp0.
      destruct (in_doc_parent D6 sec c0 a0 n0 Hwf6 H0) as (P0 & HP0 & -> & _).
      simpl in Hp0, HP0. rewrite <- Hp0, HPn in HP0. injection HP0 as <- <-.
      rewrite Hp0.
      apply (not_above D6 sec x _ n0 _ n6 Hwf6 H0 Hin6).
      rewrite map_fst_mapC. exact Hxs.
    - rewrite Hnum1. intros Hc. apply in_seq in Hc.
      pose proof (doc_lt D6 x Hwf6 Hx6). lia. }
  rewrite <- (query_sim nx D7 _ x sel Hav Hwf7 ltac:(lia) Hs7 Hx7).
  rewrite (spliced_query D6 D7 _ x sel Hwf6 Hwf7 Hsp7 Hx6)
    by (rewrite Hout; reflexivity).
  rewrite Hq6. exact Hq5.
Qed.

(** ** What the exit filter leaves alone *)

Lemma elem_at_updD_other D x f h : h <> x -> elem_at (updD x f D) h = elem_at D h.
Proof.
  intros Hne. rewrite updD_mapTD, elem_at_mapTD.
  apply Nat.eqb_neq in Hne. rewrite Hne. destruct (elem_at D h); reflexivity.
Qed.

Lemma fold_other (f : dom -> handle -> dom) h :
  (forall D x, h <> x -> elem_at (f D x) h = elem_at D h) ->
  forall L D, ~ In h L -> elem_at (fold_left f L D) h = elem_at D h.
Proof.
  intros Hf. induction L as [|x L IH]; intros D Hn; [reflexivity|].
  cbn [fold_left]. rewrite IH by (intros Hc; apply Hn; right; exact Hc).
  apply Hf. intros ->. apply Hn. left. reflexivity.
Qed.

Lemma hideIfMatching_other urls D x h :
  h <> x -> elem_at (hideIfMatching urls D x) h = elem_at D h.
Proof.
  intros Hne. unfold hideIfMatching.
  destruct (querySelector D x sel_img); [|reflexivity].
  destruct (String.eqb _ _); [reflexivity|].
  destruct (set_has _ _); [|reflexivity].
  apply elem_at_updD_other. exact Hne.
Qed.

Lemma not_exit_query D h e :
  wf D -> elem_at D h = Some e -> has_class exit_class e = false ->
  ~ In h (doc_querySelectorAll D sel_exitchar) /\
  ~ In h (doc_querySelectorAll D sel_exitchar_hidden).
Proof.
  intros Hwf He Hc.
  assert (H : forall p, In p (walkF [] (doc D)) -> handle_of (snd p) = h ->
                matches sel_exitchar p = false).
  { intros p Hp Hh. rewrite matches_exitchar.
    pose proof (elem_at_walkF D p Hwf Hp) as Hp'. rewrite Hh, He in Hp'.
    injection Hp' as <-. exact Hc. }
  split; intros Hin; apply doc_query_In in Hin as (p & Hp & Hm & Hh).
  - rewrite (H p Hp Hh) in Hm. discriminate.
  - rewrite matches_exitchar_hidden, (H p Hp Hh) in Hm. discriminate.
Qed.

Lemma unhide_other D h e :
  wf D -> elem_at D h = Some e -> has_class exit_class e = false ->
  elem_at (unhideExitChars D) h = Some e.
Proof.
  intros Hwf He Hc. unfold unhideExitChars.
  rewrite (fold_other (fun D el => classList_remove D el hidden) h); [exact He| |].
  - intros D0 x Hne. apply elem_at_updD_other. exact Hne.
  - exact (proj2 (not_exit_query D h e Hwf He Hc)).
Qed.

Lemma filterExitChars_other P D sl h e :
  wf D -> elem_at D h = Some e -> has_class exit_class e = false ->
  elem_at (filterExitChars P D sl) h = Some e.
Proof.
  intros Hwf He Hc. pose proof (unhide_other D h e Hwf He Hc) as H1.
  assert (Hwf1 : wf (unhideExitChars D)).
  { rewrite unhideExitChars_mapTD. apply wf_mapTD. exact Hwf. }
  unfold filterExitChars.
  destruct (negb (splitEnabled P) || Nat.eqb (List.length sl) 0); [exact H1|].
  destruct (Nat.eqb (List.length (sleeperAvatarUrls (unhideExitChars D) sl)) 0);
    [exact H1|].
  rewrite (fold_other (hideIfMatching _) h); [exact H1| |].
  - intros D0 x Hne. apply hideIfMatching_other. exact Hne.
  - exact (proj1 (not_exit_query _ h e Hwf1 H1 Hc)).
Qed.

(** X12.  [filterExitChars] touches exit thumbnails only, and of these
    the hidden marker only: every element keeps its tag, id, image URL,
    text and its other classes, and an element without the class
    [pageroom-exitchars--char] is left exactly as it is, so the rows
    of the main list stay hidden or shown as [applyFilter] left them. *)
Theorem filterExitChars_only_thumbnails P D sl h e :
  wf D -> elem_at D h = Some e ->
  exists e', elem_at (filterExitChars P D sl) h = Some e' /\
             same_but_hidden e e' /\
             (has_class exit_class e = false -> e' = e).
Proof.
  intros Hwf He. destruct (filterExitChars_mapTD P D sl) as (g & Hg & Hm).
  exists (g h e). split; [rewrite Hm, elem_at_mapTD, He; reflexivity|].
  split; [apply Hg|]. intros Hc.
  pose proof (filterExitChars_other P D sl h e Hwf He Hc) as H.
  rewrite Hm, elem_at_mapTD, He in H. injection H as H. exact H.
Qed.

Lemma filterExitChars_only_thumbnails_witness :
  exists e', elem_at (filterExitChars Ex.split_on Ex.five Ex2.sleepers) 16 = Some e' /\
             same_but_hidden (elem_of (snd Ex2.first_sleeper)) e' /\
             (has_class exit_class (elem_of (snd Ex2.first_sleeper)) = false ->
              e' = elem_of (snd Ex2.first_sleeper)).
Proof.
  apply (filterExitChars_only_thumbnails Ex.split_on Ex.five Ex2.sleepers 16
           (elem_of (snd Ex2.first_sleeper))).
  - apply wfb_wf. vm_compute. reflexivity.
  - vm_compute. reflexivity.
Defined.

(** ** The main list after a split pass *)

Lemma elem_at_of_in_doc D x a n : in_doc D x = Some (a, n) -> elem_at D x = Some (elem_of n).
Proof.
  intros H. unfold elem_at. rewrite (in_doc_locate D x _ H). reflexivity.
Qed.

(** What a split pass makes of an element at or below the container
    that is not an exit thumbnail: it is hidden when it is one of the
    sleepers, and otherwise left as it is. *)
Lemma finish_elem P D4 sec chars D' x ax n :
  ready D4 sec chars -> splitEnabled P = true ->
  finish P D4 sec chars = Returned D' ->
  in_doc D4 x = Some (ax, n) ->
  has_class exit_class (elem_of n) = false ->
  elem_at D' x = Some (if mem x (filter (isSleeperChar D4) chars)
                       then add_class hidden (elem_of n) else elem_of n).
Proof.
  intros (Hwf & Hsec & _ & _ & Hch & _) Hsp Hfin Hx Hex.
  revert Hfin. unfold finish. rewrite Hsp. cbn [negb].
  rewrite categorize_spec.
  set (sl := filter (isSleeperChar D4) chars).
  set (aw := filter (fun el => negb (isSleeperChar D4 el)) chars).
  set (gc := fun (h : handle) (e : elem) => if mem h sl then add_class hidden e else e).
  assert (Hgc : hidden_only gc) by apply hidden_only_mem_add.
  set (D5 := mapTD gc D4).
  assert (Hwf5 : wf D5) by (apply wf_mapTD; exact Hwf).
  assert (Hsec5 : In sec (handlesF (doc D5))).
  { unfold D5. rewrite doc_handles_mapTD. exact Hsec. }
  assert (Hin5 : in_doc D5 x = Some (mapC gc ax, mapT gc n)).
  { unfold D5. rewrite in_doc_mapTD, Hx. reflexivity. }
  assert (Hch5 : querySelectorAll D5 sec sel_char = chars).
  { unfold D5. rewrite (querySelectorAll_mapTD gc Hgc sel_char eq_refl). exact Hch. }
  destruct (placeholder_step D5 sec chars aw Hwf5 Hsec5
              ltac:(intros c Hc; rewrite Hch5; exact Hc)) as [Hwf6 Hc6].
  cbv zeta in Hwf6, Hc6.
  set (D6 := addNoAwakePlaceholder D5 chars aw) in *.
  assert (H6 : In sec (handlesF (doc D6)) /\
               exists n6, in_doc D6 x = Some (mapC gc ax, n6) /\
                          elem_of n6 = elem_of (mapT gc n)).
  { assert (Hsame : D6 = D5 ->
               In sec (handlesF (doc D6)) /\
               exists n6, in_doc D6 x = Some (mapC gc ax, n6) /\
                          elem_of n6 = elem_of (mapT gc n)).
    { intros ->. split; [exact Hsec5 | eauto]. }
    destruct aw; [|exact (Hsame Hc6)].
    destruct (hd_error chars); [|exact (Hsame Hc6)].
    destruct (parentElement D5 h); [|exact (Hsame Hc6)].
    destruct Hc6 as (a & C & _ & _ & _ & Hspl & _).
    split; [apply (spliced_handles _ _ _ _ Hspl Hsec5)|].
    exact (spliced_in_doc D5 D6 _ x _ _ Hwf6 Hspl Hin5). }
  destruct H6 as (Hsec6 & n6 & Hin6 & He6).
  pose proof (createSleepersSection_numbers P D6 sl) as Hnum. cbv zeta in Hnum.
  destruct (createSleepersSection P D6 sl) as [s nx]. cbn [fst snd] in Hnum.
  destruct Hnum as [Hnum1 Hnum2].
  destruct (insertSleepersSection (with_next D6 nx) sec s) as [D7|] eqn:H7;
    [|discriminate].
  intros [= <-].
  destruct (insert_step D6 nx sec s D7 Hwf6 Hsec6 Hnum1 Hnum2 H7)
    as (Hwf7 & _ & par & a & Pn & f & _ & _ & Hsp7 & _).
  destruct (spliced_in_doc D6 D7 _ x _ _ Hwf7 Hsp7 Hin6) as (n7 & Hin7 & He7).
  assert (He : elem_of n7 = gc x (elem_of n)).
  { rewrite He7, He6, elem_of_mapT, (in_doc_handle_of D4 x _ n Hx). reflexivity. }
  rewrite (filterExitChars_other P D7 sl x (elem_of n7) Hwf7
             (elem_at_of_in_doc D7 x _ n7 Hin7)).
  - rewrite He. reflexivity.
  - rewrite He. unfold gc. destruct (mem x sl); [|exact Hex].
    rewrite has_class_add_other by discriminate. exact Hex.
Qed.

Lemma keeps_class D D' h c :
  keeps D D' -> elem_at D h <> None -> c <> hidden ->
  classList_contains D' h c = classList_contains D h c.
Proof.
  intros (_ & _ & K) Hh Hc. destruct (elem_at D h) as [e|] eqn:E; [|congruence].
  destruct (K h e E) as (e' & E' & _ & _ & _ & _ & H).
  rewrite !classList_contains_elem_at, E, E'. symmetry. apply H, Hc.
Qed.

(** The rows after a split pass are the rows the pass has sorted, and
    they are sleepers or not as they were when it sorted them. *)
Lemma finish_sleepers P D4 sec chars D' :
  ready D4 sec chars ->
  finish P D4 sec chars = Returned D' ->
  querySelectorAll D' sec sel_char = chars /\
  forall c, In c chars ->
    isSleeperChar D' c = isSleeperChar D4 c /\
    exists a n, in_doc D4 c = Some (a, n) /\
                (classList_contains D' c exit_class = false ->
                 has_class exit_class (elem_of n) = false).
Proof.
  intros Hready H.
  pose proof Hready as (Hwf4 & Hsec4 & _ & _ & Hch & _).
  destruct (in_handles_find sec [] (doc D4) Hsec4) as [[a0 n0] H0].
  change (find (is_at sec) (walkF [] (doc D4))) with (in_doc D4 sec) in H0.
  split.
  { rewrite (finish_queries P D4 sec chars D' sec a0 n0 sel_char Hready H H0
               (or_introl eq_refl) eq_refl); [exact Hch|].
    intros c h. reflexivity. }
  intros c Hc. pose proof Hc as Hc4. rewrite <- Hch in Hc4.
  destruct (query_below D4 sec sel_char c Hwf4 Hsec4 Hc4) as (a & n & Hin & Hbel & _).
  pose proof (keeps_finish P D4 sec chars Hwf4) as K. rewrite H in K. cbn [store_of] in K.
  pose proof (elem_at_of_in_doc D4 c a n Hin) as He4.
  assert (Hne : elem_at D4 c <> None) by congruence.
  split.
  - unfold isSleeperChar.
    rewrite !(keeps_class D4 D' c _ K Hne) by discriminate.
    unfold querySelector.
    rewrite (finish_queries P D4 sec chars D' c a n sel_levels Hready H Hin
               (or_intror Hbel) eq_refl); [reflexivity|].
    intros c0 h. reflexivity.
  - exists a, n. split; [exact Hin|]. intros Hex.
    rewrite (keeps_class D4 D' c exit_class K Hne) in Hex by discriminate.
    rewrite classList_contains_elem_at, He4 in Hex. exact Hex.
Qed.

(** X13.  After a split pass on a tidy page the main list is sorted:
    the rows of the container are the rows the pass has found, and a
    row (that is not an exit thumbnail as well) carries the hidden
    marker exactly when it is a sleeper; the awake rows, and only
    they, are shown. *)
Theorem split_pass_hides_sleepers P D sec D' :
  wf D -> tidy D sec -> splitEnabled P = true ->
  applyFilter P D = Returned D' ->
  getCharElements D' (Some sec)
  = getCharElements (removeSleepersSection D) (Some sec) /\
  forall c, In c (getCharElements D' (Some sec)) ->
    classList_contains D' c exit_class = false ->
    is_hidden D' c = isSleeperChar D' c.
Proof.
  intros Hwf Ht Hsp H.
  rewrite (applyFilter_finish P D _ sec (tidy_found D sec Ht)) in H.
  cbv zeta in H. destruct (prepared P D sec) as [D4|] eqn:Hprep; [|discriminate].
  pose proof (prepared_ready P D sec D4 Hwf Ht Hprep) as Hready.
  set (chars := getCharElements (removeSleepersSection D) (Some sec)) in *.
  pose proof Hready as (_ & _ & _ & _ & _ & _ & _ & _ & Hvis).
  destruct (finish_sleepers P D4 sec chars D' Hready H) as [Hchars Hrows].
  split; [exact Hchars|]. cbn [getCharElements]. rewrite Hchars.
  intros c Hc Hex.
  destruct (Hrows c Hc) as (Hsl & a & n & Hin & Hex4).
  rewrite Hsl, is_hidden_elem_at.
  rewrite (finish_elem P D4 sec chars D' c a n Hready Hsp H Hin (Hex4 Hex)).
  pose proof (Hvis c Hc) as Hv.
  rewrite is_hidden_elem_at, (elem_at_of_in_doc D4 c a n Hin) in Hv.
  destruct (mem c (filter (isSleeperChar D4) chars)) eqn:M.
  - apply mem_In, filter_In in M as [_ M]. rewrite M. apply has_class_add.
  - rewrite Hv. destruct (isSleeperChar D4 c) eqn:S; [|reflexivity].
    assert (mem c (filter (isSleeperChar D4) chars) = true).
    { apply mem_In, filter_In. auto. }
    congruence.
Qed.

Lemma split_pass_hides_sleepers_witness :
  getCharElements Ex2.five_split (Some 9)
  = getCharElements (removeSleepersSection Ex.five) (Some 9) /\
  forall c, In c (getCharElements Ex2.five_split (Some 9)) ->
    classList_contains Ex2.five_split c exit_class = false ->
    is_hidden Ex2.five_split c = isSleeperChar Ex2.five_split c.
Proof.
  apply (split_pass_hides_sleepers Ex.split_on Ex.five 9 Ex2.five_split).
  - apply wfb_wf. vm_compute. reflexivity.
  - unfold tidy. repeat split; vm_compute; intros; lia.
  - reflexivity.
  - vm_compute. reflexivity.
Defined.

(** X14.  After a pass that returns on a tidy page the toggle is in
    the container, unless the container has no title or no header to
    put it before; so the periodic scan, which re-runs the pass when it
    finds no toggle, comes to rest on every page that has both. *)
Theorem toggle_in_place P D sec D' :
  wf D -> tidy D sec ->
  applyFilter P D = Returned D' ->
  querySelector D' sec (cls toggle_class) <> None \/
  querySelector D' sec (cls "panelsection--title") = None \/
  querySelector D' sec (cls "pageroom--inroomheader") = None.
Proof.
  intros Hwf Ht H.
  destruct (pass_filtered P D sec D' Hwf Ht H) as (D4 & chars & Hready & Hfin).
  pose proof Hready as (Hwf4 & Hsec4 & _ & _ & _ & _ & _ & Htog & _).
  destruct (in_handles_find sec [] (doc D4) Hsec4) as [[a0 n0] H0].
  change (find (is_at sec) (walkF [] (doc D4))) with (in_doc D4 sec) in H0.
  assert (Hq : forall c, has_class c no_awake_elem = false ->
                 negb (String.eqb c hidden) = true ->
                 querySelector D' sec (cls c) = querySelector D4 sec (cls c)).
  { intros c Hc Hh. unfold querySelector.
    rewrite (finish_queries P D4 sec chars D' sec a0 n0 (cls c) Hready Hfin H0
               (or_introl eq_refl)); [reflexivity | simpl; rewrite Hh; reflexivity |].
    intros c0 h. rewrite matchesV_cls. exact Hc. }
  rewrite !Hq by reflexivity.
  destruct (querySelector D4 sec (cls toggle_class)); [left; discriminate|].
  right. apply Htog. reflexivity.
Qed.

Lemma toggle_in_place_witness :
  querySelector Ex2.five_split 9 (cls toggle_class) <> None \/
  querySelector Ex2.five_split 9 (cls "panelsection--title") = None \/
  querySelector Ex2.five_split 9 (cls "pageroom--inroomheader") = None.
Proof.
  apply (toggle_in_place Ex.split_on Ex.five 9 Ex2.five_split).
  - apply wfb_wf. vm_compute. reflexivity.
  - unfold tidy. repeat split; vm_compute; intros; lia.
  - vm_compute. reflexivity.
Defined.

(** ** The earlier variant: what counts as a character *)

Lemma prefixb_app p : forall s t, prefixb p s = true -> prefixb p (String.append s t) = true.
Proof.
  induction p as [|a p IH]; intros s t H; [reflexivity|].
  destruct s as [|b s]; [discriminate|]. cbn [String.append prefixb] in *.
  apply andb_true_iff in H as [H1 H2]. rewrite H1, (IH s t H2). reflexivity.
Qed.

Lemma includes_app_l p : forall s t,
  includes s p = true -> includes (String.append s t) p = true.
Proof.
  induction s as [|a s IH]; intros t H.
  - cbn [includes] in H. rewrite orb_false_r in H.
    destruct p; [|discriminate]. destruct t; reflexivity.
  - cbn [String.append]. cbn [includes] in H |- *.
    apply orb_true_iff in H as [H|H]; apply orb_true_iff.
    + left. exact (prefixb_app p (String a s) t H).
    + right. exact (IH t H).
Qed.

Lemma includes_app_r p t : forall s,
  includes t p = true -> includes (String.append s t) p = true.
Proof.
  induction s as [|a s IH]; intros H; [exact H|].
  cbn [String.append includes]. rewrite (IH H). apply orb_true_r.
Qed.

Lemma includes_concat sep p c : forall cs,
  In c cs -> includes c p = true -> includes (String.concat sep cs) p = true.
Proof.
  induction cs as [|x cs IH]; intros Hin Hc; [destruct Hin|].
  destruct cs as [|y cs].
  - destruct Hin as [->|[]]. exact Hc.
  - change (String.concat sep (x :: y :: cs))
      with (String.append x (String.append sep (String.concat sep (y :: cs)))).
    destruct Hin as [->|Hin].
    + apply includes_app_l. exact Hc.
    + apply includes_app_r, includes_app_r. exact (IH Hin Hc).
Qed.

(** X15.  The 1.0.0 [getCharElements] takes every element below the
    section that has a class containing [char--] for a character: with
    the markup of the host client these are the inner elements of a row
    ([pageroom-char--cont], [pageroom-char--badge],
    [pageroom-char--name]), which are returned beside the rows
    themselves. *)
Theorem v100_inner_elements_are_rows D section h :
  In h (V100.select D section
          (fun _ e => existsb (fun c => includes c "char--") (classes e))) ->
  In h (V100.getCharElements D section).
Proof.
  intros Hin. unfold V100.getCharElements.
  set (test := fun (c : ctx) (e : elem) =>
         V100.any_class_has ["pageroomchar"; "pageroom-char"; "char--"] e
         || V100.parent_class_has ["collectionlist"; "collection-list"] c).
  assert (Hc : In h (V100.select D section test)).
  { revert Hin. unfold V100.select. destruct (locate D section) as [[anc n]|];
      [|intros []].
    rewrite !in_map_iff. intros (q & Hq & Hf). exists q. split; [exact Hq|].
    apply filter_In in Hf as [Hd Hf]. apply filter_In. split; [exact Hd|].
    apply existsb_exists in Hf as (c & Hcin & Hinc).
    unfold test, V100.any_class_has. cbn [existsb].
    unfold V100.class_has at 3, className.
    rewrite (includes_concat " " "char--" c _ Hcin Hinc).
    rewrite !orb_true_r. reflexivity. }
  destruct (V100.select D section test); [destruct Hc | exact Hc].
Qed.

Lemma v100_inner_elements_are_rows_witness :
  In 17 (V100.getCharElements Ex.five 9).
Proof.
  apply (v100_inner_elements_are_rows Ex.five 9 17).
  vm_compute. left. reflexivity.
Defined.

(** ** Where the sleepers section goes *)

Lemma edit_found_forest p f ns :
  Forall (fun n => forall anc, edit_found p f anc [n]) ns ->
  forall anc, edit_found p f anc ns.
Proof.
  induction ns as [|k r IHr]; intros IH anc Hnd a m Hf; [discriminate|].
  inversion IH as [|? ? Hk Hr]; subst.
  unfold walkF in Hf |- *. cbn [map flat_map] in Hf |- *.
  rewrite find_app in Hf. rewrite find_app.
  unfold handlesF in Hnd. cbn [flat_map] in Hnd.
  pose proof (NoDup_app_l _ _ Hnd) as Hnk. pose proof (NoDup_app_r _ _ Hnd) as Hnr.
  destruct (find (is_at p) (walk anc k)) as [q|] eqn:E.
  - injection Hf as ->.
    assert (H1 : find (is_at p) (walkF anc (map (edit p f) [k]))
                 = Some (a, Node p (elem_of m) (f (kids_of m)))).
    { apply Hk.
      - unfold handlesF. cbn [flat_map]. rewrite app_nil_r. exact Hnk.
      - unfold walkF. cbn [flat_map]. rewrite app_nil_r. exact E. }
    unfold walkF in H1. cbn [map flat_map] in H1. rewrite app_nil_r in H1.
    rewrite H1. reflexivity.
  - assert (Hn : ~ In p (handles k)).
    { intros Hin. destruct (in_handles_find p anc [k]) as [q Hq].
      - unfold handlesF. cbn [flat_map]. rewrite app_nil_r. exact Hin.
      - unfold walkF in Hq. cbn [flat_map] in Hq. rewrite app_nil_r in Hq. congruence. }
    rewrite (edit_absent p f k Hn), E. exact (IHr Hr anc Hnr a m Hf).
Qed.

Lemma edit_found_node p f n : forall anc, edit_found p f anc [n].
Proof.
  induction n as [h e ks IH] using node_ind. intros anc Hnd a m Hf.
  unfold handlesF, walkF in *.
  cbn [flat_map handles walk app find map edit] in *.
  rewrite !app_nil_r in *. inversion Hnd as [|? ? Hh Hnd']; subst.
  unfold is_at in Hf |- *. cbn [handle_of snd] in Hf |- *.
  destruct (Nat.eqb h p) eqn:E.
  - inversion Hf; subst a m. cbn [kids_of elem_of]. apply Nat.eqb_eq in E. subst p.
    rewrite (editF_absent h f ks Hh). reflexivity.
  - exact (edit_found_forest p f ks IH ((h, e) :: anc) Hnd' a m Hf).
Qed.

Lemma editF_found p f anc ns : edit_found p f anc ns.
Proof.
  apply edit_found_forest. apply Forall_forall. intros n _. apply edit_found_node.
Qed.

Lemma next_after_inserted sec r s : forall ks,
  NoDup (map handle_of ks) ->
  next_after sec ks = Some r ->
  next_after sec (insert_before_in r s ks) = Some (handle_of s).
Proof.
  induction ks as [|k ks IH]; intros Hnd H; [discriminate|].
  cbn [map] in Hnd. inversion Hnd as [|? ? Hk Hnd']; subst.
  cbn [next_after] in H. cbn [insert_before_in].
  destruct (Nat.eqb (handle_of k) sec) eqn:E.
  - destruct ks as [|k2 ks]; [discriminate|]. cbn [hd_error option_map] in H.
    injection H as H.
    destruct (Nat.eqb (handle_of k) r) eqn:Er.
    + apply Nat.eqb_eq in Er. exfalso. apply Hk. left. congruence.
    + cbn [next_after insert_before_in]. rewrite E, H, Nat.eqb_refl. reflexivity.
  - destruct (Nat.eqb (handle_of k) r) eqn:Er.
    + apply Nat.eqb_eq in Er. exfalso. apply Hk. rewrite Er.
      exact (next_after_In sec ks r H).
    + cbn [next_after]. rewrite E. exact (IH Hnd' H).
Qed.

Lemma next_after_appended sec s : forall ks,
  In sec (map handle_of ks) ->
  next_after sec ks = None ->
  next_after sec (ks ++ [s]) = Some (handle_of s).
Proof.
  induction ks as [|k ks IH]; intros Hin H; [destruct Hin|].
  cbn [next_after app] in H |- *.
  destruct (Nat.eqb (handle_of k) sec) eqn:E.
  - destruct ks as [|k2 ks]; [reflexivity | discriminate].
  - destruct Hin as [Hin|Hin]; [apply Nat.eqb_neq in E; contradiction|].
    exact (IH Hin H).
Qed.

Lemma section_count_mapT g s :
  hidden_only g -> section_count (mapT g s) = section_count s.
Proof.
  intros Hg. unfold section_count.
  destruct s as [h e [|[h1 e1 ks1] [|k2 [|k3 ks]]]]; cbn [mapT kids_of map];
    try reflexivity;
    destruct ks1 as [|x [|y [|[hz ez kz] [|w ks1]]]]; cbn [mapT map elem_of];
    try reflexivity.
  all: destruct (Hg hz ez) as (_ & _ & _ & Ht & _); symmetry; exact Ht.
Qed.

Lemma section_body_mapT g s :
  section_body (mapT g s) = map (mapT g) (section_body s).
Proof.
  destruct s as [h e ks]. unfold section_body. cbn [mapT kids_of].
  destruct ks as [|k1 [|[h2 e2 ks2] [|k3 ks]]]; reflexivity.
Qed.

(** After a split pass the document has one sleepers section, a new
    element that is the next sibling of the container; it is the
    section built from the sleepers, up to the hidden markers inside
    it. *)
Lemma finish_layout P D4 sec chars D' :
  ready D4 sec chars -> splitEnabled P = true ->
  finish P D4 sec chars = Returned D' ->
  exists D6 a g,
    wf D6 /\ next D4 <= next D6 /\
    (forall c, In c chars -> locate D6 c <> None) /\
    hidden_only g /\
    doc_querySelectorAll D' sel_sleepers = [next D6] /\
    nextSibling D' sec = Some (next D6) /\
    in_doc D' (next D6)
    = Some (a, mapT g (fst (createSleepersSection P D6
                              (filter (isSleeperChar D4) chars)))) /\
    querySelectorAll D' sec (cls no_awake_class)
    = match filter (fun el => negb (isSleeperChar D4 el)) chars, chars with
      | [], _ :: _ => [next D4]
      | _, _ => []
      end.
Proof.
  intros (Hwf & Hsec & Hinroom & Hnos & Hch & Hpl & _) Hsp.
  unfold finish. rewrite Hsp. cbn [negb].
  rewrite categorize_spec.
  set (sl := filter (isSleeperChar D4) chars).
  set (aw := filter (fun el => negb (isSleeperChar D4 el)) chars).
  set (gc := fun (h : handle) (e : elem) => if mem h sl then add_class hidden e else e).
  assert (Hgc : hidden_only gc) by apply hidden_only_mem_add.
  assert (Hslch : forall s, In s sl -> In s chars).
  { intros s Hs. apply filter_In in Hs. tauto. }
  set (D5 := mapTD gc D4).
  assert (Hwf5 : wf D5) by (apply wf_mapTD; exact Hwf).
  assert (Hsec5 : In sec (handlesF (doc D5))).
  { unfold D5. rewrite doc_handles_mapTD. exact Hsec. }
  assert (Hch5 : querySelectorAll D5 sec sel_char = chars).
  { unfold D5. rewrite (querySelectorAll_mapTD gc Hgc sel_char eq_refl). exact Hch. }
  destruct (placeholder_step D5 sec chars aw Hwf5 Hsec5
              ltac:(intros c Hc; rewrite Hch5; exact Hc)) as [Hwf6 Hc6].
  cbv zeta in Hwf6, Hc6.
  set (D6 := addNoAwakePlaceholder D5 chars aw) in *.
  assert (Hpl5 : querySelectorAll D5 sec (cls no_awake_class) = []).
  { unfold D5. rewrite (querySelectorAll_mapTD gc Hgc (cls no_awake_class) eq_refl).
    exact Hpl. }
  assert (Hpl6 : querySelectorAll D6 sec (cls no_awake_class)
                 = match aw, chars with
                   | [], _ :: _ => [next D4]
                   | _, _ => []
                   end).
  { destruct aw as [|w aw]; [|rewrite Hc6; destruct chars; exact Hpl5].
    destruct chars as [|c0 chars0] eqn:Echars; [rewrite Hc6; exact Hpl5|].
    cbn [hd_error] in Hc6.
    assert (Hc0 : In c0 (querySelectorAll D5 sec sel_char)).
    { rewrite Hch5. left. reflexivity. }
    destruct (query_below D5 sec sel_char c0 Hwf5 Hsec5 Hc0) as (ac & nc & Hin & Hbel & _).
    pose proof (parentElement_in_doc D5 c0 ac nc Hin) as Hp.
    destruct ac as [|cc ac]; [destruct Hbel|]. cbn [hd_error option_map] in Hp.
    rewrite Hp in Hc6. destruct Hc6 as (a & C & _ & Hb & _ & Hspl & _).
    rewrite (spliced_query_new D5 D6 _ sec (cls no_awake_class) Hwf5 Hwf6 Hspl Hsec5 Hpl5).
    cbn [filter]. unfold below at 1. unfold v_ctx. cbn [fst map].
    rewrite (proj2 (mem_In sec (fst cc :: map fst a)) Hb).
    cbn [filter]. rewrite matchesV_cls. reflexivity. }
  assert (H6 : D6 = D5 \/
   exists cont a C,
     spliced D5 D6 [((cont, elem_of C) :: a, next D5, no_awake_elem)]).
  { destruct aw; [|left; exact Hc6].
    destruct (hd_error chars); [|left; exact Hc6].
    destruct (parentElement D5 h); [|left; exact Hc6].
    destruct Hc6 as (a & C & _ & _ & _ & H3 & _).
    right. exists h0, a, C. exact H3. }
  assert (Hsec6 : In sec (handlesF (doc D6))).
  { destruct H6 as [->|(cont & a & C & Hsp6)]; [exact Hsec5|].
    apply (spliced_handles _ _ _ _ Hsp6 Hsec5). }
  assert (Hn46 : next D4 <= next D6).
  { destruct H6 as [->|(cont & a0 & C & Hsp6)]; [simpl; lia|].
    assert (Hin : In (next D5) (handlesF (doc D6))).
    { rewrite <- dviews_handles. destruct Hsp6 as (v1 & v2 & _ & ->).
      rewrite !map_app. apply in_or_app. right. left. reflexivity. }
    pose proof (doc_lt D6 _ Hwf6 Hin) as Hlt. change (next D5) with (next D4) in Hlt. lia. }
  assert (Hdq6 : forall sel, avoids_hidden sel = true ->
             (forall c h, matchesV sel (c, h, no_awake_elem) = false) ->
             doc_querySelectorAll D6 sel = doc_querySelectorAll D4 sel).
  { intros sel Hav Hno. destruct H6 as [->|(cont & a & C & Hsp6)].
    - apply (doc_querySelectorAll_mapTD gc Hgc sel Hav).
    - rewrite (spliced_doc_query D5 D6 _ sel Hsp6 (pl_view_doc sel _ _ (Hno _ _))).
      apply (doc_querySelectorAll_mapTD gc Hgc sel Hav). }
  assert (Hinroom6 : doc_querySelector D6 sel_inroom = Some sec).
  { unfold doc_querySelector.
    rewrite (Hdq6 sel_inroom eq_refl); [exact Hinroom | reflexivity]. }
  assert (Hnos6 : doc_querySelectorAll D6 sel_sleepers = []).
  { rewrite (Hdq6 sel_sleepers eq_refl); [exact Hnos | reflexivity]. }
  assert (Hch6 : querySelectorAll D6 sec sel_char = chars).
  { destruct H6 as [->|(cont & a & C & Hsp6)]; [exact Hch5|].
    rewrite (spliced_query D5 D6 _ sec sel_char Hwf5 Hwf6 Hsp6 Hsec5
               (pl_view_other "pageroom-char" sec _ _ eq_refl)).
    exact Hch5. }
  pose proof (createSleepersSection_numbers P D6 sl) as Hnum. cbv zeta in Hnum.
  pose proof (fun c => section_queries P D6 sec sl c Hwf6 Hsec6 Hnos6
               ltac:(intros s Hs; rewrite Hch6; apply Hslch, Hs)) as HSq.
  cbv zeta in HSq.
  destruct (createSleepersSection P D6 sl) as [s nx] eqn:Hcs. simpl in Hnum, HSq.
  destruct Hnum as [Hnum1 Hnum2].
  destruct (insertSleepersSection (with_next D6 nx) sec s) as [D7|] eqn:H7;
    [|discriminate].
  intros [= <-].
  destruct (insert_step D6 nx sec s D7 Hwf6 Hsec6 Hnum1 Hnum2 H7)
    as (Hwf7 & Hn7 & par & a & Pn & f & Hpar & HPn & Hsp7 & Hdoc7 & Hf).
  assert (Hs7 : simL nx (doc D7) (doc (filterExitChars P D7 sl))).
  { rewrite (filterExitChars_doc P D7 sl Hwf7). apply simL_exitN. }
  assert (Hle7 : next D7 <= nx) by lia.
  assert (Hsh : handle_of s = next D6).
  { apply (handle_of_seq s _ _ Hnum1). lia. }
  assert (Hsec7 : In sec (handlesF (doc D7))) by apply (spliced_handles _ _ _ _ Hsp7 Hsec6).
  (* the parent of the container, before and after the insertion *)
  destruct (in_handles_find sec [] (doc D6) Hsec6) as [[a0 n0] H0].
  change (find (is_at sec) (walkF [] (doc D6))) with (in_doc D6 sec) in H0.
  pose proof (parentElement_in_doc _ _ _ _ H0) as Hp0. rewrite Hpar in Hp0.
  destruct a0 as [|c0 a0]; simpl in Hp0; [discriminate|]. injection Hp0 as Hp0.
  destruct (in_doc_parent D6 sec c0 a0 n0 Hwf6 H0) as (P0 & HP0 & -> & Hkid).
  simpl in Hp0, HP0. rewrite <- Hp0, HPn in HP0. injection HP0 as <- <-.
  assert (Hkids : In sec (map handle_of (kids_of Pn))).
  { apply in_map_iff. exists n0. split; [exact (in_doc_handle_of D6 sec _ n0 H0) | exact Hkid]. }
  assert (Hndk : NoDup (map handle_of (kids_of Pn))).
  { apply kids_nodup.
    destruct (walkF_ctx_nodup (doc D6) a Pn (wf_doc_NoDup D6 Hwf6) (in_doc_In D6 par _ HPn))
      as [Hnd _].
    apply NoDup_app_r in Hnd. destruct Pn as [hp ep kp]. cbn [handles kids_of] in *.
    inversion Hnd. assumption. }
  assert (Hnext6 : nextSibling D6 sec = next_after sec (kids_of Pn)).
  { unfold nextSibling. rewrite Hpar, (in_doc_locate D6 par _ HPn). reflexivity. }
  assert (HP7 : in_doc D7 par = Some (a, Node par (elem_of Pn) (f (kids_of Pn)))).
  { unfold in_doc. rewrite Hdoc7.
    exact (editF_found par f [] (doc D6) (wf_doc_NoDup D6 Hwf6) a Pn HPn). }
  assert (Hnew : In s (f (kids_of Pn)) /\
                 next_after sec (f (kids_of Pn)) = Some (handle_of s)).
  { destruct Hf as [(r & Hr & ->)|[Hr ->]].
    - rewrite Hnext6 in Hr. split.
      + destruct (insert_before_in_split r s (kids_of Pn) (next_after_In _ _ _ Hr))
          as (k1 & k2 & _ & -> & _).
        apply in_or_app. right. left. reflexivity.
      + apply next_after_inserted; assumption.
    - rewrite Hnext6 in Hr. split.
      + apply in_or_app. right. left. reflexivity.
      + apply next_after_appended; assumption. }
  destruct Hnew as [Hnew Hnext7].
  assert (HS7 : in_doc D7 (next D6) = Some ((par, elem_of Pn) :: a, s)).
  { pose proof (walkF_kid (doc D7) a _ s (in_doc_In D7 par _ HP7) Hnew) as Hw.
    cbn [handle_of elem_of] in Hw.
    pose proof (find_unique_forest (doc D7) _ (wf_doc_NoDup D7 Hwf7) Hw) as Hu.
    cbn [snd] in Hu. rewrite Hsh in Hu. exact Hu. }
  destruct (filterExitChars_mapTD P D7 sl) as (g & Hg & Hm).
  exists D6, (mapC g ((par, elem_of Pn) :: a)), g.
  split; [exact Hwf6|]. split; [exact Hn46|]. split.
  { intros c Hc. rewrite <- Hch6 in Hc.
    destruct (query_below D6 sec sel_char c Hwf6 Hsec6 Hc) as (ac & nc & Hin & _).
    rewrite (in_doc_locate D6 c _ Hin). discriminate. }
  split; [exact Hg|]. split; [|split; [|split]].
  - rewrite <- (doc_query_sim nx D7 _ sel_sleepers eq_refl Hwf7 Hle7 Hs7).
    rewrite (spliced_doc_query_new D6 D7 _ sel_sleepers Hsp7 Hnos6).
    exact (HSq _).
  - rewrite <- (nextSibling_sim nx D7 _ sec Hwf7 Hle7 Hs7 Hsec7).
    unfold nextSibling.
    rewrite (spliced_parent D6 D7 _ sec Hwf7 Hsp7 Hsec6), Hpar.
    rewrite (in_doc_locate D7 par _ HP7). cbn [kids_of].
    rewrite Hnext7, Hsh. reflexivity.
  - rewrite Hm, in_doc_mapTD, HS7, Hcs. reflexivity.
  - rewrite <- Hpl6.
    rewrite <- (query_sim nx D7 _ sec (cls no_awake_class) eq_refl Hwf7 Hle7 Hs7 Hsec7).
    apply (spliced_query D6 D7 _ sec (cls no_awake_class) Hwf6 Hwf7 Hsp7 Hsec6).
    rewrite below_outside; [reflexivity| |].
    + rewrite Hp0. exact (proj1 (in_doc_acyclic D6 sec _ n0 Hwf6 H0)).
    + rewrite Hnum1. intros Hc. apply in_seq in Hc.
      pose proof (doc_lt D6 sec Hwf6 Hsec6). lia.
Qed.

(** X16.  After a split pass that returns on a tidy page the document
    has exactly one sleepers section, a new element, and it comes right
    after the "In room" section: it is the next sibling of the
    container. *)
Theorem sleepers_section_follows P D sec D' :
  wf D -> tidy D sec -> splitEnabled P = true ->
  applyFilter P D = Returned D' ->
  exists s, doc_querySelectorAll D' sel_sleepers = [s] /\
            getElementById D' sleepers_id = Some s /\
            nextSibling D' sec = Some s /\ next D <= s.
Proof.
  intros Hwf Ht Hsp H.
  rewrite (applyFilter_finish P D _ sec (tidy_found D sec Ht)) in H.
  cbv zeta in H. destruct (prepared P D sec) as [D4|] eqn:Hprep; [|discriminate].
  pose proof (prepared_ready P D sec D4 Hwf Ht Hprep) as Hready.
  destruct (finish_layout P D4 sec _ D' Hready Hsp H)
    as (D6 & a & g & _ & Hn & _ & _ & H1 & H2 & _ & _).
  exists (next D6). split; [exact H1|]. split.
  { unfold getElementById, doc_querySelector.
    change [[[SId sleepers_id]]] with sel_sleepers. rewrite H1. reflexivity. }
  split; [exact H2|].
  unfold prepared in Hprep.
  pose proof (keeps_head D (getCharElements (removeSleepersSection D) (Some sec)) sec Hwf)
    as (Hwf3 & Hn3 & _).
  destruct (wf_ensureToggle P _ sec _ D4 Hwf3 Hprep) as [_ Hn4]. lia.
Qed.

Lemma sleepers_section_follows_witness :
  exists s, doc_querySelectorAll Ex2.five_split sel_sleepers = [s] /\
            getElementById Ex2.five_split sleepers_id = Some s /\
            nextSibling Ex2.five_split 9 = Some s /\ next Ex.five <= s.
Proof.
  apply (sleepers_section_follows Ex.split_on Ex.five 9 Ex2.five_split).
  - apply wfb_wf. vm_compute. reflexivity.
  - unfold tidy. repeat split; vm_compute; intros; lia.
  - reflexivity.
  - vm_compute. reflexivity.
Defined.

(** X17.  After a split pass that returns on a tidy page the sleepers
    section shows the sleepers of the main list: its count label reads
    "(n)" for the [n] rows of the container that are sleepers, and its
    list holds [n] entries, or the line "No sleepers in room." when
    there is none. *)
Theorem sleepers_section_counts P D sec D' :
  wf D -> tidy D sec -> splitEnabled P = true ->
  applyFilter P D = Returned D' ->
  exists s a S,
    getElementById D' sleepers_id = Some s /\ in_doc D' s = Some (a, S) /\
    let n := List.length (filter (isSleeperChar D') (getCharElements D' (Some sec))) in
    section_count S = String.append "(" (String.append (show_nat n) ")") /\
    (0 < n -> List.length (section_body S) = n) /\
    (n = 0 ->
     map (fun p => text (elem_of p)) (section_body S) = ["No sleepers in room."]).
Proof.
  intros Hwf Ht Hsp H.
  rewrite (applyFilter_finish P D _ sec (tidy_found D sec Ht)) in H.
  cbv zeta in H. destruct (prepared P D sec) as [D4|] eqn:Hprep; [|discriminate].
  pose proof (prepared_ready P D sec D4 Hwf Ht Hprep) as Hready.
  set (chars := getCharElements (removeSleepersSection D) (Some sec)) in *.
  destruct (finish_layout P D4 sec chars D' Hready Hsp H)
    as (D6 & a & g & Hwf6 & _ & Hloc & Hg & H1 & _ & HS & _).
  destruct (finish_sleepers P D4 sec chars D' Hready H) as [Hchars Hrows].
  set (sl := filter (isSleeperChar D4) chars) in *.
  assert (Hsl : filter (isSleeperChar D') (getCharElements D' (Some sec)) = sl).
  { cbn [getCharElements]. rewrite Hchars. apply filter_ext_in.
    intros c Hc. exact (proj1 (Hrows c Hc)). }
  exists (next D6), a, (mapT g (fst (createSleepersSection P D6 sl))).
  split.
  { unfold getElementById, doc_querySelector.
    change [[[SId sleepers_id]]] with sel_sleepers. rewrite H1. reflexivity. }
  split; [exact HS|]. cbv zeta. rewrite Hsl.
  rewrite (section_count_mapT g _ Hg), section_count_eq.
  split; [reflexivity|].
  rewrite section_body_mapT, section_body_eq. split.
  - intros Hn. destruct (Nat.eqb (List.length sl) 0) eqn:E;
      [apply Nat.eqb_eq in E; lia|].
    rewrite length_map.
    destruct (clone_loop_each D6 sl ([], next D6 + 6)) as (cs & Hcs & Hall).
    { apply Forall_forall. intros c Hc. apply Hloc. unfold sl in Hc.
      apply filter_In in Hc. tauto. }
    rewrite Hcs. cbn [fst app]. symmetry. exact (Forall2_length Hall).
  - intros Hn. rewrite Hn. cbn [Nat.eqb map mapT elem_of].
    destruct (Hg (next D6 + 6)
                (new_elem "div" "" [no_sleepers_class] "No sleepers in room."))
      as (_ & _ & _ & Htx & _).
    rewrite <- Htx. reflexivity.
Qed.

Lemma sleepers_section_counts_witness :
  exists s a S,
    getElementById Ex2.five_split sleepers_id = Some s /\
    in_doc Ex2.five_split s = Some (a, S) /\
    let n := List.length (filter (isSleeperChar Ex2.five_split)
                            (getCharElements Ex2.five_split (Some 9))) in
    section_count S = String.append "(" (String.append (show_nat n) ")") /\
    (0 < n -> List.length (section_body S) = n) /\
    (n = 0 ->
     map (fun p => text (elem_of p)) (section_body S) = ["No sleepers in room."]).
Proof.
  apply (sleepers_section_counts Ex.split_on Ex.five 9 Ex2.five_split).
  - apply wfb_wf. vm_compute. reflexivity.
  - unfold tidy. repeat split; vm_compute; intros; lia.
  - reflexivity.
  - vm_compute. reflexivity.
Defined.

Lemma filter_negb_nil {A} (f : A -> bool) l :
  filter (fun x => negb (f x)) l = [] <-> forallb f l = true.
Proof.
  induction l as [|x l IH]; [split; reflexivity|].
  cbn [filter forallb]. destruct (f x); cbn [negb andb].
  - exact IH.
  - split; discriminate.
Qed.

Lemma forallb_ext_in {A} (f g : A -> bool) l :
  (forall x, In x l -> f x = g x) -> forallb f l = forallb g l.
Proof.
  induction l as [|x l IH]; intros H; [reflexivity|]. cbn [forallb].
  rewrite (H x (or_introl eq_refl)). f_equal. apply IH.
  intros y Hy. apply H. right. exact Hy.
Qed.

(** X18.  On a tidy page a split pass that returns leaves the line
    "No one awake in room." in the container exactly when the
    container has rows and all of them are sleepers: then there is one
    placeholder, a new element; with an awake row, or with no row at
    all, there is none. *)
Theorem placeholder_when_nobody_awake P D sec D' :
  wf D -> tidy D sec -> splitEnabled P = true ->
  applyFilter P D = Returned D' ->
  let rows := getCharElements D' (Some sec) in
  (rows <> [] -> forallb (isSleeperChar D') rows = true ->
   exists p, querySelectorAll D' sec (cls no_awake_class) = [p] /\ next D <= p) /\
  (rows = [] \/ forallb (isSleeperChar D') rows = false ->
   querySelectorAll D' sec (cls no_awake_class) = []).
Proof.
  intros Hwf Ht Hsp H.
  rewrite (applyFilter_finish P D _ sec (tidy_found D sec Ht)) in H.
  cbv zeta in H. destruct (prepared P D sec) as [D4|] eqn:Hprep; [|discriminate].
  pose proof (prepared_ready P D sec D4 Hwf Ht Hprep) as Hready.
  set (chars := getCharElements (removeSleepersSection D) (Some sec)) in *.
  destruct (finish_layout P D4 sec chars D' Hready Hsp H)
    as (D6 & a & g & _ & _ & _ & _ & _ & _ & _ & Hpl).
  destruct (finish_sleepers P D4 sec chars D' Hready H) as [Hchars Hrows].
  assert (Hn4 : next D <= next D4).
  { unfold prepared in Hprep.
    pose proof (keeps_head D chars sec Hwf) as (Hwf3 & Hn3 & _).
    destruct (wf_ensureToggle P _ sec _ D4 Hwf3 Hprep) as [_ Hn4]. lia. }
  assert (Hall : forallb (isSleeperChar D') chars = forallb (isSleeperChar D4) chars).
  { apply forallb_ext_in. intros c Hc. exact (proj1 (Hrows c Hc)). }
  cbv zeta. cbn [getCharElements]. rewrite Hchars, Hall, Hpl. split.
  - intros Hne Hf. apply filter_negb_nil in Hf. rewrite Hf.
    destruct chars; [congruence|]. exists (next D4). split; [reflexivity | exact Hn4].
  - intros [->|Hf]; [destruct (filter _ []); reflexivity|].
    destruct (filter (fun el => negb (isSleeperChar D4 el)) chars) eqn:E; [|reflexivity].
    apply filter_negb_nil in E. congruence.
Qed.

Lemma placeholder_when_nobody_awake_witness :
  let rows := getCharElements Ex7.once (Some 3) in
  (rows <> [] -> forallb (isSleeperChar Ex7.once) rows = true ->
   exists p, querySelectorAll Ex7.once 3 (cls no_awake_class) = [p] /\
             next Ex7.all_asleep <= p) /\
  (rows = [] \/ forallb (isSleeperChar Ex7.once) rows = false ->
   querySelectorAll Ex7.once 3 (cls no_awake_class) = []).
Proof.
  apply (placeholder_when_nobody_awake Ex.split_on Ex7.all_asleep 3 Ex7.once).
  - apply wfb_wf. vm_compute. reflexivity.
  - unfold tidy. repeat split; vm_compute; intros; lia.
  - reflexivity.
  - vm_compute. reflexivity.
Defined.

(** ** The earlier variant: exit thumbnails, clones and the observer *)

Lemma v100_exit_loop D L : forall sl,
  fold_left (fun D el => if isSleeperChar D el
                         then classList_add D el hidden else D) L
    (mapTD (fun h e => if mem h sl then add_class hidden e else e) D)
  = mapTD (fun h e => if mem h (sl ++ filter (isSleeperChar D) L)
                      then add_class hidden e else e) D.
Proof.
  induction L as [|c L IH]; intros sl; cbn [fold_left filter].
  - rewrite app_nil_r. reflexivity.
  - rewrite (isSleeperChar_mapTD _ D c (hidden_only_mem_add sl)).
    destruct (isSleeperChar D c).
    + unfold classList_add. rewrite updD_mapTD, mapTD_mapTD.
      rewrite (mapTD_ext _ (fun h e => if mem h (sl ++ [c])
                                       then add_class hidden e else e)).
      * rewrite IH, <- !app_assoc. reflexivity.
      * intros h e. rewrite mem_app. unfold mem at 3. simpl.
        rewrite orb_false_r. fold (mem h sl).
        destruct (mem h sl), (Nat.eqb h c); simpl; auto using add_class_idem.
    + exact (IH sl).
Qed.

(** X19.  In split mode the 1.0.0 [filterExitChars] never resets
    anything and looks at the markers of the exit elements themselves:
    afterwards an element is hidden exactly when it was hidden before,
    or is one of the exit elements and [isSleeperChar] accepts it.  An
    exit thumbnail hidden once stays hidden, and the avatar is not
    consulted. *)
Theorem v100_exit_entries_by_marker P D x :
  splitEnabled P = true -> elem_at D x <> None ->
  is_hidden (V100.filterExitChars P D) x
  = is_hidden D x || (mem x (V100.getExitCharElements D) && isSleeperChar D x).
Proof.
  intros Hsp Hx. unfold V100.filterExitChars. rewrite Hsp. cbn [negb].
  set (L := V100.getExitCharElements D).
  pose proof (v100_exit_loop D L []) as Hloop.
  rewrite (mapTD_ext (fun h e => if mem h [] then add_class hidden e else e)
             (fun _ e => e)) in Hloop by reflexivity.
  rewrite mapTD_id in Hloop. cbn [app] in Hloop. rewrite Hloop.
  rewrite !is_hidden_elem_at, elem_at_mapTD.
  destruct (elem_at D x) as [e|]; [|congruence]. cbn [option_map].
  destruct (mem x (filter (isSleeperChar D) L)) eqn:M.
  - apply mem_In, filter_In in M as [M1 M2].
    rewrite (proj2 (mem_In x L) M1), M2, has_class_add.
    destruct (has_class hidden e); reflexivity.
  - destruct (mem x L) eqn:ML; [|rewrite orb_false_r; reflexivity].
    destruct (isSleeperChar D x) eqn:S; [|rewrite orb_false_r; reflexivity].
    apply mem_In in ML.
    assert (mem x (filter (isSleeperChar D) L) = true).
    { apply mem_In, filter_In. auto. }
    congruence.
Qed.

Lemma v100_exit_entries_by_marker_witness :
  is_hidden (V100.filterExitChars Ex.split_on Ex5.marked_exit) 5
  = is_hidden Ex5.marked_exit 5
    || (mem 5 (V100.getExitCharElements Ex5.marked_exit)
        && isSleeperChar Ex5.marked_exit 5).
Proof.
  apply (v100_exit_entries_by_marker Ex.split_on Ex5.marked_exit 5).
  - reflexivity.
  - vm_compute. discriminate.
Defined.

Lemma v100_strip_root_erase nx h e ks :
  erase (V100.strip_root (fst (clone nx (Node h e ks))))
  = Shape (remove_class hidden e) (map erase ks).
Proof.
  pose proof (clone_erase (Node h e ks) nx) as He.
  pose proof (proj1 (clone_numbers (Node h e ks) nx)) as Hn.
  assert (Hnd : NoDup (handles (fst (clone nx (Node h e ks))))).
  { rewrite Hn. apply seq_NoDup. }
  rewrite clone_eq in He, Hnd |- *.
  destruct (cloneF (S nx) ks) as [ks' nx']. cbn [fst] in *.
  cbn [erase] in He. injection He as He.
  unfold V100.strip_root. cbn [handle_of]. rewrite upd_mapT. cbn [mapT erase].
  rewrite Nat.eqb_refl. f_equal. rewrite map_mapT_fix; [exact He|].
  intros h' Hh' e'. cbn [handles] in Hnd. apply NoDup_cons_iff in Hnd as [Hnd _].
  destruct (Nat.eqb h' nx) eqn:E; [|reflexivity].
  apply Nat.eqb_eq in E. subst h'. contradiction.
Qed.

Lemma v100_clone_loop D sl : forall acc,
  Forall (fun el => locate D el <> None) sl ->
  exists cs,
    fst (fold_left (V100.clone_sleeper D) sl acc) = fst acc ++ cs /\
    Forall2 (fun el c => exists a h e ks,
               locate D el = Some (a, Node h e ks) /\
               erase c = Shape (remove_class hidden e) (map erase ks)) sl cs.
Proof.
  induction sl as [|el sl IH]; intros acc Hall.
  - exists []. rewrite app_nil_r. split; [reflexivity | constructor].
  - inversion Hall as [|? ? Hel Hall']; subst. cbn [fold_left].
    unfold V100.clone_sleeper at 2.
    destruct (locate D el) as [[a [h e ks]]|] eqn:L; [|congruence].
    pose proof (v100_strip_root_erase (snd acc) h e ks) as Hs.
    destruct (clone (snd acc) (Node h e ks)) as [c nx]. cbn [fst] in Hs.
    destruct (IH (fst acc ++ [V100.strip_root c], nx) Hall') as (cs & Hcs & HF).
    exists (V100.strip_root c :: cs). split.
    + rewrite Hcs. cbn [fst]. rewrite <- app_assoc. reflexivity.
    + constructor; [|exact HF]. exists a, h, e, ks. rewrite L. auto.
Qed.

(** X20.  The 1.0.0 [createSleepersSection] takes the hidden marker
    off the root of a clone only: each entry of the list is the sleeper
    it was cloned from with the marker removed from its own class list
    and every descendant as it is, hidden ones included. *)
Theorem v100_clones_keep_inner_markers P D sleepers :
  0 < List.length sleepers ->
  Forall (fun el => locate D el <> None) sleepers ->
  Forall2 (fun el c => exists a h e ks,
             locate D el = Some (a, Node h e ks) /\
             erase c = Shape (remove_class hidden e) (map erase ks))
          sleepers
          (section_body (fst (V100.createSleepersSection P D sleepers))).
Proof.
  intros Hn Hall. unfold V100.createSleepersSection.
  destruct (Nat.eqb (List.length sleepers) 0) eqn:E;
    [apply Nat.eqb_eq in E; lia|].
  destruct (v100_clone_loop D sleepers ([], next D + 6) Hall) as (cs & Hcs & HF).
  destruct (fold_left (V100.clone_sleeper D) sleepers ([], next D + 6)) as [body nx].
  cbn [fst app] in Hcs. subst body. exact HF.
Qed.

Lemma v100_clones_keep_inner_markers_witness :
  Forall2 (fun el c => exists a h e ks,
             locate Ex5.after_split_v100 el = Some (a, Node h e ks) /\
             erase c = Shape (remove_class hidden e) (map erase ks))
          Ex6.v100_sleepers
          (section_body (fst (V100.createSleepersSection Ex.split_on
                                Ex5.after_split_v100 Ex6.v100_sleepers))).
Proof.
  apply (v100_clones_keep_inner_markers Ex.split_on Ex5.after_split_v100
           Ex6.v100_sleepers).
  - vm_compute. lia.
  - vm_compute. repeat constructor; discriminate.
Defined.

(** X21.  The 1.0.0 observer is set off by the script's own hiding:
    the marker [msf-hidden-char] contains "char", one of the words the
    callback looks for in the class attribute, so a batch with a record
    whose target is an HTML element that carries the marker always sets
    the debounce timer.  (Of an SVG element the callback sees no class:
    its [className] prints as "[object SVGAnimatedString]".) *)
Theorem v100_hidden_target_schedules D now t pre m post h e :
  m_target m = TElem h ->
  elem_at D h = Some e -> svg e = false ->
  has_class hidden e = true ->
  V100.observerCallback D now (pre ++ m :: post) t = Some (now + 200).
Proof.
  intros Ht He Hsvg Hh.
  assert (Hrel : V100.relevant D m = true).
  { unfold V100.relevant, target_className. rewrite Ht.
    unfold elem_at in He.
    destruct (locate D h) as [[a n]|]; [|discriminate].
    cbn [option_map snd] in He. injection He as <-.
    unfold className_toString. rewrite Hsvg.
    unfold has_class in Hh. apply existsb_exists in Hh as (c & Hc & E).
    apply String.eqb_eq in E. subst c.
    unfold className.
    rewrite (includes_concat " " "char" hidden (classes (elem_of n)) Hc eq_refl).
    rewrite !orb_true_r. reflexivity. }
  unfold V100.observerCallback.
  assert (Hs : V100.shouldReapply D (pre ++ m :: post) = true).
  { induction pre as [|m0 pre IH]; cbn [app V100.shouldReapply].
    - rewrite Ht, Hrel. reflexivity.
    - destruct (m_target m0); [exact IH| |];
        (destruct (V100.relevant D m0); [reflexivity | exact IH]). }
  rewrite Hs. reflexivity.
Qed.

Lemma v100_hidden_target_schedules_witness :
  V100.observerCallback Ex2.five_split 1000 ([] ++ mkMutation (TElem 16) 0 0 :: []) None
  = Some (1000 + 200).
Proof.
  apply (v100_hidden_target_schedules Ex2.five_split 1000 None []
           (mkMutation (TElem 16) 0 0) [] 16
           (mkElem "div" "" ["pageroom-char"; hidden] "" "" false)).
  - reflexivity.
  - vm_compute. reflexivity.
  - reflexivity.
  - vm_compute. reflexivity.
Defined.

(** ** The current variant: a unified pass *)

Lemma unified_pass_shows_everything_witness :
  (forall x, getElementById Ex2.five_split sleepers_id = Some x ->
             in_doc Ex10.five_unsplit x = None) /\
  (List.length (doc_querySelectorAll Ex2.five_split sel_sleepers) <= 1 ->
   doc_querySelectorAll Ex10.five_unsplit sel_sleepers = []) /\
  (forall el, In el (getCharElements (removeSleepersSection Ex2.five_split) (Some 9)) ->
              is_hidden Ex10.five_unsplit el = false) /\
  (forall x, In x (getExitCharElements Ex10.five_unsplit) ->
             is_hidden Ex10.five_unsplit x = false).
Proof.
  apply (unified_pass_shows_everything Ex.split_off Ex2.five_split (Some 13) 9
           Ex10.five_unsplit).
  - apply wfb_wf. vm_compute. reflexivity.
  - reflexivity.
  - vm_compute. reflexivity.
  - vm_compute. reflexivity.
Defined.
